(** * uidgid: a shallow embedding of the uid/gid allocation service

    The development follows the Python package [uidgid]
    (custom-images/uidgid/uidgid): [types.py], [username.py], [tableio.py],
    [users.py], [groups.py], [main.py] and [backup.py].

    Conventions of the embedding.
    - A Python [str] is a Rocq [string]; characters are 8-bit code points.
    - A Python [int] is a [Z].
    - A Python [dict] with string keys is a [gmap string _]; a table entry
      read from the YAML store is a [gmap string yval].
    - An exception is a value [Raise cls msg]: [cls] is the Python exception
      class, [msg] records the message template of the raise site together
      with the values interpolated into it.
    - Code that reads and writes the YAML store is a state transformer that
      also returns either an exception or a value; what was written before an
      exception stays written.
    - In [backup.py] a Python [bytes] is a list of [Byte.byte] and a [str]
      the list of its code points. *)

From Stdlib Require Import ZArith NArith Ascii String List Lia Bool.
From Stdlib Require Strings.Byte.
From stdpp Require Import base tactics option list gmap strings pretty sorting.

Local Open Scope string_scope.
Local Open Scope list_scope.

(* ===================================================================== *)
(** ** Python values, exceptions and the two monads                       *)
(* ===================================================================== *)

Module Py.

(** The dynamically typed values that reach the validating constructors. *)
Inductive pyval :=
| PyNone
| PyBool (b : bool)
| PyInt (z : Z)
| PyFloat (bits : Z)
| PyStr (s : string)
| PyList (l : list string).

(** Values stored in a YAML table entry: a string, or a list of strings
    (the [grouplist] of a group created by the service). *)
Inductive yval :=
| YStr (s : string)
| YList (l : list string).

#[global] Instance yval_eq_dec : EqDecision yval.
Proof. solve_decision. Defined.

(** An entry of [file_dict["entries"]], and the list of entries. *)
Abbreviation entry := (gmap string yval).
Abbreviation table := (list (gmap string yval)).

(** Exception classes raised by the package (or by the interpreter on its
    behalf).  [NonTermination] is not a Python exception: it is the outcome
    the embedding reports for a [while] loop that never exits. *)
Inductive exn_class :=
| TypeError
| ValueError
| RuntimeError
| AssertionError
| KeyError
| AttributeError
| IndexError
| UnboundLocalError
| RecursionError
| PlainException
| BinasciiError
| UnicodeDecodeError
| UnicodeEncodeError
| NonTermination.

Definition class_name (c : exn_class) : string :=
  match c with
  | TypeError => "TypeError"
  | ValueError => "ValueError"
  | RuntimeError => "RuntimeError"
  | AssertionError => "AssertionError"
  | KeyError => "KeyError"
  | AttributeError => "AttributeError"
  | IndexError => "IndexError"
  | UnboundLocalError => "UnboundLocalError"
  | RecursionError => "RecursionError"
  | PlainException => "Exception"
  | BinasciiError => "binascii.Error"
  | UnicodeDecodeError => "UnicodeDecodeError"
  | UnicodeEncodeError => "UnicodeEncodeError"
  | NonTermination => "<does not return>"
  end.

(** One constructor per message template of the sources; the arguments are
    the interpolated values. *)
Inductive message :=
| MsgUuidNotString                (* "Uuid is not a string." *)
| MsgInvalidUuidFormat            (* "Invalid UUID format." *)
| MsgNameNotString                (* "Name is not a string" *)
| MsgNameTooLong                  (* "Name is too long" *)
| MsgNotInteger                   (* "Value is not an integer" *)
| MsgNotInRange (lo hi : Z)       (* "Value is not in the valid range {lo} to {hi}" *)
| MsgStatusNotString              (* "Status is not a string." *)
| MsgInvalidStatus                (* "Invalid status, must be 'active' or 'deactivated'" *)
| MsgUserTypeNotString            (* "User type is not a string." *)
| MsgInvalidUserType              (* "Invalid user type, must be 'individual' or 'group'" *)
| MsgInvalidUbuntuName (v : pyval)
                                  (* "Value is not a valid Ubuntu user or group name: {value}" *)
| MsgGeneratedNameInvalid (name username : string)
                                  (* "Generated name '{name}' from '{username}' is not valid for Ubuntu." *)
| MsgGeneratedNameDegenerate (name username : string)
                                  (* "Generated name '{name}' from '{username}' is a degenerate form ..." *)
| MsgInvalidIdType (id_type : string)
                                  (* "Invalid ID type {id_type}, must be uuid, ezid, or username" *)
| MsgUserExists (uuid : string)   (* "User with UUID {uuid} already exists" *)
| MsgProvideEzidOrUsername        (* "Please provide an ezid or username" *)
| MsgUserNotFound (id_type id : string)
                                  (* "User with {id_type} {id} not found" *)
| MsgTeamExists (teamname : string)
                                  (* "Team {teamname} already exists." *)
| MsgGidExists (gid : Z)          (* "GID {gid} already exist." *)
| MsgGroupNotExist (groupname : string)
                                  (* "Group {groupname} does not exist" *)
| MsgTooManyUsers (groupname : string)
                                  (* "Too many users in group {groupname}." *)
| MsgGroupInfoNotExist (id : string)
                                  (* "Group {id} does not exist." *)
| MsgActiveTeamNotInTeams (active_team : string) (teams : list string)
                                  (* "Active team {active_team} not in user's teams {teams}" *)
| MsgIncorrectPadding             (* binascii: "Incorrect padding" *)
| MsgBase64DataCharacters         (* binascii: number of data characters 1 more than a multiple of 4 *)
| MsgCodec                        (* the utf-8 codec cannot decode or encode *)
| MsgKey (key : string)           (* KeyError: the missing key *)
| MsgInterp (what : string).      (* raised by the interpreter, not by a raise statement *)

Inductive exn := Raise (cls : exn_class) (msg : message).

(** What the code finds around it: the transliteration library, the process
    environment and the random uuid generator ([uuid4 n] is the value of the
    [n]-th call of [uuid.uuid4()]). *)
Record world := World {
  unidecode : string → string;
  DEPLOYMENT_NAME : option string;
  uuid4 : nat → string;
}.

Definition exn_cls (e : exn) : exn_class := let 'Raise c _ := e in c.
Definition exn_msg (e : exn) : message := let 'Raise _ m := e in m.

(** Pure code that may raise. *)
Definition result (A : Type) : Type := exn + A.

Abbreviation ok := (@inr exn _).
Abbreviation raise c m := (@inl exn _ (Raise c m)).

Definition rbind {A B} (r : result A) (k : A → result B) : result B :=
  match r with
  | inl e => inl e
  | inr a => k a
  end.

Definition rmap {A B} (f : A → B) (r : result A) : result B :=
  rbind r (λ a, ok (f a)).

(** A list comprehension whose element expression may raise. *)
Fixpoint mapM {A B} (f : A → result B) (xs : list A) : result (list B) :=
  match xs with
  | [] => ok []
  | x :: xs' =>
      rbind (f x) (λ y, rbind (mapM f xs') (λ ys, ok (y :: ys)))
  end.

(** Code that reads and writes a store [S] and may raise; the store as the
    exception leaves it is part of the outcome. *)
Definition St (S A : Type) : Type := S → result A * S.

Definition ret {S A} (a : A) : St S A := λ s, (ok a, s).
Definition throw {S A} (c : exn_class) (m : message) : St S A :=
  λ s, (raise c m, s).
Definition lift {S A} (r : result A) : St S A := λ s, (r, s).
Definition bind {S A B} (m : St S A) (k : A → St S B) : St S B :=
  λ s, match m s with
       | (inl e, s') => (inl e, s')
       | (inr a, s') => k a s'
       end.

(** [m] never writes: whatever the outcome, the store is as before. *)
Definition readonly {S A} (m : St S A) : Prop := ∀ s, (m s).2 = s.

(** [r] is not the error of the active-team check of [get_spawn_info]. *)
Definition other_outcome {A} (r : result A) : Prop :=
  ∀ c active_team teams, r ≠ raise c (MsgActiveTeamNotInTeams active_team teams).

(** [m] never ends in the error of the active-team check. *)
Definition never_blames_team {S A} (m : St S A) : Prop :=
  ∀ s, other_outcome (m s).1.

(** [for x in xs: body x] *)
Fixpoint for_each {S A} (xs : list A) (body : A → St S unit) : St S unit :=
  match xs with
  | [] => ret tt
  | x :: xs' => bind (body x) (λ _, for_each xs' body)
  end.

(** [x in xs] for a Python list (or set) of strings. *)
Definition str_in (x : string) (xs : list string) : bool :=
  existsb (String.eqb x) xs.

End Py.
Export Py.

Declare Scope py_scope.
Delimit Scope py_scope with py.
Notation "'let?' x ':=' e 'in' k" := (rbind e (λ x, k))
  (at level 10, x name, e at level 100, k at level 200) : py_scope.
Notation "'let?' ( x , y ) ':=' e 'in' k" := (rbind e (λ '(x, y), k))
  (at level 10, x name, y name, e at level 100, k at level 200) : py_scope.
Notation "e ';?' k" := (rbind e (λ _, k))
  (at level 100, k at level 200, right associativity) : py_scope.
Notation "'let!' x ':=' e 'in' k" := (bind e (λ x, k))
  (at level 10, x name, e at level 100, k at level 200) : py_scope.
Notation "'let!' ( x , y ) ':=' e 'in' k" := (bind e (λ '(x, y), k))
  (at level 10, x name, y name, e at level 100, k at level 200) : py_scope.
Notation "e ';!' k" := (bind e (λ _, k))
  (at level 100, k at level 200, right associativity) : py_scope.
Local Open Scope py_scope.

(* ===================================================================== *)
(** ** Strings: the built-in [str] operations the package relies on       *)
(* ===================================================================== *)

Module Str.

Definition code (c : ascii) : N := N_of_ascii c.

Definition in_range (lo hi : string) (c : ascii) : bool :=
  match lo, hi with
  | String l EmptyString, String h EmptyString =>
      ((code l <=? code c) && (code c <=? code h))%N
  | _, _ => false
  end.

Definition is_lower (c : ascii) : bool := in_range "a" "z" c.
Definition is_upper (c : ascii) : bool := in_range "A" "Z" c.
Definition is_digit (c : ascii) : bool := in_range "0" "9" c.
Definition is_hex_lower (c : ascii) : bool := is_digit c || in_range "a" "f" c.
Definition is_ascii (c : ascii) : bool := (code c <? 128)%N.

(** [str.isspace] on 8-bit code points; also the class [\s] of [re]. *)
Definition is_space (c : ascii) : bool :=
  let n := code c in
  ((9 <=? n) && (n <=? 13) || (28 <=? n) && (n <=? 32)
   || (n =? 133) || (n =? 160))%N.

(** [str.lower] on 8-bit code points. *)
Definition lower_char (c : ascii) : ascii :=
  let n := code c in
  if ((65 <=? n) && (n <=? 90) ||
      (192 <=? n) && (n <=? 222) && negb (n =? 215))%N
  then ascii_of_N (n + 32) else c.

Fixpoint map (f : ascii → ascii) (s : string) : string :=
  match s with
  | "" => ""
  | String c s' => String (f c) (map f s')
  end.

Fixpoint filter (p : ascii → bool) (s : string) : string :=
  match s with
  | "" => ""
  | String c s' => if p c then String c (filter p s') else filter p s'
  end.

Fixpoint forallb (p : ascii → bool) (s : string) : bool :=
  match s with
  | "" => true
  | String c s' => p c && forallb p s'
  end.

Definition lower (s : string) : string := map lower_char s.

Fixpoint take (n : nat) (s : string) : string :=
  match n, s with
  | S n', String c s' => String c (take n' s')
  | _, _ => ""
  end.

Fixpoint drop (n : nat) (s : string) : string :=
  match n, s with
  | S n', String _ s' => drop n' s'
  | _, _ => s
  end.

Fixpoint drop_while (p : ascii → bool) (s : string) : string :=
  match s with
  | "" => ""
  | String c s' => if p c then drop_while p s' else s
  end.

Fixpoint take_while (p : ascii → bool) (s : string) : string :=
  match s with
  | "" => ""
  | String c s' => if p c then String c (take_while p s') else ""
  end.

(** [s.rstrip()]-style removal of a trailing run of characters. *)
Fixpoint rstrip (p : ascii → bool) (s : string) : string :=
  match s with
  | "" => ""
  | String c s' =>
      match rstrip p s' with
      | "" => if p c then "" else String c ""
      | r => String c r
      end
  end.

(** [s.strip()] *)
Definition strip (s : string) : string :=
  rstrip is_space (drop_while is_space s).

(** [s[:k]] for a possibly negative [k]. *)
Definition slice_to (s : string) (k : Z) : string :=
  if (0 <=? k)%Z then take (Z.to_nat k) s
  else take (Z.to_nat (Z.of_nat (String.length s) + k)) s.

(** [s.endswith(t)] *)
Definition endswith (s t : string) : bool :=
  (String.length t <=? String.length s)%nat
  && String.eqb (drop (String.length s - String.length t) s) t.

(** [s.startswith(t)] *)
Definition startswith (s t : string) : bool :=
  String.eqb (take (String.length t) s) t.

(** [s.split(sep)[0]] for a one-character separator. *)
Definition before_first (sep : ascii) (s : string) : string :=
  take_while (λ c, negb (Ascii.eqb c sep)) s.

(** [s.split(sep)] for a one-character separator. *)
Fixpoint split (sep : ascii) (s : string) : list string :=
  match s with
  | "" => [""]
  | String c s' =>
      if Ascii.eqb c sep then "" :: split sep s'
      else match split sep s' with
           | [] => [String c ""]
           | w :: ws => String c w :: ws
           end
  end.

(** [sep.join(xs)] *)
Fixpoint join (sep : string) (xs : list string) : string :=
  match xs with
  | [] => ""
  | [x] => x
  | x :: xs' => x +:+ sep +:+ join sep xs'
  end.

(** [t in s] for strings: substring test. *)
Fixpoint contains (s t : string) : bool :=
  startswith s t ||
  match s with
  | "" => false
  | String _ s' => contains s' t
  end.

(** [s.rsplit(sep, 1)[-1]]: what follows the last separator. *)
Fixpoint after_last (sep : ascii) (s : string) : string :=
  match s with
  | "" => ""
  | String c s' =>
      if forallb (λ x, negb (Ascii.eqb x sep)) s' then
        if Ascii.eqb c sep then s' else s
      else after_last sep s'
  end.

(** The anchor [$] of [re]: end of string, or just before a final newline. *)
Definition dollar (s : string) : bool :=
  String.eqb s "" || String.eqb s (String (ascii_of_N 10) "").

(** [str(n)] for an integer. *)
Definition of_Z (z : Z) : string := pretty z.

(** [int(s)]: optional surrounding whitespace, an optional sign, then decimal
    digits, single underscores allowed between digits. *)
Definition digit_val (c : ascii) : option N :=
  if is_digit c then Some (code c - 48)%N else None.

Fixpoint parse_digits (s : string) (acc : N) (after_digit : bool) : option N :=
  match s with
  | "" => if after_digit then Some acc else None
  | String c s' =>
      if Ascii.eqb c "_" then
        if after_digit then parse_digits s' acc false else None
      else
        match digit_val c with
        | Some d => parse_digits s' (10 * acc + d)%N true
        | None => None
        end
  end.

Definition to_Z (s : string) : option Z :=
  match strip s with
  | String "-" s' => (λ n, (- Z.of_N n)%Z) <$> parse_digits s' 0 false
  | String "+" s' => Z.of_N <$> parse_digits s' 0 false
  | s' => Z.of_N <$> parse_digits s' 0 false
  end.

(** The string ["\n"]. *)
Definition newline : string := String (ascii_of_N 10) "".

End Str.

(* ===================================================================== *)
(** ** types.py                                                           *)
(* ===================================================================== *)

Module Types.

(** *** Upstream identities *)

Inductive item := Cls (p : ascii → bool) | Lit (c : ascii).

(** Match a fixed-width pattern at the start of [s]; the unmatched rest. *)
Fixpoint match_items (its : list item) (s : string) : option string :=
  match its, s with
  | [], _ => Some s
  | Cls p :: its', String c s' => if p c then match_items its' s' else None
  | Lit l :: its', String c s' =>
      if Ascii.eqb c l then match_items its' s' else None
  | _ :: _, "" => None
  end.

Definition re_match (its : list item) (s : string) : bool :=
  match match_items its s with
  | Some rest => Str.dollar rest
  | None => false
  end.

Definition is_alnum_lower (c : ascii) : bool := Str.is_digit c || Str.is_lower c.

(** [^[0-9a-z]{32}$] *)
Definition re_alnum32 : list item := replicate 32 (Cls is_alnum_lower).

(** [^[0-9a-f]{8}-[0-9a-f]{4}-[0-9a-f]{4}-[0-9a-f]{4}-[0-9a-f]{12}$] *)
Definition re_uuid : list item :=
  replicate 8 (Cls Str.is_hex_lower) ++ [Lit "-"] ++
  replicate 4 (Cls Str.is_hex_lower) ++ [Lit "-"] ++
  replicate 4 (Cls Str.is_hex_lower) ++ [Lit "-"] ++
  replicate 4 (Cls Str.is_hex_lower) ++ [Lit "-"] ++
  replicate 12 (Cls Str.is_hex_lower).

(** [s[i:j]] for [0 <= i <= j]. *)
Definition slice (s : string) (i j : nat) : string := Str.take (j - i) (Str.drop i s).

(** [StsciUuid.__new__] *)
Definition StsciUuid (uuid : pyval) : result string :=
  match uuid with
  | PyStr uuid =>
      let uuid := Str.lower (Str.strip uuid) in
      if re_match re_alnum32 uuid then
        ok (Str.join "-" [slice uuid 0 8; slice uuid 8 12; slice uuid 12 16;
                          slice uuid 16 20; slice uuid 20 32])
      else if negb (re_match re_uuid uuid) then
        raise ValueError MsgInvalidUuidFormat
      else ok uuid
  | _ => raise TypeError MsgUuidNotString
  end.

(** The characters removed by [UnicodeName]: quote, double quote, backquote
    and [; ( ) < > / \ = % & | ! { } [ ] # * ~ $], given by code point. *)
Definition meta_codes : list N :=
  [39; 34; 96; 59; 40; 41; 60; 62; 47; 92; 61; 37; 38; 124; 33; 123; 125;
   91; 93; 35; 42; 126; 36]%N.

Definition is_meta (c : ascii) : bool :=
  existsb (N.eqb (Str.code c)) meta_codes.

(** [UnicodeName.__new__], inherited by [StsciEzid] and [TeamName]. *)
Definition UnicodeName (name : pyval) : result string :=
  match name with
  | PyStr name =>
      if (128 <=? String.length name)%nat then raise ValueError MsgNameTooLong
      else ok (Str.filter (λ c, negb (is_meta c)) name)
  | _ => raise TypeError MsgNameNotString
  end.

Definition StsciEzid := UnicodeName.
Definition TeamName := UnicodeName.

(** *** Status and user type *)

Definition UserStatus (status : pyval) : result string :=
  match status with
  | PyStr s =>
      if str_in s ["active"; "deactivated"] then ok s
      else raise AssertionError MsgInvalidStatus
  | _ => raise AssertionError MsgStatusNotString
  end.

Definition UserType (usertype : pyval) : result string :=
  match usertype with
  | PyStr s =>
      if str_in s ["individual"; "group"; "None"] then ok s
      else raise AssertionError MsgInvalidUserType
  | _ => raise AssertionError MsgUserTypeNotString
  end.

(** *** Ubuntu names *)

Definition MAX_LEN : nat := 32.

Definition is_name_char (c : ascii) : bool :=
  Str.is_lower c || Str.is_digit c || Ascii.eqb c "-".

(** [re.match] of [^[a-z][a-z0-9-]{0,31}$] against [name]. *)
Definition re_ubuntu_name (name : string) : bool :=
  match name with
  | String c rest =>
      Str.is_lower c &&
      (let body := Str.take_while is_name_char rest in
       (String.length body <=? 31)%nat &&
       Str.dollar (Str.drop (String.length body) rest))
  | "" => false
  end.

(** [UbuntuName.is_valid] *)
Definition is_valid (name : pyval) : bool :=
  match name with
  | PyStr name =>
      (String.length name <=? MAX_LEN)%nat
      && Str.forallb Str.is_ascii name
      && re_ubuntu_name name
  | _ => false
  end.

(** [UbuntuName.__new__], inherited by [GroupName] and [UserName]. *)
Definition UbuntuName (value : pyval) : result string :=
  match value with
  | PyStr s =>
      if is_valid value then ok s
      else raise ValueError (MsgInvalidUbuntuName value)
  | _ => raise ValueError (MsgInvalidUbuntuName value)
  end.

Definition GroupName := UbuntuName.
Definition UserName := UbuntuName.

(** *** Ranged integer ids *)

Inductive ranged_class :=
| SystemUid | SystemGid | UserUid | UserGid | GroupGid | GroupAdminUid.

Definition min_id (cls : ranged_class) : Z :=
  match cls with
  | SystemUid | SystemGid => 0
  | UserUid | UserGid => 1000
  | GroupGid | GroupAdminUid => 60000
  end.

Definition max_id (cls : ranged_class) : Z :=
  match cls with
  | SystemUid | SystemGid => 999
  | UserUid | UserGid => 59999
  | GroupGid | GroupAdminUid => 65533
  end.

(** [isinstance(value, int)]: [bool] is a subclass of [int]. *)
Definition as_int (value : pyval) : option Z :=
  match value with
  | PyInt z => Some z
  | PyBool b => Some (Z.b2z b)
  | _ => None
  end.

(** [RangedId.validate] *)
Definition validate (cls : ranged_class) (value : pyval) : result unit :=
  match as_int value with
  | None => raise TypeError MsgNotInteger
  | Some z =>
      if ((z <? min_id cls) || (z >? max_id cls))%Z
      then raise ValueError (MsgNotInRange (min_id cls) (max_id cls))
      else ok tt
  end.

(** [RangedId.__new__]: validate, then build the [int]. *)
Definition RangedId (cls : ranged_class) (value : pyval) : result Z :=
  validate cls value ;?
  match as_int value with
  | Some z => ok z
  | None => raise TypeError (MsgInterp "int() argument")
  end.

End Types.

(* ===================================================================== *)
(** ** username.py                                                        *)
(* ===================================================================== *)

Module Username.

(** *** [make_unique] *)

Record loop_state := LoopState {
  unique_name : string;
  counter : Z;
  tail : option string;
}.

Definition strlen (s : string) : Z := Z.of_nat (String.length s).

(** The condition of the [while] loop. *)
Definition loop_cond (existing_names : list string) (max_length : Z)
    (st : loop_state) : bool :=
  str_in (unique_name st) existing_names
  || (max_length <? strlen (unique_name st))%Z.

(** One pass through the body of the [while] loop. *)
Definition loop_body (candidate_name : string) (max_length : Z)
    (st : loop_state) : loop_state :=
  let name :=
    if (max_length <? strlen (unique_name st))%Z then
      let truncated_length :=
        (max_length - strlen (Str.of_Z (counter st)) - 1)%Z in
      Str.slice_to candidate_name truncated_length
    else unique_name st in
  let name :=
    match tail st with
    | Some t =>
        if negb (String.eqb t "") && Str.endswith name t
        then Str.slice_to name (- strlen t)
        else name
    | None => name
    end in
  let t := "-" +:+ Str.of_Z (counter st) in
  LoopState (name +:+ t) (counter st + 1) (Some t).

(** The [while] loop, run for at most [fuel] passes; [None] when the
    condition still holds after [fuel] passes. *)
Fixpoint loop (fuel : nat) (candidate_name : string)
    (existing_names : list string) (max_length : Z)
    (st : loop_state) : option loop_state :=
  if loop_cond existing_names max_length st then
    match fuel with
    | O => None
    | S fuel' =>
        loop fuel' candidate_name existing_names max_length
          (loop_body candidate_name max_length st)
    end
  else Some st.

Definition init (candidate_name : string) : loop_state :=
  LoopState candidate_name 1 None.

(** [make_unique] with the number of loop passes bounded by [fuel]. *)
Definition make_unique_fuel (fuel : nat) (candidate_name : string)
    (existing_names : list string) (max_length : Z) : option (result string) :=
  match loop fuel candidate_name existing_names max_length (init candidate_name) with
  | Some st => Some (Types.UbuntuName (PyStr (unique_name st)))
  | None => None
  end.

(** The number of passes after which the loop has exited if it exits at
    all (see [make_unique_loop_exits]). *)
Definition passes (existing_names : list string) : nat :=
  2 * length existing_names + 3.

(** [make_unique] with [max_length = UbuntuName.MAX_LEN]. *)
Definition make_unique (candidate_name : string)
    (existing_names : list string) : result string :=
  match make_unique_fuel (passes existing_names) candidate_name existing_names
          (Z.of_nat Types.MAX_LEN) with
  | Some r => r
  | None => raise NonTermination (MsgInterp "while")
  end.

(** The state of the loop after [j] passes, were it not left before, and
    the name it then holds: the name [make_unique] tries after [j] passes
    with [max_length = UbuntuName.MAX_LEN]. *)
Definition after_passes (j : nat) (candidate_name : string) (max_length : Z)
    : loop_state :=
  Nat.iter j (loop_body candidate_name max_length) (init candidate_name).

Definition tried (candidate_name : string) (j : nat) : string :=
  unique_name (after_passes j candidate_name (Z.of_nat Types.MAX_LEN)).

(** The state after at least one pass of the loop: the name is a prefix of
    the candidate followed by the tail [-k], [k] the number of passes. *)
Definition suffixed (candidate_name : string) (st : loop_state) : Prop :=
  ∃ n k, (1 ≤ k)%Z
    ∧ counter st = (k + 1)%Z
    ∧ tail st = Some ("-" +:+ Str.of_Z k)
    ∧ unique_name st = Str.take n candidate_name +:+ "-" +:+ Str.of_Z k.

(** All strings of at most [n] characters. *)
Definition all_ascii : list ascii := ascii_of_nat <$> seq 0 256.

Fixpoint strings_upto (n : nat) : list string :=
  match n with
  | O => [""]
  | S n' => "" :: (s ← strings_upto n'; (λ c, String c s) <$> all_ascii)
  end.

(** *** [get_group_prefix] *)

Definition is_vowel (c : ascii) : bool := Str.contains "aeiou" (String c "").

Definition get_group_prefix (w : world) : string :=
  let deployment := DEPLOYMENT_NAME w in
  let fallback :=
    match deployment with
    | None => "g"
    | Some d => Str.filter (λ c, negb (is_vowel c)) d
    end in
  let table : gmap string string :=
    {[ "roman" := "rmn"; "tike" := "tk"; "jwebbinar" := "jwb"; "jwst" := "jwst" ]} in
  match deployment with
  | Some d => default fallback (table !! d)
  | None => fallback
  end +:+ "-".

(** *** [to_valid_username] *)

(** [re.sub(r"[\s_\.]", "-", s)] *)
Definition dashify (s : string) : string :=
  Str.map (λ c, if Str.is_space c || Ascii.eqb c "_" || Ascii.eqb c "."
                then "-"%char else c) s.

(** One call of [s.replace("--", "-")]. *)
Fixpoint replace_dd (s : string) : string :=
  match s with
  | String "-" (String "-" s') => String "-" (replace_dd s')
  | String c s' => String c (replace_dd s')
  | "" => ""
  end.

(** [while "--" in s: s = s.replace("--", "-")]; every pass that finds a
    pair shortens [s], so [String.length s] passes are enough. *)
Fixpoint squeeze (fuel : nat) (s : string) : string :=
  if Str.contains s "--" then
    match fuel with
    | S fuel' => squeeze fuel' (replace_dd s)
    | O => s
    end
  else s.

(** [re.match(r"^[a-z]", s)] *)
Definition starts_with_letter (s : string) : bool :=
  match s with
  | String c _ => Str.is_lower c
  | "" => false
  end.

(** The interpreter's recursion limit. *)
Definition recursion_limit : nat := 1000.

Fixpoint to_valid_username_rec (depth : nat) (w : world) (username : string)
    (existing_names : list string) (kind : string) : result string :=
  (* Convert Unicode to nearest ASCII equivalent *)
  let ascii_equivalent := unidecode w username in
  (* drop email domain *)
  let ascii_equivalent := Str.before_first "@" ascii_equivalent in
  (* convert spaces, underscores, and dots to dashes *)
  let ascii_equivalent := dashify (Str.lower ascii_equivalent) in
  (* keep only lowercase letters, numbers, dash *)
  let valid_chars := Str.filter Types.is_name_char (Str.lower ascii_equivalent) in
  let prefix := if negb (String.eqb kind "user") then get_group_prefix w else "u-" in
  if negb (starts_with_letter valid_chars) then
    match depth with
    | O => raise RecursionError (MsgInterp "to_valid_username")
    | S depth' =>
        let? ezid := Types.StsciEzid (PyStr (prefix +:+ valid_chars)) in
        to_valid_username_rec depth' w ezid existing_names "user"
    end
  else
    (* remove double dashes and trailing dashes *)
    let valid_chars := squeeze (String.length valid_chars) valid_chars in
    let valid_chars := Str.rstrip (λ c, Ascii.eqb c "-") valid_chars in
    let name := Str.take Types.MAX_LEN valid_chars in
    let? name := make_unique name existing_names in
    if negb (Types.is_valid (PyStr name)) then
      raise ValueError (MsgGeneratedNameInvalid name username)
    else if String.eqb (name +:+ "-") prefix || String.eqb name prefix then
      raise ValueError (MsgGeneratedNameDegenerate name username)
    else Types.UbuntuName (PyStr name).

Definition to_valid_username (w : world) (username : string)
    (existing_names : list string) (kind : string) : result string :=
  to_valid_username_rec recursion_limit w username existing_names kind.

(** *** The characters kept of a name *)
(** The characters [to_valid_username] keeps of a name: the value of
    [valid_chars] before the test for a leading letter. *)
Definition valid_chars (w : world) (username : string) : string :=
  let ascii_equivalent := unidecode w username in
  let ascii_equivalent := Str.before_first "@" ascii_equivalent in
  let ascii_equivalent := dashify (Str.lower ascii_equivalent) in
  Str.filter Types.is_name_char (Str.lower ascii_equivalent).

End Username.

(* ===================================================================== *)
(** ** tableio.py                                                         *)
(* ===================================================================== *)

Module TableIO.

(** The YAML file of a table holds the list [file_dict["entries"]]; a store
    of type [table] stands for the file, and [self.file_dict] is whatever
    [load_yaml] last returned. *)

Definition load_yaml : St table table := λ file, (ok file, file).
Definition write_yaml (file_dict : table) : St table unit :=
  λ _, (ok tt, file_dict).

(** [entry[key]] *)
Definition getitem (e : entry) (key : string) : result yval :=
  match e !! key with
  | Some v => ok v
  | None => raise KeyError (MsgKey key)
  end.

Definition to_py (v : yval) : pyval :=
  match v with
  | YStr s => PyStr s
  | YList l => PyList l
  end.

(** [int(v)] for a value read from an entry. *)
Definition int (v : yval) : result Z :=
  match v with
  | YStr s =>
      match Str.to_Z s with
      | Some z => ok z
      | None => raise ValueError (MsgInterp "invalid literal for int()")
      end
  | YList _ => raise TypeError (MsgInterp "int() argument")
  end.

(** A value used where a [str] is required ([str.join], string formatting
    of a line). *)
Definition as_str (v : yval) : result string :=
  match v with
  | YStr s => ok s
  | YList _ => raise TypeError (MsgInterp "expected str instance")
  end.

(** [from_string]: one entry per line of [file_str], the fields of
    [str_attr] taken from the colon-separated columns. *)
Definition entry_of_line (str_attr : list string) (line : string) : result entry :=
  let entry_info := Str.split ":" line in
  let fix go (attrs : list string) (i : nat) (entry_dict : entry) : result entry :=
    match attrs with
    | [] => ok entry_dict
    | attr :: attrs' =>
        match entry_info !! i with
        | Some field => go attrs' (S i) (<[attr := YStr field]> entry_dict)
        | None => raise IndexError (MsgInterp "list index out of range")
        end
    end in
  go str_attr 0%nat ∅.

Definition from_string (str_attr : list string) (file_str : string) : result table :=
  mapM (entry_of_line str_attr) (Str.split (ascii_of_N 10) file_str).

(** [",".join(entry["grouplist"])]: the elements of a list, or the
    characters of a string. *)
Definition join_grouplist (v : yval) : string :=
  match v with
  | YList l => Str.join "," l
  | YStr s => Str.join "," ((λ c, String c "") <$> list_ascii_of_string s)
  end.

(** One line of [to_string]. *)
Definition line_of_entry (str_attr : list string) (e : entry) : result string :=
  let? e :=
    if str_in "grouplist" str_attr then
      let? g := getitem e "grouplist" in
      ok (<["grouplist" := YStr (join_grouplist g)]> e)
    else ok e in
  let? fields := mapM (λ attr, let? v := getitem e attr in as_str v) str_attr in
  ok (Str.join ":" fields).

(** [to_string]; the entries it rewrites in memory are not written back. *)
Definition to_string (str_attr : list string) (file_dict : table) : result string :=
  let? lines := mapM (line_of_entry str_attr) file_dict in
  ok (Str.join (String (ascii_of_N 10) "") lines).

Definition get_file_string (str_attr : list string) : St table string :=
  let! file_dict := load_yaml in
  lift (to_string str_attr file_dict).

End TableIO.

(* ===================================================================== *)
(** ** users.py                                                           *)
(* ===================================================================== *)

Module Users.
Import TableIO.

(** The attributes of a [User] object. *)
Record User := {
  uuid : string;
  ezid : string;
  username : string;
  password : yval;
  uid : pyval;
  gid : pyval;
  descr : yval;
  home : yval;
  shell : yval;
  status : string;
  usertype : string;
}.

Definition str_attr : list string :=
  ["username"; "password"; "uid"; "gid"; "descr"; "home"; "shell"].

(** [StsciUsers.__init__] when no YAML file exists yet: the table is seeded
    from the base passwd text, and the entries of the base users get
    placeholder STSCI attributes.  [EtcPasswd_Base] and [Base_Usernames]
    come from the module [uidgid.base]. *)
Definition add_stsci_attr_to_base (Base_Usernames : list string)
    (entries : table) : result table :=
  mapM (λ e : entry,
          let? u := getitem e "username" in
          if bool_decide (u ∈ (YStr <$> Base_Usernames)) then
            ok (<["status" := YStr "active"]> $ <["ezid" := YStr "None"]> $
                <["uuid" := YStr "None"]> e)
          else ok e) entries.

Definition init (EtcPasswd_Base : string) (Base_Usernames : list string) : result table :=
  let? entries := from_string str_attr EtcPasswd_Base in
  add_stsci_attr_to_base Base_Usernames entries.

(** [[f(entry[key]) for entry in self.file_dict["entries"]]] *)
Definition column {A} (key : string) (f : yval → result A) : St table (list A) :=
  let! file_dict := load_yaml in
  lift (mapM (λ e, let? v := getitem e key in f v) file_dict).

Definition load_all_uids : St table (list Z) := column "uid" int.
Definition load_all_uuids : St table (list yval) := column "uuid" ok.
Definition load_all_ezids : St table (list yval) := column "ezid" ok.
Definition load_all_usernames : St table (list yval) := column "username" ok.

(** [x in xs] where [x] is a string and [xs] a column of entry values. *)
Definition in_column (x : string) (xs : list yval) : bool :=
  bool_decide (YStr x ∈ xs).

(** The names of a column as strings, for [existing_names]. *)
Definition names_of (xs : list yval) : list string :=
  omap (λ v, match v with YStr s => Some s | YList _ => None end) xs.

(** [while new_uid in all_ids: new_uid += 1]; the loop leaves after at most
    [length all_ids] increments. *)
Fixpoint first_free (fuel : nat) (all_ids : list Z) (new_id : Z) : option Z :=
  if bool_decide (new_id ∈ all_ids) then
    match fuel with
    | S fuel' => first_free fuel' all_ids (new_id + 1)
    | O => None
    end
  else Some new_id.

Definition scan (all_ids : list Z) (min_id : Z) : result Z :=
  match first_free (length all_ids) all_ids min_id with
  | Some new_id => ok new_id
  | None => raise NonTermination (MsgInterp "while")
  end.

(** [get_new_uid]; [None] is what the function returns for a user type that
    is neither ["individual"] nor ["group"]. *)
Definition get_new_uid (usertype : string) : St table (option Z) :=
  let! all_uids := load_all_uids in
  if String.eqb usertype "individual" then
    lift (let? new_uid := scan all_uids (Types.min_id Types.UserUid) in
          let? u := Types.RangedId Types.UserUid (PyInt new_uid) in
          ok (Some u))
  else if String.eqb usertype "group" then
    lift (let? new_uid := scan all_uids (Types.min_id Types.GroupAdminUid) in
          let? u := Types.RangedId Types.GroupAdminUid (PyInt new_uid) in
          ok (Some u))
  else ret None.

(** [existing_names or fallback] *)
Definition or_else (existing_names fallback : list string) : list string :=
  match existing_names with
  | [] => fallback
  | _ => existing_names
  end.

Definition get_new_username (w : world) (ezid : string)
    (existing_names : list string) : St table string :=
  let! all_usernames := load_all_usernames in
  let existing_names := or_else existing_names (names_of all_usernames) in
  lift (Username.to_valid_username w ezid existing_names "user").

Definition user_exist (id : string) (id_type : string) : St table bool :=
  if String.eqb id_type "uuid" then
    let! all_uuids := load_all_uuids in ret (in_column id all_uuids)
  else if String.eqb id_type "ezid" then
    let! all_ezids := load_all_ezids in ret (in_column id all_ezids)
  else if String.eqb id_type "username" then
    let! all_usernames := load_all_usernames in ret (in_column id all_usernames)
  else throw ValueError (MsgInvalidIdType id_type).

(** A [uuid] argument: a plain [str], or an instance of [StsciUuid] (which
    [add_user] does not validate again). *)
Inductive uuid_arg :=
| PlainUuid (s : string)
| TypedUuid (s : string).

Definition uuid_str (u : uuid_arg) : string :=
  match u with PlainUuid s | TypedUuid s => s end.

Definition zero_uuid : string := "00000000-0000-0000-0000-000000000000".

(** [None] where the caller leaves a keyword argument at its default. *)
Definition int_arg (o : option Z) : pyval :=
  match o with Some z => PyInt z | None => PyNone end.

(** [add_user]; [password], [descr], [shell] and [status] are left at their
    defaults ["x"], [""], ["/bin/bash"] and ["active"]. *)
Definition add_user (w : world) (uuid : uuid_arg) (ezid : string)
    (username : option string) (uid gid : option Z) (home : option string)
    (usertype : string) (existing_names : list string) : St table User :=
  load_yaml ;!
  (* Check whether user exist and essential values *)
  let! exists_ := user_exist (uuid_str uuid) "uuid" in
  if exists_ && negb (String.eqb (uuid_str uuid) zero_uuid) then
    throw RuntimeError (MsgUserExists (uuid_str uuid))
  else if String.eqb ezid "" && bool_decide (username = None) then
    throw PlainException MsgProvideEzidOrUsername
  else
  let! username :=
    match username with
    | None => get_new_username w ezid existing_names
    | Some u => ret u
    end in
  let! uid :=
    match uid with
    | None => get_new_uid usertype
    | Some u => ret (Some u)
    end in
  let! gid :=
    match gid with
    | None => lift (rmap Some (Types.RangedId Types.UserGid (int_arg uid)))
    | Some g => ret (Some g)
    end in
  let home :=
    match home with
    | Some h => if String.eqb h "" then "/home/" +:+ username else h
    | None => "/home/" +:+ username
    end in
  (* Check value types *)
  let! username := lift (Types.UbuntuName (PyStr username)) in
  let! uuid :=
    match uuid with
    | TypedUuid s => ret s
    | PlainUuid s => lift (Types.StsciUuid (PyStr s))
    end in
  let! ezid := lift (Types.StsciEzid (PyStr ezid)) in
  let! status := lift (Types.UserStatus (PyStr "active")) in
  let! usertype := lift (Types.UserType (PyStr usertype)) in
  let! (uid, gid) :=
    if String.eqb usertype "individual" then
      let! uid := lift (Types.RangedId Types.UserUid (int_arg uid)) in
      let! gid := lift (Types.RangedId Types.UserGid (int_arg gid)) in
      ret (PyInt uid, PyInt gid)
    else if String.eqb usertype "group" then
      let! uid := lift (Types.RangedId Types.GroupAdminUid (int_arg uid)) in
      let! gid := lift (Types.RangedId Types.GroupGid (int_arg gid)) in
      ret (PyInt uid, PyInt gid)
    else ret (int_arg uid, int_arg gid) in
  (* Update dictionary and write to yaml *)
  let str_of (v : pyval) : string :=
    match v with PyInt z => Str.of_Z z | _ => "None" end in
  let user_dict : entry :=
    <["usertype" := YStr usertype]> $ <["status" := YStr status]> $
    <["ezid" := YStr ezid]> $ <["uuid" := YStr uuid]> $
    <["shell" := YStr "/bin/bash"]> $ <["home" := YStr home]> $
    <["descr" := YStr ""]> $ <["gid" := YStr (str_of gid)]> $
    <["uid" := YStr (str_of uid)]> $ <["password" := YStr "x"]> $
    <["username" := YStr username]> ∅ in
  let! file_dict := load_yaml in
  write_yaml (file_dict ++ [user_dict]) ;!
  (* Construct and return User object *)
  ret {| uuid := uuid; ezid := ezid; username := username;
         password := YStr "x"; uid := uid; gid := gid; descr := YStr "";
         home := YStr home; shell := YStr "/bin/bash"; status := status;
         usertype := usertype |}.

(** The loop of [delete_user]: the first entry whose [id_type] field equals
    [id] gets status ["deactivated"]. *)
Fixpoint deactivate_first (id_type id : string) (entries : table) : result table :=
  match entries with
  | [] => ok []
  | e :: es =>
      let? v := getitem e id_type in
      if bool_decide (v = YStr id) then
        ok (<["status" := YStr "deactivated"]> e :: es)
      else
        let? es' := deactivate_first id_type id es in ok (e :: es')
  end.

(** [delete_user]; [id] is the argument after [id = str(id)]. *)
Definition delete_user (id : string) (id_type : string) : St table unit :=
  let! file_dict := load_yaml in
  let! file_dict := lift (deactivate_first id_type id file_dict) in
  write_yaml file_dict.

Definition get_etc_passwd_string : St table string :=
  get_file_string str_attr.

(** The body of the loop of [get_user_info] for the matching entry. *)
Definition user_of_entry (e : entry) : result User :=
  let? v := getitem e "uuid" in
  let? uuid := Types.StsciUuid (to_py v) in
  let? v := getitem e "ezid" in
  let? ezid := Types.StsciEzid (to_py v) in
  let? v := getitem e "username" in
  let? username := Types.UbuntuName (to_py v) in
  let? password := getitem e "password" in
  let? ut := getitem e "usertype" in
  let ids (ucls gcls : option Types.ranged_class) : result (Z * Z) :=
    let? v := getitem e "uid" in
    let? u := int v in
    let? u := match ucls with
              | Some c => Types.RangedId c (PyInt u)
              | None => ok u
              end in
    let? v := getitem e "gid" in
    let? g := int v in
    let? g := match gcls with
              | Some c => Types.RangedId c (PyInt g)
              | None => ok g
              end in
    ok (u, g) in
  let? (uid, gid) :=
    if bool_decide (ut = YStr "individual") then
      ids (Some Types.UserUid) (Some Types.UserGid)
    else if bool_decide (ut = YStr "group") then
      ids (Some Types.GroupAdminUid) (Some Types.GroupGid)
    else ids None None in
  let? descr := getitem e "descr" in
  let? home := getitem e "home" in
  let? shell := getitem e "shell" in
  let? v := getitem e "status" in
  let? status := Types.UserStatus (to_py v) in
  let? v := getitem e "usertype" in
  let? usertype := Types.UserType (to_py v) in
  ok {| uuid := uuid; ezid := ezid; username := username;
        password := password; uid := PyInt uid; gid := PyInt gid;
        descr := descr; home := home; shell := shell; status := status;
        usertype := usertype |}.

Fixpoint find_user (id_type id : string) (entries : table) : result User :=
  match entries with
  | [] => raise RuntimeError (MsgUserNotFound id_type id)
  | e :: es =>
      let? v := getitem e id_type in
      if bool_decide (v = YStr id) then user_of_entry e
      else find_user id_type id es
  end.

(** [get_user_info]; [id] stands for [str(id)]. *)
Definition get_user_info (id : string) (id_type : string) : St table User :=
  let! file_dict := load_yaml in
  lift (find_user id_type id file_dict).

(** *** Deactivation, the active users and the entry of a user *)

(** The loop of [get_active_user_string] and [get_active_group_string]:
    the lines of the entries whose status is ["active"]. *)
Fixpoint active_lines (line : entry → result string) (entries : table)
    : result (list string) :=
  match entries with
  | [] => ok []
  | e :: es =>
      let? status := getitem e "status" in
      if bool_decide (status = YStr "active") then
        let? l := line e in
        let? ls := active_lines line es in ok (l :: ls)
      else active_lines line es
  end.

(** [get_active_user_string] *)
Definition get_active_user_string : St table string :=
  let! file_dict := load_yaml in
  lift (let? lines :=
          active_lines
            (λ user, let? values := mapM (getitem user) str_attr in
                     let? fields := mapM as_str values in
                     ok (Str.join ":" fields)) file_dict in
        ok (Str.join (String (ascii_of_N 10) "") lines)).

(** The loop of [get_active_usernames]. *)
Fixpoint active_names (entries : table) : result (list yval) :=
  match entries with
  | [] => ok []
  | e :: es =>
      let? status := getitem e "status" in
      if bool_decide (status = YStr "active") then
        let? n := getitem e "username" in
        let? ns := active_names es in ok (n :: ns)
      else active_names es
  end.

Definition get_active_usernames : St table (list yval) :=
  let! file_dict := load_yaml in
  lift (active_names file_dict).

(** [user_active] *)
Definition user_active (id id_type : string) : St table bool :=
  let! user := get_user_info id id_type in
  ret (String.eqb (status user) "active").


(** The entry [add_user] appends for the [User] it returns. *)
Definition user_dict (user : User) : entry :=
  let str_of (v : pyval) : string :=
    match v with PyInt z => Str.of_Z z | _ => "None" end in
  <["usertype" := YStr (usertype user)]> $
  <["status" := YStr (status user)]> $
  <["ezid" := YStr (ezid user)]> $ <["uuid" := YStr (uuid user)]> $
  <["shell" := YStr "/bin/bash"]> $ <["home" := home user]> $
  <["descr" := YStr ""]> $ <["gid" := YStr (str_of (gid user))]> $
  <["uid" := YStr (str_of (uid user))]> $ <["password" := YStr "x"]> $
  <["username" := YStr (username user)]> ∅.

End Users.

(* ===================================================================== *)
(** ** groups.py                                                          *)
(* ===================================================================== *)

Module Groups.
Import TableIO.

(** The attributes of a [Group] object. *)
Record Group := {
  teamname : string;
  groupname : string;
  password : yval;
  gid : pyval;
  grouplist : yval;
  status : string;
  usertype : string;
}.

Definition str_attr : list string := ["groupname"; "password"; "gid"; "grouplist"].

(** [StsciGroups.__init__] when no YAML file exists yet. *)
Definition add_stsci_attr_to_base (Base_Groupnames : list string)
    (entries : table) : result table :=
  mapM (λ e : entry,
          let? g := getitem e "groupname" in
          if bool_decide (g ∈ (YStr <$> Base_Groupnames)) then
            ok (<["status" := YStr "active"]> $ <["usertype" := YStr "group"]> $
                <["teamname" := g]> e)
          else ok e) entries.

Definition init (EtcGroup_Base : string) (Base_Groupnames : list string) : result table :=
  let? entries := from_string str_attr EtcGroup_Base in
  add_stsci_attr_to_base Base_Groupnames entries.

Definition load_all_gids : St table (list Z) := Users.column "gid" int.
Definition load_all_groupnames : St table (list yval) := Users.column "groupname" ok.
Definition load_all_teamnames : St table (list yval) := Users.column "teamname" ok.

Definition get_new_gid (usertype : string) : St table (option Z) :=
  let! all_gids := load_all_gids in
  if String.eqb usertype "individual" then
    lift (let? new_gid := Users.scan all_gids (Types.min_id Types.UserGid) in
          let? g := Types.RangedId Types.UserGid (PyInt new_gid) in
          ok (Some g))
  else if String.eqb usertype "group" then
    lift (let? new_gid := Users.scan all_gids (Types.min_id Types.GroupGid) in
          let? g := Types.RangedId Types.GroupGid (PyInt new_gid) in
          ok (Some g))
  else ret None.

Definition get_new_groupname (w : world) (teamname : string)
    (existing_names : list string) : St table string :=
  let! all_groupnames := load_all_groupnames in
  let existing_names :=
    Users.or_else existing_names (Users.names_of all_groupnames) in
  lift (Username.to_valid_username w teamname existing_names "group").

Definition team_exist (teamname : string) : St table bool :=
  let! all_teamnames := load_all_teamnames in
  ret (Users.in_column teamname all_teamnames).

Definition group_exist (groupname : string) : St table bool :=
  let! all_groupnames := load_all_groupnames in
  ret (Users.in_column groupname all_groupnames).

Definition gid_exist (gid : Z) : St table bool :=
  let! all_gids := load_all_gids in
  ret (bool_decide (gid ∈ all_gids)).

(** [create_new_group]; [password] and [status] are left at their defaults. *)
Definition create_new_group (w : world) (teamname : string)
    (groupname : option string) (gid : option Z) (usertype : string)
    (existing_names : list string) : St table Group :=
  load_yaml ;!
  (* Check whether team exists *)
  let! exists_ := team_exist teamname in
  if exists_ then throw RuntimeError (MsgTeamExists teamname) else
  let! groupname :=
    match groupname with
    | None => get_new_groupname w teamname existing_names
    | Some g => ret g
    end in
  let! gid :=
    match gid with
    | None => get_new_gid usertype
    | Some g =>
        let! exists_ := gid_exist g in
        if exists_ then throw RuntimeError (MsgGidExists g) else ret (Some g)
    end in
  (* Check value types *)
  let! gid :=
    if String.eqb usertype "individual" then
      lift (rmap PyInt (Types.RangedId Types.UserGid (Users.int_arg gid)))
    else ret (Users.int_arg gid) in
  let! gid :=
    if String.eqb usertype "group" then
      lift (rmap PyInt (Types.RangedId Types.GroupGid gid))
    else ret gid in
  let! status := lift (Types.UserStatus (PyStr "active")) in
  let! usertype := lift (Types.UserType (PyStr usertype)) in
  let! groupname := lift (Types.UbuntuName (PyStr groupname)) in
  (* Update dictionary and write to yaml *)
  let str_of (v : pyval) : string :=
    match v with PyInt z => Str.of_Z z | _ => "None" end in
  let group_dict : entry :=
    <["usertype" := YStr usertype]> $ <["status" := YStr status]> $
    <["grouplist" := YList []]> $ <["gid" := YStr (str_of gid)]> $
    <["password" := YStr "x"]> $ <["groupname" := YStr groupname]> $
    <["teamname" := YStr teamname]> ∅ in
  let! file_dict := load_yaml in
  write_yaml (file_dict ++ [group_dict]) ;!
  (* Construct and return Group object *)
  ret {| teamname := teamname; groupname := groupname; password := YStr "x";
         gid := gid; grouplist := YList []; status := status;
         usertype := usertype |}.

(** The first entry whose field [key] equals [v]. *)
Fixpoint find_entry (key : string) (v : yval) (entries : table) : result (option entry) :=
  match entries with
  | [] => ok None
  | e :: es =>
      let? x := getitem e key in
      if bool_decide (x = v) then ok (Some e) else find_entry key v es
  end.

(** [lookup_gid] *)
Definition lookup_gid (name : yval) (name_type : string) : St table Z :=
  let! file_dict := load_yaml in
  let! found := lift (find_entry name_type name file_dict) in
  match found with
  | Some e => lift (let? gid := getitem e "gid" in int gid)
  | None => throw UnboundLocalError (MsgInterp "gid")
  end.

(** [len(v)] and [x in v] for the value of a [grouplist] field. *)
Definition len (v : yval) : Z :=
  match v with
  | YList l => Z.of_nat (length l)
  | YStr s => Z.of_nat (String.length s)
  end.

Definition member (x : string) (v : yval) : bool :=
  match v with
  | YList l => str_in x l
  | YStr s => Str.contains s x
  end.

(** [l.remove(x)]: the first occurrence goes. *)
Fixpoint remove_first (x : string) (l : list string) : list string :=
  match l with
  | [] => []
  | y :: l' => if String.eqb y x then l' else y :: remove_first x l'
  end.

Definition MAX_MEMBERS : Z := 32768.

(** The loop of [add_user_to_group]. *)
Fixpoint append_member (username groupname : string) (entries : table) : result table :=
  match entries with
  | [] => ok []
  | e :: es =>
      let? g := getitem e "groupname" in
      if bool_decide (g = YStr groupname) then
        let? gl := getitem e "grouplist" in
        if (MAX_MEMBERS <=? len gl)%Z then
          raise RuntimeError (MsgTooManyUsers groupname)
        else if negb (member username gl) then
          match gl with
          | YList l => ok (<["grouplist" := YList (l ++ [username])]> e :: es)
          | YStr _ => raise AttributeError (MsgInterp "str has no attribute append")
          end
        else ok (e :: es)
      else
        let? es' := append_member username groupname es in ok (e :: es')
  end.

Definition add_user_to_group (username groupname : string) : St table unit :=
  let! file_dict := load_yaml in
  let! exists_ := group_exist groupname in
  if negb exists_ then throw ValueError (MsgGroupNotExist groupname) else
  let! file_dict := lift (append_member username groupname file_dict) in
  write_yaml file_dict.

(** The loop of [remove_user_from_group]. *)
Fixpoint drop_member (username groupname : string) (entries : table) : result table :=
  match entries with
  | [] => ok []
  | e :: es =>
      let? g := getitem e "groupname" in
      if bool_decide (g = YStr groupname) then
        let? gl := getitem e "grouplist" in
        if member username gl then
          match gl with
          | YList l => ok (<["grouplist" := YList (remove_first username l)]> e :: es)
          | YStr _ => raise AttributeError (MsgInterp "str has no attribute remove")
          end
        else ok (e :: es)
      else
        let? es' := drop_member username groupname es in ok (e :: es')
  end.

Definition remove_user_from_group (username groupname : string) : St table unit :=
  let! file_dict := load_yaml in
  let! exists_ := group_exist groupname in
  if negb exists_ then throw PlainException (MsgGroupNotExist groupname) else
  let! file_dict := lift (drop_member username groupname file_dict) in
  write_yaml file_dict.

(** [get_users_of_group] *)
Definition get_users_of_group (groupname : string) : St table yval :=
  let! file_dict := load_yaml in
  let! found := lift (find_entry "groupname" (YStr groupname) file_dict) in
  match found with
  | Some e => lift (getitem e "grouplist")
  | None => throw UnboundLocalError (MsgInterp "groups_users")
  end.

(** [get_groups_of_user] *)
Fixpoint groups_of (username : string) (entries : table) : result (list yval) :=
  match entries with
  | [] => ok []
  | e :: es =>
      let? gl := getitem e "grouplist" in
      if member username gl then
        let? g := getitem e "groupname" in
        let? gs := groups_of username es in ok (g :: gs)
      else groups_of username es
  end.

Definition get_groups_of_user (username : string) : St table (list yval) :=
  let! file_dict := load_yaml in
  lift (groups_of username file_dict).

Definition get_etc_group_string : St table string :=
  get_file_string str_attr.

(** The body of the loop of [get_group_info] for the matching entry. *)
Definition group_of_entry (e : entry) : result Group :=
  let? v := getitem e "teamname" in
  let? teamname := Types.TeamName (to_py v) in
  let? v := getitem e "groupname" in
  let? groupname := Types.UbuntuName (to_py v) in
  let? password := getitem e "password" in
  let? ut := getitem e "usertype" in
  let? v := getitem e "gid" in
  let? g := int v in
  let? gid :=
    if bool_decide (ut = YStr "individual") then Types.RangedId Types.UserGid (PyInt g)
    else if bool_decide (ut = YStr "group") then Types.RangedId Types.GroupGid (PyInt g)
    else ok g in
  let? grouplist := getitem e "grouplist" in
  let? v := getitem e "status" in
  let? status := Types.UserStatus (to_py v) in
  let? v := getitem e "usertype" in
  let? usertype := Types.UserType (to_py v) in
  ok {| teamname := teamname; groupname := groupname; password := password;
        gid := PyInt gid; grouplist := grouplist; status := status;
        usertype := usertype |}.

(** [get_group_info]; [id] stands for [str(id)]. *)
Definition get_group_info (id : string) (id_type : string) : St table Group :=
  let! file_dict := load_yaml in
  let! found := lift (find_entry id_type (YStr id) file_dict) in
  match found with
  | Some e => lift (group_of_entry e)
  | None => throw RuntimeError (MsgGroupInfoNotExist id)
  end.

(** *** Deactivation, membership queries and the entry of a group *)

(** [group_active]: the status of the first entry named [groupname]. *)
Definition group_active (groupname : string) : St table bool :=
  let! file_dict := load_yaml in
  let! found := lift (find_entry "groupname" (YStr groupname) file_dict) in
  match found with
  | Some e =>
      let! status := lift (getitem e "status") in
      ret (bool_decide (status = YStr "active"))
  | None => throw UnboundLocalError (MsgInterp "group_active")
  end.

(** [delete_group]; [groupname] is the argument after [str(groupname)]. *)
Definition delete_group (groupname : string) : St table unit :=
  let! file_dict := load_yaml in
  let! file_dict := lift (Users.deactivate_first "groupname" groupname file_dict) in
  write_yaml file_dict.

(** [is_user_in_group] *)
Definition is_user_in_group (username groupname : string) : St table bool :=
  let! file_dict := load_yaml in
  let! exists_ := group_exist groupname in
  if negb exists_ then throw PlainException (MsgGroupNotExist groupname) else
  let! found := lift (find_entry "groupname" (YStr groupname) file_dict) in
  match found with
  | Some e =>
      let! gl := lift (getitem e "grouplist") in
      ret (member username gl)
  | None => throw UnboundLocalError (MsgInterp "user_in_group")
  end.

(** The loop of [remove_user_from_all_groups]. *)
Fixpoint drop_everywhere (username : string) (entries : table) : result table :=
  match entries with
  | [] => ok []
  | e :: es =>
      let? gl := getitem e "grouplist" in
      let? e' :=
        if member username gl then
          match gl with
          | YList l =>
              ok (<["grouplist" := YList (remove_first username l)]> e)
          | YStr _ => raise AttributeError (MsgInterp "str has no attribute remove")
          end
        else ok e in
      let? es' := drop_everywhere username es in
      ok (e' :: es')
  end.

Definition remove_user_from_all_groups (username : string) : St table unit :=
  let! file_dict := load_yaml in
  let! file_dict := lift (drop_everywhere username file_dict) in
  write_yaml file_dict.

(** [get_active_group_string]; the member lists it joins in memory are not
    written back. *)
Definition get_active_group_string : St table string :=
  let! file_dict := load_yaml in
  lift (let? lines :=
          Users.active_lines
            (λ group,
               let? gl := getitem group "grouplist" in
               let group := <["grouplist" := YStr (join_grouplist gl)]> group in
               let? values := mapM (getitem group) str_attr in
               let? fields := mapM as_str values in
               ok (Str.join ":" fields)) file_dict in
        ok (Str.join (String (ascii_of_N 10) "") lines)).


(** The entry [create_new_group] appends for the [Group] it returns. *)
Definition group_dict (grp : Group) : entry :=
  let str_of (v : pyval) : string :=
    match v with PyInt z => Str.of_Z z | _ => "None" end in
  <["usertype" := YStr (usertype grp)]> $
  <["status" := YStr (status grp)]> $
  <["grouplist" := YList []]> $ <["gid" := YStr (str_of (gid grp))]> $
  <["password" := YStr "x"]> $ <["groupname" := YStr (groupname grp)]> $
  <["teamname" := YStr (teamname grp)]> ∅.

End Groups.

(* ===================================================================== *)
(** ** main.py                                                            *)
(* ===================================================================== *)

Module Main.
Import TableIO.

(** The two YAML files of [UidGidApi], and how many times [uuid.uuid4()]
    has been called.  Logging, the file lock, directory creation and the
    backup copies do not touch the two tables; they are left out, which
    amounts to taking them to succeed. *)
Record store := Store {
  users : table;       (* all_users.yaml *)
  groups : table;      (* all_groups.yaml *)
  uuid4_calls : nat;
}.

(** A method of [self.users] / [self.groups] run on the matching file. *)
Definition in_users {A} (m : St table A) : St store A :=
  λ s, let '(r, t) := m (users s) in (r, Store t (groups s) (uuid4_calls s)).

Definition in_groups {A} (m : St table A) : St store A :=
  λ s, let '(r, t) := m (groups s) in (r, Store (users s) t (uuid4_calls s)).

(** [str(uuid.uuid4())] *)
Definition fresh_uuid (w : world) : St store string :=
  λ s, (ok (uuid4 w (uuid4_calls s)),
        Store (users s) (groups s) (S (uuid4_calls s))).

Record SpawnInfo := {
  uid : pyval;
  gid : pyval;             (* active group *)
  all_user_gids : list Z;  (* all groups *)
  username : string;
  groupname : string;      (* active group *)
  etc_passwd : string;
  etc_group : string;
}.

(** A name that goes into a [set]: a list is not hashable. *)
Definition hashable (v : yval) : result string :=
  match v with
  | YStr s => ok s
  | YList _ => raise TypeError (MsgInterp "unhashable type: list")
  end.

(** The property [all_names]. *)
Definition all_names : St store (list string) :=
  let! all_usernames := in_users Users.load_all_usernames in
  let! all_groupnames := in_groups Groups.load_all_groupnames in
  lift (mapM hashable (all_usernames ++ all_groupnames)).

Definition add_member (username groupname : string) : St store unit :=
  in_groups (Groups.add_user_to_group username groupname) ;!
  (* the log line formats the group *)
  in_groups (Groups.get_group_info groupname "groupname") ;!
  ret tt.

Definition remove_member (username groupname : string) : St store unit :=
  in_groups (Groups.remove_user_from_group username groupname) ;!
  in_groups (Groups.get_group_info groupname "groupname") ;!
  ret tt.

Definition create_or_fetch_user (w : world) (stsci_uuid stsci_ezid : string)
    : St store (string * pyval) :=
  let! exists_ := in_users (Users.user_exist stsci_uuid "uuid") in
  if negb exists_ then
    let! names := all_names in
    let! user :=
      in_users (Users.add_user w (Users.TypedUuid stsci_uuid) stsci_ezid
                  None None None None "individual" names) in
    let! teamname := lift (Types.TeamName (PyStr (Users.ezid user))) in
    let! groupname := lift (Types.GroupName (PyStr (Users.username user))) in
    let! gid := lift (Types.RangedId Types.UserGid (Users.uid user)) in
    let! names := all_names in
    let! personal_group :=
      in_groups (Groups.create_new_group w teamname (Some groupname) (Some gid)
                   "individual" names) in
    let! username := lift (Types.UserName (PyStr (Users.username user))) in
    add_member username (Groups.groupname personal_group) ;!
    ret (Users.username user, Users.uid user)
  else
    let! user := in_users (Users.get_user_info stsci_uuid "uuid") in
    let! groupname := lift (Types.GroupName (PyStr (Users.username user))) in
    in_groups (Groups.get_group_info groupname "groupname") ;!
    ret (Users.username user, Users.uid user).

(** [group.gid >= GroupGid.min_id] *)
Definition ge_min (v : pyval) : result bool :=
  match Types.as_int v with
  | Some z => ok (Types.min_id Types.GroupGid <=? z)%Z
  | None => raise TypeError (MsgInterp ">= not supported")
  end.

Definition create_or_fetch_group (w : world) (username teamname : string)
    : St store unit :=
  let! exists_ := in_groups (Groups.team_exist teamname) in
  if negb exists_ then
    let! group := in_groups (Groups.create_new_group w teamname None None "group" []) in
    let! u := fresh_uuid w in
    let ezid := Groups.groupname group +:+ "-admin" in
    let! uid := lift (Types.RangedId Types.GroupAdminUid (Groups.gid group)) in
    let! gid := lift (Types.RangedId Types.GroupGid (Groups.gid group)) in
    let! names := all_names in
    in_users (Users.add_user w (Users.PlainUuid u) ezid None (Some uid) (Some gid)
                None "group" names) ;!
    add_member username (Groups.groupname group) ;!
    let! admin := lift (Types.UserName (PyStr (Groups.groupname group +:+ "-admin"))) in
    add_member admin (Groups.groupname group)
  else
    let! group := in_groups (Groups.get_group_info teamname "teamname") in
    let! assigned := lift (ge_min (Groups.gid group)) in
    (if assigned then
       (* non-system / uidgid assigned groups only *)
       let! uid := lift (Types.RangedId Types.GroupAdminUid (Groups.gid group)) in
       in_users (Users.get_user_info (Str.of_Z uid) "uid") ;! ret tt
     else ret tt) ;!
    let! members := in_groups (Groups.get_users_of_group (Groups.groupname group)) in
    if negb (Groups.member username members) then
      add_member username (Groups.groupname group)
    else ret tt.

Definition teamnames_to_groupnames (teamnames : list string) : St store (list string) :=
  let fix go (ts : list string) : St store (list string) :=
    match ts with
    | [] => ret []
    | t :: ts' =>
        let! g := in_groups (Groups.get_group_info t "teamname") in
        let! gs := go ts' in
        ret (Groups.groupname g :: gs)
    end in
  go teamnames.

Definition remove_obsolete_group_memberships (username : string)
    (team_names : list string) : St store unit :=
  let! group_names := in_groups (Groups.get_groups_of_user username) in
  let! team_groups := teamnames_to_groupnames team_names in
  for_each group_names (λ groupname,
    let! own := lift (Types.GroupName (PyStr username)) in
    (* comparing a list with a name raises *)
    let! groupname := lift (hashable groupname) in
    if negb (str_in groupname (team_groups ++ [own])) then
      remove_member username groupname
    else ret tt).

Definition _locked_get_spawn_info (w : world)
    (stsci_uuid stsci_ezid active_team : string) (teams : list string)
    : St store SpawnInfo :=
  (* check for user does not exist, add user, add personal group *)
  let! (username, uid) := create_or_fetch_user w stsci_uuid stsci_ezid in
  (* creation of specified team groups, their admin users, and memberships *)
  for_each teams (λ teamname, create_or_fetch_group w username teamname) ;!
  (* Spawner defines truth, if team name not listed, remove user from team. *)
  remove_obsolete_group_memberships username teams ;!
  (* Ensure user actually is in the active group. *)
  let! own_team := lift (Types.TeamName (PyStr stsci_ezid)) in
  let! g_info :=
    if str_in active_team (teams ++ [own_team]) then
      in_groups (Groups.get_group_info active_team "teamname")
    else throw ValueError (MsgActiveTeamNotInTeams active_team teams) in
  let! group_names := in_groups (Groups.get_groups_of_user username) in
  let! gids :=
    (fix go (gs : list yval) : St store (list Z) :=
       match gs with
       | [] => ret []
       | g :: gs' =>
           let! z := in_groups (Groups.lookup_gid g "groupname") in
           let! zs := go gs' in ret (z :: zs)
       end) group_names in
  let all_user_gids := merge_sort Z.le gids in
  let! etc_passwd := in_users Users.get_etc_passwd_string in
  let! etc_group := in_groups Groups.get_etc_group_string in
  ret {| uid := uid; gid := Groups.gid g_info; all_user_gids := all_user_gids;
         username := username; groupname := Groups.groupname g_info;
         etc_passwd := etc_passwd; etc_group := etc_group |}.

Definition get_spawn_info (w : world) (stsci_uuid stsci_ezid active_team : pyval)
    (teams : list pyval) : St store SpawnInfo :=
  let! stsci_uuid := lift (Types.StsciUuid stsci_uuid) in
  let! stsci_ezid := lift (Types.StsciEzid stsci_ezid) in
  let! active_team := lift (Types.TeamName active_team) in
  let! teams := lift (mapM Types.TeamName teams) in
  _locked_get_spawn_info w stsci_uuid stsci_ezid active_team teams.

End Main.

(* ===================================================================== *)
(** ** Memberships in the group table                                     *)
(* ===================================================================== *)

Module Roster.

(** What the group table says about who is in which group, and how the
    table of one moment relates to the table of a later one. *)

(** [username in entry["grouplist"]] *)
Definition in_group (username : string) (e : entry) : bool :=
  match e !! "grouplist" with
  | Some gl => Groups.member username gl
  | None => false
  end.

(** Some entry named [groupname] lists [username]. *)
Definition is_member (username groupname : string) (entries : table) : Prop :=
  ∃ e, e ∈ entries ∧ e !! "groupname" = Some (YStr groupname)
       ∧ in_group username e = true.

(** A member list names nobody twice (a [grouplist] that is a string, as
    in the base groups, counts as such). *)
Definition distinct_members (e : entry) : bool :=
  match e !! "grouplist" with
  | Some (YList l) => bool_decide (NoDup l)
  | _ => true
  end.

(** No two entries share a group name and no member list names a user
    twice. *)
Definition well_formed (entries : table) : Prop :=
  NoDup ((λ e : entry, e !! "groupname") <$> entries)
  ∧ forallb distinct_members entries = true.

(** Two entries that differ in their member list at most. *)
Definition kin (e e' : entry) : Prop :=
  (∀ k, k ≠ "grouplist" → e' !! k = e !! k)
  ∧ (is_Some (e !! "grouplist") → is_Some (e' !! "grouplist")).

(** [e'] is [e] with members added. *)
Definition gains (e e' : entry) : Prop :=
  kin e e'
  ∧ (∀ x, in_group x e = true → in_group x e' = true)
  ∧ (distinct_members e = true → distinct_members e' = true).

(** [e'] is [e] with [u] removed, and is [e] when the group is one to
    keep. *)
Definition loses (u : string) (keep : list string) (e e' : entry) : Prop :=
  kin e e'
  ∧ (in_group u e' = true → in_group u e = true)
  ∧ (distinct_members e = true → distinct_members e' = true)
  ∧ (∀ g, e !! "groupname" = Some (YStr g) → g ∈ keep → e' = e).

(** The later table has the entries of the earlier one, with members
    added, followed by new entries. *)
Definition grows (tbl tbl' : table) : Prop :=
  ∃ tbl1 extra, tbl' = tbl1 ++ extra ∧ Forall2 gains tbl tbl1.

(** The first entry of team [t] is the group named [g]. *)
Definition team_entry (t g : string) (tbl : table) : Prop :=
  ∃ e, Groups.find_entry "teamname" (YStr t) tbl = ok (Some e)
       ∧ e !! "groupname" = Some (YStr g).

(** *** How one call changes an entry or a table *)

(** No entry of [pre] has the value [v] under [key], and each has some
    value there. *)
Definition none_before (key : string) (v : yval) (pre : table) : Prop :=
  ∀ e, e ∈ pre → ∃ x, e !! key = Some x ∧ x ≠ v.

(** What [remove_user_from_all_groups] does to one entry. *)
Definition cleared (u : string) (e e' : entry) : Prop :=
  kin e e'
  ∧ is_Some (e !! "grouplist") ∧ is_Some (e' !! "grouplist")
  ∧ (distinct_members e = true → in_group u e' = false)
  ∧ (∀ v, v ≠ u → in_group v e' = in_group v e).

(** The later store has every user entry of the earlier one, unchanged and
    in place, and every group entry, changed in its member list at most;
    new entries follow. *)
Definition extends (s s' : Main.store) : Prop :=
  (∃ extra, Main.users s' = Main.users s ++ extra)
  ∧ (∃ tbl1 extra, Main.groups s' = tbl1 ++ extra
                   ∧ Forall2 kin (Main.groups s) tbl1).

(** [m] keeps what the registry holds, whatever its outcome. *)
Definition keeps {A} (m : St Main.store A) : Prop := ∀ s, extends s (m s).2.

(** The same for a method of one table: [m] appends at most, or appends
    and changes member lists at most. *)
Definition appends {A} (m : St table A) : Prop :=
  ∀ tbl, ∃ extra, (m tbl).2 = tbl ++ extra.

Definition revises {A} (m : St table A) : Prop :=
  ∀ tbl, ∃ tbl1 extra, (m tbl).2 = tbl1 ++ extra ∧ Forall2 kin tbl tbl1.

End Roster.

(* ===================================================================== *)
(** ** backup.py: the transport encoding                                  *)
(* ===================================================================== *)

Module Backup.

Local Open Scope N_scope.

(** [encode] and [decode] at their default encoding, utf-8.  The codecs
    are the Python standard library's: base64 and utf-8 are written out,
    [bz2] is a pair of functions the definitions take as arguments. *)

(** Python [bytes], and a Python [str] as its code points (the strings of
    this module are compared with nothing else). *)
Abbreviation bytes := (list Byte.byte).
Abbreviation text := (list N).

(** The byte of value [n mod 256]. *)
Definition byte_of (n : N) : Byte.byte :=
  default Byte.x00 (Byte.of_N (n mod 256)).

(** *** [base64] of the standard library (RFC 4648, section 4) *)

Definition table_b2a (n : N) : N :=
  if n <? 26 then 65 + n
  else if n <? 52 then 97 + (n - 26)
  else if n <? 62 then 48 + (n - 52)
  else if n =? 62 then 43
  else 47.

Definition table_a2b (c : N) : option N :=
  if (65 <=? c) && (c <=? 90) then Some (c - 65)
  else if (97 <=? c) && (c <=? 122) then Some (c - 97 + 26)
  else if (48 <=? c) && (c <=? 57) then Some (c - 48 + 52)
  else if c =? 43 then Some 62
  else if c =? 47 then Some 63
  else None.

Definition BASE64_PAD : N := 61.

Definition digit (n : N) : Byte.byte := byte_of (table_b2a n).
Definition pad : Byte.byte := byte_of BASE64_PAD.

(** [base64.b64encode]: three bytes give four digits; one or two bytes
    left over give two or three digits and padding. *)
Fixpoint b64encode (s : bytes) : bytes :=
  match s with
  | [] => []
  | [a] =>
      let a := Byte.to_N a in
      [digit (a / 4); digit (a mod 4 * 16); pad; pad]
  | [a; b] =>
      let a := Byte.to_N a in let b := Byte.to_N b in
      [digit (a / 4); digit (a mod 4 * 16 + b / 16); digit (b mod 16 * 4); pad]
  | a :: b :: c :: s' =>
      let a := Byte.to_N a in let b := Byte.to_N b in let c := Byte.to_N c in
      digit (a / 4) :: digit (a mod 4 * 16 + b / 16)
      :: digit (b mod 16 * 4 + c / 64) :: digit (c mod 64) :: b64encode s'
  end.

(** [binascii.a2b_base64] without strict mode, which [base64.b64decode]
    calls: characters outside the alphabet are skipped, padding that
    completes a group of four ends the data, and data that ends inside a
    group is an error. *)
Fixpoint a2b_base64 (quad_pos leftchar pads : N) (data : bytes) : result bytes :=
  match data with
  | [] =>
      if quad_pos =? 0 then ok []
      else if quad_pos =? 1 then raise BinasciiError MsgBase64DataCharacters
      else raise BinasciiError MsgIncorrectPadding
  | ch :: data' =>
      let c := Byte.to_N ch in
      if c =? BASE64_PAD then
        if 2 <=? quad_pos then
          if 4 <=? quad_pos + (pads + 1) then ok []
          else a2b_base64 quad_pos leftchar (pads + 1) data'
        else a2b_base64 quad_pos leftchar pads data'
      else
        match table_a2b c with
        | None => a2b_base64 quad_pos leftchar pads data'
        | Some v =>
            if quad_pos =? 0 then a2b_base64 1 v 0 data'
            else if quad_pos =? 1 then
              rmap (cons (byte_of (leftchar * 4 + v / 16)))
                (a2b_base64 2 (v mod 16) 0 data')
            else if quad_pos =? 2 then
              rmap (cons (byte_of (leftchar * 16 + v / 4)))
                (a2b_base64 3 (v mod 4) 0 data')
            else
              rmap (cons (byte_of (leftchar * 64 + v)))
                (a2b_base64 0 0 0 data')
        end
  end.

Definition b64decode (s : bytes) : result bytes := a2b_base64 0 0 0 s.

(** *** The utf-8 codec *)

Definition continuation (c : N) : bool := (128 <=? c) && (c <=? 191).

(** [bytes.decode("utf-8")] *)
Fixpoint utf8_decode (data : bytes) : result text :=
  match data with
  | [] => ok []
  | b0 :: rest =>
      let c0 := Byte.to_N b0 in
      if c0 <? 128 then rmap (cons c0) (utf8_decode rest)
      else if (194 <=? c0) && (c0 <=? 223) then
        match rest with
        | b1 :: rest =>
            let c1 := Byte.to_N b1 in
            if continuation c1
            then rmap (cons ((c0 - 192) * 64 + (c1 - 128))) (utf8_decode rest)
            else raise UnicodeDecodeError MsgCodec
        | _ => raise UnicodeDecodeError MsgCodec
        end
      else if (224 <=? c0) && (c0 <=? 239) then
        match rest with
        | b1 :: b2 :: rest =>
            let c1 := Byte.to_N b1 in let c2 := Byte.to_N b2 in
            if continuation c1 && continuation c2
               && (negb (c0 =? 224) || (160 <=? c1))
               && (negb (c0 =? 237) || (c1 <=? 159))
            then rmap (cons ((c0 - 224) * 4096 + (c1 - 128) * 64 + (c2 - 128)))
                   (utf8_decode rest)
            else raise UnicodeDecodeError MsgCodec
        | _ => raise UnicodeDecodeError MsgCodec
        end
      else if (240 <=? c0) && (c0 <=? 244) then
        match rest with
        | b1 :: b2 :: b3 :: rest =>
            let c1 := Byte.to_N b1 in let c2 := Byte.to_N b2 in
            let c3 := Byte.to_N b3 in
            if continuation c1 && continuation c2 && continuation c3
               && (negb (c0 =? 240) || (144 <=? c1))
               && (negb (c0 =? 244) || (c1 <=? 143))
            then rmap (cons ((c0 - 240) * 262144 + (c1 - 128) * 4096
                             + (c2 - 128) * 64 + (c3 - 128)))
                   (utf8_decode rest)
            else raise UnicodeDecodeError MsgCodec
        | _ => raise UnicodeDecodeError MsgCodec
        end
      else raise UnicodeDecodeError MsgCodec
  end.

Definition utf8_char (cp : N) : result bytes :=
  if cp <? 128 then ok [byte_of cp]
  else if cp <? 2048 then ok [byte_of (192 + cp / 64); byte_of (128 + cp mod 64)]
  else if cp <? 65536 then
    if (55296 <=? cp) && (cp <=? 57343) then raise UnicodeEncodeError MsgCodec
    else ok [byte_of (224 + cp / 4096); byte_of (128 + cp / 64 mod 64);
             byte_of (128 + cp mod 64)]
  else if cp <? 1114112 then
    ok [byte_of (240 + cp / 262144); byte_of (128 + cp / 4096 mod 64);
        byte_of (128 + cp / 64 mod 64); byte_of (128 + cp mod 64)]
  else raise UnicodeEncodeError MsgCodec.

(** [str.encode("utf-8")] *)
Definition utf8_encode (s : text) : result bytes :=
  rmap (λ chunks, List.concat chunks) (mapM utf8_char s).

(** *** [encode] and [decode] *)

Section bz2.

(** [bz2.compress] and [bz2.decompress] of the standard library. *)
Variable compress : bytes → bytes.
Variable decompress : bytes → result bytes.

Definition encode (data : bytes) : result text :=
  utf8_decode (b64encode (compress data)).

Definition decode (data : text) : result bytes :=
  let? raw := utf8_encode data in
  let? packed := b64decode raw in
  decompress packed.

End bz2.

End Backup.

(* ===================================================================== *)
(** ** Sequences of calls on the user registry                            *)
(* ===================================================================== *)

Module Calls.

(** A call of [add_user] that leaves [uid] to the registry, or a call of
    [delete_user]. *)
Inductive call :=
| NewUser (uuid : Users.uuid_arg) (ezid : string) (username : option string)
    (gid : option Z) (home : option string) (usertype : string)
    (existing_names : list string)
| Deactivate (id id_type : string).

(** The user type and uid of the user a call created, if it created one,
    and the table as the call leaves it. *)
Definition run (w : world) (c : call) (tbl : table) : option (string * Z) * table :=
  match c with
  | NewUser uuid ezid username gid home usertype existing_names =>
      match Users.add_user w uuid ezid username None gid home usertype
              existing_names tbl with
      | (inr user, tbl') =>
          (match Users.uid user with
           | PyInt u => Some (Users.usertype user, u)
           | _ => None
           end, tbl')
      | (inl _, tbl') => (None, tbl')
      end
  | Deactivate id id_type => (None, snd (Users.delete_user id id_type tbl))
  end.

(** The uids issued by a sequence of calls, oldest first. *)
Fixpoint issued (w : world) (cs : list call) (tbl : table) : list (string * Z) :=
  match cs with
  | [] => []
  | c :: cs' =>
      let '(i, tbl') := run w c tbl in
      match i with
      | Some p => p :: issued w cs' tbl'
      | None => issued w cs' tbl'
      end
  end.

(** The integers found in the [uid] column of a table. *)
Definition has_uid (tbl : table) (v : Z) : Prop :=
  ∃ e s, e ∈ tbl ∧ e !! "uid" = Some (YStr s) ∧ Str.to_Z s = Some v.

(** The class of the uids [get_new_uid] hands out for a user type. *)
Definition range_of (usertype : string) : option Types.ranged_class :=
  if String.eqb usertype "individual" then Some Types.UserUid
  else if String.eqb usertype "group" then Some Types.GroupAdminUid
  else None.

(** The uids issued to users of type [usertype]. *)
Definition issued_to (usertype : string) (l : list (string * Z)) : list Z :=
  snd <$> filter (λ p, p.1 = usertype) l.

End Calls.
Import Calls.

(* ===================================================================== *)
(** ** A freshly initialised service                                      *)
(* ===================================================================== *)

Module Fresh.

Definition nl : string := String (ascii_of_N 10) "".

(** Modelled from the spec: the module [uidgid.base] is not part of the
    sources at hand; the base passwd and group texts and the lists of base
    names below are the ones the test suite expects ([test_users.py],
    [test_groups.py]): the base lines of an Ubuntu image. *)
Definition EtcPasswd_Base : string := Str.join nl
  [ "root:x:0:0:root:/root:/bin/bash";
     "daemon:x:1:1:daemon:/usr/sbin:/usr/sbin/nologin";
     "bin:x:2:2:bin:/bin:/usr/sbin/nologin";
     "sys:x:3:3:sys:/dev:/usr/sbin/nologin";
     "sync:x:4:65534:sync:/bin:/bin/sync";
     "games:x:5:60:games:/usr/games:/usr/sbin/nologin";
     "man:x:6:12:man:/var/cache/man:/usr/sbin/nologin";
     "lp:x:7:7:lp:/var/spool/lpd:/usr/sbin/nologin";
     "mail:x:8:8:mail:/var/mail:/usr/sbin/nologin";
     "news:x:9:9:news:/var/spool/news:/usr/sbin/nologin";
     "uucp:x:10:10:uucp:/var/spool/uucp:/usr/sbin/nologin";
     "proxy:x:13:13:proxy:/bin:/usr/sbin/nologin";
     "www-data:x:33:33:www-data:/var/www:/usr/sbin/nologin";
     "backup:x:34:34:backup:/var/backups:/usr/sbin/nologin";
     "list:x:38:38:Mailing List Manager:/var/list:/usr/sbin/nologin";
     "irc:x:39:39:ircd:/var/run/ircd:/usr/sbin/nologin";
     "gnats:x:41:41:Gnats Bug-Reporting System (admin):/var/lib/gnats:/usr/sbin/nologin";
     "nobody:x:65534:65534:nobody:/nonexistent:/usr/sbin/nologin";
     "_apt:x:100:65534::/nonexistent:/usr/sbin/nologin";
     "jovyan:x:1000:100::/home/jovyan:/bin/bash";
     "systemd-timesync:x:101:102:systemd Time Synchronization,,,:/run/systemd:/usr/sbin/nologin";
     "systemd-network:x:102:104:systemd Network Management,,,:/run/systemd:/usr/sbin/nologin";
     "systemd-resolve:x:103:105:systemd Resolver,,,:/run/systemd:/usr/sbin/nologin";
     "sshd:x:104:65534::/run/sshd:/usr/sbin/nologin";
     "messagebus:x:105:107::/nonexistent:/usr/sbin/nologin" ].

Definition Base_Usernames : list string :=
  ["root"; "daemon"; "bin"; "sys"; "sync"; "games"; "man"; "lp"; "mail";
   "news"; "uucp"; "proxy"; "www-data"; "backup"; "list"; "irc"; "gnats";
   "nobody"; "_apt"; "jovyan"; "systemd-timesync"; "systemd-network";
   "systemd-resolve"; "sshd"; "messagebus"].

Definition EtcGroup_Base : string := Str.join nl
  [ "root:x:0:";
     "daemon:x:1:";
     "bin:x:2:";
     "sys:x:3:";
     "adm:x:4:";
     "tty:x:5:";
     "disk:x:6:";
     "lp:x:7:";
     "mail:x:8:";
     "news:x:9:";
     "uucp:x:10:";
     "man:x:12:";
     "proxy:x:13:";
     "kmem:x:15:";
     "dialout:x:20:";
     "fax:x:21:";
     "voice:x:22:";
     "cdrom:x:24:";
     "floppy:x:25:";
     "tape:x:26:";
     "sudo:x:27:";
     "audio:x:29:";
     "dip:x:30:";
     "www-data:x:33:";
     "backup:x:34:";
     "operator:x:37:";
     "list:x:38:";
     "irc:x:39:";
     "src:x:40:";
     "gnats:x:41:";
     "shadow:x:42:";
     "utmp:x:43:";
     "video:x:44:";
     "sasl:x:45:";
     "plugdev:x:46:";
     "staff:x:50:";
     "games:x:60:";
     "users:x:100:";
     "nogroup:x:65534:";
     "ssh:x:101:";
     "systemd-timesync:x:102:";
     "systemd-journal:x:103:";
     "systemd-network:x:104:";
     "systemd-resolve:x:105:";
     "crontab:x:106:";
     "messagebus:x:107:" ].

Definition Base_Groupnames : list string :=
  ["root"; "daemon"; "bin"; "sys"; "adm"; "tty"; "disk"; "lp"; "mail"; "news";
   "uucp"; "man"; "proxy"; "kmem"; "dialout"; "fax"; "voice"; "cdrom";
   "floppy"; "tape"; "sudo"; "audio"; "dip"; "www-data"; "backup";
   "operator"; "list"; "irc"; "src"; "gnats"; "shadow"; "utmp"; "video";
   "sasl"; "plugdev"; "staff"; "games"; "users"; "nogroup"; "ssh";
   "systemd-timesync"; "systemd-journal"; "systemd-network";
   "systemd-resolve"; "crontab"; "messagebus"].

(** On ASCII text [unidecode] is the identity; no [DEPLOYMENT_NAME]; the
    uuids handed out by [uuid4] are numbered. *)
Definition env : world :=
  World (λ s, s) None
    (λ n, Str.take 36 ("00000000-0000-4000-8000-" +:+
                        Str.take (12 - String.length (pretty n)) "000000000000"
                        +:+ pretty n)).

(** The store after [UidGidApi()] on an empty directory. *)
Definition store : result Main.store :=
  let? u := Users.init EtcPasswd_Base Base_Usernames in
  let? g := Groups.init EtcGroup_Base Base_Groupnames in
  ok (Main.Store u g 0).

(** What a call, or a sequence of calls, on the new store ends in. *)
Definition outcome {A} (m : St Main.store A) : result (result A) :=
  let? s := store in ok (m s).1.

(** The store a call leaves when made on the new store. *)
Definition after {A} (m : St Main.store A) : Main.store :=
  match store with
  | inr s => (m s).2
  | inl _ => Main.Store [] [] 0
  end.

(** A user of teams A, B and C, and the same user once the teams are A
    and D. *)
Definition in_abc : Main.store :=
  after (Main.get_spawn_info env
           (PyStr "11111111111111111111111111111111") (PyStr "user_1")
           (PyStr "A") [PyStr "A"; PyStr "B"; PyStr "C"]).

Definition to_ad : Main.store :=
  (Main.get_spawn_info env
     (PyStr "11111111111111111111111111111111") (PyStr "user_1")
     (PyStr "A") [PyStr "A"; PyStr "D"] in_abc).2.

End Fresh.

(* ===================================================================== *)
(** * Theorems                                                            *)
(* ===================================================================== *)

(** C8 (as amended).  Constructing a ranged identifier of any of the six
    classes from an integer outside [[min_id, max_id]] raises, and the
    exception is a [ValueError] carrying the range message; from a value
    that is not an integer it raises a [TypeError]; from an integer inside
    the range it succeeds and yields that integer. *)
Theorem ranged_id_construction (cls : Types.ranged_class) (value : pyval) :
  (∀ z, Types.as_int value = Some z →
        (z < Types.min_id cls ∨ Types.max_id cls < z)%Z →
        Types.RangedId cls value =
          raise ValueError (MsgNotInRange (Types.min_id cls) (Types.max_id cls)))
  ∧ (Types.as_int value = None →
        Types.RangedId cls value = raise TypeError MsgNotInteger)
  ∧ (∀ z, Types.as_int value = Some z →
        (Types.min_id cls ≤ z ≤ Types.max_id cls)%Z →
        Types.RangedId cls value = ok z).
Proof.
  unfold Types.RangedId, Types.validate.
  split; [|split].
  - intros z -> Hz.
    destruct (Z.ltb_spec z (Types.min_id cls)), (Z.gtb_spec z (Types.max_id cls));
      simpl; try reflexivity; lia.
  - intros ->. reflexivity.
  - intros z -> Hz.
    destruct (Z.ltb_spec z (Types.min_id cls)), (Z.gtb_spec z (Types.max_id cls));
      simpl; try reflexivity; lia.
Qed.

(** C8, the claim as written fails: [SystemUid(1000)] raises an exception
    whose class is [ValueError]; no exception class named RangeError is
    involved. *)
Lemma ranged_id_out_of_range_is_value_error :
  ∃ e, Types.RangedId Types.SystemUid (PyInt 1000) = inl e
       ∧ class_name (exn_cls e) = "ValueError"
       ∧ class_name (exn_cls e) ≠ "RangeError".
Proof.
  eexists. split; [reflexivity|]. split; [reflexivity|]. discriminate.
Qed.

Lemma ranged_id_construction_witness :
  Types.RangedId Types.SystemUid (PyInt 1000) = raise ValueError (MsgNotInRange 0 999)
  ∧ Types.RangedId Types.SystemUid (PyStr "foo") = raise TypeError MsgNotInteger
  ∧ Types.RangedId Types.UserUid (PyInt 1001) = ok 1001%Z.
Proof.
  split; [|split].
  - apply (proj1 (ranged_id_construction Types.SystemUid (PyInt 1000)) 1000%Z).
    + reflexivity.
    + right. reflexivity.
  - apply (proj1 (proj2 (ranged_id_construction Types.SystemUid (PyStr "foo")))).
    reflexivity.
  - apply (proj2 (proj2 (ranged_id_construction Types.UserUid (PyInt 1001))) 1001%Z).
    + reflexivity.
    + split; discriminate.
Defined.

(* --------------------------------------------------------------------- *)
(** ** users.py: [delete_user]                                            *)
(* --------------------------------------------------------------------- *)

Lemma deactivate_first_no_match (id id_type : string) (tbl : table) :
  (∀ e, e ∈ tbl → is_Some (e !! id_type)) →
  (∀ e, e ∈ tbl → e !! id_type ≠ Some (YStr id)) →
  Users.deactivate_first id_type id tbl = ok tbl.
Proof.
  induction tbl as [|e es IH]; intros Hkey Hno; [done|].
  cbn [Users.deactivate_first].
  destruct (Hkey e) as [v Hv]; [left|].
  unfold TableIO.getitem. rewrite Hv. cbn.
  rewrite bool_decide_eq_false_2.
  2:{ intros ->. by apply (Hno e); [left|]. }
  rewrite IH; [done| |]; intros e' He'; [apply Hkey|apply Hno]; by right.
Qed.

Lemma deactivate_first_match (id id_type : string) (pre post : table) (e : entry) :
  (∀ e', e' ∈ pre → is_Some (e' !! id_type)) →
  (∀ e', e' ∈ pre → e' !! id_type ≠ Some (YStr id)) →
  e !! id_type = Some (YStr id) →
  Users.deactivate_first id_type id (pre ++ e :: post)
  = ok (pre ++ <["status" := YStr "deactivated"]> e :: post).
Proof.
  intros Hkey Hno He.
  induction pre as [|e0 pre IH]; cbn [app Users.deactivate_first].
  - unfold TableIO.getitem. rewrite He. cbn.
    by rewrite bool_decide_eq_true_2.
  - destruct (Hkey e0) as [v Hv]; [left|].
    unfold TableIO.getitem. rewrite Hv. cbn.
    rewrite bool_decide_eq_false_2.
    2:{ intros ->. by apply (Hno e0); [left|]. }
    fold (TableIO.getitem). rewrite IH; [done| |];
      intros e' He'; [apply Hkey|apply Hno]; by right.
Qed.

(** C10.  On a user table all of whose records carry the field [id_type]:
    if no record's [id_type] field equals [str(id)], [delete_user] raises
    nothing and writes the table back unchanged; otherwise the first
    matching record gets status ["deactivated"], every other field of that
    record and every other record stay as they were. *)
Theorem delete_user_frame (id id_type : string) (tbl : table) :
  (∀ e, e ∈ tbl → is_Some (e !! id_type)) →
  ((∀ e, e ∈ tbl → e !! id_type ≠ Some (YStr id)) →
     Users.delete_user id id_type tbl = (ok tt, tbl))
  ∧ (∀ pre e post,
       tbl = pre ++ e :: post →
       (∀ e', e' ∈ pre → e' !! id_type ≠ Some (YStr id)) →
       e !! id_type = Some (YStr id) →
       Users.delete_user id id_type tbl
         = (ok tt, pre ++ <["status" := YStr "deactivated"]> e :: post)
       ∧ ∀ key, key ≠ "status" →
           (<["status" := YStr "deactivated"]> e) !! key = e !! key).
Proof.
  intros Hkey. split.
  - intros Hno. cbv [Users.delete_user bind TableIO.load_yaml lift].
    by rewrite deactivate_first_no_match.
  - intros pre e post -> Hno He. split.
    + cbv [Users.delete_user bind TableIO.load_yaml lift].
      rewrite deactivate_first_match; [done| |done..].
      intros e' He'. apply Hkey. apply elem_of_app. by left.
    + intros key Hne. by rewrite lookup_insert_ne.
Qed.

Lemma delete_user_frame_witness :
  let e1 : entry := {[ "uuid" := YStr "a"; "status" := YStr "active" ]} in
  let e2 : entry := {[ "uuid" := YStr "b"; "status" := YStr "active" ]} in
  Users.delete_user "c" "uuid" [e1; e2] = (ok tt, [e1; e2])
  ∧ Users.delete_user "b" "uuid" [e1; e2]
    = (ok tt, [e1; <["status" := YStr "deactivated"]> e2]).
Proof.
  intros e1 e2.
  assert (Hkey : ∀ e : entry, e ∈ [e1; e2] → is_Some (e !! "uuid")).
  { apply Forall_forall. repeat constructor; by eexists. }
  split.
  - apply (proj1 (delete_user_frame "c" "uuid" [e1; e2] Hkey)).
    apply Forall_forall. repeat constructor; by vm_compute.
  - apply (proj2 (delete_user_frame "b" "uuid" [e1; e2] Hkey) [e1] e2 []).
    + reflexivity.
    + apply Forall_forall. repeat constructor; by vm_compute.
    + reflexivity.
Defined.

(* --------------------------------------------------------------------- *)
(** ** Columns of a table                                                 *)
(* --------------------------------------------------------------------- *)

Lemma getitem_Some (e : entry) key v :
  e !! key = Some v → TableIO.getitem e key = ok v.
Proof. unfold TableIO.getitem. by intros ->. Qed.

Lemma getitem_ok (e : entry) key v :
  TableIO.getitem e key = ok v → e !! key = Some v.
Proof. unfold TableIO.getitem. destruct (e !! key); naive_solver. Qed.

Lemma mapM_getitem_Forall2 (key : string) (tbl : table) (vs : list yval) :
  mapM (λ e : entry, let? v := TableIO.getitem e key in ok v) tbl = ok vs
  ↔ Forall2 (λ (e : entry) v, e !! key = Some v) tbl vs.
Proof.
  revert vs. induction tbl as [|e es IH]; intros vs; cbn [mapM].
  - split; [intros [= <-]; constructor | by inversion 1].
  - unfold TableIO.getitem at 1.
    destruct (e !! key) as [v|] eqn:He; cbn.
    + destruct (mapM _ es) as [x|vs'] eqn:Hes; cbn.
      * split; [done|]. inversion 1 as [|? v' ? vs' Hv Hvs]; subst.
        by apply IH in Hvs.
      * split.
        -- intros [= <-]. constructor; [done|]. by apply IH.
        -- inversion 1 as [|? v' ? vs'' Hv Hvs]; subst.
           apply IH in Hvs. congruence.
    + split; [done|]. inversion 1; congruence.
Qed.

Lemma column_ok_Forall2 (key : string) (tbl : table) (vs : list yval) :
  Users.column key inr tbl = (ok vs, tbl)
  ↔ Forall2 (λ (e : entry) v, e !! key = Some v) tbl vs.
Proof.
  rewrite <-mapM_getitem_Forall2.
  cbv [Users.column bind TableIO.load_yaml lift].
  split; [intros [= ->]|intros ->]; done.
Qed.

Lemma column_total (key : string) (tbl : table) :
  (∀ e, e ∈ tbl → is_Some (e !! key)) →
  ∃ vs, Users.column key inr tbl = (ok vs, tbl)
        ∧ ∀ v, v ∈ vs ↔ ∃ e, e ∈ tbl ∧ e !! key = Some v.
Proof.
  intros Hkey.
  assert (∃ vs, Forall2 (λ (e : entry) v, e !! key = Some v) tbl vs) as [vs Hvs].
  { induction tbl as [|e es IH]; [by eexists; constructor|].
    destruct (Hkey e) as [v Hv]; [left|].
    destruct IH as [vs Hvs]; [intros; apply Hkey; by right|].
    exists (v :: vs). by constructor. }
  exists vs. split; [by apply column_ok_Forall2|].
  intros v. clear Hkey. induction Hvs as [|e v' es vs' Hv Hvs IH].
  - split; [by inversion 1 | intros (? & H & _); by inversion H].
  - rewrite elem_of_cons, IH. split.
    + intros [->|(e' & ? & ?)]; [exists e | exists e']; split; auto; by constructor.
    + intros (e' & [->|?]%elem_of_cons & He').
      * left. congruence.
      * right. eauto.
Qed.

Lemma in_column_true (x : string) (vs : list yval) :
  Users.in_column x vs = true ↔ YStr x ∈ vs.
Proof. unfold Users.in_column. apply bool_decide_eq_true. Qed.

(* --------------------------------------------------------------------- *)
(** ** groups.py: membership updates                                      *)
(* --------------------------------------------------------------------- *)

Lemma str_in_elem_of (x : string) (xs : list string) :
  str_in x xs = true ↔ x ∈ xs.
Proof.
  unfold str_in. rewrite existsb_exists. split.
  - intros (y & Hy%list_elem_of_In & ->%String.eqb_eq). done.
  - intros Hx. exists x. split; [by apply list_elem_of_In|apply String.eqb_refl].
Qed.

Lemma str_in_false (x : string) (xs : list string) :
  str_in x xs = false ↔ x ∉ xs.
Proof.
  rewrite <-str_in_elem_of. destruct (str_in x xs); naive_solver.
Qed.

(** Both loops stop at the first entry named [groupname]. *)
Lemma append_member_first username groupname (pre post : table) (e : entry) :
  (∀ e', e' ∈ pre → is_Some (e' !! "groupname")) →
  (∀ e', e' ∈ pre → e' !! "groupname" ≠ Some (YStr groupname)) →
  e !! "groupname" = Some (YStr groupname) →
  Groups.append_member username groupname (pre ++ e :: post)
  = rmap (λ e', pre ++ e' :: post)
      (rmap (λ t, default e (head t))
         (Groups.append_member username groupname [e])).
Proof.
  intros Hkey Hpre He.
  remember (Groups.append_member username groupname [e]) as one eqn:Hone.
  induction pre as [|e0 pre' IH].
  - subst one. cbn [app Groups.append_member]. rewrite (getitem_Some _ _ _ He). cbn.
    rewrite bool_decide_eq_true_2 by done.
    destruct (TableIO.getitem e "grouplist") as [x|gl]; cbn; [done|].
    destruct (_ <=? _)%Z; [done|].
    destruct (negb _); [|done]. by destruct gl.
  - cbn [app Groups.append_member].
    destruct (Hkey e0) as [v Hv]; [left|].
    rewrite (getitem_Some _ _ _ Hv). cbn.
    rewrite bool_decide_eq_false_2.
    2:{ intros ->. by apply (Hpre e0); [left|]. }
    rewrite IH.
    2: by intros e' He'; apply Hkey; right.
    2: by intros e' He'; apply Hpre; right.
    unfold rmap, rbind. by destruct one as [?|[|??]].
Qed.

Lemma drop_member_first username groupname (pre post : table) (e : entry) :
  (∀ e', e' ∈ pre → is_Some (e' !! "groupname")) →
  (∀ e', e' ∈ pre → e' !! "groupname" ≠ Some (YStr groupname)) →
  e !! "groupname" = Some (YStr groupname) →
  Groups.drop_member username groupname (pre ++ e :: post)
  = rmap (λ e', pre ++ e' :: post)
      (rmap (λ t, default e (head t))
         (Groups.drop_member username groupname [e])).
Proof.
  intros Hkey Hpre He.
  remember (Groups.drop_member username groupname [e]) as one eqn:Hone.
  induction pre as [|e0 pre' IH].
  - subst one. cbn [app Groups.drop_member]. rewrite (getitem_Some _ _ _ He). cbn.
    rewrite bool_decide_eq_true_2 by done.
    destruct (TableIO.getitem e "grouplist") as [x|gl]; cbn; [done|].
    destruct (Groups.member _ _); [|done]. by destruct gl.
  - cbn [app Groups.drop_member].
    destruct (Hkey e0) as [v Hv]; [left|].
    rewrite (getitem_Some _ _ _ Hv). cbn.
    rewrite bool_decide_eq_false_2.
    2:{ intros ->. by apply (Hpre e0); [left|]. }
    rewrite IH.
    2: by intros e' He'; apply Hkey; right.
    2: by intros e' He'; apply Hpre; right.
    unfold rmap, rbind. by destruct one as [?|[|??]].
Qed.

Lemma group_exist_true groupname (tbl : table) (e : entry) :
  (∀ e', e' ∈ tbl → is_Some (e' !! "groupname")) →
  e ∈ tbl → e !! "groupname" = Some (YStr groupname) →
  Groups.group_exist groupname tbl = (ok true, tbl).
Proof.
  intros Hkey Hin He.
  destruct (column_total "groupname" tbl Hkey) as (vs & Hvs & Hmem).
  cbv [Groups.group_exist Groups.load_all_groupnames bind ret]. rewrite Hvs.
  f_equal. f_equal. apply in_column_true, Hmem. eauto.
Qed.

Lemma add_user_to_group_first username groupname (pre post : table) (e : entry) :
  (∀ e', e' ∈ pre ++ e :: post → is_Some (e' !! "groupname")) →
  (∀ e', e' ∈ pre → e' !! "groupname" ≠ Some (YStr groupname)) →
  e !! "groupname" = Some (YStr groupname) →
  Groups.add_user_to_group username groupname (pre ++ e :: post)
  = match rmap (λ t, default e (head t))
            (Groups.append_member username groupname [e]) with
    | inl x => (inl x, pre ++ e :: post)
    | inr e' => (ok tt, pre ++ e' :: post)
    end.
Proof.
  intros Hkey Hpre He.
  assert (Hex : Groups.group_exist groupname (pre ++ e :: post)
                = (ok true, pre ++ e :: post)).
  { apply (group_exist_true _ _ e); [done| |done].
    apply elem_of_app. right. by left. }
  assert (Hkey' : ∀ e', e' ∈ pre → is_Some (e' !! "groupname")).
  { intros e' He'. apply Hkey, elem_of_app. by left. }
  cbv [Groups.add_user_to_group bind TableIO.load_yaml lift TableIO.write_yaml].
  rewrite Hex. cbn [negb]. rewrite append_member_first by done.
  unfold rmap, rbind.
  by destruct (Groups.append_member username groupname [e]).
Qed.

Lemma remove_user_from_group_first username groupname (pre post : table) (e : entry) :
  (∀ e', e' ∈ pre ++ e :: post → is_Some (e' !! "groupname")) →
  (∀ e', e' ∈ pre → e' !! "groupname" ≠ Some (YStr groupname)) →
  e !! "groupname" = Some (YStr groupname) →
  Groups.remove_user_from_group username groupname (pre ++ e :: post)
  = match rmap (λ t, default e (head t))
            (Groups.drop_member username groupname [e]) with
    | inl x => (inl x, pre ++ e :: post)
    | inr e' => (ok tt, pre ++ e' :: post)
    end.
Proof.
  intros Hkey Hpre He.
  assert (Hex : Groups.group_exist groupname (pre ++ e :: post)
                = (ok true, pre ++ e :: post)).
  { apply (group_exist_true _ _ e); [done| |done].
    apply elem_of_app. right. by left. }
  assert (Hkey' : ∀ e', e' ∈ pre → is_Some (e' !! "groupname")).
  { intros e' He'. apply Hkey, elem_of_app. by left. }
  cbv [Groups.remove_user_from_group bind TableIO.load_yaml lift TableIO.write_yaml].
  rewrite Hex. cbn [negb]. rewrite drop_member_first by done.
  unfold rmap, rbind.
  by destruct (Groups.drop_member username groupname [e]).
Qed.

(** The limit is checked before membership. *)
Lemma add_user_to_group_full username groupname (pre post : table) (e : entry)
    (l : list string) :
  (∀ e', e' ∈ pre ++ e :: post → is_Some (e' !! "groupname")) →
  (∀ e', e' ∈ pre → e' !! "groupname" ≠ Some (YStr groupname)) →
  e !! "groupname" = Some (YStr groupname) →
  e !! "grouplist" = Some (YList l) →
  (32768 ≤ Z.of_nat (length l))%Z →
  Groups.add_user_to_group username groupname (pre ++ e :: post)
  = (raise RuntimeError (MsgTooManyUsers groupname), pre ++ e :: post).
Proof.
  intros Hkey Hpre He Hl Hlen.
  rewrite add_user_to_group_first by done.
  cbn [Groups.append_member].
  rewrite (getitem_Some _ _ _ He), (getitem_Some _ _ _ Hl). cbn.
  rewrite bool_decide_eq_true_2 by done. unfold Groups.MAX_MEMBERS.
  by destruct (Z.leb_spec 32768 (Z.of_nat (length l))); [|lia].
Qed.

(** C5 (as amended).  Let [e] be the first entry named [groupname] of a
    group table whose entries all carry a [groupname], and let its
    [grouplist] be the list [l].
    - With fewer than 32768 names in [l], [add_user_to_group] succeeds: it
      leaves the table as it is when [username] is already in [l], and
      appends [username] once to [l] otherwise.
    - With 32768 names or more in [l] it raises the RuntimeError, whether or
      not [username] is among them, and the table is unchanged.
    - [remove_user_from_group] succeeds; it leaves the table as it is when
      [username] is not in [l] and removes its first occurrence otherwise. *)
Theorem group_membership_updates (username groupname : string)
    (pre post : table) (e : entry) (l : list string) :
  (∀ e', e' ∈ pre ++ e :: post → is_Some (e' !! "groupname")) →
  (∀ e', e' ∈ pre → e' !! "groupname" ≠ Some (YStr groupname)) →
  e !! "groupname" = Some (YStr groupname) →
  e !! "grouplist" = Some (YList l) →
  ((Z.of_nat (length l) < 32768)%Z →
     (username ∈ l →
        Groups.add_user_to_group username groupname (pre ++ e :: post)
        = (ok tt, pre ++ e :: post))
     ∧ (username ∉ l →
        Groups.add_user_to_group username groupname (pre ++ e :: post)
        = (ok tt, pre ++ <["grouplist" := YList (l ++ [username])]> e :: post)))
  ∧ ((32768 ≤ Z.of_nat (length l))%Z →
       Groups.add_user_to_group username groupname (pre ++ e :: post)
       = (raise RuntimeError (MsgTooManyUsers groupname), pre ++ e :: post))
  ∧ (username ∉ l →
       Groups.remove_user_from_group username groupname (pre ++ e :: post)
       = (ok tt, pre ++ e :: post))
  ∧ (username ∈ l →
       Groups.remove_user_from_group username groupname (pre ++ e :: post)
       = (ok tt, pre ++ <["grouplist" := YList (Groups.remove_first username l)]> e
                     :: post)).
Proof.
  intros Hkey Hpre He Hl.
  split; [|split; [by apply add_user_to_group_full|]].
  - rewrite add_user_to_group_first by done.
    cbn [Groups.append_member].
    rewrite (getitem_Some _ _ _ He), (getitem_Some _ _ _ Hl). cbn.
    rewrite bool_decide_eq_true_2 by done. unfold Groups.MAX_MEMBERS.
    intros Hlen. destruct (Z.leb_spec 32768 (Z.of_nat (length l))); [lia|].
    split; intros Hu.
    + by rewrite (proj2 (str_in_elem_of _ _) Hu).
    + by rewrite (proj2 (str_in_false _ _) Hu).
  - rewrite remove_user_from_group_first by done.
    cbn [Groups.drop_member].
    rewrite (getitem_Some _ _ _ He), (getitem_Some _ _ _ Hl). cbn.
    rewrite bool_decide_eq_true_2 by done.
    split; intros Hu.
    + by rewrite (proj2 (str_in_false _ _) Hu).
    + by rewrite (proj2 (str_in_elem_of _ _) Hu).
Qed.

Lemma group_membership_updates_witness :
  let e : entry := {[ "groupname" := YStr "team"; "grouplist" := YList ["alice"] ]} in
  Groups.add_user_to_group "alice" "team" [e] = (ok tt, [e])
  ∧ Groups.add_user_to_group "bob" "team" [e]
    = (ok tt, [<["grouplist" := YList ["alice"; "bob"]]> e])
  ∧ Groups.remove_user_from_group "bob" "team" [e] = (ok tt, [e]).
Proof.
  intros e.
  assert (Hkey : ∀ e' : entry, e' ∈ [] ++ [e] → is_Some (e' !! "groupname")).
  { apply Forall_forall. repeat constructor. by eexists. }
  assert (Hpre : ∀ e' : entry, e' ∈ [] → e' !! "groupname" ≠ Some (YStr "team")).
  { apply Forall_forall. constructor. }
  split; [|split].
  - apply (proj1 (proj1 (group_membership_updates "alice" "team" [] [] e ["alice"]
                           Hkey Hpre eq_refl eq_refl) eq_refl)).
    by apply (proj1 (str_in_elem_of _ _)); vm_compute.
  - apply (proj2 (proj1 (group_membership_updates "bob" "team" [] [] e ["alice"]
                           Hkey Hpre eq_refl eq_refl) eq_refl)).
    by apply (proj1 (str_in_false _ _)); vm_compute.
  - apply (proj1 (proj2 (proj2 (group_membership_updates "bob" "team" [] [] e
                                  ["alice"] Hkey Hpre eq_refl eq_refl)))).
    by apply (proj1 (str_in_false _ _)); vm_compute.
Defined.

(** C5, the claim as written fails: a group that already holds 32768 names,
    ["user-0"] among them; adding ["user-0"] again raises the RuntimeError
    instead of succeeding without change. *)
Lemma add_member_of_full_group_raises :
  let members := (λ n : nat, "user-" +:+ pretty n) <$> seq 0 (Z.to_nat 32768) in
  let e : entry := {[ "groupname" := YStr "team"; "grouplist" := YList members ]} in
  "user-0" ∈ members
  ∧ Groups.add_user_to_group "user-0" "team" [e]
    = (raise RuntimeError (MsgTooManyUsers "team"), [e]).
Proof.
  intros members.
  assert (Hin : "user-0" ∈ members).
  { apply list_elem_of_fmap. exists 0%nat. split; [done|].
    apply elem_of_seq. lia. }
  assert (Hlen : (32768 ≤ Z.of_nat (length members))%Z).
  { unfold members. rewrite length_fmap, length_seq. lia. }
  clearbody members. intros e. split; [done|].
  apply (add_user_to_group_full "user-0" "team" [] [] e members); try done.
  - intros e' ->%list_elem_of_singleton. by eexists.
  - by intros e' ?%elem_of_nil.
Qed.

(* --------------------------------------------------------------------- *)
(** ** Decimal numerals: [str(n)] and [int(s)]                            *)
(* --------------------------------------------------------------------- *)

Lemma pretty_N_char_digit (d : N) :
  (d < 10)%N →
  Str.is_digit (pretty_N_char d) = true
  ∧ Ascii.eqb (pretty_N_char d) "_" = false
  ∧ Str.digit_val (pretty_N_char d) = Some d.
Proof.
  intros Hd.
  assert (d = 0 ∨ d = 1 ∨ d = 2 ∨ d = 3 ∨ d = 4 ∨ d = 5 ∨ d = 6 ∨ d = 7
          ∨ d = 8 ∨ d = 9)%N as Hcases by lia.
  repeat destruct Hcases as [->|Hcases]; try subst d; by vm_compute.
Qed.

Lemma pretty_N_go_digits (x : N) (s : string) :
  Str.forallb Str.is_digit (pretty_N_go x s) = Str.forallb Str.is_digit s.
Proof.
  revert s. induction (N.lt_wf_0 x) as [x _ IH]; intros s.
  assert (x = 0 ∨ 0 < x)%N as [->|Hx] by lia; [by rewrite pretty_N_go_0|].
  rewrite pretty_N_go_step by done.
  rewrite IH by (by apply N.div_lt). cbn [Str.forallb].
  destruct (pretty_N_char_digit (x `mod` 10)) as [-> _]; [|done].
  by apply N.mod_lt.
Qed.

Lemma pretty_N_go_length (k : nat) (x : N) (s : string) :
  (x < 10 ^ N.of_nat k)%N →
  (String.length (pretty_N_go x s) ≤ k + String.length s)%nat.
Proof.
  revert x s. induction k as [|k IH]; intros x s Hx.
  - assert (x = 0%N) as -> by (simpl in Hx; lia). rewrite pretty_N_go_0. lia.
  - assert (x = 0 ∨ 0 < x)%N as [->|Hpos] by lia.
    { rewrite pretty_N_go_0. lia. }
    rewrite pretty_N_go_step by done.
    etrans; [apply IH|simpl; lia].
    apply N.Div0.div_lt_upper_bound.
    replace (N.of_nat (S k)) with (N.succ (N.of_nat k)) in Hx by lia.
    by rewrite N.pow_succ_r' in Hx.
Qed.

Lemma pretty_N_go_nonempty (x : N) (s : string) :
  (0 < x)%N → pretty_N_go x s ≠ "".
Proof.
  revert s. induction (N.lt_wf_0 x) as [x _ IH]; intros s Hx.
  rewrite pretty_N_go_step by done.
  destruct (N.eq_0_gt_0_cases (x `div` 10)) as [->|Hpos].
  - by rewrite pretty_N_go_0.
  - apply IH; [by apply N.div_lt|done].
Qed.

Lemma parse_pretty_N_go (x : N) :
  (0 < x)%N →
  ∃ m, ∀ s acc b,
    Str.parse_digits (pretty_N_go x s) acc b = Str.parse_digits s (acc * m + x)%N true.
Proof.
  induction (N.lt_wf_0 x) as [x _ IH]; intros Hx.
  assert (Hd : (x `mod` 10 < 10)%N) by (by apply N.mod_lt).
  destruct (pretty_N_char_digit _ Hd) as (_ & Hu & Hv).
  destruct (N.eq_0_gt_0_cases (x `div` 10)) as [Hz|Hpos].
  - exists 10%N. intros s acc b.
    rewrite pretty_N_go_step, Hz, pretty_N_go_0 by done.
    cbn [Str.parse_digits]. rewrite Hu, Hv. f_equal.
    pose proof (N.div_mod x 10). lia.
  - destruct (IH (x `div` 10)%N) as [m Hm]; [by apply N.div_lt|done|].
    exists (10 * m)%N. intros s acc b.
    rewrite pretty_N_go_step, Hm by done.
    cbn [Str.parse_digits]. rewrite Hu, Hv. f_equal.
    pose proof (N.div_mod x 10). lia.
Qed.

Lemma of_Z_nonneg_digits (z : Z) :
  (0 ≤ z)%Z → Str.forallb Str.is_digit (Str.of_Z z) = true.
Proof.
  intros Hz. unfold Str.of_Z, pretty, pretty_Z.
  destruct z as [|p|p]; [done| |lia].
  unfold pretty, pretty_positive, pretty, pretty_N.
  rewrite decide_False by done. by rewrite pretty_N_go_digits.
Qed.

Lemma of_Z_length (k : nat) (z : Z) :
  (0 ≤ z < 10 ^ Z.of_nat k)%Z → (0 < k)%nat →
  (String.length (Str.of_Z z) ≤ k)%nat.
Proof.
  intros Hz Hk. unfold Str.of_Z, pretty, pretty_Z.
  destruct z as [|p|p]; [simpl; lia| |lia].
  unfold pretty, pretty_positive, pretty, pretty_N.
  rewrite decide_False by done.
  etrans; [apply (pretty_N_go_length k)|simpl; lia].
  apply N2Z.inj_lt. rewrite N2Z.inj_pow, nat_N_Z. simpl. lia.
Qed.




Lemma strip_no_space (s : string) :
  Str.forallb (λ c, negb (Str.is_space c)) s = true → Str.strip s = s.
Proof.
  intros Hs. unfold Str.strip.
  assert (Str.drop_while Str.is_space s = s) as ->.
  { destruct s as [|c s]; [done|]. cbn in *.
    apply andb_true_iff in Hs as [Hc _]. by destruct (Str.is_space c). }
  induction s as [|c s IH]; [done|]. cbn in *.
  apply andb_true_iff in Hs as [Hc Hs]. rewrite IH by done.
  destruct s; [|done]. by destruct (Str.is_space c).
Qed.

Lemma forallb_impl (p q : ascii → bool) (s : string) :
  (∀ c, p c = true → q c = true) →
  Str.forallb p s = true → Str.forallb q s = true.
Proof.
  intros Hpq. induction s as [|c s IH]; [done|]. cbn.
  rewrite !andb_true_iff. intros [??]. auto.
Qed.

Lemma digit_not_space c : Str.is_digit c = true → negb (Str.is_space c) = true.
Proof.
  unfold Str.is_digit, Str.is_space, Str.in_range. cbn.
  generalize (Str.code c). intros n Hn.
  apply andb_true_iff in Hn as [H1 H2]. apply N.leb_le in H1, H2.
  apply negb_true_iff. repeat (apply orb_false_iff; split);
    rewrite ?andb_false_iff, ?N.leb_gt, ?N.eqb_neq; lia.
Qed.

(** [int(str(z)) == z] for a non-negative integer. *)
Lemma to_Z_of_Z (z : Z) : (0 ≤ z)%Z → Str.to_Z (Str.of_Z z) = Some z.
Proof.
  intros Hz. pose proof (of_Z_nonneg_digits z Hz) as Hdig.
  unfold Str.to_Z. rewrite strip_no_space.
  2:{ revert Hdig. apply forallb_impl, digit_not_space. }
  revert Hdig. unfold Str.of_Z, pretty, pretty_Z.
  destruct z as [|p|p]; [done| |lia].
  unfold pretty, pretty_positive, pretty, pretty_N.
  rewrite decide_False by done. intros Hdig.
  destruct (parse_pretty_N_go (N.pos p)) as [m Hm]; [done|].
  specialize (Hm "" 0%N false). cbn [Str.parse_digits] in Hm.
  destruct (pretty_N_go (N.pos p) "") as [|c s] eqn:Hs.
  { by destruct (pretty_N_go_nonempty (N.pos p) ""). }
  cbn in Hdig. apply andb_true_iff in Hdig as [Hc _].
  assert (c ≠ "-"%char ∧ c ≠ "+"%char) as [??].
  { split; intros ->; by vm_compute in Hc. }
  assert (Z.of_N <$> Str.parse_digits (String c s) 0 false = Some (Z.pos p)) as Hgoal.
  { rewrite Hm. by replace (0 * m + N.pos p)%N with (N.pos p) by lia. }
  destruct c as [[] [] [] [] [] [] [] []]; try done.
Qed.

(* --------------------------------------------------------------------- *)
(** ** Reading code leaves the store alone                                *)
(* --------------------------------------------------------------------- *)

Create HintDb readonly discriminated.

Lemma readonly_ret {S A} (a : A) : readonly (@ret S A a).
Proof. done. Qed.
Lemma readonly_throw {S A} c m : readonly (@throw S A c m).
Proof. done. Qed.
Lemma readonly_lift {S A} (r : result A) : readonly (@lift S A r).
Proof. done. Qed.
Lemma readonly_load_yaml : readonly TableIO.load_yaml.
Proof. done. Qed.
Lemma readonly_bind {S A B} (m : St S A) (k : A → St S B) :
  readonly m → (∀ a, readonly (k a)) → readonly (bind m k).
Proof.
  intros Hm Hk s. unfold bind. specialize (Hm s).
  destruct (m s) as [[e|a] s1]; simpl in *; [done|]. subst s1. apply Hk.
Qed.
Lemma readonly_if {S A} (b : bool) (m1 m2 : St S A) :
  readonly m1 → readonly m2 → readonly (if b then m1 else m2).
Proof. by destruct b. Qed.

#[local] Hint Resolve readonly_ret readonly_throw readonly_lift
  readonly_load_yaml readonly_if : readonly.
#[local] Hint Extern 2 (readonly (bind _ _)) =>
  apply readonly_bind; [|intros ?] : readonly.
#[local] Hint Extern 5 (readonly (match ?x with _ => _ end)) =>
  destruct x : readonly.

Lemma readonly_column {A} key (f : yval → result A) : readonly (Users.column key f).
Proof. unfold Users.column. eauto with readonly. Qed.
#[local] Hint Resolve readonly_column : readonly.

Lemma readonly_user_exist id id_type : readonly (Users.user_exist id id_type).
Proof.
  unfold Users.user_exist, Users.load_all_uuids, Users.load_all_ezids,
    Users.load_all_usernames. eauto 10 with readonly.
Qed.

Lemma readonly_get_new_uid usertype : readonly (Users.get_new_uid usertype).
Proof. unfold Users.get_new_uid, Users.load_all_uids. eauto 10 with readonly. Qed.

Lemma readonly_get_new_username w ezid names :
  readonly (Users.get_new_username w ezid names).
Proof.
  unfold Users.get_new_username, Users.load_all_usernames. eauto 10 with readonly.
Qed.

Lemma readonly_get_user_info id id_type : readonly (Users.get_user_info id id_type).
Proof. unfold Users.get_user_info. eauto 10 with readonly. Qed.

Lemma readonly_get_file_string attrs : readonly (TableIO.get_file_string attrs).
Proof. unfold TableIO.get_file_string. eauto 10 with readonly. Qed.

#[local] Hint Resolve readonly_user_exist readonly_get_new_uid
  readonly_get_new_username readonly_get_user_info readonly_get_file_string
  : readonly.

(** What a read-only computation returned, with the store put back. *)
Lemma readonly_run {S A} (m : St S A) s :
  readonly m → m s = ((m s).1, s).
Proof. intros Hm. specialize (Hm s). destruct (m s); simpl in *; congruence. Qed.

Lemma bind_readonly {S A B} (m : St S A) (k : A → St S B) s :
  readonly m →
  bind m k s = match (m s).1 with
               | inl e => (inl e, s)
               | inr a => k a s
               end.
Proof.
  intros Hm. unfold bind. rewrite (readonly_run m s Hm). by destruct (m s).1.
Qed.

(* --------------------------------------------------------------------- *)
(** ** users.py: allocation of uids                                       *)
(* --------------------------------------------------------------------- *)

Lemma first_free_spec (fuel : nat) (all_ids : list Z) (n u : Z) :
  Users.first_free fuel all_ids n = Some u →
  (n ≤ u)%Z ∧ (u ∉ all_ids) ∧ ∀ v, (n ≤ v < u)%Z → v ∈ all_ids.
Proof.
  revert n. induction fuel as [|fuel IH]; intros n; cbn [Users.first_free];
    case_bool_decide as Hn; try done.
  - intros [= <-]. split; [lia|]. split; [done|]. lia.
  - intros (? & ? & Hlow)%IH. split; [lia|]. split; [done|].
    intros v Hv. destruct (decide (v = n)) as [->|]; [done|]. apply Hlow. lia.
  - intros [= <-]. split; [lia|]. split; [done|]. lia.
Qed.

Lemma first_free_None (fuel : nat) (all_ids : list Z) (n : Z) :
  Users.first_free fuel all_ids n = None →
  ∀ v, (n ≤ v ≤ n + Z.of_nat fuel)%Z → v ∈ all_ids.
Proof.
  revert n. induction fuel as [|fuel IH]; intros n; cbn [Users.first_free];
    case_bool_decide as Hn; try done.
  - intros _ v Hv. by replace v with n by lia.
  - intros Hnone v Hv. destruct (decide (v = n)) as [->|]; [done|].
    apply (IH _ Hnone). lia.
Qed.

(** The scan always finds a free id. *)
Lemma scan_finds (all_ids : list Z) (min_id : Z) :
  ∃ u, Users.scan all_ids min_id = ok u
       ∧ (min_id ≤ u)%Z ∧ (u ∉ all_ids) ∧ ∀ v, (min_id ≤ v < u)%Z → v ∈ all_ids.
Proof.
  unfold Users.scan.
  destruct (Users.first_free _ _ _) as [u|] eqn:Hff.
  - exists u. split; [done|]. by apply first_free_spec in Hff.
  - exfalso. pose proof (first_free_None _ _ _ Hff) as Hall.
    assert (Hsub : seqZ min_id (Z.of_nat (S (length all_ids))) ⊆+ all_ids).
    { apply NoDup_submseteq; [apply NoDup_seqZ|].
      intros v Hv%elem_of_seqZ. apply Hall. lia. }
    apply submseteq_length in Hsub. rewrite length_seqZ in Hsub. lia.
Qed.

Lemma load_all_uids_elem (tbl : table) (l : list Z) :
  Users.load_all_uids tbl = (ok l, tbl) → ∀ v, v ∈ l ↔ has_uid tbl v.
Proof.
  cbv [Users.load_all_uids Users.column bind TableIO.load_yaml lift].
  intros [= Hl]. revert l Hl.
  induction tbl as [|e es IH]; intros l; cbn [mapM].
  - intros [= <-] v. split; [by inversion 1|].
    intros (? & ? & H & _). by inversion H.
  - unfold TableIO.getitem at 1. destruct (e !! "uid") as [x|] eqn:He; [|done].
    cbn. destruct x as [s|?]; cbn; [|done].
    destruct (Str.to_Z s) as [z|] eqn:Hz; cbn; [|done].
    destruct (mapM _ es) as [?|l'] eqn:Hes; cbn; [done|].
    intros [= <-] v. rewrite elem_of_cons, (IH l' eq_refl). split.
    + intros [->|(e' & s' & ? & ?)].
      * exists e, s. split; [left|done].
      * exists e', s'. split; [by right|done].
    + intros (e' & s' & [->|?]%elem_of_cons & He' & Hs').
      * left. congruence.
      * right. by exists e', s'.
Qed.

(** [get_new_uid] returns the first integer from [min_id] on that is not the
    uid of a record, or fails with the range error when that integer lies
    beyond [max_id]. *)
Lemma get_new_uid_spec (usertype : string) (tbl : table) (l : list Z)
    (cls : Types.ranged_class) :
  Users.load_all_uids tbl = (ok l, tbl) →
  range_of usertype = Some cls →
  ∃ u, (Types.min_id cls ≤ u)%Z ∧ ¬ has_uid tbl u
       ∧ (∀ v, (Types.min_id cls ≤ v < u)%Z → has_uid tbl v)
       ∧ Users.get_new_uid usertype tbl
         = (if (u <=? Types.max_id cls)%Z then ok (Some u)
            else raise ValueError (MsgNotInRange (Types.min_id cls) (Types.max_id cls)),
            tbl).
Proof.
  intros Hl Hcls. pose proof (load_all_uids_elem _ _ Hl) as Hmem.
  destruct (scan_finds l (Types.min_id cls)) as (u & Hscan & Hmin & Hfree & Hlow).
  exists u. split; [done|]. split; [by rewrite <-Hmem|].
  split; [intros v Hv; by apply Hmem, Hlow|].
  assert (Hnew : Types.RangedId cls (PyInt u)
                 = if (u <=? Types.max_id cls)%Z then ok u
                   else raise ValueError
                          (MsgNotInRange (Types.min_id cls) (Types.max_id cls))).
  { unfold Types.RangedId, Types.validate. cbn.
    destruct (Z.ltb_spec u (Types.min_id cls)); [lia|].
    rewrite Z.gtb_ltb.
    destruct (Z.ltb_spec (Types.max_id cls) u), (Z.leb_spec u (Types.max_id cls));
      try lia; done. }
  unfold Users.get_new_uid, bind. rewrite Hl. unfold range_of in Hcls.
  destruct (String.eqb usertype "individual").
  { injection Hcls as <-. unfold lift. rewrite Hscan. cbn [rbind]. rewrite Hnew.
    by destruct (u <=? _)%Z. }
  destruct (String.eqb usertype "group"); [|done].
  injection Hcls as <-. unfold lift. rewrite Hscan. cbn [rbind]. rewrite Hnew.
  by destruct (u <=? _)%Z.
Qed.

Ltac failed H :=
  injection H as <- <-; left;
  match goal with |- ∃ e, inl ?x = inl e ∧ _ => by exists x end.

(** One read-only step of a computation whose outcome [H] describes. *)
Tactic Notation "step" hyp(H) "as" simple_intropattern(p) :=
  match type of H with
  | bind ?m ?k ?s = _ =>
      rewrite (bind_readonly m k s) in H by eauto 20 with readonly;
      destruct (m s).1 as [?|p] eqn:?; [failed H|]
  end.

Lemma UserType_ok (s t : string) : Types.UserType (PyStr s) = ok t → t = s.
Proof. unfold Types.UserType. destruct (str_in _ _); naive_solver. Qed.

Lemma RangedId_ok cls v z :
  Types.RangedId cls v = ok z →
  Types.as_int v = Some z ∧ (Types.min_id cls ≤ z ≤ Types.max_id cls)%Z.
Proof.
  unfold Types.RangedId, Types.validate.
  destruct (Types.as_int v) as [z'|]; [|done].
  destruct (Z.ltb_spec z' (Types.min_id cls)); [done|].
  rewrite Z.gtb_ltb. destruct (Z.ltb_spec (Types.max_id cls) z'); [done|].
  cbn. intros [= <-]. split; [done|lia].
Qed.

Lemma add_user_outcome w uuid ezid username gid home usertype names tbl r tbl' :
  Users.add_user w uuid ezid username None gid home usertype names tbl = (r, tbl') →
  (∃ e, r = inl e ∧ tbl' = tbl)
  ∨ (∃ user d, r = ok user ∧ tbl' = tbl ++ [d]
       ∧ Users.usertype user = usertype
       ∧ ((∃ u, Users.uid user = PyInt u
               ∧ d !! "uid" = Some (YStr (Str.of_Z u))
               ∧ Users.get_new_uid usertype tbl = (ok (Some u), tbl))
          ∨ Users.uid user = PyNone)).
Proof.
  unfold Users.add_user. intros H.
  step H as ?. step H as ex.
  destruct (ex && _); [failed H|].
  destruct (_ && _); [failed H|].
  step H as username'.
  step H as uid.
  step H as gid'.
  step H as ?.
  step H as uuid'.
  step H as ?. step H as ?. step H as ut.
  match goal with Hu : (lift (Types.UserType _) _).1 = _ |- _ =>
    apply UserType_ok in Hu as -> end.
  assert (Hnew : Users.get_new_uid usertype tbl = (ok uid, tbl)).
  { rewrite (readonly_run _ tbl (readonly_get_new_uid usertype)). by f_equal. }
  step H as [uid' gid'']. cbn in H.
  injection H as <- <-. right.
  do 2 eexists. split; [done|]. split; [done|]. split; [done|].
  rewrite lookup_insert_ne, lookup_insert_ne,
      lookup_insert_ne, lookup_insert_ne, lookup_insert_ne, lookup_insert_ne,
      lookup_insert_ne, lookup_insert_ne, lookup_insert_eq by done.
  cbn [Users.uid].
  assert (uid' = Users.int_arg uid) as ->.
  { match goal with Hx : _ = ok (uid', gid'') |- _ => revert Hx end.
    cbv [bind lift ret fst]. destruct (usertype =? "individual").
    { destruct (Types.RangedId Types.UserUid _) as [?|u] eqn:Hu; [done|].
      apply RangedId_ok in Hu as [Hu _].
      destruct (Types.RangedId Types.UserGid (Users.int_arg gid')); [done|].
      intros [= <- _]. destruct uid; simplify_eq/=. done. }
    destruct (usertype =? "group"); [|by intros [= <- _]].
    destruct (Types.RangedId Types.GroupAdminUid _) as [?|u] eqn:Hu; [done|].
    apply RangedId_ok in Hu as [Hu _].
    destruct (Types.RangedId Types.GroupGid (Users.int_arg gid')); [done|].
    intros [= <- _]. destruct uid; simplify_eq/=. done. }
  destruct uid as [u|]; [left|by right]. by exists u.
Qed.

Lemma get_new_uid_Some (usertype : string) (tbl : table) (u : Z) :
  Users.get_new_uid usertype tbl = (ok (Some u), tbl) →
  ∃ cls, range_of usertype = Some cls
         ∧ (Types.min_id cls ≤ u ≤ Types.max_id cls)%Z
         ∧ ¬ has_uid tbl u
         ∧ ∀ v, (Types.min_id cls ≤ v < u)%Z → has_uid tbl v.
Proof.
  intros Hnew.
  destruct (Users.load_all_uids tbl) as [[?|l] tbl0] eqn:Hl.
  { revert Hnew. unfold Users.get_new_uid, bind. by rewrite Hl. }
  assert (tbl0 = tbl) as ->.
  { pose proof (readonly_column "uid" TableIO.int tbl) as Hro.
    unfold Users.load_all_uids in Hl. by rewrite Hl in Hro. }
  destruct (range_of usertype) as [cls|] eqn:Hcls.
  - destruct (get_new_uid_spec usertype tbl l cls Hl Hcls)
      as (u' & Hmin & Hfree & Hlow & Heq).
    rewrite Heq in Hnew. destruct (Z.leb_spec u' (Types.max_id cls)); [|done].
    injection Hnew as ->. exists cls. by repeat split.
  - revert Hnew Hcls. unfold Users.get_new_uid, bind, range_of. rewrite Hl.
    by repeat case_match.
Qed.

(** Neither call removes or changes the uid of a record. *)
Lemma deactivate_first_has_uid id_type id (tbl tbl' : table) v :
  Users.deactivate_first id_type id tbl = ok tbl' →
  has_uid tbl v → has_uid tbl' v.
Proof.
  revert tbl'. induction tbl as [|e es IH]; intros tbl'; cbn [Users.deactivate_first].
  { by intros [= <-]. }
  destruct (TableIO.getitem e id_type) as [?|x]; [done|]. cbn.
  case_bool_decide.
  - intros [= <-] (e' & s & [Heq|Hin]%elem_of_cons & He' & Hs).
    + subst e'. exists (<["status" := YStr "deactivated"]> e), s.
      split; [left|]. by rewrite lookup_insert_ne.
    + exists e', s. split; [by right|done].
  - destruct (Users.deactivate_first id_type id es) as [?|es']; [done|].
    cbn. intros [= <-] (e' & s & [Heq|Hin]%elem_of_cons & He' & Hs).
    + subst e'. exists e, s. split; [left|done].
    + destruct (IH es' eq_refl) as (e'' & s'' & ? & ?); [by exists e', s|].
      exists e'', s''. split; [by right|done].
Qed.

Lemma delete_user_has_uid id id_type (tbl : table) v :
  has_uid tbl v → has_uid (Users.delete_user id id_type tbl).2 v.
Proof.
  cbv [Users.delete_user bind TableIO.load_yaml lift TableIO.write_yaml].
  destruct (Users.deactivate_first id_type id tbl) as [?|tbl'] eqn:Hd; [done|].
  by apply (deactivate_first_has_uid id_type id).
Qed.

Lemma has_uid_app (tbl : table) (d : entry) v :
  has_uid tbl v → has_uid (tbl ++ [d]) v.
Proof.
  intros (e & s & ? & ?). exists e, s. split; [|done].
  apply elem_of_app. by left.
Qed.

(** One call: the table only grows in uids, and an issued uid is the first
    free one of its range. *)
Lemma run_step (w : world) (c : call) (tbl : table) :
  let '(i, tbl') := Calls.run w c tbl in
  (∀ v, has_uid tbl v → has_uid tbl' v)
  ∧ ∀ ut u, i = Some (ut, u) →
      has_uid tbl' u
      ∧ ∃ cls, range_of ut = Some cls
               ∧ (Types.min_id cls ≤ u)%Z
               ∧ ¬ has_uid tbl u
               ∧ ∀ v, (Types.min_id cls ≤ v < u)%Z → has_uid tbl v.
Proof.
  destruct c as [uuid ezid username gid home usertype names|id id_type];
    cbn [Calls.run].
  2:{ split; [intros v; apply delete_user_has_uid|done]. }
  destruct (Users.add_user _ _ _ _ _ _ _ _ _ _) as [r tbl'] eqn:Hadd.
  apply add_user_outcome in Hadd as [(e & -> & ->)|(user & d & -> & -> & Hut & Hu)].
  { done. }
  split; [intros v; apply has_uid_app|].
  intros ut u. destruct Hu as [(u' & -> & Hd & Hnew)| ->]; [|done].
  intros [= <- <-]. rewrite Hut.
  apply get_new_uid_Some in Hnew as (cls & Hcls & Hrange & Hfree & Hlow).
  split.
  - exists d, (Str.of_Z u'). split; [apply elem_of_app; right; by left|].
    split; [done|]. apply to_Z_of_Z. destruct cls; simpl in *; lia.
  - exists cls. repeat split; try done. lia.
Qed.

Lemma issued_monotone (w : world) (cs : list call) :
  ∀ (tbl : table) (prev : list (string * Z)),
    (∀ ut u, (ut, u) ∈ prev →
       ∃ cls, range_of ut = Some cls
              ∧ ∀ v, (Types.min_id cls ≤ v ≤ u)%Z → has_uid tbl v) →
    let l := Calls.issued w cs tbl in
    (∀ ut, StronglySorted Z.lt (Calls.issued_to ut l))
    ∧ NoDup l.*2
    ∧ (∀ p, p ∈ l → ¬ has_uid tbl p.2)
    ∧ (∀ ut u u', (ut, u) ∈ prev → (ut, u') ∈ l → (u < u')%Z).
Proof.
  induction cs as [|c cs IH]; intros tbl prev Hprev; cbn [Calls.issued].
  { repeat split; try constructor.
    - by intros p ?%elem_of_nil.
    - by intros ut u u' _ ?%elem_of_nil. }
  pose proof (run_step w c tbl) as Hstep.
  destruct (Calls.run w c tbl) as [i tbl']. destruct Hstep as [Hmono Hi].
  assert (Hprev' : ∀ ut u, (ut, u) ∈ prev →
            ∃ cls, range_of ut = Some cls
                   ∧ ∀ v, (Types.min_id cls ≤ v ≤ u)%Z → has_uid tbl' v).
  { intros ut u (cls & ? & Hcov)%Hprev. exists cls. split; [done|].
    intros v Hv. by apply Hmono, Hcov. }
  destruct i as [[ut u]|].
  2:{ destruct (IH tbl' prev Hprev') as (Hs & Hn & Hf & Hlt).
      repeat split; try done. intros p Hp Hu. by apply (Hf p Hp), Hmono. }
  destruct (Hi ut u eq_refl) as (Hu' & cls & Hcls & Hmin & Hfree & Hlow).
  destruct (IH tbl' ((ut, u) :: prev)) as (Hs & Hn & Hf & Hlt).
  { intros ut0 u0 [[= -> ->]|Hin]%elem_of_cons; [|by apply Hprev'].
    exists cls. split; [done|]. intros v Hv.
    destruct (decide (v = u)) as [->|]; [done|]. apply Hmono, Hlow. lia. }
  repeat split.
  - intros ut0. unfold Calls.issued_to. rewrite filter_cons.
    destruct (decide ((ut, u).1 = ut0)) as [Heq|]; [|apply Hs].
    simpl in Heq. subst ut0. cbn [fmap list_fmap]. constructor; [apply Hs|].
    apply Forall_forall. intros u' ([ut' u''] & -> & [Hut Hin]%list_elem_of_filter)%list_elem_of_fmap.
    simpl in *. subst ut'. apply (Hlt ut u u''); [left|done].
  - cbn [fmap list_fmap]. constructor; [|done].
    intros ([ut' u''] & Heq & Hin)%list_elem_of_fmap. simpl in Heq. subst u''.
    by apply (Hf _ Hin).
  - intros p [->|Hp]%elem_of_cons; [done|].
    intros Hu. by apply (Hf p Hp), Hmono.
  - intros ut0 u0 u0' Hin0 [[= -> ->]|Hin]%elem_of_cons.
    + destruct (Hprev _ _ Hin0) as (cls0 & Hcls0 & Hcov).
      assert (cls0 = cls) as -> by congruence.
      destruct (Z.lt_ge_cases u0 u) as [|Hge]; [done|].
      destruct Hfree. apply Hcov. lia.
    + apply (Hlt ut0 u0 u0'); [by right|done].
Qed.

(** C2 (as amended).  [get_new_uid] returns the first integer from the [min_id] of the
    range on (1000 for ["individual"], 60000 for ["group"]) that is not the
    uid of a record, or raises the range error when that integer is beyond
    [max_id]; [delete_user] keeps every uid of the table; and over any
    sequence of user creations and deactivations, started on any table, the
    uids issued to users of one type are strictly increasing, no uid is
    issued twice, and none was in the table before. *)
Theorem uid_allocation_monotone (w : world) :
  (∀ usertype cls (tbl : table) l,
     Users.load_all_uids tbl = (ok l, tbl) →
     range_of usertype = Some cls →
     ∃ u, (Types.min_id cls ≤ u)%Z ∧ ¬ has_uid tbl u
          ∧ (∀ v, (Types.min_id cls ≤ v < u)%Z → has_uid tbl v)
          ∧ Users.get_new_uid usertype tbl
            = (if (u <=? Types.max_id cls)%Z then ok (Some u)
               else raise ValueError
                      (MsgNotInRange (Types.min_id cls) (Types.max_id cls)),
               tbl))
  ∧ (∀ id id_type (tbl : table) v,
       has_uid tbl v → has_uid (Users.delete_user id id_type tbl).2 v)
  ∧ (∀ (cs : list call) (tbl : table),
       (∀ usertype, StronglySorted Z.lt
                      (Calls.issued_to usertype (Calls.issued w cs tbl)))
       ∧ NoDup (Calls.issued w cs tbl).*2
       ∧ ∀ p, p ∈ Calls.issued w cs tbl → ¬ has_uid tbl p.2).
Proof.
  split; [|split].
  - intros usertype cls tbl l. apply get_new_uid_spec.
  - intros id id_type tbl v. apply delete_user_has_uid.
  - intros cs tbl.
    destruct (issued_monotone w cs tbl []) as (Hs & Hn & Hf & _); [|done].
    by intros ut u ?%elem_of_nil.
Qed.

Lemma uid_allocation_monotone_witness :
  let tbl : table := [ {[ "uid" := YStr "1000" ]} ] in
  ∃ u, (1000 ≤ u)%Z ∧ ¬ has_uid tbl u
       ∧ (∀ v, (1000 ≤ v < u)%Z → has_uid tbl v)
       ∧ Users.get_new_uid "individual" tbl
         = (if (u <=? 59999)%Z then ok (Some u)
            else raise ValueError (MsgNotInRange 1000 59999), tbl).
Proof.
  intros tbl.
  apply (proj1 (uid_allocation_monotone Fresh.env)
           "individual" Types.UserUid tbl [1000%Z]); reflexivity.
Defined.

(** C2, the claim as written fails: over a sequence of creations that
    mixes the two user types the uids issued are not strictly increasing.
    On an empty table the first individual gets uid 1000, the admin of a
    group created next gets uid 60000, and the individual created after it
    gets uid 1001. *)
Lemma uids_of_two_types_not_increasing :
  let cs :=
    [ NewUser (Users.PlainUuid "11111111111111111111111111111111")
        "alice" None None None "individual" [];
      NewUser (Users.PlainUuid "22222222222222222222222222222222")
        "team" (Some "team-admin") (Some 60000%Z) None "group" [];
      NewUser (Users.PlainUuid "33333333333333333333333333333333")
        "bob" None None None "individual" [] ] in
  Calls.issued Fresh.env cs []
  = [("individual", 1000%Z); ("group", 60000%Z); ("individual", 1001%Z)]
  ∧ ¬ StronglySorted Z.lt (Calls.issued Fresh.env cs []).*2.
Proof.
  intros cs.
  assert (Hrun : Calls.issued Fresh.env cs []
                 = [("individual", 1000%Z); ("group", 60000%Z);
                    ("individual", 1001%Z)]) by (vm_compute; reflexivity).
  split; [exact Hrun|]. rewrite Hrun. cbn. intros Hs.
  apply StronglySorted_inv in Hs as [Hs _].
  apply StronglySorted_inv in Hs as [_ Hs].
  apply Forall_inv in Hs. lia.
Qed.

(* --------------------------------------------------------------------- *)
(** ** Strings                                                            *)
(* --------------------------------------------------------------------- *)

Lemma str_app_cons (c : ascii) (a b : string) :
  String c a +:+ b = String c (a +:+ b).
Proof. done. Qed.

Lemma str_app_nil (b : string) : "" +:+ b = b.
Proof. done. Qed.

Lemma str_length_app (a b : string) :
  String.length (a +:+ b) = (String.length a + String.length b)%nat.
Proof.
  induction a as [|c a IH]; [done|]. rewrite str_app_cons. simpl. by f_equal.
Qed.

Lemma str_app_assoc (a b c : string) : (a +:+ b) +:+ c = a +:+ (b +:+ c).
Proof.
  induction a as [|x a IH]; [done|]. rewrite !str_app_cons. by f_equal.
Qed.

Lemma str_take_length (n : nat) (s : string) :
  String.length (Str.take n s) = (n `min` String.length s)%nat.
Proof.
  revert s. induction n as [|n IH]; intros [|c s]; simpl; try done.
  by f_equal.
Qed.

Lemma str_take_take (n m : nat) (s : string) :
  Str.take n (Str.take m s) = Str.take (n `min` m) s.
Proof.
  revert m s. induction n as [|n IH]; intros [|m] [|c s]; simpl; try done.
  by f_equal.
Qed.

Lemma str_take_app_length (a b : string) :
  Str.take (String.length a) (a +:+ b) = a.
Proof.
  induction a as [|c a IH]; [by destruct b|].
  rewrite str_app_cons. simpl. by f_equal.
Qed.

Lemma str_drop_app_length (a b : string) :
  Str.drop (String.length a) (a +:+ b) = b.
Proof.
  induction a as [|c a IH]; [by destruct b|]. by rewrite str_app_cons.
Qed.

Lemma endswith_app (a t : string) : Str.endswith (a +:+ t) t = true.
Proof.
  unfold Str.endswith. rewrite str_length_app.
  replace (String.length a + String.length t - String.length t)%nat
    with (String.length a) by lia.
  rewrite str_drop_app_length, String.eqb_refl, andb_true_r.
  apply Nat.leb_le. lia.
Qed.

(** Every slice [s[:k]] is a prefix [take n s]. *)
Lemma slice_to_take (s : string) (k : Z) : ∃ n, Str.slice_to s k = Str.take n s.
Proof. unfold Str.slice_to. destruct (0 <=? k)%Z; by eexists. Qed.

Lemma slice_to_length (s : string) (k : Z) :
  (0 ≤ k)%Z → (Z.of_nat (String.length (Str.slice_to s k)) ≤ k)%Z.
Proof.
  intros Hk. unfold Str.slice_to. destruct (Z.leb_spec 0 k); [|lia].
  rewrite str_take_length. lia.
Qed.

Lemma slice_to_neg_app (a t : string) :
  t ≠ "" → Str.slice_to (a +:+ t) (- Z.of_nat (String.length t)) = a.
Proof.
  intros Ht. unfold Str.slice_to.
  assert (0 < String.length t)%nat by (destruct t; [done|cbn; lia]).
  destruct (Z.leb_spec 0 (- Z.of_nat (String.length t))); [lia|].
  rewrite str_length_app.
  replace (Z.to_nat _) with (String.length a) by lia.
  apply str_take_app_length.
Qed.

Lemma after_last_app (sep : ascii) (a d : string) :
  Str.forallb (λ x, negb (Ascii.eqb x sep)) d = true →
  Str.after_last sep (a +:+ String sep d) = d.
Proof.
  intros Hd. induction a as [|c a IH].
  - rewrite str_app_nil. simpl. by rewrite Hd, Ascii.eqb_refl.
  - rewrite str_app_cons. simpl. rewrite IH.
    destruct (Str.forallb _ (a +:+ String sep d)) eqn:Hall; [|done].
    exfalso. revert Hall. clear. induction a as [|x a IH].
    + rewrite str_app_nil. simpl. by rewrite Ascii.eqb_refl.
    + rewrite str_app_cons. simpl. rewrite andb_true_iff. by intros [_ ?%IH].
Qed.

(* --------------------------------------------------------------------- *)
(** ** username.py: [make_unique]                                         *)
(* --------------------------------------------------------------------- *)

Section make_unique.
Context (candidate_name : string) (existing_names : list string).
Context (max_length : Z).

Abbreviation cond := (Username.loop_cond existing_names max_length).
Abbreviation body := (Username.loop_body candidate_name max_length).
Abbreviation run fuel := (Username.loop fuel candidate_name existing_names max_length).
Abbreviation fits st := (Username.strlen (Username.unique_name st) ≤ max_length)%Z.

Lemma loop_cond_false st :
  cond st = false ↔ (Username.unique_name st ∉ existing_names) ∧ fits st.
Proof.
  unfold Username.loop_cond.
  rewrite orb_false_iff, str_in_false, Z.ltb_ge. done.
Qed.

Lemma loop_cond_true st :
  cond st = true →
  fits st → Username.unique_name st ∈ existing_names.
Proof.
  unfold Username.loop_cond. rewrite orb_true_iff, str_in_elem_of, Z.ltb_lt.
  intros [?|?] ?; [done|lia].
Qed.

(** When the loop is left, its condition is false. *)
Lemma loop_exit fuel st st' : run fuel st = Some st' → cond st' = false.
Proof.
  revert st. induction fuel as [|fuel IH]; intros st; cbn [Username.loop];
    destruct (cond st) eqn:Hc; try done.
  - by intros [= <-].
  - apply IH.
  - by intros [= <-].
Qed.

(** A property that every pass preserves holds when the loop is left. *)
Lemma loop_invariant (P : Username.loop_state → Prop) fuel st st' :
  (∀ st, P st → P (body st)) → P st → run fuel st = Some st' → P st'.
Proof.
  intros Hbody. revert st. induction fuel as [|fuel IH]; intros st Hst;
    cbn [Username.loop]; destruct (cond st); try done.
  - by intros [= <-].
  - by apply IH, Hbody.
  - by intros [= <-].
Qed.

Abbreviation suffixed := (Username.suffixed candidate_name).

Lemma body_init : suffixed (body (Username.init candidate_name)).
Proof.
  unfold Username.loop_body, Username.init.
  cbn [Username.unique_name Username.counter Username.tail].
  destruct (slice_to_take candidate_name
              (max_length - Username.strlen (Str.of_Z 1) - 1)) as [n Hn].
  destruct (_ <? _)%Z.
  - exists n, 1%Z. by rewrite Hn.
  - exists (String.length candidate_name), 1%Z. repeat split; try done.
    pose proof (str_take_app_length candidate_name "") as Ht.
    replace (candidate_name +:+ "") with candidate_name in Ht; [by rewrite Ht|].
    clear. induction candidate_name as [|c s IH]; [done|].
    rewrite str_app_cons. by f_equal.
Qed.

Lemma body_suffixed st : suffixed st → suffixed (body st).
Proof.
  intros (n & k & Hk & Hc & Ht & Hn).
  unfold Username.loop_body. rewrite Hc, Ht, Hn.
  assert (Hne : ("-" +:+ Str.of_Z k) ≠ "") by done.
  assert (Heqb : (("-" +:+ Str.of_Z k) =? "") = false) by done.
  rewrite Heqb. cbn [negb andb].
  destruct (slice_to_take candidate_name
              (max_length - Username.strlen (Str.of_Z (k + 1)) - 1)) as [m Hm].
  destruct (_ <? _)%Z.
  - rewrite Hm. destruct (Str.endswith _ _).
    + destruct (slice_to_take (Str.take m candidate_name)
                  (- Username.strlen ("-" +:+ Str.of_Z k))) as [m' Hm'].
      rewrite Hm', str_take_take.
      exists (m' `min` m)%nat, (k + 1)%Z. repeat split; try done; lia.
    + exists m, (k + 1)%Z. repeat split; try done; lia.
  - rewrite endswith_app. unfold Username.strlen.
    rewrite slice_to_neg_app by done.
    exists n, (k + 1)%Z. repeat split; try done; lia.
Qed.
End make_unique.

Lemma slice_to_length_le (s : string) (k : Z) :
  (String.length (Str.slice_to s k) ≤ String.length s)%nat.
Proof.
  destruct (slice_to_take s k) as [n ->]. rewrite str_take_length. lia.
Qed.

Lemma after_last_tail (a : string) (k : Z) :
  (0 ≤ k)%Z → Str.after_last "-" (a +:+ "-" +:+ Str.of_Z k) = Str.of_Z k.
Proof.
  intros Hk. apply (after_last_app "-" a (Str.of_Z k)).
  pose proof (of_Z_nonneg_digits k Hk) as Hd. revert Hd.
  apply forallb_impl. intros c Hc. apply negb_true_iff, Ascii.eqb_neq.
  intros ->. by vm_compute in Hc.
Qed.

Section make_unique_exits.
Context (candidate_name : string) (existing_names : list string).

Abbreviation cond := (Username.loop_cond existing_names 32).
Abbreviation body := (Username.loop_body candidate_name 32).
Abbreviation run fuel := (Username.loop fuel candidate_name existing_names 32).
Abbreviation fits st := (Username.strlen (Username.unique_name st) ≤ 32)%Z.

(** A pass that starts from a name that is too long ends with one that
    fits, as long as the counter has at most 31 digits. *)
Lemma body_fits st :
  ¬ fits st → (Username.counter st < 10 ^ 31)%Z → (0 ≤ Username.counter st)%Z →
  fits (body st).
Proof.
  intros Hlong Hc Hc0. unfold Username.loop_body.
  destruct (Z.ltb_spec 32 (Username.strlen (Username.unique_name st))); [|lia].
  cbn [Username.unique_name]. unfold Username.strlen.
  rewrite !str_length_app.
  pose proof (of_Z_length 31 (Username.counter st)) as Hlen.
  set (L := String.length (Str.of_Z (Username.counter st))) in *.
  assert (L ≤ 31)%nat by (apply Hlen; lia).
  pose proof (slice_to_length candidate_name (32 - Z.of_nat L - 1)) as Hs.
  set (t := Str.slice_to candidate_name _) in *.
  assert (Ht : (Z.of_nat (String.length t) ≤ 32 - Z.of_nat L - 1)%Z)
    by (apply Hs; lia).
  assert (String.length "-" = 1%nat) as -> by done.
  destruct (Username.tail st) as [tl|]; [|lia].
  destruct (_ && _); [|lia].
  pose proof (slice_to_length_le t (- Z.of_nat (String.length tl))). lia.
Qed.

(** The names met by the passes are pairwise different: [seen] collects
    those found among [existing_names], and [m] bounds how many more of
    them there can be. *)
Lemma loop_exits_within (m : nat) :
  ∀ st (seen : list string) (k : Z) (fuel : nat),
    (1 ≤ k)%Z →
    Username.counter st = (k + 1)%Z →
    (∃ a, Username.unique_name st = a +:+ "-" +:+ Str.of_Z k) →
    NoDup seen →
    (∀ x, x ∈ seen → x ∈ existing_names) →
    (∀ x, x ∈ seen → ∃ a j, (0 ≤ j < k)%Z ∧ x = a +:+ "-" +:+ Str.of_Z j) →
    (length existing_names ≤ length seen + m)%nat →
    (k + 2 * Z.of_nat m + 2 < 10 ^ 31)%Z →
    (2 * m + 2 ≤ fuel)%nat →
    ∃ st', run fuel st = Some st'.
Proof.
  assert (Hbody : ∀ st, ∃ a, Username.unique_name (body st)
                             = a +:+ "-" +:+ Str.of_Z (Username.counter st)).
  { intros st. unfold Username.loop_body. cbn [Username.unique_name]. by eexists. }
  assert (Hfresh : ∀ st seen k,
    (1 ≤ k)%Z →
    (∃ a, Username.unique_name st = a +:+ "-" +:+ Str.of_Z k) →
    NoDup seen →
    (∀ x, x ∈ seen → x ∈ existing_names) →
    (∀ x, x ∈ seen → ∃ a j, (0 ≤ j < k)%Z ∧ x = a +:+ "-" +:+ Str.of_Z j) →
    Username.unique_name st ∈ existing_names →
    (S (length seen) ≤ length existing_names)%nat
    ∧ NoDup (Username.unique_name st :: seen)).
  { intros st seen k Hk [a Ha] Hnd Hsub Hform Hin.
    assert (Hnew : Username.unique_name st ∉ seen).
    { intros (a' & j & Hj & Heq)%Hform. rewrite Ha in Heq.
      apply (f_equal (Str.after_last "-")) in Heq.
      rewrite !after_last_tail in Heq by lia.
      apply (inj pretty) in Heq. lia. }
    assert (Hnd' : NoDup (Username.unique_name st :: seen)) by by constructor.
    split; [|done].
    change (S (length seen)) with (length (Username.unique_name st :: seen)).
    apply submseteq_length, NoDup_submseteq; [done|].
    intros x [->|?]%elem_of_cons; auto. }
  induction m as [|m IH]; intros st seen k fuel Hk Hc Hname Hnd Hsub Hform Hlen Hbig Hfuel.
  - (* nothing of [existing_names] is left *)
    destruct fuel as [|[|fuel]]; [lia..|]. cbn [Username.loop].
    destruct (cond st) eqn:Hcond; [|by eexists].
    destruct (Z.le_gt_cases (Username.strlen (Username.unique_name st)) 32)
      as [Hfit|Hlong].
    { apply loop_cond_true in Hcond; [|done].
      destruct (Hfresh st seen k) as [? _]; try done. lia. }
    assert (Hfit : fits (body st)) by (apply body_fits; lia).
    destruct (cond (body st)) eqn:Hcond'; [|by eexists].
    apply loop_cond_true in Hcond'; [|done].
    destruct (Hfresh (body st) seen (k + 1)%Z) as [? _]; try done; try lia.
    + destruct (Hbody st) as [a Ha]. exists a. by rewrite Ha, Hc.
    + intros x (a & j & ? & ?)%Hform. exists a, j. split; [lia|done].
  - destruct fuel as [|fuel]; [lia|]. cbn [Username.loop].
    destruct (cond st) eqn:Hcond; [|by eexists].
    assert (Hname' : ∃ a, Username.unique_name (body st)
                          = a +:+ "-" +:+ Str.of_Z (k + 1)).
    { destruct (Hbody st) as [a Ha]. exists a. by rewrite Ha, Hc. }
    assert (Hc' : Username.counter (body st) = (k + 1 + 1)%Z).
    { unfold Username.loop_body. cbn [Username.counter]. lia. }
    destruct (Z.le_gt_cases (Username.strlen (Username.unique_name st)) 32)
      as [Hfit|Hlong].
    + (* the name fits, so it is one of [existing_names] *)
      apply loop_cond_true in Hcond; [|done].
      destruct (Hfresh st seen k) as [Hlen' Hnd']; try done.
      apply (IH (body st) (Username.unique_name st :: seen) (k + 1)%Z);
        try done; try lia.
      * intros x [->|?]%elem_of_cons; auto.
      * intros x [->|Hx]%elem_of_cons.
        -- destruct Hname as [a Ha]. exists a, k. split; [lia|done].
        -- destruct (Hform x Hx) as (a & j & ? & ?). exists a, j.
           split; [lia|done].
      * cbn [length]. lia.
    + (* the name is too long, the next one fits *)
      assert (Hfit : fits (body st)) by (apply body_fits; lia).
      destruct fuel as [|fuel]; [lia|]. cbn [Username.loop].
      destruct (cond (body st)) eqn:Hcond'; [|by eexists].
      apply loop_cond_true in Hcond'; [|done].
      assert (Hform' : ∀ x, x ∈ seen →
                ∃ a j, (0 ≤ j < k + 1)%Z ∧ x = a +:+ "-" +:+ Str.of_Z j).
      { intros x (a & j & ? & ?)%Hform. exists a, j. split; [lia|done]. }
      destruct (Hfresh (body st) seen (k + 1)%Z) as [Hlen' Hnd']; try done;
        try lia.
      apply (IH (body (body st)) (Username.unique_name (body st) :: seen)
               (k + 2)%Z); try done; try lia.
      * unfold Username.loop_body at 1. cbn [Username.counter]. lia.
      * destruct (Hbody (body st)) as [a Ha]. exists a. rewrite Ha, Hc'.
        by replace (k + 1 + 1)%Z with (k + 2)%Z by lia.
      * intros x [->|?]%elem_of_cons; auto.
      * intros x [->|Hx]%elem_of_cons.
        -- destruct Hname' as [a Ha]. exists a, (k + 1)%Z. split; [lia|done].
        -- destruct (Hform x Hx) as (a & j & ? & ?). exists a, j.
           split; [lia|done].
      * cbn [length]. lia.
Qed.

(** With fewer than [10 ^ 30] existing names, the loop is left after at
    most [passes existing_names] passes. *)
Lemma make_unique_loop_exits :
  (Z.of_nat (length existing_names) < 10 ^ 30)%Z →
  ∃ st', run (Username.passes existing_names) (Username.init candidate_name)
         = Some st'.
Proof.
  intros Hsmall. unfold Username.passes.
  replace (2 * length existing_names + 3)%nat
    with (S (2 * length existing_names + 2)) by lia.
  cbn [Username.loop].
  destruct (cond (Username.init candidate_name)); [|by eexists].
  apply (loop_exits_within (length existing_names) _ [] 1%Z).
  - done.
  - done.
  - unfold Username.loop_body. cbn [Username.unique_name Username.counter].
    by eexists.
  - constructor.
  - by intros x ?%elem_of_nil.
  - by intros x ?%elem_of_nil.
  - cbn [length]. lia.
  - lia.
  - lia.
Qed.
End make_unique_exits.

Lemma loop_more_fuel cand ex ml (fuel extra : nat) st st' :
  Username.loop fuel cand ex ml st = Some st' →
  Username.loop (fuel + extra) cand ex ml st = Some st'.
Proof.
  revert st. induction fuel as [|fuel IH]; intros st; cbn [Username.loop plus].
  - destruct (Username.loop_cond ex ml st) eqn:Hc; [done|].
    intros [= <-]. destruct extra; cbn [Username.loop]; by rewrite Hc.
  - destruct (Username.loop_cond ex ml st); [apply IH|done].
Qed.

Lemma UbuntuName_ok (s r : string) :
  Types.UbuntuName (PyStr s) = ok r → r = s ∧ Types.is_valid (PyStr s) = true.
Proof. unfold Types.UbuntuName. destruct (Types.is_valid _); naive_solver. Qed.

Lemma make_unique_outcome (cand : string) (ex : list string) :
  (Z.of_nat (length ex) < 10 ^ 30)%Z →
  ∃ st, Username.loop (Username.passes ex) cand ex 32 (Username.init cand) = Some st
        ∧ Username.make_unique cand ex = Types.UbuntuName (PyStr (Username.unique_name st)).
Proof.
  intros Hsmall. destruct (make_unique_loop_exits cand ex Hsmall) as [st Hst].
  exists st. split; [done|]. unfold Username.make_unique, Username.make_unique_fuel.
  change (Z.of_nat Types.MAX_LEN) with 32%Z. by rewrite Hst.
Qed.

Lemma make_unique_ok (cand : string) (ex : list string) (r : string) :
  Username.make_unique cand ex = ok r →
  (r ∉ ex) ∧ (String.length r ≤ 32)%nat
  ∧ (r = cand ∨ ∃ n k, (1 ≤ k)%Z ∧ r = Str.take n cand +:+ "-" +:+ Str.of_Z k).
Proof.
  unfold Username.make_unique, Username.make_unique_fuel.
  change (Z.of_nat Types.MAX_LEN) with 32%Z.
  destruct (Username.loop _ _ _ _ _) as [st|] eqn:Hloop; [|done].
  intros [-> _]%UbuntuName_ok.
  pose proof (loop_exit _ _ _ _ _ _ Hloop) as [Hnew Hfit]%loop_cond_false.
  split; [done|]. split; [unfold Username.strlen in Hfit; lia|].
  revert Hloop. unfold Username.passes.
  replace (2 * length ex + 3)%nat with (S (2 * length ex + 2)) by lia.
  cbn [Username.loop]. destruct (Username.loop_cond _ _ _).
  - intros Hloop. right.
    apply (loop_invariant cand ex 32 (Username.suffixed cand)) in Hloop.
    + destruct Hloop as (n & k & ? & _ & _ & ?). by exists n, k.
    + apply body_suffixed.
    + apply body_init.
  - intros [= <-]. by left.
Qed.











(** A candidate of forty characters: the names tried are its first thirty
    characters followed by [-1], ..., [-9], then the same with [-10], which
    has 33 characters and is passed over whatever the existing names, then
    its first 29 characters followed by [-11]. *)
Example make_unique_retruncates :
  let c := "abcdefghijklmnopqrstuvwxyzabcdefghijklmn" in
  Username.tried c 1 = "abcdefghijklmnopqrstuvwxyzabcd-1"
  ∧ Username.tried c 9 = "abcdefghijklmnopqrstuvwxyzabcd-9"
  ∧ Username.tried c 10 = "abcdefghijklmnopqrstuvwxyzabcd-10"
  ∧ Username.tried c 11 = "abcdefghijklmnopqrstuvwxyzabc-11"
  ∧ Username.make_unique c [] = ok "abcdefghijklmnopqrstuvwxyzabcd-1".
Proof. vm_compute. done. Qed.

(** C7 (as amended).  [make_unique] is a function of its arguments, and for
    every candidate and every list of fewer than [10 ^ 30] existing names
    its loop is left after at most [2 * len(existing_names) + 3] passes, in
    a state whose name is not an existing name and has at most 32
    characters; more passes allowed change nothing.  The function then
    returns that name if it is a valid Ubuntu name and raises the ValueError
    of [UbuntuName] otherwise. *)
Theorem make_unique_terminates (candidate_name : string)
    (existing_names : list string) :
  (Z.of_nat (length existing_names) < 10 ^ 30)%Z →
  ∃ st,
    (∀ extra,
       Username.loop (Username.passes existing_names + extra) candidate_name
         existing_names 32 (Username.init candidate_name) = Some st)
    ∧ Username.loop_cond existing_names 32 st = false
    ∧ Username.make_unique candidate_name existing_names
      = if Types.is_valid (PyStr (Username.unique_name st))
        then ok (Username.unique_name st)
        else raise ValueError (MsgInvalidUbuntuName (PyStr (Username.unique_name st))).
Proof.
  intros Hsmall.
  destruct (make_unique_outcome candidate_name existing_names Hsmall)
    as (st & Hloop & Hmu).
  exists st. split; [|split].
  - intros extra. by apply loop_more_fuel.
  - by apply loop_exit in Hloop.
  - by rewrite Hmu.
Qed.

Lemma make_unique_terminates_witness :
  ∃ st,
    (∀ extra,
       Username.loop (Username.passes ["user"; "user-1"] + extra) "user"
         ["user"; "user-1"] 32 (Username.init "user") = Some st)
    ∧ Username.loop_cond ["user"; "user-1"] 32 st = false
    ∧ Username.make_unique "user" ["user"; "user-1"]
      = if Types.is_valid (PyStr (Username.unique_name st))
        then ok (Username.unique_name st)
        else raise ValueError (MsgInvalidUbuntuName (PyStr (Username.unique_name st))).
Proof.
  apply (make_unique_terminates "user" ["user"; "user-1"]). reflexivity.
Defined.

Lemma elem_of_all_ascii (c : ascii) : c ∈ Username.all_ascii.
Proof.
  unfold Username.all_ascii. apply list_elem_of_fmap.
  exists (nat_of_ascii c). split; [by rewrite ascii_nat_embedding|].
  apply elem_of_seq. pose proof (nat_ascii_bounded c). lia.
Qed.

Lemma elem_of_strings_upto (n : nat) (s : string) :
  (String.length s ≤ n)%nat → s ∈ Username.strings_upto n.
Proof.
  revert s. induction n as [|n IH]; intros [|c s] Hs;
    cbn [Username.strings_upto String.length] in *; try lia; try by left.
  right. apply list_elem_of_bind. exists s. split; [|apply IH; lia].
  apply list_elem_of_fmap. exists c. split; [done|apply elem_of_all_ascii].
Qed.

(** C7, the claim as written fails twice.  For the candidate [""] and no
    existing names the loop is left at once, but no value is returned: the
    final [UbuntuName] check raises.  And against the (finite) set of all
    strings of at most 32 characters the loop is never left, whatever the
    candidate. *)
Lemma make_unique_without_value :
  Username.make_unique "" [] = raise ValueError (MsgInvalidUbuntuName (PyStr ""))
  ∧ ∀ fuel, Username.make_unique_fuel fuel "user" (Username.strings_upto 32) 32
            = None.
Proof.
  split; [reflexivity|].
  assert (Hcond : ∀ st, Username.loop_cond (Username.strings_upto 32) 32 st = true).
  { intros st. unfold Username.loop_cond.
    destruct (Z.ltb_spec 32 (Username.strlen (Username.unique_name st)));
      [apply orb_true_r|].
    apply orb_true_iff. left. apply str_in_elem_of, elem_of_strings_upto.
    unfold Username.strlen in *. lia. }
  intros fuel. unfold Username.make_unique_fuel.
  generalize (Username.init "user").
  induction fuel as [|fuel IH]; intros st; cbn [Username.loop]; rewrite Hcond;
    [done|apply IH].
Qed.

(* --------------------------------------------------------------------- *)
(** ** main.py: the active-team check                                     *)
(* --------------------------------------------------------------------- *)

Lemma filter_idemp (p : ascii → bool) (s : string) :
  Str.filter p (Str.filter p s) = Str.filter p s.
Proof.
  induction s as [|c s IH]; [done|]. simpl.
  destruct (p c) eqn:Hc; [|done]. simpl. by rewrite Hc, IH.
Qed.

Lemma filter_length (p : ascii → bool) (s : string) :
  (String.length (Str.filter p s) ≤ String.length s)%nat.
Proof.
  induction s as [|c s IH]; [done|]. simpl. destruct (p c); simpl; lia.
Qed.

(** A name that went through [UnicodeName] goes through it unchanged. *)
Lemma UnicodeName_idemp (v : pyval) (s : string) :
  Types.UnicodeName v = ok s → Types.UnicodeName (PyStr s) = ok s.
Proof.
  unfold Types.UnicodeName. destruct v as [| | | |name|]; try done.
  destruct (Nat.leb_spec 128 (String.length name)); [done|].
  intros [= <-]. rewrite filter_idemp.
  pose proof (filter_length (λ c, negb (Types.is_meta c)) name).
  destruct (Nat.leb_spec 128 (String.length (Str.filter (λ c, negb (Types.is_meta c)) name)));
    [lia|done].
Qed.

(** *** Code that cannot end in the error of the check *)

Create HintDb blame discriminated.

Lemma other_ok {A} (a : A) : other_outcome (ok a).
Proof. by intros ???. Qed.
Lemma other_rbind {A B} (r : result A) (k : A → result B) :
  other_outcome r → (∀ a, other_outcome (k a)) → other_outcome (rbind r k).
Proof.
  intros Hr Hk. destruct r as [e|a]; cbn; [|apply Hk].
  intros c a t [= ->]. by apply (Hr c a t).
Qed.
Lemma other_rmap {A B} (f : A → B) (r : result A) :
  other_outcome r → other_outcome (rmap f r).
Proof. intros Hr. apply other_rbind; [done|]. intros a. apply other_ok. Qed.
Lemma other_mapM {A B} (f : A → result B) (xs : list A) :
  (∀ x, other_outcome (f x)) → other_outcome (mapM f xs).
Proof.
  intros Hf. induction xs as [|x xs IH]; cbn [mapM]; [apply other_ok|].
  apply other_rbind; [done|]. intros y. apply other_rbind; [done|].
  intros ys. apply other_ok.
Qed.

Lemma never_ret {S A} (a : A) : never_blames_team (@ret S A a).
Proof. by intros s ???. Qed.
Lemma never_lift {S A} (r : result A) :
  other_outcome r → never_blames_team (@lift S A r).
Proof. by intros Hr s. Qed.
Lemma never_bind {S A B} (m : St S A) (k : A → St S B) :
  never_blames_team m → (∀ a, never_blames_team (k a)) →
  never_blames_team (bind m k).
Proof.
  intros Hm Hk s. unfold bind. specialize (Hm s).
  destruct (m s) as [[e|a] s1]; cbn in *; [|apply Hk].
  intros c a t [= ->]. by apply (Hm c a t).
Qed.
Lemma never_for_each {S A} (xs : list A) (body : A → St S unit) :
  (∀ x, never_blames_team (body x)) → never_blames_team (for_each xs body).
Proof.
  intros Hb. induction xs as [|x xs IH]; cbn [for_each]; [apply never_ret|].
  apply never_bind; [done|]. by intros _.
Qed.
Lemma never_load_yaml : never_blames_team TableIO.load_yaml.
Proof. by intros s ???. Qed.
Lemma never_write_yaml t : never_blames_team (TableIO.write_yaml t).
Proof. by intros s ???. Qed.
Lemma never_in_users {A} (m : St table A) :
  never_blames_team m → never_blames_team (Main.in_users m).
Proof.
  intros Hm s. unfold Main.in_users. specialize (Hm (Main.users s)).
  by destruct (m (Main.users s)).
Qed.
Lemma never_in_groups {A} (m : St table A) :
  never_blames_team m → never_blames_team (Main.in_groups m).
Proof.
  intros Hm s. unfold Main.in_groups. specialize (Hm (Main.groups s)).
  by destruct (m (Main.groups s)).
Qed.
Lemma never_fresh_uuid w : never_blames_team (Main.fresh_uuid w).
Proof. by intros s ???. Qed.

#[local] Hint Resolve other_ok other_rbind other_rmap other_mapM : blame.
#[local] Hint Resolve never_ret never_lift never_bind never_for_each
  never_load_yaml never_write_yaml never_in_users never_in_groups
  never_fresh_uuid : blame.
#[local] Hint Extern 1 (other_outcome (inl _)) => (by intros ???) : blame.
#[local] Hint Extern 1 (never_blames_team (throw _ _)) => (by intros ????) : blame.
#[local] Hint Extern 3 (other_outcome (match ?x with _ => _ end)) =>
  destruct x : blame.
#[local] Hint Extern 3 (never_blames_team (match ?x with _ => _ end)) =>
  destruct x : blame.
#[local] Hint Extern 4 (other_outcome (_ _)) => progress intros : blame.

(** Unfold the given functions, then let the hints walk through the code. *)
Tactic Notation "blameless" reference(f) :=
  intros; unfold f; eauto 40 with blame.

Lemma other_StsciUuid v : other_outcome (Types.StsciUuid v).
Proof. blameless Types.StsciUuid. Qed.
Lemma other_UnicodeName v : other_outcome (Types.UnicodeName v).
Proof. blameless Types.UnicodeName. Qed.
Lemma other_UserStatus v : other_outcome (Types.UserStatus v).
Proof. blameless Types.UserStatus. Qed.
Lemma other_UserType v : other_outcome (Types.UserType v).
Proof. blameless Types.UserType. Qed.
Lemma other_UbuntuName v : other_outcome (Types.UbuntuName v).
Proof. blameless Types.UbuntuName. Qed.
Lemma other_validate c v : other_outcome (Types.validate c v).
Proof. blameless Types.validate. Qed.
#[local] Hint Resolve other_StsciUuid other_UnicodeName other_UserStatus
  other_UserType other_UbuntuName other_validate : blame.
Lemma other_RangedId c v : other_outcome (Types.RangedId c v).
Proof. blameless Types.RangedId. Qed.
Lemma other_getitem e k : other_outcome (TableIO.getitem e k).
Proof. blameless TableIO.getitem. Qed.
Lemma other_int v : other_outcome (TableIO.int v).
Proof. blameless TableIO.int. Qed.
Lemma other_as_str v : other_outcome (TableIO.as_str v).
Proof. blameless TableIO.as_str. Qed.
Lemma other_make_unique c ex : other_outcome (Username.make_unique c ex).
Proof.
  unfold Username.make_unique, Username.make_unique_fuel.
  destruct (Username.loop _ _ _ _ _); eauto with blame.
Qed.
#[local] Hint Resolve other_RangedId other_getitem other_int other_as_str
  other_make_unique : blame.
Lemma other_to_valid_username w u ex k :
  other_outcome (Username.to_valid_username w u ex k).
Proof.
  unfold Username.to_valid_username. generalize Username.recursion_limit.
  intros d. revert u k. induction d as [|d IH]; intros u k;
    cbn [Username.to_valid_username_rec]; eauto 20 with blame.
Qed.
Lemma other_scan l m : other_outcome (Users.scan l m).
Proof. blameless Users.scan. Qed.
#[local] Hint Resolve other_to_valid_username other_scan : blame.

Lemma never_column {A} key (f : yval → result A) :
  (∀ v, other_outcome (f v)) → never_blames_team (Users.column key f).
Proof. blameless Users.column. Qed.
#[local] Hint Resolve never_column : blame.

Lemma never_get_new_uid ut : never_blames_team (Users.get_new_uid ut).
Proof. unfold Users.load_all_uids. blameless Users.get_new_uid. Qed.
Lemma never_get_new_username w e ex :
  never_blames_team (Users.get_new_username w e ex).
Proof. unfold Users.load_all_usernames. blameless Users.get_new_username. Qed.
Lemma never_user_exist id id_type : never_blames_team (Users.user_exist id id_type).
Proof.
  unfold Users.load_all_usernames, Users.load_all_uuids, Users.load_all_ezids.
  blameless Users.user_exist.
Qed.
#[local] Hint Resolve never_get_new_uid never_get_new_username never_user_exist
  : blame.

Lemma never_add_user w uuid ezid username uid gid home ut ex :
  never_blames_team (Users.add_user w uuid ezid username uid gid home ut ex).
Proof. blameless Users.add_user. Qed.

Lemma other_user_of_entry e : other_outcome (Users.user_of_entry e).
Proof. blameless Users.user_of_entry. Qed.
#[local] Hint Resolve never_add_user other_user_of_entry : blame.

Lemma other_find_user id_type id tbl : other_outcome (Users.find_user id_type id tbl).
Proof.
  induction tbl as [|e es IH]; cbn [Users.find_user]; eauto 10 with blame.
Qed.
#[local] Hint Resolve other_find_user : blame.

Lemma never_get_user_info id id_type :
  never_blames_team (Users.get_user_info id id_type).
Proof. blameless Users.get_user_info. Qed.

Lemma other_line_of_entry attrs e : other_outcome (TableIO.line_of_entry attrs e).
Proof. blameless TableIO.line_of_entry. Qed.
#[local] Hint Resolve never_get_user_info other_line_of_entry : blame.

Lemma never_get_file_string attrs :
  never_blames_team (TableIO.get_file_string attrs).
Proof. unfold TableIO.to_string. blameless TableIO.get_file_string. Qed.
#[local] Hint Resolve never_get_file_string : blame.

Lemma never_get_new_gid ut : never_blames_team (Groups.get_new_gid ut).
Proof. unfold Groups.load_all_gids. blameless Groups.get_new_gid. Qed.
Lemma never_get_new_groupname w t ex :
  never_blames_team (Groups.get_new_groupname w t ex).
Proof. unfold Groups.load_all_groupnames. blameless Groups.get_new_groupname. Qed.
Lemma never_team_exist t : never_blames_team (Groups.team_exist t).
Proof. unfold Groups.load_all_teamnames. blameless Groups.team_exist. Qed.
Lemma never_group_exist g : never_blames_team (Groups.group_exist g).
Proof. unfold Groups.load_all_groupnames. blameless Groups.group_exist. Qed.
Lemma never_gid_exist g : never_blames_team (Groups.gid_exist g).
Proof. unfold Groups.load_all_gids. blameless Groups.gid_exist. Qed.
#[local] Hint Resolve never_get_new_gid never_get_new_groupname never_team_exist
  never_group_exist never_gid_exist : blame.

Lemma never_create_new_group w t g gid ut ex :
  never_blames_team (Groups.create_new_group w t g gid ut ex).
Proof. blameless Groups.create_new_group. Qed.

Lemma other_find_entry key v tbl : other_outcome (Groups.find_entry key v tbl).
Proof.
  induction tbl as [|e es IH]; cbn [Groups.find_entry]; eauto 10 with blame.
Qed.
Lemma other_append_member u g tbl : other_outcome (Groups.append_member u g tbl).
Proof.
  induction tbl as [|e es IH]; cbn [Groups.append_member]; eauto 20 with blame.
Qed.
Lemma other_drop_member u g tbl : other_outcome (Groups.drop_member u g tbl).
Proof.
  induction tbl as [|e es IH]; cbn [Groups.drop_member]; eauto 20 with blame.
Qed.
Lemma other_groups_of u tbl : other_outcome (Groups.groups_of u tbl).
Proof.
  induction tbl as [|e es IH]; cbn [Groups.groups_of]; eauto 20 with blame.
Qed.
Lemma other_group_of_entry e : other_outcome (Groups.group_of_entry e).
Proof. blameless Groups.group_of_entry. Qed.
#[local] Hint Resolve never_create_new_group other_find_entry other_append_member
  other_drop_member other_groups_of other_group_of_entry : blame.

Lemma never_lookup_gid n t : never_blames_team (Groups.lookup_gid n t).
Proof. blameless Groups.lookup_gid. Qed.
Lemma never_add_user_to_group u g : never_blames_team (Groups.add_user_to_group u g).
Proof. blameless Groups.add_user_to_group. Qed.
Lemma never_remove_user_from_group u g :
  never_blames_team (Groups.remove_user_from_group u g).
Proof. blameless Groups.remove_user_from_group. Qed.
Lemma never_get_users_of_group g : never_blames_team (Groups.get_users_of_group g).
Proof. blameless Groups.get_users_of_group. Qed.
Lemma never_get_groups_of_user u : never_blames_team (Groups.get_groups_of_user u).
Proof. blameless Groups.get_groups_of_user. Qed.
Lemma never_get_group_info id id_type :
  never_blames_team (Groups.get_group_info id id_type).
Proof. blameless Groups.get_group_info. Qed.
#[local] Hint Resolve never_lookup_gid never_add_user_to_group
  never_remove_user_from_group never_get_users_of_group
  never_get_groups_of_user never_get_group_info : blame.

Lemma other_hashable v : other_outcome (Main.hashable v).
Proof. blameless Main.hashable. Qed.
Lemma other_ge_min v : other_outcome (Main.ge_min v).
Proof. blameless Main.ge_min. Qed.
#[local] Hint Resolve other_hashable other_ge_min : blame.

Lemma never_all_names : never_blames_team Main.all_names.
Proof. blameless Main.all_names. Qed.
Lemma never_add_member u g : never_blames_team (Main.add_member u g).
Proof. blameless Main.add_member. Qed.
Lemma never_remove_member u g : never_blames_team (Main.remove_member u g).
Proof. blameless Main.remove_member. Qed.
#[local] Hint Resolve never_all_names never_add_member never_remove_member : blame.

Lemma never_create_or_fetch_user w uuid ezid :
  never_blames_team (Main.create_or_fetch_user w uuid ezid).
Proof. blameless Main.create_or_fetch_user. Qed.
Lemma never_create_or_fetch_group w u t :
  never_blames_team (Main.create_or_fetch_group w u t).
Proof. blameless Main.create_or_fetch_group. Qed.
Lemma never_teamnames_to_groupnames ts :
  never_blames_team (Main.teamnames_to_groupnames ts).
Proof.
  unfold Main.teamnames_to_groupnames.
  induction ts as [|t ts IH]; eauto 10 with blame.
Qed.
#[local] Hint Resolve never_create_or_fetch_user never_create_or_fetch_group
  never_teamnames_to_groupnames : blame.

Lemma never_remove_obsolete u ts :
  never_blames_team (Main.remove_obsolete_group_memberships u ts).
Proof. blameless Main.remove_obsolete_group_memberships. Qed.
#[local] Hint Resolve never_remove_obsolete : blame.

Lemma get_spawn_info_coerced (w : world) (uuid ezid active : pyval)
    (teams : list pyval) (uuid' ezid' active' : string) (teams' : list string) :
  Types.StsciUuid uuid = ok uuid' →
  Types.StsciEzid ezid = ok ezid' →
  Types.TeamName active = ok active' →
  mapM Types.TeamName teams = ok teams' →
  Main.get_spawn_info w uuid ezid active teams
  = Main._locked_get_spawn_info w uuid' ezid' active' teams'.
Proof.
  intros Hu He Ha Ht. unfold Main.get_spawn_info.
  rewrite Hu, He, Ha, Ht. done.
Qed.

Lemma locked_not_listed (w : world) (uuid ezid active : string)
    (teams : list string) :
  Types.TeamName (PyStr ezid) = ok ezid →
  active ∉ teams → active ≠ ezid →
  (∀ s, ∃ e, (Main._locked_get_spawn_info w uuid ezid active teams s).1 = inl e)
  ∧ (∀ s s1 s2 s3 username uid,
       Main.create_or_fetch_user w uuid ezid s = (ok (username, uid), s1) →
       for_each teams (Main.create_or_fetch_group w username) s1 = (ok tt, s2) →
       Main.remove_obsolete_group_memberships username teams s2 = (ok tt, s3) →
       Main._locked_get_spawn_info w uuid ezid active teams s
       = (raise ValueError (MsgActiveTeamNotInTeams active teams), s3)).
Proof.
  intros Hown Hteams Hne.
  assert (Hguard : str_in active (teams ++ [ezid]) = false).
  { apply str_in_false. rewrite elem_of_app, list_elem_of_singleton. tauto. }
  split.
  - intros s. unfold Main._locked_get_spawn_info, bind.
    destruct (Main.create_or_fetch_user w uuid ezid s) as [[e|[username uid]] s1];
      [by eexists|].
    destruct (for_each teams _ s1) as [[e|[]] s2]; [by eexists|].
    destruct (Main.remove_obsolete_group_memberships username teams s2)
      as [[e|[]] s3]; [by eexists|].
    unfold lift. rewrite Hown, Hguard. by eexists.
  - intros s s1 s2 s3 username uid Huser Hgroups Hobs.
    change (for_each teams (λ t, Main.create_or_fetch_group w username t) s1
            = (ok tt, s2)) in Hgroups.
    unfold Main._locked_get_spawn_info, bind.
    rewrite Huser. cbv beta iota. rewrite Hgroups, Hobs.
    unfold lift. by rewrite Hown, Hguard.
Qed.

Lemma never_bind_value {S A B} (a : A) (k : A → St S B) :
  never_blames_team (k a) → never_blames_team (bind (lift (ok a)) k).
Proof. intros Hk s. apply Hk. Qed.

Lemma locked_listed (w : world) (uuid ezid active : string) (teams : list string) :
  Types.TeamName (PyStr ezid) = ok ezid →
  active ∈ teams ∨ active = ezid →
  never_blames_team (Main._locked_get_spawn_info w uuid ezid active teams).
Proof.
  intros Hown Hin.
  assert (Hguard : str_in active (teams ++ [ezid]) = true).
  { apply str_in_elem_of. rewrite elem_of_app, list_elem_of_singleton. tauto. }
  unfold Main._locked_get_spawn_info.
  apply never_bind; [eauto with blame|]. intros [username uid].
  apply never_bind; [eauto with blame|]. intros _.
  apply never_bind; [eauto with blame|]. intros _.
  rewrite Hown. apply never_bind_value. rewrite Hguard.
  apply never_bind; [eauto with blame|]. intros g_info.
  apply never_bind; [eauto with blame|]. intros group_names.
  apply never_bind.
  { induction group_names as [|g gs IH]; eauto 10 with blame. }
  intros gids. eauto 10 with blame.
Qed.

(** C4 (as amended).  Let the four arguments pass their coercions.  If the
    active team is neither in the team list nor equal to the ezid, the call
    never returns a SpawnInfo, and whenever the steps before the check
    (find-or-create user, find-or-create groups, reconciliation) complete,
    it fails with the ValueError that carries the active team and the team
    list, the store being as those steps left it.  If the active team is in
    the list or equals the ezid, the call never ends in that error. *)
Theorem active_team_guard (w : world) (uuid ezid active : pyval)
    (teams : list pyval) (uuid' ezid' active' : string) (teams' : list string) :
  Types.StsciUuid uuid = ok uuid' →
  Types.StsciEzid ezid = ok ezid' →
  Types.TeamName active = ok active' →
  mapM Types.TeamName teams = ok teams' →
  (active' ∉ teams' → active' ≠ ezid' →
     (∀ s, ∃ e, (Main.get_spawn_info w uuid ezid active teams s).1 = inl e)
     ∧ (∀ s s1 s2 s3 username uid,
          Main.create_or_fetch_user w uuid' ezid' s = (ok (username, uid), s1) →
          for_each teams' (Main.create_or_fetch_group w username) s1 = (ok tt, s2) →
          Main.remove_obsolete_group_memberships username teams' s2 = (ok tt, s3) →
          Main.get_spawn_info w uuid ezid active teams s
          = (raise ValueError (MsgActiveTeamNotInTeams active' teams'), s3)))
  ∧ (active' ∈ teams' ∨ active' = ezid' →
     never_blames_team (Main.get_spawn_info w uuid ezid active teams)).
Proof.
  intros Hu He Ha Ht.
  rewrite (get_spawn_info_coerced w _ _ _ _ _ _ _ _ Hu He Ha Ht).
  pose proof (UnicodeName_idemp _ _ He) as Hown.
  split; [apply locked_not_listed|apply locked_listed]; done.
Qed.

Lemma active_team_guard_witness :
  let uuid := PyStr "11111111111111111111111111111111" in
  ((∀ s, ∃ e, (Main.get_spawn_info Fresh.env uuid (PyStr "alice") (PyStr "X")
                 [PyStr "Y"] s).1 = inl e)
   ∧ ∀ s s1 s2 s3 username uid,
       Main.create_or_fetch_user Fresh.env
         "11111111-1111-1111-1111-111111111111" "alice" s
       = (ok (username, uid), s1) →
       for_each ["Y"] (Main.create_or_fetch_group Fresh.env username) s1
       = (ok tt, s2) →
       Main.remove_obsolete_group_memberships username ["Y"] s2 = (ok tt, s3) →
       Main.get_spawn_info Fresh.env uuid (PyStr "alice") (PyStr "X")
         [PyStr "Y"] s
       = (raise ValueError (MsgActiveTeamNotInTeams "X" ["Y"]), s3))
  ∧ never_blames_team
      (Main.get_spawn_info Fresh.env uuid (PyStr "alice") (PyStr "Y")
         [PyStr "Y"])
  ∧ never_blames_team
      (Main.get_spawn_info Fresh.env uuid (PyStr "alice") (PyStr "alice")
         [PyStr "Y"]).
Proof.
  intros uuid. split; [|split].
  - apply (proj1 (active_team_guard Fresh.env uuid (PyStr "alice") (PyStr "X")
                    [PyStr "Y"] _ _ _ _ eq_refl eq_refl eq_refl eq_refl)).
    + apply (proj1 (str_in_false _ _)). reflexivity.
    + discriminate.
  - apply (proj2 (active_team_guard Fresh.env uuid (PyStr "alice") (PyStr "Y")
                    [PyStr "Y"] _ _ _ _ eq_refl eq_refl eq_refl eq_refl)).
    left. apply (proj1 (str_in_elem_of _ _)). reflexivity.
  - apply (proj2 (active_team_guard Fresh.env uuid (PyStr "alice")
                    (PyStr "alice") [PyStr "Y"] _ _ _ _
                    eq_refl eq_refl eq_refl eq_refl)).
    right. reflexivity.
Defined.

(** C4, the claim as written fails.  A call whose active team is neither listed
    nor the ezid need not end in the ValueError of the active-team check:
    the steps before the check can fail first.  On a new registry a user
    whose ezid is the name of a base group fails with the RuntimeError of
    [create_new_group]; so does the first call of a user whose ezid is the
    name of a team that somebody else brought in before. *)
Lemma unlisted_active_team_other_error :
  let alice := PyStr "11111111111111111111111111111111" in
  let bob := PyStr "22222222222222222222222222222222" in
  ("X" ∉ ["Y"]) ∧ "X" ≠ "root" ∧ "X" ≠ "bob"
  ∧ Fresh.outcome
      (Main.get_spawn_info Fresh.env alice (PyStr "root") (PyStr "X")
         [PyStr "Y"])
    = ok (raise RuntimeError (MsgTeamExists "root"))
  ∧ (∃ i, Fresh.outcome
            (Main.get_spawn_info Fresh.env alice (PyStr "alice") (PyStr "bob")
               [PyStr "bob"]) = ok (ok i))
  ∧ Fresh.outcome
      (Main.get_spawn_info Fresh.env alice (PyStr "alice") (PyStr "bob")
         [PyStr "bob"] ;!
       Main.get_spawn_info Fresh.env bob (PyStr "bob") (PyStr "X") [PyStr "Y"])
    = ok (raise RuntimeError (MsgTeamExists "bob")).
Proof.
  intros alice bob.
  split; [apply (proj1 (str_in_false _ _)); reflexivity|].
  split; [discriminate|]. split; [discriminate|].
  split; [vm_compute; reflexivity|].
  split; [eexists; vm_compute; reflexivity|].
  vm_compute; reflexivity.
Qed.

(** C1, at the input where the code departs from it.  [StsciUuid] takes
    any 32 characters of [0-9a-z] for a uuid and hyphenates them, but a
    hyphenated uuid is only accepted with hexadecimal digits.  On a new
    registry the call with the uuid of 32 letters z succeeds and stores the
    hyphenated form; the same call again finds the user, reads the stored
    uuid back through [StsciUuid] in [get_user_info], and raises ValueError
    instead of returning the SpawnInfo of the first call. *)
Theorem repeated_call_rejects_stored_uuid :
  (∃ i, Fresh.outcome
          (Main.get_spawn_info Fresh.env
             (PyStr "zzzzzzzzzzzzzzzzzzzzzzzzzzzzzzzz")
             (PyStr "user_1") (PyStr "user_1") [])
        = ok (ok i)
        ∧ Main.uid i = PyInt 1001 ∧ Main.username i = "user-1")
  ∧ Types.StsciUuid (PyStr "zzzzzzzzzzzzzzzzzzzzzzzzzzzzzzzz")
    = ok "zzzzzzzz-zzzz-zzzz-zzzz-zzzzzzzzzzzz"
  ∧ Types.StsciUuid (PyStr "zzzzzzzz-zzzz-zzzz-zzzz-zzzzzzzzzzzz")
    = raise ValueError MsgInvalidUuidFormat
  ∧ Fresh.outcome
      (Main.get_spawn_info Fresh.env
         (PyStr "zzzzzzzzzzzzzzzzzzzzzzzzzzzzzzzz")
         (PyStr "user_1") (PyStr "user_1") [] ;!
       Main.get_spawn_info Fresh.env
         (PyStr "zzzzzzzzzzzzzzzzzzzzzzzzzzzzzzzz")
         (PyStr "user_1") (PyStr "user_1") [])
    = ok (raise ValueError MsgInvalidUuidFormat).
Proof.
  split.
  { eexists. split; [vm_compute; reflexivity|]. split; reflexivity. }
  split; [vm_compute; reflexivity|].
  split; vm_compute; reflexivity.
Qed.

(** With a uuid of hexadecimal digits the same two calls agree: the second
    returns what the first returned and leaves both tables as they were. *)
Example repeated_call_hexadecimal_uuid :
  Fresh.outcome
    (Main.get_spawn_info Fresh.env
       (PyStr "0123456789abcdef0123456789abcdef")
       (PyStr "user_1") (PyStr "team_1") [PyStr "team_1"; PyStr "team_2"] ;!
     Main.get_spawn_info Fresh.env
       (PyStr "0123456789abcdef0123456789abcdef")
       (PyStr "user_1") (PyStr "team_1") [PyStr "team_1"; PyStr "team_2"])
  = Fresh.outcome
      (Main.get_spawn_info Fresh.env
         (PyStr "0123456789abcdef0123456789abcdef")
         (PyStr "user_1") (PyStr "team_1") [PyStr "team_1"; PyStr "team_2"])
  ∧ Main.users
      (Fresh.after
         (Main.get_spawn_info Fresh.env
            (PyStr "0123456789abcdef0123456789abcdef")
            (PyStr "user_1") (PyStr "team_1") [PyStr "team_1"; PyStr "team_2"] ;!
          Main.get_spawn_info Fresh.env
            (PyStr "0123456789abcdef0123456789abcdef")
            (PyStr "user_1") (PyStr "team_1") [PyStr "team_1"; PyStr "team_2"]))
    = Main.users
        (Fresh.after
           (Main.get_spawn_info Fresh.env
              (PyStr "0123456789abcdef0123456789abcdef")
              (PyStr "user_1") (PyStr "team_1") [PyStr "team_1"; PyStr "team_2"]))
  ∧ Main.groups
      (Fresh.after
         (Main.get_spawn_info Fresh.env
            (PyStr "0123456789abcdef0123456789abcdef")
            (PyStr "user_1") (PyStr "team_1") [PyStr "team_1"; PyStr "team_2"] ;!
          Main.get_spawn_info Fresh.env
            (PyStr "0123456789abcdef0123456789abcdef")
            (PyStr "user_1") (PyStr "team_1") [PyStr "team_1"; PyStr "team_2"]))
    = Main.groups
        (Fresh.after
           (Main.get_spawn_info Fresh.env
              (PyStr "0123456789abcdef0123456789abcdef")
              (PyStr "user_1") (PyStr "team_1") [PyStr "team_1"; PyStr "team_2"])).
Proof.
  split; [vm_compute; reflexivity|].
  split; apply (bool_decide_unpack _); vm_compute; exact I.
Qed.

(* --------------------------------------------------------------------- *)
(** ** backup.py: the round trip                                          *)
(* --------------------------------------------------------------------- *)

Section backup_proofs.
Local Open Scope N_scope.
Import Backup.

Ltac lia_div := zify; Z.to_euclidean_division_equations; lia.

Ltac compare_N :=
  repeat match goal with
    | |- context [N.ltb ?a ?b] => destruct (N.ltb_spec a b)
    | |- context [N.leb ?a ?b] => destruct (N.leb_spec a b)
    | |- context [N.eqb ?a ?b] => destruct (N.eqb_spec a b)
    end; cbn [andb orb negb].

Lemma byte_of_to_N (b : Byte.byte) : byte_of (Byte.to_N b) = b.
Proof.
  unfold byte_of. pose proof (Byte.to_N_bounded b).
  rewrite N.mod_small by lia. by rewrite Byte.of_to_N.
Qed.

Lemma to_N_byte_of (n : N) : n < 256 → Byte.to_N (byte_of n) = n.
Proof.
  intros Hn. unfold byte_of. rewrite N.mod_small by done.
  destruct (Byte.of_N n) as [b|] eqn:Hb.
  - by apply Byte.to_of_N.
  - apply Byte.of_N_None_iff in Hb. lia.
Qed.

Lemma table_b2a_ascii (n : N) : table_b2a n < 128.
Proof. unfold table_b2a. compare_N; lia. Qed.

Lemma table_b2a_not_pad (n : N) : table_b2a n ≠ BASE64_PAD.
Proof. unfold table_b2a, BASE64_PAD. compare_N; lia. Qed.

Lemma table_a2b_b2a (n : N) : n < 64 → table_a2b (table_b2a n) = Some n.
Proof.
  intros Hn. unfold table_b2a.
  compare_N; unfold table_a2b; compare_N; try lia; f_equal; lia.
Qed.

Lemma to_N_digit (n : N) : Byte.to_N (digit n) = table_b2a n.
Proof.
  apply to_N_byte_of. pose proof (table_b2a_ascii n). lia.
Qed.

Lemma a2b_digit (quad_pos leftchar pads n : N) (data : bytes) :
  n < 64 →
  a2b_base64 quad_pos leftchar pads (digit n :: data)
  = if quad_pos =? 0 then a2b_base64 1 n 0 data
    else if quad_pos =? 1 then
      rmap (cons (byte_of (leftchar * 4 + n / 16)))
        (a2b_base64 2 (n mod 16) 0 data)
    else if quad_pos =? 2 then
      rmap (cons (byte_of (leftchar * 16 + n / 4)))
        (a2b_base64 3 (n mod 4) 0 data)
    else
      rmap (cons (byte_of (leftchar * 64 + n))) (a2b_base64 0 0 0 data).
Proof.
  intros Hn. cbn [a2b_base64]. rewrite to_N_digit.
  destruct (N.eqb_spec (table_b2a n) BASE64_PAD) as [Heq|_];
    [by apply table_b2a_not_pad in Heq|].
  by rewrite table_a2b_b2a.
Qed.

Lemma a2b_pad_2 (leftchar : N) (data : bytes) :
  a2b_base64 2 leftchar 0 (pad :: pad :: data) = ok [].
Proof. reflexivity. Qed.

Lemma a2b_pad_3 (leftchar : N) (data : bytes) :
  a2b_base64 3 leftchar 0 (pad :: data) = ok [].
Proof. reflexivity. Qed.

Lemma byte_of_eq (n : N) (b : Byte.byte) : n = Byte.to_N b → byte_of n = b.
Proof. intros ->. apply byte_of_to_N. Qed.

Lemma b64decode_b64encode_le (n : nat) (s : bytes) :
  (length s ≤ n)%nat → a2b_base64 0 0 0 (b64encode s) = ok s.
Proof.
  revert s. induction n as [|n IH]; intros s Hlen.
  { by destruct s; [|cbn in Hlen; lia]. }
  destruct s as [|a [|b [|c s]]]; [done| | |].
  - pose proof (Byte.to_N_bounded a). cbn [b64encode].
    rewrite !a2b_digit by lia_div. cbn [N.eqb Pos.eqb].
    rewrite a2b_pad_2. cbn [rmap rbind].
    do 2 f_equal. apply byte_of_eq. lia_div.
  - pose proof (Byte.to_N_bounded a). pose proof (Byte.to_N_bounded b).
    cbn [b64encode].
    rewrite !a2b_digit by lia_div. cbn [N.eqb Pos.eqb].
    rewrite a2b_pad_3. cbn [rmap rbind].
    f_equal. f_equal; [|f_equal]; apply byte_of_eq; lia_div.
  - pose proof (Byte.to_N_bounded a). pose proof (Byte.to_N_bounded b).
    pose proof (Byte.to_N_bounded c).
    cbn [b64encode].
    rewrite !a2b_digit by lia_div. cbn [N.eqb Pos.eqb].
    rewrite IH by (cbn in Hlen; lia). cbn [rmap rbind].
    f_equal. f_equal; [|f_equal; [|f_equal]]; apply byte_of_eq; lia_div.
Qed.

Lemma b64decode_b64encode (s : bytes) : b64decode (b64encode s) = ok s.
Proof. by apply (b64decode_b64encode_le (length s)). Qed.

Lemma b64encode_ascii (s : bytes) :
  Forall (λ b, Byte.to_N b < 128) (b64encode s).
Proof.
  assert (Hd : ∀ n, Byte.to_N (digit n) < 128).
  { intros n. rewrite to_N_digit. apply table_b2a_ascii. }
  assert (Hp : Byte.to_N pad < 128) by done.
  assert (H : ∀ n s, (length s ≤ n)%nat →
              Forall (λ b, Byte.to_N b < 128) (b64encode s)).
  { clear s. intros n. induction n as [|n IH]; intros s Hlen.
    { destruct s; [constructor|cbn in Hlen; lia]. }
    destruct s as [|a [|b [|c s]]]; cbn [b64encode];
      repeat (constructor; [done|]); try constructor.
    apply IH. cbn in Hlen. lia. }
  by apply (H (length s)).
Qed.

Lemma utf8_decode_ascii (s : bytes) :
  Forall (λ b, Byte.to_N b < 128) s → utf8_decode s = ok (Byte.to_N <$> s).
Proof.
  induction 1 as [|b s Hb _ IH]; [done|].
  cbn [utf8_decode]. destruct (N.ltb_spec (Byte.to_N b) 128); [|lia].
  by rewrite IH.
Qed.

Lemma utf8_encode_ascii (s : bytes) :
  Forall (λ b, Byte.to_N b < 128) s → utf8_encode (Byte.to_N <$> s) = ok s.
Proof.
  unfold utf8_encode. induction 1 as [|b s Hb _ IH]; [done|].
  cbn [fmap list_fmap mapM]. unfold utf8_char at 1.
  destruct (N.ltb_spec (Byte.to_N b) 128); [|lia].
  cbn [rbind]. unfold rmap in IH.
  destruct (mapM utf8_char _) as [e|chunks]; [done|].
  cbn in IH |- *. injection IH as ->. by rewrite byte_of_to_N.
Qed.

(** C9.  With a [bz2] whose [decompress] undoes [compress], for every byte
    string [data], of any length and the empty one included, [encode data]
    returns a string and [decode] of that string returns [data]. *)
Theorem backup_round_trip (compress : bytes → bytes)
    (decompress : bytes → result bytes) :
  (∀ data, decompress (compress data) = ok data) →
  ∀ data, ∃ s, encode compress data = ok s ∧ decode decompress s = ok data.
Proof.
  intros Hbz2 data. exists (Byte.to_N <$> b64encode (compress data)).
  pose proof (b64encode_ascii (compress data)) as Hascii. split.
  - by apply utf8_decode_ascii.
  - unfold decode. rewrite utf8_encode_ascii by done. cbn [rbind].
    rewrite b64decode_b64encode. apply Hbz2.
Qed.

Lemma backup_round_trip_witness :
  ∃ s, encode (λ data, data) [Byte.x48; Byte.x69] = ok s
       ∧ decode (λ data, ok data) s = ok [Byte.x48; Byte.x69].
Proof.
  apply (backup_round_trip (λ data, data) (λ data, ok data)). reflexivity.
Defined.

End backup_proofs.

(* --------------------------------------------------------------------- *)
(** ** main.py: reconciliation of memberships                             *)
(* --------------------------------------------------------------------- *)

Import Roster.

(** *** Runs that returned *)
Lemma bind_ok {S A B} (m : St S A) (k : A → St S B) s b s' :
  bind m k s = (ok b, s') → ∃ a s1, m s = (ok a, s1) ∧ k a s1 = (ok b, s').
Proof.
  unfold bind. destruct (m s) as [[e|a] s1]; [done|]. intros H. by exists a, s1.
Qed.

Lemma lift_ok {S A} (r : result A) (s s' : S) a :
  lift r s = (ok a, s') → r = ok a ∧ s' = s.
Proof. unfold lift. by intros [= -> ->]. Qed.

Lemma ret_ok {S A} (a b : A) (s s' : S) : ret a s = (ok b, s') → b = a ∧ s' = s.
Proof. by intros [= -> ->]. Qed.

Lemma in_groups_ok {A} (m : St table A) s a s' :
  Main.in_groups m s = (ok a, s') →
  ∃ t, m (Main.groups s) = (ok a, t)
       ∧ s' = Main.Store (Main.users s) t (Main.uuid4_calls s).
Proof.
  unfold Main.in_groups. destruct (m _) as [r t]. intros [= -> <-]. by exists t.
Qed.

Lemma in_users_ok {A} (m : St table A) s a s' :
  Main.in_users m s = (ok a, s') →
  ∃ t, m (Main.users s) = (ok a, t)
       ∧ s' = Main.Store t (Main.groups s) (Main.uuid4_calls s).
Proof.
  unfold Main.in_users. destruct (m _) as [r t]. intros [= -> <-]. by exists t.
Qed.

Lemma in_users_groups {A} (m : St table A) s r s' :
  Main.in_users m s = (r, s') → Main.groups s' = Main.groups s.
Proof. unfold Main.in_users. destruct (m _). by intros [= _ <-]. Qed.

Lemma readonly_ok {S A} (m : St S A) (s s' : S) r :
  readonly m → m s = (r, s') → s' = s.
Proof. intros Hm H. specialize (Hm s). rewrite H in Hm. done. Qed.

(** *** Entries that differ in their member list only *)
Lemma kin_refl e : kin e e.
Proof. by split. Qed.

Lemma kin_trans e1 e2 e3 : kin e1 e2 → kin e2 e3 → kin e1 e3.
Proof.
  intros [H1 H1'] [H2 H2']. split; [|by auto].
  intros k Hk. by rewrite H2, H1.
Qed.

Lemma kin_set_members (e : entry) v :
  is_Some (e !! "grouplist") → kin e (<["grouplist" := v]> e).
Proof.
  intros _. split.
  - intros k Hk. by rewrite lookup_insert_ne.
  - intros _. rewrite lookup_insert_eq. by eexists.
Qed.

Lemma kin_groupname e e' : kin e e' → e' !! "groupname" = e !! "groupname".
Proof. intros [H _]. by apply H. Qed.

Lemma find_entry_Some key v (tbl : table) e :
  Groups.find_entry key v tbl = ok (Some e) → e ∈ tbl ∧ e !! key = Some v.
Proof.
  induction tbl as [|e0 es IH]; cbn [Groups.find_entry]; [done|].
  destruct (TableIO.getitem e0 key) as [x|v0] eqn:H0; cbn; [done|].
  apply getitem_ok in H0. case_bool_decide as Hv.
  - intros [= <-]. subst. split; [by left|done].
  - intros [??]%IH. split; [by right|done].
Qed.

(** Looking an entry up by anything but the member list finds the entry at
    the same place after the lists have changed and entries were added. *)
Lemma find_entry_kin key v (tbl tbl' extra : table) e :
  key ≠ "grouplist" →
  Forall2 kin tbl tbl' →
  Groups.find_entry key v tbl = ok (Some e) →
  ∃ e', Groups.find_entry key v (tbl' ++ extra) = ok (Some e') ∧ kin e e'.
Proof.
  intros Hkey Hkin. induction Hkin as [|e0 e0' es es' H0 _ IH];
    cbn [Groups.find_entry app]; [done|].
  unfold TableIO.getitem at 1 2. rewrite (proj1 H0 key Hkey).
  destruct (e0 !! key) as [x|]; cbn; [|done].
  case_bool_decide; [|done]. intros [= <-]. by exists e0'.
Qed.

Lemma NoDup_fmap_eq {A B} (f : A → B) (l : list A) x y :
  NoDup (f <$> l) → x ∈ l → y ∈ l → f x = f y → x = y.
Proof.
  induction l as [|a l IH]; [by intros _ ?%elem_of_nil|].
  rewrite fmap_cons, NoDup_cons.
  intros [Ha Hl] [->|Hx]%elem_of_cons [->|Hy]%elem_of_cons Heq; [done| | |by auto].
  - destruct Ha. rewrite Heq. by apply list_elem_of_fmap_2.
  - destruct Ha. rewrite <-Heq. by apply list_elem_of_fmap_2.
Qed.

Lemma find_entry_the key v (tbl : table) e e' :
  NoDup ((λ e : entry, e !! key) <$> tbl) →
  Groups.find_entry key v tbl = ok (Some e') →
  e ∈ tbl → e !! key = Some v → e' = e.
Proof.
  intros Hnd [Hin Hv]%find_entry_Some He Hev.
  apply (NoDup_fmap_eq _ _ _ _ Hnd); [done..|]. by rewrite Hv, Hev.
Qed.

Lemma groups_of_spec u (tbl : table) gs :
  Groups.groups_of u tbl = ok gs →
  ∀ v, v ∈ gs ↔ ∃ e, e ∈ tbl ∧ e !! "groupname" = Some v ∧ in_group u e = true.
Proof.
  revert gs. induction tbl as [|e es IH]; intros gs; cbn [Groups.groups_of].
  - intros [= <-] v. split; [by intros ?%elem_of_nil|].
    by intros (? & ?%elem_of_nil & _).
  - destruct (TableIO.getitem e "grouplist") as [x|gl] eqn:Hgl; cbn; [done|].
    apply getitem_ok in Hgl.
    assert (Hin : in_group u e = Groups.member u gl).
    { unfold in_group. by rewrite Hgl. }
    destruct (Groups.member u gl) eqn:Hm.
    + destruct (TableIO.getitem e "groupname") as [x|g] eqn:Hg; cbn; [done|].
      apply getitem_ok in Hg.
      destruct (Groups.groups_of u es) as [x|gs'] eqn:Hes; cbn; [done|].
      intros [= <-] v. rewrite elem_of_cons, (IH gs' eq_refl). split.
      * intros [->|(e' & ? & ? & ?)]; [exists e|exists e']; split_and!; try done;
          by constructor.
      * intros (e' & [->|?]%elem_of_cons & Hv & Hu); [left; congruence|].
        right. by exists e'.
    + intros Hes v. rewrite (IH gs Hes). split.
      * intros (e' & ? & ? & ?). exists e'. split_and!; try done. by right.
      * intros (e' & [->|?]%elem_of_cons & Hv & Hu); [congruence|]. by exists e'.
Qed.

(** *** What the two membership loops do to a table *)

Lemma Forall2_same {A} (R : A → A → Prop) (l : list A) :
  (∀ x, R x x) → Forall2 R l l.
Proof. intros HR. induction l; by constructor. Qed.

Lemma gains_refl e : gains e e.
Proof. split; [apply kin_refl|done]. Qed.

Lemma gains_trans e1 e2 e3 : gains e1 e2 → gains e2 e3 → gains e1 e3.
Proof.
  intros (K1 & M1 & D1) (K2 & M2 & D2).
  split; [by eapply kin_trans|]. split; auto.
Qed.

Lemma loses_refl u keep e : loses u keep e e.
Proof. split; [apply kin_refl|done]. Qed.

Lemma loses_trans u keep e1 e2 e3 :
  loses u keep e1 e2 → loses u keep e2 e3 → loses u keep e1 e3.
Proof.
  intros (K1 & M1 & D1 & F1) (K2 & M2 & D2 & F2).
  split; [by eapply kin_trans|]. split; [auto|]. split; [auto|].
  intros g Hg Hk. rewrite <-(F1 g Hg Hk). apply (F2 g); [|done].
  by rewrite (F1 g Hg Hk).
Qed.

Lemma elem_of_remove_first x u l : x ∈ Groups.remove_first u l → x ∈ l.
Proof.
  induction l as [|y l IH]; cbn; [done|].
  destruct (String.eqb y u); [by right|].
  intros [->|?]%elem_of_cons; [by left|right; auto].
Qed.

Lemma NoDup_remove_first u l :
  NoDup l → NoDup (Groups.remove_first u l) ∧ u ∉ Groups.remove_first u l.
Proof.
  induction 1 as [|y l Hy Hl [IH1 IH2]]; cbn; [split; [constructor|apply not_elem_of_nil]|].
  destruct (String.eqb_spec y u) as [->|Hne]; [done|]. split.
  - constructor; [|done]. by intros ?%elem_of_remove_first.
  - by intros [?|?]%elem_of_cons.
Qed.

Lemma in_group_lookup x (e : entry) gl :
  e !! "grouplist" = Some gl → in_group x e = Groups.member x gl.
Proof. unfold in_group. by intros ->. Qed.

Lemma in_group_insert x (e : entry) gl :
  in_group x (<["grouplist" := gl]> e) = Groups.member x gl.
Proof. unfold in_group. by rewrite lookup_insert_eq. Qed.

Lemma distinct_insert (e : entry) l :
  distinct_members (<["grouplist" := YList l]> e) = bool_decide (NoDup l).
Proof. unfold distinct_members. by rewrite lookup_insert_eq. Qed.

Lemma distinct_lookup (e : entry) l :
  e !! "grouplist" = Some (YList l) → distinct_members e = true → NoDup l.
Proof. unfold distinct_members. intros ->. apply bool_decide_eq_true. Qed.

Lemma gains_append (e : entry) l u :
  e !! "grouplist" = Some (YList l) → str_in u l = false →
  gains e (<["grouplist" := YList (l ++ [u])]> e).
Proof.
  intros Hl Hu. split; [by apply kin_set_members|]. split.
  - intros x. rewrite in_group_insert, (in_group_lookup _ _ _ Hl). cbn.
    rewrite !str_in_elem_of, elem_of_app. auto.
  - intros Hd%(distinct_lookup _ _ Hl). rewrite distinct_insert.
    apply bool_decide_eq_true, NoDup_app. split; [done|].
    split; [|apply NoDup_singleton].
    intros x Hx ->%list_elem_of_singleton. by apply str_in_false in Hu.
Qed.

Lemma loses_remove (e : entry) l u g keep :
  e !! "groupname" = Some (YStr g) → g ∉ keep →
  e !! "grouplist" = Some (YList l) →
  loses u keep e (<["grouplist" := YList (Groups.remove_first u l)]> e).
Proof.
  intros Hg Hk Hl. split; [by apply kin_set_members|]. split; [|split].
  - rewrite in_group_insert, (in_group_lookup _ _ _ Hl). cbn.
    rewrite !str_in_elem_of. apply elem_of_remove_first.
  - intros Hd%(distinct_lookup _ _ Hl). rewrite distinct_insert.
    apply bool_decide_eq_true. by apply NoDup_remove_first.
  - intros g' Hg' Hk'. congruence.
Qed.

Lemma append_member_gains u g (tbl tbl' : table) :
  Groups.append_member u g tbl = ok tbl' → Forall2 gains tbl tbl'.
Proof.
  revert tbl'. induction tbl as [|e es IH]; intros tbl'; cbn [Groups.append_member].
  { intros [= <-]. constructor. }
  destruct (TableIO.getitem e "groupname") as [x|v] eqn:Hv; cbn; [done|].
  case_bool_decide.
  - destruct (TableIO.getitem e "grouplist") as [x|gl] eqn:Hgl; cbn; [done|].
    apply getitem_ok in Hgl.
    destruct (_ <=? _)%Z; [done|].
    destruct (Groups.member u gl) eqn:Hm; cbn.
    + intros [= <-]. constructor; [apply gains_refl|].
      apply Forall2_same, gains_refl.
    + destruct gl as [s|l]; [done|]. intros [= <-].
      constructor; [by apply gains_append|].
      apply Forall2_same, gains_refl.
  - destruct (Groups.append_member u g es) as [x|es'] eqn:Hes; cbn; [done|].
    intros [= <-]. constructor; [apply gains_refl|]. by apply IH.
Qed.

Lemma append_member_added u g (tbl tbl' : table) :
  Groups.append_member u g tbl = ok tbl' →
  (∃ e, e ∈ tbl ∧ e !! "groupname" = Some (YStr g)) →
  is_member u g tbl'.
Proof.
  revert tbl'. induction tbl as [|e es IH]; intros tbl'; cbn [Groups.append_member].
  { by intros _ (? & ?%elem_of_nil & _). }
  destruct (TableIO.getitem e "groupname") as [x|v] eqn:Hv; cbn; [done|].
  apply getitem_ok in Hv. case_bool_decide as Hg.
  - subst v. intros H _. revert H.
    destruct (TableIO.getitem e "grouplist") as [x|gl] eqn:Hgl; cbn; [done|].
    apply getitem_ok in Hgl.
    destruct (_ <=? _)%Z; [done|].
    destruct (Groups.member u gl) eqn:Hm; cbn.
    + intros [= <-]. exists e. split; [by left|]. split; [done|].
      by rewrite (in_group_lookup _ _ _ Hgl).
    + destruct gl as [s|l]; [done|]. intros [= <-].
      eexists. split; [by left|]. split; [by rewrite lookup_insert_ne|].
      rewrite in_group_insert. cbn. apply str_in_elem_of, elem_of_app.
      right. by left.
  - destruct (Groups.append_member u g es) as [x|es'] eqn:Hes; cbn; [done|].
    intros [= <-] (e' & [->|Hin]%elem_of_cons & He'); [congruence|].
    destruct (IH es' eq_refl) as (e'' & ? & ? & ?); [by exists e'|].
    exists e''. split; [by right|done].
Qed.

Lemma drop_member_loses u g keep (tbl tbl' : table) :
  g ∉ keep →
  Groups.drop_member u g tbl = ok tbl' → Forall2 (loses u keep) tbl tbl'.
Proof.
  intros Hk.
  revert tbl'. induction tbl as [|e es IH]; intros tbl'; cbn [Groups.drop_member].
  { intros [= <-]. constructor. }
  destruct (TableIO.getitem e "groupname") as [x|v] eqn:Hv; cbn; [done|].
  apply getitem_ok in Hv. case_bool_decide.
  - subst v.
    destruct (TableIO.getitem e "grouplist") as [x|gl] eqn:Hgl; cbn; [done|].
    apply getitem_ok in Hgl.
    destruct (Groups.member u gl) eqn:Hm; cbn.
    + destruct gl as [s|l]; [done|]. intros [= <-].
      constructor; [by eapply loses_remove|].
      apply Forall2_same, loses_refl.
    + intros [= <-]. constructor; [apply loses_refl|].
      apply Forall2_same, loses_refl.
  - destruct (Groups.drop_member u g es) as [x|es'] eqn:Hes; cbn; [done|].
    intros [= <-]. constructor; [apply loses_refl|]. by apply IH.
Qed.

Lemma drop_member_gone u g (tbl tbl' : table) :
  well_formed tbl →
  Groups.drop_member u g tbl = ok tbl' →
  ∀ e', e' ∈ tbl' → e' !! "groupname" = Some (YStr g) → in_group u e' = false.
Proof.
  intros [Hnd Hdist]. revert tbl' Hnd Hdist.
  induction tbl as [|e es IH]; intros tbl'; cbn [Groups.drop_member].
  { by intros _ _ [= <-] e' ?%elem_of_nil. }
  rewrite fmap_cons, NoDup_cons. cbn [forallb]. rewrite andb_true_iff.
  intros [Hne Hnd] [Hd Hds].
  destruct (TableIO.getitem e "groupname") as [x|v] eqn:Hv; cbn; [done|].
  apply getitem_ok in Hv. case_bool_decide.
  - subst v.
    assert (Hrest : ∀ e', e' ∈ es → e' !! "groupname" ≠ Some (YStr g)).
    { intros e' He' Hg. destruct Hne. rewrite Hv, <-Hg.
      by apply (list_elem_of_fmap_2 (λ e : entry, e !! "groupname")). }
    destruct (TableIO.getitem e "grouplist") as [x|gl] eqn:Hgl; cbn; [done|].
    apply getitem_ok in Hgl.
    destruct (Groups.member u gl) eqn:Hm; cbn.
    + destruct gl as [s|l]; [done|]. intros [= <-] e' [->|He']%elem_of_cons Hg.
      * rewrite in_group_insert. cbn. apply str_in_false.
        by apply NoDup_remove_first, (distinct_lookup e).
      * by destruct (Hrest e' He').
    + intros [= <-] e' [->|He']%elem_of_cons Hg.
      * by rewrite (in_group_lookup _ _ _ Hgl).
      * by destruct (Hrest e' He').
  - destruct (Groups.drop_member u g es) as [x|es'] eqn:Hes; cbn; [done|].
    intros [= <-] e' [->|He']%elem_of_cons Hg; [congruence|].
    by apply (IH es').
Qed.

(** *** The methods of Groups on a table *)


Lemma readonly_team_exist t : readonly (Groups.team_exist t).
Proof. unfold Groups.team_exist, Groups.load_all_teamnames. eauto 10 with readonly. Qed.
Lemma readonly_group_exist g : readonly (Groups.group_exist g).
Proof. unfold Groups.group_exist, Groups.load_all_groupnames. eauto 10 with readonly. Qed.
Lemma readonly_gid_exist g : readonly (Groups.gid_exist g).
Proof. unfold Groups.gid_exist, Groups.load_all_gids. eauto 10 with readonly. Qed.
Lemma readonly_get_new_gid ut : readonly (Groups.get_new_gid ut).
Proof. unfold Groups.get_new_gid, Groups.load_all_gids. eauto 10 with readonly. Qed.
Lemma readonly_get_new_groupname w t ex : readonly (Groups.get_new_groupname w t ex).
Proof.
  unfold Groups.get_new_groupname, Groups.load_all_groupnames. eauto 10 with readonly.
Qed.
Lemma readonly_get_group_info id ty : readonly (Groups.get_group_info id ty).
Proof. unfold Groups.get_group_info. eauto 10 with readonly. Qed.
Lemma readonly_get_users_of_group g : readonly (Groups.get_users_of_group g).
Proof. unfold Groups.get_users_of_group. eauto 10 with readonly. Qed.
Lemma readonly_get_groups_of_user u : readonly (Groups.get_groups_of_user u).
Proof. unfold Groups.get_groups_of_user. eauto 10 with readonly. Qed.
Lemma readonly_lookup_gid n ty : readonly (Groups.lookup_gid n ty).
Proof. unfold Groups.lookup_gid. eauto 10 with readonly. Qed.

#[local] Hint Resolve readonly_team_exist readonly_group_exist readonly_gid_exist
  readonly_get_new_gid readonly_get_new_groupname readonly_get_group_info
  readonly_get_users_of_group readonly_get_groups_of_user readonly_lookup_gid
  : readonly.

(** One step of a run that returned: the step returned too. *)
Tactic Notation "run_step" hyp(H) "as" simple_intropattern(a) ident(s) ident(Ha) :=
  apply bind_ok in H as (a & s & Ha & H).

(** One read-only step of a run that returned. *)
Tactic Notation "read_step" hyp(H) "as" simple_intropattern(p) ident(Hp) :=
  match type of H with
  | bind ?m ?k ?s = _ =>
      rewrite (bind_readonly m k s) in H by eauto 20 with readonly;
      destruct (m s).1 as [?|p] eqn:Hp; [discriminate H|]
  end.

Lemma column_elem key (tbl : table) (vs : list yval) s' :
  Users.column key ok tbl = (ok vs, s') →
  (Some <$> vs) = (λ e : entry, e !! key) <$> tbl.
Proof.
  intros H. assert (s' = tbl) as ->.
  { eapply readonly_ok; [|done]. apply readonly_column. }
  apply column_ok_Forall2 in H. induction H as [|e v es vs' Hv _ IH]; [done|].
  cbn. by rewrite Hv, IH.
Qed.

Lemma group_exist_elem g (tbl : table) s' :
  Groups.group_exist g tbl = (ok true, s') →
  ∃ e, e ∈ tbl ∧ e !! "groupname" = Some (YStr g).
Proof.
  unfold Groups.group_exist, Groups.load_all_groupnames. intros H.
  run_step H as col s1 Hcol. apply ret_ok in H as [H _].
  symmetry in H. apply in_column_true in H.
  apply column_elem in Hcol.
  apply (list_elem_of_fmap_2 Some) in H. rewrite Hcol in H.
  apply list_elem_of_fmap in H as (e & ? & ?). by exists e.
Qed.

Lemma add_user_to_group_ok u g (tbl tbl' : table) :
  Groups.add_user_to_group u g tbl = (ok tt, tbl') →
  Groups.append_member u g tbl = ok tbl'
  ∧ ∃ e, e ∈ tbl ∧ e !! "groupname" = Some (YStr g).
Proof.
  unfold Groups.add_user_to_group. intros H.
  read_step H as file_dict Hfd. injection Hfd as <-.
  destruct (Groups.group_exist g tbl) as [r s1] eqn:Hex.
  read_step H as ex Hex'. rewrite Hex in Hex'. cbn in Hex'. subst r.
  destruct ex; [|done]. cbn [negb] in H.
  read_step H as fd Hfd. cbn in Hfd. injection H as <-.
  split; [done|]. by eapply group_exist_elem.
Qed.

Lemma remove_user_from_group_ok u g (tbl tbl' : table) :
  Groups.remove_user_from_group u g tbl = (ok tt, tbl') →
  Groups.drop_member u g tbl = ok tbl'.
Proof.
  unfold Groups.remove_user_from_group. intros H.
  read_step H as file_dict Hfd. injection Hfd as <-.
  read_step H as ex Hex'. destruct ex; [|done]. cbn [negb] in H.
  read_step H as fd Hfd. cbn in Hfd. by injection H as <-.
Qed.

Lemma get_group_info_ok id ty (tbl tbl' : table) grp :
  Groups.get_group_info id ty tbl = (ok grp, tbl') →
  tbl' = tbl
  ∧ ∃ e, Groups.find_entry ty (YStr id) tbl = ok (Some e)
         ∧ Groups.group_of_entry e = ok grp.
Proof.
  intros H. assert (tbl' = tbl) as -> by (eapply readonly_ok; [|done]; eauto with readonly).
  split; [done|]. unfold Groups.get_group_info in H.
  read_step H as fd Hfd. injection Hfd as <-.
  read_step H as found Hf. cbn in Hf. destruct found as [e|]; [|done].
  exists e. split; [done|]. unfold lift in H. by injection H.
Qed.

Lemma get_group_info_of id ty (tbl : table) e grp :
  Groups.find_entry ty (YStr id) tbl = ok (Some e) →
  Groups.group_of_entry e = ok grp →
  Groups.get_group_info id ty tbl = (ok grp, tbl).
Proof.
  intros Hf He. cbv [Groups.get_group_info bind TableIO.load_yaml lift].
  by rewrite Hf, He.
Qed.

Lemma get_users_of_group_ok g (tbl tbl' : table) gl :
  Groups.get_users_of_group g tbl = (ok gl, tbl') →
  tbl' = tbl
  ∧ ∃ e, Groups.find_entry "groupname" (YStr g) tbl = ok (Some e)
         ∧ e !! "grouplist" = Some gl.
Proof.
  intros H. assert (tbl' = tbl) as -> by (eapply readonly_ok; [|done]; eauto with readonly).
  split; [done|]. unfold Groups.get_users_of_group in H.
  read_step H as fd Hfd. injection Hfd as <-.
  read_step H as found Hf. cbn in Hf. destruct found as [e|]; [|done].
  exists e. split; [done|]. unfold lift in H. apply getitem_ok. by injection H.
Qed.

Lemma get_groups_of_user_ok u (tbl tbl' : table) gs :
  Groups.get_groups_of_user u tbl = (ok gs, tbl') →
  tbl' = tbl ∧ Groups.groups_of u tbl = ok gs.
Proof.
  cbv [Groups.get_groups_of_user bind TableIO.load_yaml lift]. by intros [= -> ->].
Qed.

Lemma group_of_entry_fields (e : entry) grp :
  Groups.group_of_entry e = ok grp →
  e !! "groupname" = Some (YStr (Groups.groupname grp))
  ∧ e !! "grouplist" = Some (Groups.grouplist grp).
Proof.
  unfold Groups.group_of_entry. intros H.
  repeat match type of H with
  | rbind ?r _ = _ => destruct r eqn:?; cbn [rbind] in H; [discriminate H|]
  end.
  injection H as <-. cbn.
  repeat match goal with
  | Hx : TableIO.getitem _ _ = ok _ |- _ => apply getitem_ok in Hx
  end.
  split; [|done].
  match goal with Hx : Types.UbuntuName (TableIO.to_py ?v) = _ |- _ =>
    destruct v; cbn in Hx; [apply UbuntuName_ok in Hx as [-> _]|done] end.
  done.
Qed.

Lemma group_of_entry_kin (e e' : entry) grp :
  kin e e' → Groups.group_of_entry e = ok grp →
  ∃ grp', Groups.group_of_entry e' = ok grp'
          ∧ Groups.groupname grp' = Groups.groupname grp.
Proof.
  intros [Hk Hgl] H.
  pose proof (group_of_entry_fields _ _ H) as [_ Hl].
  destruct (Hgl (mk_is_Some _ _ Hl)) as [gl' Hl'].
  revert H. unfold Groups.group_of_entry, TableIO.getitem.
  rewrite Hl'. rewrite !Hk by done. rewrite Hl.
  repeat match goal with
  | |- rbind ?r _ = _ → _ => destruct r; cbn [rbind]; [done|]
  end.
  intros [= <-]. by eexists.
Qed.

(** *** New names are new *)

Lemma to_valid_username_new w name ex kind r :
  Username.to_valid_username w name ex kind = ok r → r ∉ ex.
Proof.
  unfold Username.to_valid_username. generalize Username.recursion_limit.
  intros depth. revert name kind.
  induction depth as [|depth IH]; intros name kind; cbn [Username.to_valid_username_rec].
  - destruct (negb (Username.starts_with_letter _)); [done|].
    destruct (Username.make_unique _ ex) as [x|n] eqn:Hn; cbn [rbind]; [done|].
    apply make_unique_ok in Hn as [Hn _].
    destruct (negb (Types.is_valid (PyStr n))); [done|].
    destruct (_ || _); [done|]. by intros [-> _]%UbuntuName_ok.
  - destruct (negb (Username.starts_with_letter _)).
    + destruct (Types.StsciEzid _) as [x|ezid]; cbn; [done|]. apply IH.
    + destruct (Username.make_unique _ ex) as [x|n] eqn:Hn; cbn [rbind]; [done|].
      apply make_unique_ok in Hn as [Hn _].
      destruct (negb (Types.is_valid (PyStr n))); [done|].
      destruct (_ || _); [done|]. by intros [-> _]%UbuntuName_ok.
Qed.

Lemma elem_of_names_of (x : string) (col : list yval) :
  x ∈ Users.names_of col ↔ YStr x ∈ col.
Proof.
  unfold Users.names_of. rewrite list_elem_of_omap. split.
  - intros ([s|l] & ? & [= <-]). done.
  - intros ?. by exists (YStr x).
Qed.

Lemma find_entry_last key v (tbl : table) (col : list yval) (d : entry) :
  (Some <$> col) = (λ e : entry, e !! key) <$> tbl →
  v ∉ col → d !! key = Some v →
  Groups.find_entry key v (tbl ++ [d]) = ok (Some d).
Proof.
  revert col. induction tbl as [|e es IH]; intros col Hcol Hv Hd; cbn.
  - rewrite (getitem_Some _ _ _ Hd). cbn. by rewrite bool_decide_eq_true_2.
  - destruct col as [|v0 col]; [done|]. injection Hcol as H0 Hcol.
    rewrite (getitem_Some _ _ v0) by done. cbn.
    rewrite bool_decide_eq_false_2.
    + apply (IH col); [done| |done]. intros ?. apply Hv. by right.
    + intros ->. apply Hv. by left.
Qed.

Lemma create_new_group_ok w t gname gid ut ex (tbl tbl' : table) grp :
  Groups.create_new_group w t gname gid ut ex tbl = (ok grp, tbl') →
  ∃ d, tbl' = tbl ++ [d]
       ∧ d !! "groupname" = Some (YStr (Groups.groupname grp))
       ∧ d !! "grouplist" = Some (YList [])
       ∧ Groups.find_entry "teamname" (YStr t) (tbl ++ [d]) = ok (Some d)
       ∧ match gname with
         | Some g => Groups.groupname grp = g
         | None => ex = [] → Some (YStr (Groups.groupname grp))
                             ∉ (λ e : entry, e !! "groupname") <$> tbl
         end.
Proof.
  unfold Groups.create_new_group. intros H.
  read_step H as fd Hfd. clear fd Hfd.
  destruct (Groups.team_exist t tbl) as [r1 s1] eqn:Hteam.
  read_step H as ex_ Hex_. rewrite Hteam in Hex_. cbn in Hex_. subst r1.
  destruct ex_; [done|].
  assert (Hnone : ∃ col, (Some <$> col) = (λ e : entry, e !! "teamname") <$> tbl
                        ∧ YStr t ∉ col).
  { unfold Groups.team_exist, Groups.load_all_teamnames in Hteam.
    run_step Hteam as col s2 Hcol. apply ret_ok in Hteam as [Hteam _].
    exists col. split; [by eapply column_elem|].
    intros ?%in_column_true. congruence. }
  destruct Hnone as (col & Hcol & Hnone).
  read_step H as g Hg.
  assert (Hfresh : match gname with
                   | Some g0 => g = g0
                   | None => ex = [] → Some (YStr g)
                                       ∉ (λ e : entry, e !! "groupname") <$> tbl
                   end).
  { destruct gname as [g0|]; [by injection Hg|]. intros ->.
    unfold Groups.get_new_groupname, Groups.load_all_groupnames in Hg.
    match type of Hg with (?m tbl).1 = _ =>
      destruct (m tbl) as [rg sg] eqn:Hb end.
    cbn in Hg. subst rg. run_step Hb as names s2 Hc.
    apply lift_ok in Hb as [Hv _]. apply to_valid_username_new in Hv.
    cbn [Users.or_else] in Hv. rewrite elem_of_names_of in Hv.
    apply column_elem in Hc. rewrite <-Hc.
    intros (v & [= <-] & ?)%list_elem_of_fmap. done. }
  read_step H as gid1 Hgid1. read_step H as gid2 Hgid2. read_step H as gid3 Hgid3.
  read_step H as status Hstatus. read_step H as ut' Hut. read_step H as g' Hname.
  cbn in Hname. apply UbuntuName_ok in Hname as [-> _].
  read_step H as fd Hfd. injection Hfd as <-.
  cbv [bind TableIO.write_yaml ret] in H. injection H as <- <-.
  eexists. split; [done|]. cbn [Groups.groupname].
  split; [by rewrite !lookup_insert_ne, lookup_insert_eq by done|].
  split; [by rewrite !lookup_insert_ne, lookup_insert_eq by done|].
  split; [|done].
  apply (find_entry_last _ _ _ col); [done..|].
  by rewrite !lookup_insert_ne, lookup_insert_eq by done.
Qed.

(** *** Tables that only gain entries and members *)

Lemma grows_gains tbl tbl' : Forall2 gains tbl tbl' → grows tbl tbl'.
Proof. intros H. exists tbl', []. by rewrite app_nil_r. Qed.

Lemma grows_refl tbl : grows tbl tbl.
Proof. apply grows_gains, Forall2_same, gains_refl. Qed.

Lemma grows_app tbl extra : grows tbl (tbl ++ extra).
Proof. exists tbl, extra. split; [done|]. apply Forall2_same, gains_refl. Qed.

Lemma Forall2_trans' {A} (R : A → A → Prop) (l1 l2 l3 : list A) :
  (∀ x y z, R x y → R y z → R x z) →
  Forall2 R l1 l2 → Forall2 R l2 l3 → Forall2 R l1 l3.
Proof.
  intros HR H12. revert l3. induction H12 as [|x y l1 l2 Hxy _ IH]; intros l3 H23.
  - by inversion H23.
  - inversion H23 as [|? z ? l3' Hyz H23']; subst. constructor; eauto.
Qed.

Lemma grows_trans t1 t2 t3 : grows t1 t2 → grows t2 t3 → grows t1 t3.
Proof.
  intros (a & x & -> & Ha) (b & y & -> & Hb).
  apply Forall2_app_inv_l in Hb as (b1 & b2 & Hb1 & Hb2 & ->).
  exists b1, (b2 ++ y). split; [by rewrite app_assoc|].
  eapply Forall2_trans'; [apply gains_trans|done..].
Qed.

Lemma Forall2_elem_l {A B} (R : A → B → Prop) l k x :
  Forall2 R l k → x ∈ l → ∃ y, y ∈ k ∧ R x y.
Proof.
  induction 1 as [|a b l k Hab _ IH]; [by intros ?%elem_of_nil|].
  intros [->|Hx]%elem_of_cons; [exists b; split; [by left|done]|].
  destruct (IH Hx) as (y & ? & ?). exists y. split; [by right|done].
Qed.

Lemma Forall2_elem_r {A B} (R : A → B → Prop) l k y :
  Forall2 R l k → y ∈ k → ∃ x, x ∈ l ∧ R x y.
Proof.
  induction 1 as [|a b l k Hab _ IH]; [by intros ?%elem_of_nil|].
  intros [->|Hy]%elem_of_cons; [exists a; split; [by left|done]|].
  destruct (IH Hy) as (x & ? & ?). exists x. split; [by right|done].
Qed.

Lemma is_member_grows x g tbl tbl' :
  grows tbl tbl' → is_member x g tbl → is_member x g tbl'.
Proof.
  intros (t1 & extra & -> & Hg) (e & He & Hn & Hx).
  destruct (Forall2_elem_l _ _ _ _ Hg He) as (e' & He' & Hk & Hm & _).
  exists e'. split; [apply elem_of_app; by left|].
  split; [by rewrite (kin_groupname _ _ Hk)|auto].
Qed.

Lemma Forall2_gains_kin tbl tbl' : Forall2 gains tbl tbl' → Forall2 kin tbl tbl'.
Proof. intros H. eapply Forall2_impl; [done|]. by intros ?? [? _]. Qed.

Lemma Forall2_loses_kin u keep tbl tbl' :
  Forall2 (loses u keep) tbl tbl' → Forall2 kin tbl tbl'.
Proof. intros H. eapply Forall2_impl; [done|]. by intros ?? [? _]. Qed.

Lemma team_entry_kin t g tbl tbl' extra :
  Forall2 kin tbl tbl' → team_entry t g tbl → team_entry t g (tbl' ++ extra).
Proof.
  intros Hk (e & He & Hg).
  destruct (find_entry_kin "teamname" (YStr t) _ _ extra e ltac:(done) Hk He)
    as (e' & He' & Hkin).
  exists e'. split; [done|]. by rewrite (kin_groupname _ _ Hkin).
Qed.

Lemma team_entry_grows t g tbl tbl' :
  grows tbl tbl' → team_entry t g tbl → team_entry t g tbl'.
Proof.
  intros (t1 & extra & -> & Hg). by apply team_entry_kin, Forall2_gains_kin.
Qed.

Lemma team_entry_fun t g g' tbl :
  team_entry t g tbl → team_entry t g' tbl → g = g'.
Proof. intros (e & He & Hg) (e' & He' & Hg'). congruence. Qed.

(** *** Well-formed tables stay well formed *)

Lemma well_formed_kin (R : entry → entry → Prop) tbl tbl' :
  (∀ e e', R e e' →
     kin e e' ∧ (distinct_members e = true → distinct_members e' = true)) →
  Forall2 R tbl tbl' → well_formed tbl → well_formed tbl'.
Proof.
  intros HR H [Hnd Hd].
  assert ((λ e : entry, e !! "groupname") <$> tbl'
          = (λ e : entry, e !! "groupname") <$> tbl) as Heq.
  { clear Hnd Hd. induction H as [|e e' l l' He _ IH]; [done|]. cbn.
    f_equal; [|done].
    by apply kin_groupname, HR. }
  split; [by rewrite Heq|]. clear Hnd Heq.
  induction H as [|e e' l l' He _ IH]; [done|].
  cbn in *. apply andb_true_iff in Hd as [??]. apply andb_true_iff.
  split; [by apply (HR e e')|auto].
Qed.

Lemma well_formed_gains tbl tbl' :
  Forall2 gains tbl tbl' → well_formed tbl → well_formed tbl'.
Proof. apply well_formed_kin. by intros e e' (? & _ & ?). Qed.

Lemma well_formed_loses u keep tbl tbl' :
  Forall2 (loses u keep) tbl tbl' → well_formed tbl → well_formed tbl'.
Proof. apply well_formed_kin. by intros e e' (? & _ & ? & _). Qed.

Lemma well_formed_app tbl (d : entry) g :
  well_formed tbl →
  Some (YStr g) ∉ (λ e : entry, e !! "groupname") <$> tbl →
  d !! "groupname" = Some (YStr g) → d !! "grouplist" = Some (YList []) →
  well_formed (tbl ++ [d]).
Proof.
  intros [Hnd Hd] Hnew Hg Hl. split.
  - rewrite fmap_app. apply NoDup_app. split; [done|]. cbn. rewrite Hg.
    split; [|apply NoDup_singleton].
    intros x Hx ->%list_elem_of_singleton. done.
  - rewrite forallb_app, Hd. cbn [forallb andb]. unfold distinct_members.
    rewrite Hl, bool_decide_eq_true_2; [done|constructor].
Qed.

(** *** main.py on the store *)

Lemma readonly_in_groups {A} (m : St table A) : readonly m → readonly (Main.in_groups m).
Proof.
  intros Hm s. unfold Main.in_groups. specialize (Hm (Main.groups s)).
  destruct (m _) as [r t]. cbn in *. subst t. by destruct s.
Qed.

Lemma readonly_in_users {A} (m : St table A) : readonly m → readonly (Main.in_users m).
Proof.
  intros Hm s. unfold Main.in_users. specialize (Hm (Main.users s)).
  destruct (m _) as [r t]. cbn in *. subst t. by destruct s.
Qed.

#[local] Hint Resolve readonly_in_groups readonly_in_users : readonly.

Lemma readonly_all_names : readonly Main.all_names.
Proof.
  unfold Main.all_names, Users.load_all_usernames, Groups.load_all_groupnames.
  eauto 10 with readonly.
Qed.
#[local] Hint Resolve readonly_all_names : readonly.

Lemma in_groups_read {A} (m : St table A) s a :
  readonly m → (Main.in_groups m s).1 = ok a →
  m (Main.groups s) = (ok a, Main.groups s).
Proof.
  intros Hm. unfold Main.in_groups. specialize (Hm (Main.groups s)).
  destruct (m _) as [r t]. cbn in *. by intros ->; subst.
Qed.

Lemma add_member_ok u g s s' :
  Main.add_member u g s = (ok tt, s') →
  Main.users s' = Main.users s
  ∧ Groups.append_member u g (Main.groups s) = ok (Main.groups s')
  ∧ ∃ e, e ∈ Main.groups s ∧ e !! "groupname" = Some (YStr g).
Proof.
  unfold Main.add_member. intros H.
  run_step H as [] s1 Hadd. apply in_groups_ok in Hadd as (t & Hadd & ->).
  apply add_user_to_group_ok in Hadd as [Happ Hex].
  read_step H as grp Hgrp. apply ret_ok in H as [_ ->]. by cbn.
Qed.

Lemma remove_member_ok u g s s' :
  Main.remove_member u g s = (ok tt, s') →
  Main.users s' = Main.users s
  ∧ Groups.drop_member u g (Main.groups s) = ok (Main.groups s').
Proof.
  unfold Main.remove_member. intros H.
  run_step H as [] s1 Hrm. apply in_groups_ok in Hrm as (t & Hrm & ->).
  apply remove_user_from_group_ok in Hrm.
  read_step H as grp Hgrp. apply ret_ok in H as [_ ->]. by cbn.
Qed.

Lemma add_member_effect u g s s' :
  Main.add_member u g s = (ok tt, s') → well_formed (Main.groups s) →
  well_formed (Main.groups s')
  ∧ grows (Main.groups s) (Main.groups s')
  ∧ is_member u g (Main.groups s').
Proof.
  intros (_ & Happ & Hex)%add_member_ok Hwf.
  pose proof (append_member_gains _ _ _ _ Happ) as Hg.
  split; [by eapply well_formed_gains|]. split; [by apply grows_gains|].
  by eapply append_member_added.
Qed.

Lemma create_or_fetch_group_effect w u t s s' :
  Main.create_or_fetch_group w u t s = (ok tt, s') →
  well_formed (Main.groups s) →
  well_formed (Main.groups s')
  ∧ grows (Main.groups s) (Main.groups s')
  ∧ ∃ g, team_entry t g (Main.groups s') ∧ is_member u g (Main.groups s').
Proof.
  unfold Main.create_or_fetch_group. intros H Hwf.
  read_step H as exists_ Hex. destruct exists_; cbn [negb] in H.
  - (* the team exists *)
    read_step H as group Hgroup.
    apply in_groups_read in Hgroup; [|eauto with readonly].
    apply get_group_info_ok in Hgroup as (_ & e & Hfind & He).
    apply group_of_entry_fields in He as [Hname _].
    assert (Hteam : team_entry t (Groups.groupname group) (Main.groups s))
      by (by exists e).
    read_step H as assigned Hassigned.
    read_step H as x Hadmin. clear x Hadmin.
    read_step H as members Hmembers.
    apply in_groups_read in Hmembers; [|eauto with readonly].
    apply get_users_of_group_ok in Hmembers as (_ & e' & Hfind' & Hl).
    destruct (Groups.member u members) eqn:Hm; cbn [negb] in H.
    + apply ret_ok in H as [_ ->]. split; [done|]. split; [apply grows_refl|].
      exists (Groups.groupname group). split; [done|].
      apply find_entry_Some in Hfind' as [Hin Hg]. exists e'.
      split; [done|]. split; [done|]. by rewrite (in_group_lookup _ _ _ Hl).
    + apply add_member_effect in H as (Hwf' & Hgrows & Hmem); [|done].
      split; [done|]. split; [done|].
      exists (Groups.groupname group). split; [|done].
      by eapply team_entry_grows.
  - (* the team is new *)
    run_step H as group s1 Hcreate.
    apply in_groups_ok in Hcreate as (t1 & Hcreate & ->).
    apply create_new_group_ok in Hcreate as (d & -> & Hname & Hlist & Hfind & Hnew).
    specialize (Hnew eq_refl).
    assert (Hwf1 : well_formed (Main.groups s ++ [d]))
      by (by eapply well_formed_app).
    run_step H as uu s2 Huuid. unfold Main.fresh_uuid in Huuid.
    injection Huuid as <- <-. cbn [Main.users Main.groups Main.uuid4_calls] in H.
    read_step H as uid Huid. read_step H as gid Hgid. read_step H as names Hnames.
    run_step H as x s3 Hadmin.
    apply in_users_groups in Hadmin. cbn [Main.groups] in Hadmin.
    run_step H as [] s4 Hadd.
    apply add_member_effect in Hadd as (Hwf4 & Hg4 & Hm4);
      [|by rewrite Hadmin]. rewrite Hadmin in Hg4.
    read_step H as admin Hadm.
    apply add_member_effect in H as (Hwf5 & Hg5 & Hm5); [|done].
    split; [done|]. split.
    { eapply grows_trans; [apply grows_app|]. by eapply grows_trans. }
    exists (Groups.groupname group). split.
    + apply (team_entry_grows _ _ (Main.groups s ++ [d]));
        [by eapply grows_trans|by exists d].
    + by apply (is_member_grows _ _ (Main.groups s4)).
Qed.

Lemma teams_loop_effect w u teams s s' :
  for_each teams (Main.create_or_fetch_group w u) s = (ok tt, s') →
  well_formed (Main.groups s) →
  well_formed (Main.groups s')
  ∧ grows (Main.groups s) (Main.groups s')
  ∧ ∀ t, t ∈ teams →
      ∃ g, team_entry t g (Main.groups s') ∧ is_member u g (Main.groups s').
Proof.
  revert s. induction teams as [|t teams IH]; intros s H Hwf; cbn [for_each] in H.
  - apply ret_ok in H as [_ ->]. split; [done|]. split; [apply grows_refl|].
    by intros t ?%elem_of_nil.
  - run_step H as [] s1 Hstep.
    apply create_or_fetch_group_effect in Hstep as (Hwf1 & Hg1 & g & Ht & Hm);
      [|done].
    apply IH in H as (Hwf' & Hg' & Hall); [|done].
    split; [done|]. split; [by eapply grows_trans|].
    intros t' [->|Hin]%elem_of_cons; [|by apply Hall].
    exists g. split; [by eapply team_entry_grows|by eapply is_member_grows].
Qed.

Lemma mapM_hashable_elem (l : list yval) (names : list string) :
  mapM Main.hashable l = ok names →
  ∀ v, v ∈ l → ∃ g, v = YStr g ∧ g ∈ names.
Proof.
  revert names. induction l as [|x l IH]; intros names; cbn [mapM].
  { by intros _ v ?%elem_of_nil. }
  destruct x as [g|?]; cbn; [|done].
  destruct (mapM Main.hashable l) as [?|names'] eqn:Hl; cbn; [done|].
  intros [= <-] v [->|Hv]%elem_of_cons.
  - exists g. split; [done|by left].
  - destruct (IH names' eq_refl v Hv) as (g' & -> & ?). exists g'.
    split; [done|by right].
Qed.

Lemma all_names_groupnames s names :
  (Main.all_names s).1 = ok names →
  ∀ g, Some (YStr g) ∈ (λ e : entry, e !! "groupname") <$> Main.groups s →
       g ∈ names.
Proof.
  unfold Main.all_names. intros H.
  destruct (bind _ _ s) as [r s'] eqn:Hb. cbn in H. subst r.
  run_step Hb as users s1 Hu.
  assert (s1 = s) as -> by (eapply readonly_ok; [|done]; eauto 10 with readonly).
  run_step Hb as groups s2 Hg. apply lift_ok in Hb as [Hb _].
  apply in_groups_ok in Hg as (t & Hg & _).
  apply column_elem in Hg. rewrite <-Hg.
  intros g (v & [= <-] & Hv)%list_elem_of_fmap.
  destruct (mapM_hashable_elem _ _ Hb (YStr g)) as (g' & [= <-] & ?); [|done].
  apply elem_of_app. by right.
Qed.

Lemma add_user_new_name w uuid ezid uid gid home ut names (tbl tbl' : table) user :
  Users.add_user w uuid ezid None uid gid home ut names tbl = (ok user, tbl') →
  names ≠ [] → Users.username user ∉ names.
Proof.
  unfold Users.add_user. intros H Hnames.
  read_step H as fd Hfd. read_step H as ex_ Hex.
  destruct (ex_ && _); [done|]. destruct (_ && _); [done|].
  cbv beta iota in H. read_step H as username Hname.
  assert (username ∉ names) as Hnew.
  { unfold Users.get_new_username, Users.load_all_usernames in Hname.
    match type of Hname with (?m tbl).1 = _ =>
      destruct (m tbl) as [rg sg] eqn:Hb end.
    cbn in Hname. subst rg. run_step Hb as col s2 Hc.
    apply lift_ok in Hb as [Hv _]. apply to_valid_username_new in Hv.
    by destruct names. }
  read_step H as uid' Huid. read_step H as gid' Hgid. read_step H as username' Hname'.
  cbn in Hname'. apply UbuntuName_ok in Hname' as [-> _].
  read_step H as uuid' Huuid. read_step H as ezid' Hezid. read_step H as status Hstatus.
  read_step H as ut' Hut. read_step H as [uid'' gid''] Hids.
  read_step H as fd' Hfd'. cbv [bind TableIO.write_yaml ret] in H.
  by injection H as <- <-.
Qed.

Lemma create_or_fetch_user_effect w uuid ezid s u uid s' :
  Main.create_or_fetch_user w uuid ezid s = (ok (u, uid), s') →
  well_formed (Main.groups s) →
  well_formed (Main.groups s')
  ∧ grows (Main.groups s) (Main.groups s')
  ∧ Types.GroupName (PyStr u) = ok u
  ∧ ((Main.in_users (Users.user_exist uuid "uuid") s).1 = ok false →
     is_member u u (Main.groups s')).
Proof.
  unfold Main.create_or_fetch_user. intros H Hwf.
  read_step H as exists_ Hex. destruct exists_; cbn [negb] in H.
  - (* the user exists *)
    read_step H as user Huser. read_step H as groupname Hname.
    cbn in Hname. pose proof Hname as [-> _]%UbuntuName_ok.
    read_step H as personal Hp. apply ret_ok in H as [[= -> ->] ->].
    split; [done|]. split; [apply grows_refl|]. split; [done|]. done.
  - (* the user is new *)
    read_step H as names Hnames.
    run_step H as user s1 Huser.
    apply in_users_ok in Huser as (t1 & Huser & ->).
    pose proof (add_user_new_name _ _ _ _ _ _ _ _ _ _ _ Huser) as Hnew.
    cbn [Main.users Main.groups Main.uuid4_calls] in H.
    read_step H as teamname Hteam. read_step H as groupname Hname.
    cbn in Hname. pose proof Hname as [-> _]%UbuntuName_ok.
    read_step H as gid Hgid. read_step H as names' Hnames'.
    run_step H as personal s2 Hcreate.
    apply in_groups_ok in Hcreate as (t2 & Hcreate & ->).
    cbn [Main.users Main.groups Main.uuid4_calls] in *.
    apply create_new_group_ok in Hcreate as (d & -> & Hd & Hlist & _ & Hg).
    rewrite Hg in *.
    assert (Hwf1 : well_formed (Main.groups s ++ [d])).
    { eapply well_formed_app; [done| |done..].
      intros Hin. pose proof (all_names_groupnames _ _ Hnames _ Hin) as Hn.
      apply Hnew; [|done]. intros ->. by apply elem_of_nil in Hn. }
    read_step H as username Husername.
    cbn in Husername. apply UbuntuName_ok in Husername as [-> _].
    run_step H as [] s3 Hadd. apply ret_ok in H as [[= -> ->] ->].
    apply add_member_effect in Hadd as (Hwf3 & Hg3 & Hm3); [|done].
    cbn [Main.groups] in Hg3.
    split; [done|]. split; [eapply grows_trans; [apply grows_app|done]|].
    split; [done|]. done.
Qed.

(** *** Reconciliation *)

Lemma teamnames_to_groupnames_ok teams s tg s' :
  Main.teamnames_to_groupnames teams s = (ok tg, s') →
  s' = s ∧ Forall2 (λ t g, team_entry t g (Main.groups s)) teams tg.
Proof.
  unfold Main.teamnames_to_groupnames.
  revert tg s'. induction teams as [|t teams IH]; intros tg s' H.
  - apply ret_ok in H as [-> ->]. split; [done|constructor].
  - read_step H as grp Hgrp.
    apply in_groups_read in Hgrp; [|eauto with readonly].
    apply get_group_info_ok in Hgrp as (_ & e & Hfind & He).
    apply group_of_entry_fields in He as [Hname _].
    run_step H as gs s1 Hgs. apply IH in Hgs as [-> Hgs].
    apply ret_ok in H as [-> ->]. split; [done|].
    constructor; [by exists e|done].
Qed.

Lemma teamnames_to_groupnames_kin teams s s' tg :
  Forall2 kin (Main.groups s) (Main.groups s') →
  Main.teamnames_to_groupnames teams s = (ok tg, s) →
  Main.teamnames_to_groupnames teams s' = (ok tg, s').
Proof.
  intros Hkin. unfold Main.teamnames_to_groupnames.
  revert tg. induction teams as [|t teams IH]; intros tg H.
  { by apply ret_ok in H as [-> _]. }
  read_step H as grp Hgrp.
  apply in_groups_read in Hgrp; [|eauto with readonly].
  apply get_group_info_ok in Hgrp as (_ & e & Hfind & He).
  destruct (find_entry_kin "teamname" (YStr t) _ _ [] e ltac:(done) Hkin Hfind)
    as (e' & Hfind' & Hk).
  rewrite app_nil_r in Hfind'.
  destruct (group_of_entry_kin _ _ _ Hk He) as (grp' & He' & Hname).
  run_step H as gs s1 Hgs.
  assert (s1 = s) as ->.
  { by apply (teamnames_to_groupnames_ok teams s gs s1). }
  apply IH in Hgs. apply ret_ok in H as [-> _].
  unfold bind at 1. unfold Main.in_groups at 1.
  rewrite (get_group_info_of _ _ _ _ _ Hfind' He').
  replace {| Main.users := Main.users s'; Main.groups := Main.groups s';
             Main.uuid4_calls := Main.uuid4_calls s' |} with s' by (by destruct s').
  unfold bind at 1. rewrite Hgs. by rewrite Hname.
Qed.

Lemma obsolete_loop_effect u tg (vs : list yval) s s' :
  Types.GroupName (PyStr u) = ok u →
  for_each vs (λ groupname,
    let! own := lift (Types.GroupName (PyStr u)) in
    let! groupname := lift (Main.hashable groupname) in
    if negb (str_in groupname (tg ++ [own])) then
      Main.remove_member u groupname
    else ret tt) s = (ok tt, s') →
  well_formed (Main.groups s) →
  well_formed (Main.groups s')
  ∧ Forall2 (loses u (tg ++ [u])) (Main.groups s) (Main.groups s')
  ∧ Forall (λ v, ∃ g, v = YStr g) vs
  ∧ ∀ e' g, e' ∈ Main.groups s' → in_group u e' = true →
            e' !! "groupname" = Some (YStr g) → YStr g ∈ vs → g ∈ tg ++ [u].
Proof.
  intros Hown. revert s.
  induction vs as [|v vs IH]; intros s H Hwf; cbn [for_each] in H.
  { apply ret_ok in H as [_ ->]. split; [done|].
    split; [apply Forall2_same, loses_refl|]. split; [constructor|].
    by intros ???? _ ?%elem_of_nil. }
  run_step H as [] s1 Hstep.
  read_step Hstep as own Hown'.
  change (Types.GroupName (PyStr u) = ok own) in Hown'. rewrite Hown in Hown'.
  injection Hown' as <-.
  read_step Hstep as g Hg. cbn in Hg. destruct v as [g'|?]; [|done].
  injection Hg as ->.
  destruct (str_in g (tg ++ [u])) eqn:Hkeep; cbn [negb] in Hstep.
  - apply ret_ok in Hstep as [_ ->].
    apply IH in H as (Hwf' & Hl & Hvs & Hin); [|done].
    split; [done|]. split; [done|]. split; [constructor; eauto|].
    intros e' g0 He' Hu Hg0 [[= ->]|?]%elem_of_cons; [|by eapply Hin].
    by apply str_in_elem_of.
  - apply remove_member_ok in Hstep as [_ Hdrop].
    apply str_in_false in Hkeep.
    pose proof (drop_member_loses _ _ _ _ _ Hkeep Hdrop) as Hl1.
    pose proof (drop_member_gone _ _ _ _ Hwf Hdrop) as Hgone.
    assert (Hwf1 : well_formed (Main.groups s1)) by (by eapply well_formed_loses).
    apply IH in H as (Hwf' & Hl & Hvs & Hin); [|done].
    split; [done|].
    split; [by eapply Forall2_trans'; [apply loses_trans|..]|].
    split; [constructor; eauto|].
    intros e' g0 He' Hu Hg0 [[= ->]|?]%elem_of_cons; [|by eapply Hin].
    destruct (Forall2_elem_r _ _ _ _ Hl He') as (e1 & He1 & Hk & Hm & _).
    rewrite (Hgone e1) in Hm; [by specialize (Hm Hu)|done|].
    by rewrite <-(kin_groupname _ _ Hk).
Qed.

Lemma remove_obsolete_effect u teams s s' :
  Types.GroupName (PyStr u) = ok u →
  Main.remove_obsolete_group_memberships u teams s = (ok tt, s') →
  well_formed (Main.groups s) →
  ∃ tg, Main.teamnames_to_groupnames teams s = (ok tg, s)
    ∧ Forall2 (loses u (tg ++ [u])) (Main.groups s) (Main.groups s')
    ∧ ∀ e', e' ∈ Main.groups s' → in_group u e' = true →
        ∀ v, e' !! "groupname" = Some v → ∃ g, v = YStr g ∧ g ∈ tg ++ [u].
Proof.
  unfold Main.remove_obsolete_group_memberships. intros Hown H Hwf.
  read_step H as group_names Hnames.
  apply in_groups_read in Hnames; [|eauto with readonly].
  apply get_groups_of_user_ok in Hnames as [_ Hnames].
  run_step H as tg s1 Htg.
  pose proof (teamnames_to_groupnames_ok _ _ _ _ Htg) as [-> _].
  apply obsolete_loop_effect in H as (Hwf' & Hl & Hvs & Hin); [|done..].
  exists tg. split; [done|]. split; [done|].
  intros e' He' Hu v Hv.
  destruct (Forall2_elem_r _ _ _ _ Hl He') as (e & He & Hk & Hm & _).
  assert (v ∈ group_names) as Hvin.
  { apply (groups_of_spec _ _ _ Hnames). exists e. split; [done|].
    split; [by rewrite <-(kin_groupname _ _ Hk)|auto]. }
  rewrite Forall_forall in Hvs. destruct (Hvs v Hvin) as [g ->].
  exists g. split; [done|]. by eapply Hin.
Qed.

Lemma is_member_kept u keep x g tbl tbl' :
  Forall2 (loses u keep) tbl tbl' → g ∈ keep →
  is_member x g tbl → is_member x g tbl'.
Proof.
  intros Hl Hg (e & He & Hn & Hx).
  destruct (Forall2_elem_l _ _ _ _ Hl He) as (e' & He' & _ & _ & _ & Hframe).
  rewrite (Hframe g Hn Hg) in He'. by exists e.
Qed.

Lemma readonly_lookup_all (gs : list yval) :
  readonly
    ((fix go (gs : list yval) : St Main.store (list Z) :=
        match gs with
        | [] => ret []
        | g :: gs' =>
            let! z := Main.in_groups (Groups.lookup_gid g "groupname") in
            let! zs := go gs' in ret (z :: zs)
        end) gs).
Proof. induction gs; eauto 10 with readonly. Qed.

Lemma readonly_get_etc_passwd_string : readonly Users.get_etc_passwd_string.
Proof. unfold Users.get_etc_passwd_string. eauto with readonly. Qed.

Lemma readonly_get_etc_group_string : readonly Groups.get_etc_group_string.
Proof. unfold Groups.get_etc_group_string. eauto with readonly. Qed.

#[local] Hint Resolve readonly_lookup_all readonly_get_etc_passwd_string
  readonly_get_etc_group_string : readonly.

Lemma locked_reconciles w uuid ezid active teams s info s' :
  well_formed (Main.groups s) →
  Main._locked_get_spawn_info w uuid ezid active teams s = (ok info, s') →
  ∃ team_groups member_of,
    Main.teamnames_to_groupnames teams s' = (ok team_groups, s')
    ∧ Groups.get_groups_of_user (Main.username info) (Main.groups s')
      = (ok member_of, Main.groups s')
    ∧ (∀ v, v ∈ member_of →
         ∃ g, v = YStr g ∧ (g ∈ team_groups ∨ g = Main.username info))
    ∧ (∀ g, g ∈ team_groups → YStr g ∈ member_of)
    ∧ (is_member (Main.username info) (Main.username info) (Main.groups s) →
       YStr (Main.username info) ∈ member_of)
    ∧ ((Main.in_users (Users.user_exist uuid "uuid") s).1 = ok false →
       YStr (Main.username info) ∈ member_of)
    ∧ well_formed (Main.groups s').
Proof.
  unfold Main._locked_get_spawn_info. intros Hwf H.
  run_step H as [u uid] s1 Huser. run_step H as [] s2 Hteams. run_step H as [] s3 Hobs.
  read_step H as own_team Hown_team. read_step H as g_info Hg_info.
  read_step H as member_of Hmember_of. read_step H as gids Hgids.
  read_step H as etc_passwd Hpasswd. read_step H as etc_group Hgroup.
  apply ret_ok in H as [-> ->]. cbn [Main.username].
  apply in_groups_read in Hmember_of; [|eauto with readonly].
  pose proof Hmember_of as [_ Hof]%get_groups_of_user_ok.
  apply create_or_fetch_user_effect in Huser as (Hwf1 & Hg1 & Hown & Hnew); [|done].
  apply teams_loop_effect in Hteams as (Hwf2 & Hg2 & Hall); [|done].
  apply remove_obsolete_effect in Hobs as (tg & Htg & Hl & Hkeep); [|done..].
  pose proof (teamnames_to_groupnames_ok _ _ _ _ Htg) as [_ Hentries].
  assert (Hmem : ∀ g, g ∈ tg ++ [u] → is_member u g (Main.groups s2) →
                      YStr g ∈ member_of).
  { intros g Hg Hm. apply (is_member_kept _ _ _ _ _ _ Hl Hg) in Hm.
    apply (groups_of_spec _ _ _ Hof). destruct Hm as (e & ? & ? & ?). by exists e. }
  exists tg, member_of.
  split; [by eapply teamnames_to_groupnames_kin; [eapply Forall2_loses_kin|]|].
  split; [done|]. split; [|split; [|split; [|split]]].
  5: by eapply well_formed_loses.
  - intros v (e' & He' & Hv & Hu)%(groups_of_spec _ _ _ Hof).
    destruct (Hkeep e' He' Hu v Hv) as (g & -> & Hg). exists g. split; [done|].
    apply elem_of_app in Hg as [?|?%list_elem_of_singleton]; auto.
  - intros g Hg. apply Hmem; [apply elem_of_app; by left|].
    destruct (Forall2_elem_r _ _ _ _ Hentries Hg) as (t & Ht & Hentry).
    destruct (Hall t Ht) as (g' & Hentry' & Hm).
    by rewrite (team_entry_fun _ _ _ _ Hentry Hentry').
  - intros Hm. apply Hmem; [apply elem_of_app; right; by left|].
    eapply is_member_grows; [|done]. by eapply grows_trans.
  - intros Hm. apply Hmem; [apply elem_of_app; right; by left|].
    eapply is_member_grows; [done|]. by apply Hnew.
Qed.


Lemma returned {S A} (m : St S A) (s : S) (a : A) :
  (m s).1 = ok a → m s = (ok a, (m s).2).
Proof. destruct (m s). by intros [= ->]. Qed.


(** A new registry exists, and its group table is well formed. *)
Lemma new_registry_well_formed :
  Fresh.outcome (ret tt) = ok (ok tt)
  ∧ well_formed (Main.groups (Fresh.after (ret tt))).
Proof.
  split; [vm_compute; reflexivity|].
  split; [apply (bool_decide_unpack _); vm_compute; exact I
         |vm_compute; reflexivity].
Qed.

(** The scenario of C3 evaluated: teams A, B and C, then A and D. *)
Example reconciliation_example :
  Groups.groups_of "user-1" (Main.groups Fresh.in_abc)
  = ok [YStr "user-1"; YStr "a"; YStr "b"; YStr "c"]
  ∧ Groups.groups_of "user-1" (Main.groups Fresh.to_ad)
    = ok [YStr "user-1"; YStr "a"; YStr "d"].
Proof. split; vm_compute; reflexivity. Qed.

(* ===================================================================== *)
(** ** Further properties of the registry                                 *)
(* ===================================================================== *)

(** *** Groups nobody has created *)

Lemma find_entry_None key v (tbl : table) (col : list yval) :
  (Some <$> col) = (λ e : entry, e !! key) <$> tbl →
  v ∉ col → Groups.find_entry key v tbl = ok None.
Proof.
  revert col. induction tbl as [|e es IH]; intros col Hcol Hv; [done|].
  destruct col as [|v0 col]; [done|]. injection Hcol as H0 Hcol.
  cbn [Groups.find_entry]. rewrite (getitem_Some _ _ v0) by done. cbn [rbind].
  rewrite bool_decide_eq_false_2.
  - apply (IH col); [done|]. intros ?. apply Hv. by right.
  - intros ->. apply Hv. by left.
Qed.

Lemma deactivate_first_None key id (tbl : table) (col : list yval) :
  (Some <$> col) = (λ e : entry, e !! key) <$> tbl →
  YStr id ∉ col → Users.deactivate_first key id tbl = ok tbl.
Proof.
  revert col. induction tbl as [|e es IH]; intros col Hcol Hv; [done|].
  destruct col as [|v0 col]; [done|]. injection Hcol as H0 Hcol.
  cbn [Users.deactivate_first]. rewrite (getitem_Some _ _ v0) by done. cbn [rbind].
  rewrite bool_decide_eq_false_2.
  - rewrite (IH col); [done|done|]. intros ?. apply Hv. by right.
  - intros ->. apply Hv. by left.
Qed.

(** X1.  On a group table whose entries all carry a [groupname], none of
    them [g]: [lookup_gid], [get_users_of_group] and [group_active] raise
    UnboundLocalError (their loop never binds the variable they return),
    [get_group_info] raises RuntimeError, [add_user_to_group] raises
    ValueError, [is_user_in_group] and [remove_user_from_group] raise a
    plain Exception, and [delete_group] returns without a change; none of
    them changes the table. *)
Theorem unknown_group_outcomes (u g : string) (tbl : table) (col : list yval) :
  Groups.load_all_groupnames tbl = (ok col, tbl) →
  YStr g ∉ col →
  Groups.lookup_gid (YStr g) "groupname" tbl
  = (raise UnboundLocalError (MsgInterp "gid"), tbl)
  ∧ Groups.get_users_of_group g tbl
    = (raise UnboundLocalError (MsgInterp "groups_users"), tbl)
  ∧ Groups.group_active g tbl
    = (raise UnboundLocalError (MsgInterp "group_active"), tbl)
  ∧ Groups.get_group_info g "groupname" tbl
    = (raise RuntimeError (MsgGroupInfoNotExist g), tbl)
  ∧ Groups.add_user_to_group u g tbl
    = (raise ValueError (MsgGroupNotExist g), tbl)
  ∧ Groups.is_user_in_group u g tbl
    = (raise PlainException (MsgGroupNotExist g), tbl)
  ∧ Groups.remove_user_from_group u g tbl
    = (raise PlainException (MsgGroupNotExist g), tbl)
  ∧ Groups.delete_group g tbl = (ok tt, tbl).
Proof.
  intros Hcol Hg. pose proof (column_elem _ _ _ _ Hcol) as Hc.
  pose proof (find_entry_None _ _ _ _ Hc Hg) as Hfind.
  assert (Hex : Groups.group_exist g tbl = (ok false, tbl)).
  { unfold Groups.group_exist, bind. rewrite Hcol.
    unfold ret, Users.in_column. by rewrite bool_decide_eq_false_2. }
  repeat split.
  - cbv [Groups.lookup_gid bind TableIO.load_yaml lift]. by rewrite Hfind.
  - cbv [Groups.get_users_of_group bind TableIO.load_yaml lift]. by rewrite Hfind.
  - cbv [Groups.group_active bind TableIO.load_yaml lift]. by rewrite Hfind.
  - cbv [Groups.get_group_info bind TableIO.load_yaml lift]. by rewrite Hfind.
  - unfold Groups.add_user_to_group, bind at 1 2. cbn [TableIO.load_yaml].
    by rewrite Hex.
  - unfold Groups.is_user_in_group, bind at 1 2. cbn [TableIO.load_yaml].
    by rewrite Hex.
  - unfold Groups.remove_user_from_group, bind at 1 2. cbn [TableIO.load_yaml].
    by rewrite Hex.
  - cbv [Groups.delete_group bind TableIO.load_yaml lift TableIO.write_yaml].
    by rewrite (deactivate_first_None _ _ _ _ Hc Hg).
Qed.

Lemma unknown_group_outcomes_witness :
  let tbl : table :=
    [ {[ "groupname" := YStr "staff"; "gid" := YStr "50";
         "grouplist" := YList [] ]} ] in
  Groups.lookup_gid (YStr "team") "groupname" tbl
  = (raise UnboundLocalError (MsgInterp "gid"), tbl)
  ∧ Groups.get_users_of_group "team" tbl
    = (raise UnboundLocalError (MsgInterp "groups_users"), tbl)
  ∧ Groups.group_active "team" tbl
    = (raise UnboundLocalError (MsgInterp "group_active"), tbl)
  ∧ Groups.get_group_info "team" "groupname" tbl
    = (raise RuntimeError (MsgGroupInfoNotExist "team"), tbl)
  ∧ Groups.add_user_to_group "user" "team" tbl
    = (raise ValueError (MsgGroupNotExist "team"), tbl)
  ∧ Groups.is_user_in_group "user" "team" tbl
    = (raise PlainException (MsgGroupNotExist "team"), tbl)
  ∧ Groups.remove_user_from_group "user" "team" tbl
    = (raise PlainException (MsgGroupNotExist "team"), tbl)
  ∧ Groups.delete_group "team" tbl = (ok tt, tbl).
Proof.
  intros tbl.
  apply (unknown_group_outcomes "user" "team" tbl [YStr "staff"]).
  - reflexivity.
  - apply (bool_decide_unpack _). vm_compute. exact I.
Defined.

(** *** The first entry with a given field *)

Lemma find_entry_split key v (tbl : table) e :
  Groups.find_entry key v tbl = ok (Some e) →
  ∃ pre post, tbl = pre ++ e :: post ∧ e !! key = Some v ∧ none_before key v pre.
Proof.
  induction tbl as [|e0 es IH]; cbn [Groups.find_entry]; [done|].
  destruct (TableIO.getitem e0 key) as [x|v0] eqn:H0; cbn [rbind]; [done|].
  apply getitem_ok in H0. case_bool_decide as Hv.
  - intros [= <-]. subst. exists [], es. split; [done|]. split; [done|].
    by intros ? ?%elem_of_nil.
  - intros (pre & post & -> & He & Hpre)%IH. exists (e0 :: pre), post.
    split; [done|]. split; [done|].
    intros e' [->|?]%elem_of_cons; [by exists v0|by apply Hpre].
Qed.

Lemma find_entry_app key v (pre post : table) e :
  none_before key v pre → e !! key = Some v →
  Groups.find_entry key v (pre ++ e :: post) = ok (Some e).
Proof.
  intros Hpre He. induction pre as [|e0 pre IH]; cbn [app Groups.find_entry].
  - rewrite (getitem_Some _ _ _ He). cbn. by rewrite bool_decide_eq_true_2.
  - destruct (Hpre e0) as (x & Hx & Hne); [by left|].
    rewrite (getitem_Some _ _ _ Hx). cbn. rewrite bool_decide_eq_false_2 by done.
    apply IH. intros e' ?. apply Hpre. by right.
Qed.

Lemma deactivate_first_app key id (pre post : table) e :
  none_before key (YStr id) pre → e !! key = Some (YStr id) →
  Users.deactivate_first key id (pre ++ e :: post)
  = ok (pre ++ <["status" := YStr "deactivated"]> e :: post).
Proof.
  intros Hpre He. induction pre as [|e0 pre IH]; cbn [app Users.deactivate_first].
  - rewrite (getitem_Some _ _ _ He). cbn. by rewrite bool_decide_eq_true_2.
  - destruct (Hpre e0) as (x & Hx & Hne); [by left|].
    rewrite (getitem_Some _ _ _ Hx). cbn. rewrite bool_decide_eq_false_2 by done.
    rewrite IH; [done|]. intros e' ?. apply Hpre. by right.
Qed.

Lemma column_of_fmap key (tbl : table) (col : list yval) :
  (Some <$> col) = (λ e : entry, e !! key) <$> tbl →
  Users.column key inr tbl = (ok col, tbl).
Proof.
  intros H. apply column_ok_Forall2. revert col H.
  induction tbl as [|e es IH]; intros [|v col] H; try done.
  injection H as Hv H. constructor; [done|by apply IH].
Qed.

(** *** Membership after an update *)

Lemma append_member_first_entry u g (tbl tbl' : table) :
  Groups.append_member u g tbl = ok tbl' →
  (∃ e, e ∈ tbl ∧ e !! "groupname" = Some (YStr g)) →
  ∃ e' gl, Groups.find_entry "groupname" (YStr g) tbl' = ok (Some e')
           ∧ e' !! "grouplist" = Some gl ∧ Groups.member u gl = true.
Proof.
  revert tbl'. induction tbl as [|e es IH]; intros tbl'; cbn [Groups.append_member].
  { by intros _ (? & ?%elem_of_nil & _). }
  destruct (TableIO.getitem e "groupname") as [x|v] eqn:Hv; cbn [rbind]; [done|].
  apply getitem_ok in Hv. case_bool_decide as Hg.
  - subst v. intros H _. revert H.
    destruct (TableIO.getitem e "grouplist") as [x|gl] eqn:Hgl; cbn [rbind]; [done|].
    apply getitem_ok in Hgl.
    destruct (_ <=? _)%Z; [done|].
    destruct (Groups.member u gl) eqn:Hm; cbn [negb].
    + intros [= <-]. exists e, gl. split; [|done].
      cbn. rewrite (getitem_Some _ _ _ Hv). cbn. by rewrite bool_decide_eq_true_2.
    + destruct gl as [s|l]; [done|]. intros [= <-].
      eexists _, _. split; [|split; [apply lookup_insert_eq|]].
      * cbn. unfold TableIO.getitem. rewrite lookup_insert_ne, Hv by done. cbn.
        by rewrite bool_decide_eq_true_2.
      * cbn. apply str_in_elem_of, elem_of_app. right. by left.
  - destruct (Groups.append_member u g es) as [x|es'] eqn:Hes; cbn [rbind]; [done|].
    intros [= <-] (e' & [->|Hin]%elem_of_cons & He'); [congruence|].
    destruct (IH es' eq_refl) as (e'' & gl & Hf & ? & ?); [by exists e'|].
    exists e'', gl. split; [|done]. cbn. rewrite (getitem_Some _ _ _ Hv). cbn.
    by rewrite bool_decide_eq_false_2.
Qed.

Lemma drop_member_first_entry u g (tbl tbl' : table) :
  Groups.drop_member u g tbl = ok tbl' →
  forallb distinct_members tbl = true →
  (∃ e, e ∈ tbl ∧ e !! "groupname" = Some (YStr g)) →
  ∃ e' gl, Groups.find_entry "groupname" (YStr g) tbl' = ok (Some e')
           ∧ e' !! "grouplist" = Some gl ∧ Groups.member u gl = false.
Proof.
  revert tbl'. induction tbl as [|e es IH]; intros tbl'; cbn [Groups.drop_member].
  { by intros _ _ (? & ?%elem_of_nil & _). }
  cbn [forallb]. rewrite andb_true_iff.
  destruct (TableIO.getitem e "groupname") as [x|v] eqn:Hv; cbn [rbind]; [done|].
  apply getitem_ok in Hv. case_bool_decide as Hg.
  - subst v. intros H [Hd _] _. revert H.
    destruct (TableIO.getitem e "grouplist") as [x|gl] eqn:Hgl; cbn [rbind]; [done|].
    apply getitem_ok in Hgl.
    destruct (Groups.member u gl) eqn:Hm.
    + destruct gl as [s|l]; [done|]. intros [= <-].
      eexists _, _. split; [|split; [apply lookup_insert_eq|]].
      * cbn. unfold TableIO.getitem. rewrite lookup_insert_ne, Hv by done. cbn.
        by rewrite bool_decide_eq_true_2.
      * cbn. apply str_in_false. by apply NoDup_remove_first, (distinct_lookup e).
    + intros [= <-]. exists e, gl. split; [|done].
      cbn. rewrite (getitem_Some _ _ _ Hv). cbn. by rewrite bool_decide_eq_true_2.
  - destruct (Groups.drop_member u g es) as [x|es'] eqn:Hes; cbn [rbind]; [done|].
    intros [= <-] [_ Hd] (e' & [->|Hin]%elem_of_cons & He'); [congruence|].
    destruct (IH es' eq_refl Hd) as (e'' & gl & Hf & ? & ?); [by exists e'|].
    exists e'', gl. split; [|done]. cbn. rewrite (getitem_Some _ _ _ Hv). cbn.
    by rewrite bool_decide_eq_false_2.
Qed.

Lemma is_user_in_group_of u g (tbl : table) e gl :
  (∃ col, (Some <$> col) = (λ e : entry, e !! "groupname") <$> tbl) →
  Groups.find_entry "groupname" (YStr g) tbl = ok (Some e) →
  e !! "grouplist" = Some gl →
  Groups.is_user_in_group u g tbl = (ok (Groups.member u gl), tbl).
Proof.
  intros [col Hcol] Hfind Hgl.
  pose proof (find_entry_Some _ _ _ _ Hfind) as [Hin He].
  assert (Hex : Groups.group_exist g tbl = (ok true, tbl)).
  { unfold Groups.group_exist, Groups.load_all_groupnames, bind.
    rewrite (column_of_fmap _ _ _ Hcol). unfold ret, Users.in_column.
    rewrite bool_decide_eq_true_2; [done|].
    apply (list_elem_of_fmap_2 (λ e : entry, e !! "groupname")) in Hin.
    rewrite <-Hcol, He in Hin.
    by apply list_elem_of_fmap in Hin as (? & [= <-] & ?). }
  unfold Groups.is_user_in_group, bind at 1 2. cbn [TableIO.load_yaml].
  rewrite Hex. cbn [negb]. cbv [bind lift ret]. rewrite Hfind.
  by rewrite (getitem_Some _ _ _ Hgl).
Qed.

Lemma groupnames_kept (R : entry → entry → Prop) (tbl tbl' : table) col :
  (∀ e e', R e e' → kin e e') → Forall2 R tbl tbl' →
  (Some <$> col) = (λ e : entry, e !! "groupname") <$> tbl →
  (Some <$> col) = (λ e : entry, e !! "groupname") <$> tbl'.
Proof.
  intros HR H ->. induction H as [|e e' l l' He _ IH]; [done|]. cbn.
  f_equal; [|done]. symmetry. by apply kin_groupname, HR.
Qed.

Lemma group_exist_col g (tbl : table) :
  (Groups.group_exist g tbl).1 = ok true →
  ∃ col, (Some <$> col) = (λ e : entry, e !! "groupname") <$> tbl ∧ YStr g ∈ col.
Proof.
  unfold Groups.group_exist, Groups.load_all_groupnames. intros H.
  destruct (bind _ _ tbl) as [r t] eqn:Hb. cbn in H. subst r.
  run_step Hb as col s1 Hcol. apply ret_ok in Hb as [Hb _].
  exists col. split; [by eapply column_elem|]. by apply in_column_true.
Qed.

(** X2.  When [add_user_to_group(u, g)] returns, [is_user_in_group(u, g)]
    is True on the table it wrote.  When [remove_user_from_group(u, g)]
    returns on a table whose member lists name nobody twice,
    [is_user_in_group(u, g)] is False on the table it wrote. *)
Theorem membership_after_update (u g : string) (tbl tbl' : table) :
  (Groups.add_user_to_group u g tbl = (ok tt, tbl') →
   Groups.is_user_in_group u g tbl' = (ok true, tbl'))
  ∧ (Groups.remove_user_from_group u g tbl = (ok tt, tbl') →
     forallb distinct_members tbl = true →
     Groups.is_user_in_group u g tbl' = (ok false, tbl')).
Proof.
  split.
  - intros H. pose proof (add_user_to_group_ok _ _ _ _ H) as [Happ Hex].
    unfold Groups.add_user_to_group in H. read_step H as fd Hfd.
    read_step H as ex Hex'. destruct ex; [|done].
    apply group_exist_col in Hex' as (col & Hcol & _).
    destruct (append_member_first_entry _ _ _ _ Happ Hex) as (e' & gl & Hf & Hl & Hm).
    rewrite <-Hm. apply (is_user_in_group_of u g tbl' e' gl); [|done..].
    exists col. eapply groupnames_kept; [|by eapply append_member_gains|done].
    by intros ?? [? _].
  - intros H Hd. pose proof (remove_user_from_group_ok _ _ _ _ H) as Hdrop.
    unfold Groups.remove_user_from_group in H. read_step H as fd Hfd.
    read_step H as ex Hex'. destruct ex; [|done].
    apply group_exist_col in Hex' as (col & Hcol & Hg).
    assert (Hex : ∃ e, e ∈ tbl ∧ e !! "groupname" = Some (YStr g)).
    { apply (list_elem_of_fmap_2 Some) in Hg. rewrite Hcol in Hg.
      apply list_elem_of_fmap in Hg as (e & ? & ?). by exists e. }
    destruct (drop_member_first_entry _ _ _ _ Hdrop Hd Hex) as (e' & gl & Hf & Hl & Hm).
    rewrite <-Hm. apply (is_user_in_group_of u g tbl' e' gl); [|done..].
    exists col.
    eapply (groupnames_kept (loses u []));
      [|by eapply (drop_member_loses u g []); [apply not_elem_of_nil|]|done].
    by intros ?? [? _].
Qed.

Lemma membership_after_update_witness :
  let e : entry := {[ "groupname" := YStr "team"; "grouplist" := YList ["alice"] ]} in
  Groups.is_user_in_group "bob" "team"
    [<["grouplist" := YList ["alice"; "bob"]]> e]
  = (ok true, [<["grouplist" := YList ["alice"; "bob"]]> e])
  ∧ Groups.is_user_in_group "alice" "team" [<["grouplist" := YList []]> e]
    = (ok false, [<["grouplist" := YList []]> e]).
Proof.
  intros e. split.
  - apply (proj1 (membership_after_update "bob" "team" [e] _)). reflexivity.
  - apply (proj2 (membership_after_update "alice" "team" [e] _)); reflexivity.
Defined.

Lemma str_in_remove_first v u l :
  v ≠ u → str_in v (Groups.remove_first u l) = str_in v l.
Proof.
  intros Hv. unfold str_in.
  induction l as [|y l IH]; [done|]. cbn [Groups.remove_first].
  destruct (String.eqb_spec y u) as [->|Hy].
  - cbn [existsb]. by destruct (String.eqb_spec v u).
  - cbn [existsb]. by rewrite IH.
Qed.

Lemma drop_everywhere_cleared u (tbl tbl' : table) :
  Groups.drop_everywhere u tbl = ok tbl' → Forall2 (cleared u) tbl tbl'.
Proof.
  revert tbl'. induction tbl as [|e es IH]; intros tbl'; cbn [Groups.drop_everywhere].
  { intros [= <-]. constructor. }
  destruct (TableIO.getitem e "grouplist") as [x|gl] eqn:Hgl; cbn [rbind]; [done|].
  apply getitem_ok in Hgl.
  destruct (Groups.member u gl) eqn:Hm.
  - destruct gl as [s|l]; cbn [rbind]; [done|].
    destruct (Groups.drop_everywhere u es) as [x|es'] eqn:Hes; cbn [rbind]; [done|].
    intros [= <-]. constructor; [|by apply IH].
    split; [by apply kin_set_members|].
    split; [by eexists|]. split; [by rewrite lookup_insert_eq|].
    split.
    + intros Hd. rewrite in_group_insert. cbn.
      apply str_in_false. by apply NoDup_remove_first, (distinct_lookup e).
    + intros v Hv. rewrite in_group_insert, (in_group_lookup _ _ _ Hgl). cbn.
      by apply str_in_remove_first.
  - cbn [rbind].
    destruct (Groups.drop_everywhere u es) as [x|es'] eqn:Hes; cbn [rbind]; [done|].
    intros [= <-]. constructor; [|by apply IH].
    split; [apply kin_refl|]. split; [by eexists|]. split; [by eexists|].
    split; [|done]. intros _. by rewrite (in_group_lookup _ _ _ Hgl).
Qed.

Lemma groups_of_cleared_same u v (tbl tbl' : table) :
  Forall2 (cleared u) tbl tbl' → v ≠ u →
  Groups.groups_of v tbl' = Groups.groups_of v tbl.
Proof.
  intros H Hv.
  induction H as [|e e' l l' (Hk & [gl Hgl] & [gl' Hgl'] & _ & Hsame) _ IH]; [done|].
  cbn [Groups.groups_of]. rewrite IH.
  rewrite (getitem_Some _ _ _ Hgl'), (getitem_Some _ _ _ Hgl). cbn [rbind].
  specialize (Hsame v Hv).
  rewrite (in_group_lookup _ _ _ Hgl'), (in_group_lookup _ _ _ Hgl) in Hsame.
  rewrite Hsame. unfold TableIO.getitem. by rewrite (kin_groupname _ _ Hk).
Qed.

Lemma groups_of_cleared u (tbl tbl' : table) :
  Forall2 (cleared u) tbl tbl' → forallb distinct_members tbl = true →
  Groups.groups_of u tbl' = ok [].
Proof.
  intros H.
  induction H as [|e e' l l' (Hk & _ & [gl' Hgl'] & Hout & _) _ IH]; [done|].
  cbn [forallb]. intros [Hd Hds]%andb_true_iff.
  cbn [Groups.groups_of]. rewrite (getitem_Some _ _ _ Hgl'). cbn [rbind].
  specialize (Hout Hd). rewrite (in_group_lookup _ _ _ Hgl') in Hout.
  rewrite Hout. by apply IH.
Qed.

(** X3.  When [remove_user_from_all_groups(u)] returns, the entries differ
    from the old ones in their member lists at most, the groups of every
    other user are what they were, and, on a table whose member lists name
    nobody twice, [get_groups_of_user(u)] is the empty list. *)
Theorem remove_user_from_all_groups_clears (u : string) (tbl tbl' : table) :
  Groups.remove_user_from_all_groups u tbl = (ok tt, tbl') →
  Forall2 kin tbl tbl'
  ∧ (∀ v, v ≠ u →
       Groups.get_groups_of_user v tbl' = (Groups.groups_of v tbl, tbl'))
  ∧ (forallb distinct_members tbl = true →
     Groups.get_groups_of_user u tbl' = (ok [], tbl')).
Proof.
  unfold Groups.remove_user_from_all_groups. intros H.
  run_step H as fd s1 Hfd. injection Hfd as <- <-.
  run_step H as fd' s2 Hdrop. apply lift_ok in Hdrop as [Hdrop ->].
  injection H as <-.
  apply drop_everywhere_cleared in Hdrop.
  split; [|split].
  - eapply Forall2_impl; [done|]. by intros ?? [? _].
  - intros v Hv. unfold Groups.get_groups_of_user, bind, TableIO.load_yaml, lift.
    by rewrite (groups_of_cleared_same u v tbl fd').
  - intros Hd. unfold Groups.get_groups_of_user, bind, TableIO.load_yaml, lift.
    by rewrite (groups_of_cleared u tbl fd').
Qed.

Lemma remove_user_from_all_groups_clears_witness :
  let a : entry := {[ "groupname" := YStr "a"; "grouplist" := YList ["bob"; "eve"] ]} in
  let b : entry := {[ "groupname" := YStr "b"; "grouplist" := YList ["eve"] ]} in
  let a' : entry := <["grouplist" := YList ["bob"]]> a in
  let b' : entry := <["grouplist" := YList []]> b in
  Groups.remove_user_from_all_groups "eve" [a; b] = (ok tt, [a'; b'])
  ∧ Forall2 kin [a; b] [a'; b']
  ∧ Groups.get_groups_of_user "bob" [a'; b'] = (ok [YStr "a"], [a'; b'])
  ∧ Groups.get_groups_of_user "eve" [a'; b'] = (ok [], [a'; b']).
Proof.
  intros a b a' b'.
  assert (Hrun : Groups.remove_user_from_all_groups "eve" [a; b] = (ok tt, [a'; b']))
    by reflexivity.
  destruct (remove_user_from_all_groups_clears "eve" [a; b] [a'; b'] Hrun)
    as (Hkin & Hothers & Hgone).
  split; [exact Hrun|]. split; [exact Hkin|]. split.
  - apply (Hothers "bob"). discriminate.
  - apply Hgone. reflexivity.
Defined.

Lemma is_user_in_group_ok u g (tbl tbl' : table) b :
  Groups.is_user_in_group u g tbl = (ok b, tbl') →
  tbl' = tbl
  ∧ ∃ e gl, Groups.find_entry "groupname" (YStr g) tbl = ok (Some e)
            ∧ e !! "grouplist" = Some gl ∧ b = Groups.member u gl.
Proof.
  unfold Groups.is_user_in_group. intros H.
  run_step H as fd s1 Hfd. injection Hfd as <- <-.
  run_step H as ex s2 Hex.
  apply (readonly_ok _ _ _ _ (readonly_group_exist g)) in Hex as Hs. subst s2.
  destruct ex; [|done]. cbn [negb] in H.
  run_step H as found s3 Hfound. apply lift_ok in Hfound as [Hfound ->].
  destruct found as [e|]; [|done].
  run_step H as gl s4 Hgl. apply lift_ok in Hgl as [Hgl%getitem_ok ->].
  apply ret_ok in H as [-> ->]. split; [done|]. by exists e, gl.
Qed.

(** X4.  [is_user_in_group] and [get_groups_of_user] agree: when
    [is_user_in_group(u, g)] is True, [g] is among
    [get_groups_of_user(u)]; where no two entries share a group name the
    converse holds as well. *)
Theorem membership_views_agree (u g : string) (tbl : table) (b : bool)
    (gs : list yval) :
  Groups.is_user_in_group u g tbl = (ok b, tbl) →
  Groups.get_groups_of_user u tbl = (ok gs, tbl) →
  (b = true → YStr g ∈ gs)
  ∧ (NoDup ((λ e : entry, e !! "groupname") <$> tbl) → YStr g ∈ gs → b = true).
Proof.
  intros (_ & e & gl & Hfind & Hgl & ->)%is_user_in_group_ok
         [_ Hgs]%get_groups_of_user_ok.
  pose proof (find_entry_Some _ _ _ _ Hfind) as [Hin Hname].
  pose proof (groups_of_spec _ _ _ Hgs (YStr g)) as Hspec.
  split.
  - intros Hm. apply Hspec. exists e. by rewrite (in_group_lookup _ _ _ Hgl).
  - intros Hnd (e' & Hin' & Hname' & Hm)%Hspec.
    rewrite (find_entry_the _ _ _ _ _ Hnd Hfind Hin' Hname') in Hgl.
    by rewrite (in_group_lookup _ _ _ Hgl) in Hm.
Qed.

Lemma membership_views_agree_witness :
  let a : entry := {[ "groupname" := YStr "a"; "grouplist" := YList ["bob"; "eve"] ]} in
  let b : entry := {[ "groupname" := YStr "b"; "grouplist" := YList ["eve"] ]} in
  Groups.is_user_in_group "bob" "a" [a; b] = (ok true, [a; b])
  ∧ Groups.is_user_in_group "bob" "b" [a; b] = (ok false, [a; b])
  ∧ Groups.get_groups_of_user "bob" [a; b] = (ok [YStr "a"], [a; b])
  ∧ NoDup ((λ e : entry, e !! "groupname") <$> [a; b])
  ∧ YStr "a" ∈ [YStr "a"]
  ∧ (YStr "b" ∈ [YStr "a"] → false = true).
Proof.
  intros a b.
  assert (Hnd : NoDup ((λ e : entry, e !! "groupname") <$> [a; b])).
  { apply (bool_decide_unpack _). vm_compute. exact I. }
  split; [reflexivity|]. split; [reflexivity|]. split; [reflexivity|].
  split; [exact Hnd|]. split.
  - apply (proj1 (membership_views_agree "bob" "a" [a; b] true [YStr "a"]
                    eq_refl eq_refl)). reflexivity.
  - apply (proj2 (membership_views_agree "bob" "b" [a; b] false [YStr "a"]
                    eq_refl eq_refl)). exact Hnd.
Defined.

(** *** Deactivation *)

Lemma deactivate_first_split key id (tbl tbl' : table) :
  Users.deactivate_first key id tbl = ok tbl' →
  (tbl' = tbl ∧ none_before key (YStr id) tbl)
  ∨ ∃ pre e post,
      tbl = pre ++ e :: post
      ∧ tbl' = pre ++ <["status" := YStr "deactivated"]> e :: post
      ∧ none_before key (YStr id) pre ∧ e !! key = Some (YStr id).
Proof.
  revert tbl'. induction tbl as [|e es IH]; intros tbl'; cbn [Users.deactivate_first].
  { intros [= <-]. left. split; [done|]. by intros ? ?%elem_of_nil. }
  destruct (TableIO.getitem e key) as [x|v] eqn:Hv; cbn [rbind]; [done|].
  apply getitem_ok in Hv. case_bool_decide as Hid.
  - intros [= <-]. subst v. right. exists [], e, es.
    split_and!; [done|done| |done]. by intros ? ?%elem_of_nil.
  - destruct (Users.deactivate_first key id es) as [x|es'] eqn:Hes; cbn [rbind]; [done|].
    intros [= <-].
    assert (Hhead : ∃ x, e !! key = Some x ∧ x ≠ YStr id) by by exists v.
    destruct (IH es' eq_refl) as [[-> Hnone]|(pre & e1 & post & -> & -> & Hnone & He1)].
    + left. split; [done|]. intros e0 [->|?]%elem_of_cons; [done|by apply Hnone].
    + right. exists (e :: pre), e1, post. split_and!; [done|done| |done].
      intros e0 [->|?]%elem_of_cons; [done|by apply Hnone].
Qed.

Lemma getitem_insert_ne (e : entry) k k' v :
  k' ≠ k → TableIO.getitem (<[k' := v]> e) k = TableIO.getitem e k.
Proof. intros. unfold TableIO.getitem. by rewrite lookup_insert_ne. Qed.

Lemma getitem_insert_eq (e : entry) k v :
  TableIO.getitem (<[k := v]> e) k = ok v.
Proof. unfold TableIO.getitem. by rewrite lookup_insert_eq. Qed.

Lemma mapM_ext {A B} (f g : A → result B) (l : list A) :
  (∀ x, x ∈ l → f x = g x) → mapM f l = mapM g l.
Proof.
  induction l as [|x l IH]; intros H; [done|]. cbn [mapM].
  rewrite (H x) by by left. rewrite IH; [done|]. intros ??. apply H. by right.
Qed.

(** A line of the passwd or group text does not depend on attributes that
    are not columns of the text. *)
Lemma line_of_entry_insert (attrs : list string) (e : entry) k v :
  k ∉ attrs → k ≠ "grouplist" →
  TableIO.line_of_entry attrs (<[k := v]> e) = TableIO.line_of_entry attrs e.
Proof.
  intros Hk Hgl. unfold TableIO.line_of_entry.
  assert (Hfields : ∀ e0 : entry,
    mapM (λ attr, let? v := TableIO.getitem (<[k := v]> e0) attr in TableIO.as_str v) attrs
    = mapM (λ attr, let? v := TableIO.getitem e0 attr in TableIO.as_str v) attrs).
  { intros e0. apply mapM_ext. intros a Ha. rewrite getitem_insert_ne; [done|].
    by intros ->. }
  destruct (str_in "grouplist" attrs).
  - rewrite getitem_insert_ne by done.
    destruct (TableIO.getitem e "grouplist") as [x|g]; cbn [rbind]; [done|].
    rewrite (insert_insert_ne e) by done. by rewrite Hfields.
  - cbn [rbind]. by rewrite Hfields.
Qed.

Lemma to_string_deactivated attrs (pre post : table) (e : entry) :
  "status" ∉ attrs →
  TableIO.to_string attrs (pre ++ <["status" := YStr "deactivated"]> e :: post)
  = TableIO.to_string attrs (pre ++ e :: post).
Proof.
  intros Hs. unfold TableIO.to_string. f_equal.
  induction pre as [|e0 pre IH]; cbn [app mapM].
  - by rewrite line_of_entry_insert.
  - by rewrite IH.
Qed.

Lemma groups_of_deactivated u (pre post : table) (e : entry) :
  Groups.groups_of u (pre ++ <["status" := YStr "deactivated"]> e :: post)
  = Groups.groups_of u (pre ++ e :: post).
Proof.
  induction pre as [|e0 pre IH]; cbn [app Groups.groups_of].
  - by rewrite !getitem_insert_ne.
  - by rewrite IH.
Qed.

Lemma elem_of_split {A} (x : A) (l : list A) :
  x ∈ l → ∃ pre post, l = pre ++ x :: post.
Proof. intros (pre & post & ->)%list_elem_of_split. by exists pre, post. Qed.

(** X5.  When [delete_group(g)] returns for a group that has an entry,
    [group_active(g)] is False afterwards, while the text of /etc/group
    and the groups of every user are what they were: the entry and its
    members stay. *)
Theorem delete_group_effect (g : string) (tbl tbl' : table) :
  Groups.delete_group g tbl = (ok tt, tbl') →
  (∃ e, e ∈ tbl ∧ e !! "groupname" = Some (YStr g)) →
  Groups.group_active g tbl' = (ok false, tbl')
  ∧ Groups.get_etc_group_string tbl' = ((Groups.get_etc_group_string tbl).1, tbl')
  ∧ ∀ u, Groups.get_groups_of_user u tbl'
         = ((Groups.get_groups_of_user u tbl).1, tbl').
Proof.
  unfold Groups.delete_group. intros H (e0 & Hin & Hname).
  run_step H as fd s1 Hfd. injection Hfd as <- <-.
  run_step H as fd' s2 Hd. apply lift_ok in Hd as [Hd ->]. injection H as <-.
  apply deactivate_first_split in Hd
    as [[_ Hnone]|(pre & e & post & -> & -> & Hnone & He)].
  { destruct (Hnone e0 Hin) as (x & Hx & Hne). congruence. }
  split; [|split].
  - unfold Groups.group_active, bind, TableIO.load_yaml, lift.
    rewrite (find_entry_app _ _ pre post _ Hnone); [|by rewrite lookup_insert_ne].
    by rewrite getitem_insert_eq.
  - unfold Groups.get_etc_group_string, TableIO.get_file_string, bind,
      TableIO.load_yaml, lift. cbn [fst].
    rewrite to_string_deactivated; [done|]. unfold Groups.str_attr.
    by apply not_elem_of_cons; split; [|apply (bool_decide_unpack _)].
  - intros u. unfold Groups.get_groups_of_user, bind, TableIO.load_yaml, lift.
    cbn [fst]. by rewrite groups_of_deactivated.
Qed.

Lemma delete_group_effect_witness :
  let a : entry :=
    {[ "groupname" := YStr "a"; "password" := YStr "x"; "gid" := YStr "60000";
       "grouplist" := YList ["bob"]; "status" := YStr "active" ]} in
  let a' : entry := <["status" := YStr "deactivated"]> a in
  Groups.delete_group "a" [a] = (ok tt, [a'])
  ∧ Groups.group_active "a" [a] = (ok true, [a])
  ∧ Groups.group_active "a" [a'] = (ok false, [a'])
  ∧ Groups.get_etc_group_string [a'] = (ok "a:x:60000:bob", [a'])
  ∧ Groups.get_groups_of_user "bob" [a'] = (ok [YStr "a"], [a']).
Proof.
  intros a a'.
  assert (Hrun : Groups.delete_group "a" [a] = (ok tt, [a'])) by reflexivity.
  assert (Hex : ∃ e, e ∈ [a] ∧ e !! "groupname" = Some (YStr "a")).
  { exists a. split; [by left|reflexivity]. }
  destruct (delete_group_effect "a" [a] [a'] Hrun Hex) as (Hact & Hetc & Hgroups).
  split; [exact Hrun|]. split; [reflexivity|]. split; [exact Hact|].
  split; [exact Hetc|]. exact (Hgroups "bob").
Defined.

(** *** Deactivated users *)

Lemma find_user_split id_type id (tbl : table) user :
  Users.find_user id_type id tbl = ok user →
  ∃ pre e post, tbl = pre ++ e :: post ∧ none_before id_type (YStr id) pre
                ∧ e !! id_type = Some (YStr id) ∧ Users.user_of_entry e = ok user.
Proof.
  induction tbl as [|e es IH]; cbn [Users.find_user]; [done|].
  destruct (TableIO.getitem e id_type) as [x|v] eqn:Hv; cbn [rbind]; [done|].
  apply getitem_ok in Hv. case_bool_decide as Hid.
  - intros Hu. subst v. exists [], e, es. split_and!; [done| |done|done].
    by intros ? ?%elem_of_nil.
  - intros (pre & e1 & post & -> & Hnone & He1 & Hu)%IH.
    exists (e :: pre), e1, post. split_and!; [done| |done|done].
    intros e0 [->|?]%elem_of_cons; [by exists v|by apply Hnone].
Qed.

Lemma find_user_app id_type id (pre post : table) (e : entry) :
  none_before id_type (YStr id) pre → e !! id_type = Some (YStr id) →
  Users.find_user id_type id (pre ++ e :: post) = Users.user_of_entry e.
Proof.
  intros Hpre He. induction pre as [|e0 pre IH]; cbn [app Users.find_user].
  - rewrite (getitem_Some _ _ _ He). cbn [rbind]. by rewrite bool_decide_eq_true_2.
  - destruct (Hpre e0) as (x & Hx & Hne); [by left|].
    rewrite (getitem_Some _ _ _ Hx). cbn [rbind].
    rewrite bool_decide_eq_false_2 by done.
    apply IH. intros e' ?. apply Hpre. by right.
Qed.

Ltac rbind_step H :=
  match type of H with
  | rbind ?r _ = ok _ =>
      let E := fresh "E" in
      destruct r eqn:E; cbn [rbind] in H |- *; [discriminate H|]
  end.

Lemma user_of_entry_deactivated (e : entry) user :
  Users.user_of_entry e = ok user →
  Users.user_of_entry (<["status" := YStr "deactivated"]> e)
  = ok {| Users.uuid := Users.uuid user; Users.ezid := Users.ezid user;
          Users.username := Users.username user;
          Users.password := Users.password user; Users.uid := Users.uid user;
          Users.gid := Users.gid user; Users.descr := Users.descr user;
          Users.home := Users.home user; Users.shell := Users.shell user;
          Users.status := "deactivated"; Users.usertype := Users.usertype user |}.
Proof.
  unfold Users.user_of_entry. intros H.
  rewrite !getitem_insert_ne by done. rewrite getitem_insert_eq.
  repeat rbind_step H. destruct p as [uid gid].
  repeat rbind_step H. by injection H as <-.
Qed.

(** [user_active] reads the status of the user [get_user_info] finds. *)
Lemma user_active_of id id_type (tbl : table) user :
  Users.get_user_info id id_type tbl = (ok user, tbl) →
  Users.user_active id id_type tbl
  = (ok (String.eqb (Users.status user) "active"), tbl).
Proof. intros H. unfold Users.user_active, bind. by rewrite H. Qed.

(** X6.  When [delete_user(id, id_type)] returns for a user that
    [get_user_info(id, id_type)] finds, and [id_type] is not ["status"],
    [get_user_info] finds the same user afterwards with status
    ["deactivated"] and nothing else changed, [user_active] is False, and
    the text of /etc/passwd is what it was. *)
Theorem delete_user_effect (id id_type : string) (tbl tbl' : table)
    (user : Users.User) :
  Users.delete_user id id_type tbl = (ok tt, tbl') →
  id_type ≠ "status" →
  Users.get_user_info id id_type tbl = (ok user, tbl) →
  Users.get_user_info id id_type tbl'
  = (ok {| Users.uuid := Users.uuid user; Users.ezid := Users.ezid user;
           Users.username := Users.username user;
           Users.password := Users.password user; Users.uid := Users.uid user;
           Users.gid := Users.gid user; Users.descr := Users.descr user;
           Users.home := Users.home user; Users.shell := Users.shell user;
           Users.status := "deactivated";
           Users.usertype := Users.usertype user |}, tbl')
  ∧ Users.user_active id id_type tbl' = (ok false, tbl')
  ∧ Users.get_etc_passwd_string tbl'
    = ((Users.get_etc_passwd_string tbl).1, tbl').
Proof.
  unfold Users.delete_user. intros H Hty Hinfo.
  run_step H as fd s1 Hfd. injection Hfd as <- <-.
  run_step H as fd' s2 Hd. apply lift_ok in Hd as [Hd ->]. injection H as <-.
  unfold Users.get_user_info, bind, TableIO.load_yaml, lift in Hinfo.
  injection Hinfo as Hinfo.
  apply find_user_split in Hinfo as (pre & e & post & -> & Hnone & He & Hu).
  rewrite (deactivate_first_app _ _ _ _ _ Hnone He) in Hd. injection Hd as <-.
  assert (Hinfo' : Users.get_user_info id id_type
                     (pre ++ <["status" := YStr "deactivated"]> e :: post)
                   = (Users.user_of_entry (<["status" := YStr "deactivated"]> e),
                      pre ++ <["status" := YStr "deactivated"]> e :: post)).
  { unfold Users.get_user_info, bind, TableIO.load_yaml, lift.
    rewrite find_user_app; [done|done|]. by rewrite lookup_insert_ne. }
  rewrite (user_of_entry_deactivated _ _ Hu) in Hinfo'.
  split; [done|]. split.
  - by rewrite (user_active_of _ _ _ _ Hinfo').
  - unfold Users.get_etc_passwd_string, TableIO.get_file_string, bind,
      TableIO.load_yaml, lift. cbn [fst].
    rewrite to_string_deactivated; [done|]. unfold Users.str_attr.
    apply (bool_decide_unpack _). vm_compute. exact I.
Qed.


Lemma delete_user_effect_witness :
  let alice : entry :=
    {[ "username" := YStr "alice"; "password" := YStr "x"; "uid" := YStr "1001";
       "gid" := YStr "1001"; "descr" := YStr ""; "home" := YStr "/home/alice";
       "shell" := YStr "/bin/bash";
       "uuid" := YStr "11111111-1111-1111-1111-111111111111";
       "ezid" := YStr "alice"; "status" := YStr "active";
       "usertype" := YStr "individual" ]} in
  let alice' : entry := <["status" := YStr "deactivated"]> alice in
  Users.delete_user "alice" "username" [alice] = (ok tt, [alice'])
  ∧ Users.user_active "alice" "username" [alice] = (ok true, [alice])
  ∧ Users.user_active "alice" "username" [alice'] = (ok false, [alice'])
  ∧ Users.get_etc_passwd_string [alice']
    = (ok "alice:x:1001:1001::/home/alice:/bin/bash", [alice']).
Proof.
  intros alice alice'.
  pose (user := {| Users.uuid := "11111111-1111-1111-1111-111111111111";
                   Users.ezid := "alice"; Users.username := "alice";
                   Users.password := YStr "x"; Users.uid := PyInt 1001;
                   Users.gid := PyInt 1001; Users.descr := YStr "";
                   Users.home := YStr "/home/alice";
                   Users.shell := YStr "/bin/bash"; Users.status := "active";
                   Users.usertype := "individual" |}).
  assert (Hrun : Users.delete_user "alice" "username" [alice] = (ok tt, [alice']))
    by reflexivity.
  assert (Hinfo : Users.get_user_info "alice" "username" [alice] = (ok user, [alice]))
    by reflexivity.
  assert (Hty : "username" ≠ "status") by discriminate.
  destruct (delete_user_effect "alice" "username" [alice] [alice'] user Hrun Hty Hinfo)
    as (_ & Hact & Hetc).
  split; [exact Hrun|]. split; [reflexivity|]. split; [exact Hact|]. exact Hetc.
Defined.

(** *** What [create_new_group] writes *)

Tactic Notation "try_step" hyp(H) "as" simple_intropattern(p) ident(Hp) :=
  match type of H with
  | bind ?m ?k ?s = _ =>
      rewrite (bind_readonly m k s) in H by eauto 20 with readonly;
      destruct (m s).1 as [?|p] eqn:Hp; [failed H|]
  end.

Lemma create_new_group_outcome w t gname gid ut ex (tbl tbl' : table) r :
  Groups.create_new_group w t gname gid ut ex tbl = (r, tbl') →
  (∃ e, r = inl e ∧ tbl' = tbl)
  ∨ (∃ grp, r = ok grp ∧ tbl' = tbl ++ [Groups.group_dict grp]
       ∧ Groups.teamname grp = t
       ∧ Groups.usertype grp = ut
       ∧ Groups.status grp = "active"
       ∧ Groups.password grp = YStr "x"
       ∧ Groups.grouplist grp = YList []
       ∧ Types.is_valid (PyStr (Groups.groupname grp)) = true
       ∧ Types.UserType (PyStr ut) = ok ut
       ∧ (ut = "individual" →
          ∃ z, Groups.gid grp = PyInt z
               ∧ (Types.min_id Types.UserGid ≤ z ≤ Types.max_id Types.UserGid)%Z)
       ∧ (ut = "group" →
          ∃ z, Groups.gid grp = PyInt z
               ∧ (Types.min_id Types.GroupGid ≤ z ≤ Types.max_id Types.GroupGid)%Z)
       ∧ (∀ g, gid = Some g → Groups.gid grp = PyInt g)
       ∧ ∃ col, (Some <$> col) = (λ e : entry, e !! "teamname") <$> tbl
                ∧ YStr t ∉ col).
Proof.
  unfold Groups.create_new_group. intros H.
  try_step H as fd Hfd. clear fd Hfd.
  destruct (Groups.team_exist t tbl) as [r1 s1] eqn:Hteam.
  try_step H as ex_ Hex_. rewrite Hteam in Hex_. cbn in Hex_. subst r1.
  destruct ex_; [failed H|].
  assert (Hnone : ∃ col, (Some <$> col) = (λ e : entry, e !! "teamname") <$> tbl
                        ∧ YStr t ∉ col).
  { unfold Groups.team_exist, Groups.load_all_teamnames in Hteam.
    run_step Hteam as col s2 Hcol. apply ret_ok in Hteam as [Hteam _].
    exists col. split; [by eapply column_elem|].
    intros ?%in_column_true. congruence. }
  try_step H as g Hg.
  try_step H as gid1 Hgid1. try_step H as gid2 Hgid2. try_step H as gid3 Hgid3.
  try_step H as status Hstatus. try_step H as ut' Hut. try_step H as g' Hname.
  cbn in Hstatus. injection Hstatus as <-.
  cbn [lift fst] in Hut. pose proof Hut as Hut'. apply UserType_ok in Hut' as ->.
  cbn [lift fst] in Hname. apply UbuntuName_ok in Hname as [-> Hvalid].
  cbv [bind TableIO.load_yaml TableIO.write_yaml ret] in H. injection H as <- <-.
  right. eexists. split; [done|]. cbn [Groups.teamname Groups.usertype
    Groups.status Groups.password Groups.grouplist Groups.groupname Groups.gid].
  split_and!; try done.
  - intros ->. cbn in Hgid2, Hgid3. injection Hgid3 as <-.
    destruct (Types.RangedId Types.UserGid (Users.int_arg gid1)) as [?|z] eqn:Hz;
      [done|].
    cbn in Hgid2. injection Hgid2 as <-. apply RangedId_ok in Hz as [_ Hz].
    by exists z.
  - intros ->. cbn in Hgid2, Hgid3. injection Hgid2 as <-.
    destruct (Types.RangedId Types.GroupGid (Users.int_arg gid1)) as [?|z] eqn:Hz;
      [done|].
    cbn in Hgid3. injection Hgid3 as <-. apply RangedId_ok in Hz as [_ Hz].
    by exists z.
  - intros g0 ->.
    assert (gid1 = Some g0) as ->.
    { revert Hgid1. unfold bind. destruct (Groups.gid_exist g0 tbl) as [[?|[]] ?];
        cbn; congruence. }
    assert (gid2 = PyInt g0) as ->.
    { revert Hgid2. destruct (ut =? "individual"); cbn; [|congruence].
      destruct (Types.RangedId Types.UserGid (PyInt g0)) as [?|z] eqn:Hz; [done|].
      apply RangedId_ok in Hz as [[= <-] _]. cbn. congruence. }
    revert Hgid3. destruct (ut =? "group"); cbn; [|congruence].
    destruct (Types.RangedId Types.GroupGid (PyInt g0)) as [?|z] eqn:Hz; [done|].
    apply RangedId_ok in Hz as [[= <-] _]. cbn. congruence.
Qed.

Lemma is_valid_UbuntuName (s : string) :
  Types.is_valid (PyStr s) = true → Types.UbuntuName (PyStr s) = ok s.
Proof. intros H. unfold Types.UbuntuName. by rewrite H. Qed.

Lemma RangedId_in_range cls z :
  (Types.min_id cls ≤ z ≤ Types.max_id cls)%Z →
  Types.RangedId cls (PyInt z) = ok z.
Proof.
  intros Hz. unfold Types.RangedId, Types.validate. cbn [Types.as_int].
  destruct (Z.ltb_spec z (Types.min_id cls)); [lia|]. rewrite Z.gtb_ltb.
  destruct (Z.ltb_spec (Types.max_id cls) z); [lia|]. done.
Qed.

Lemma min_id_nonneg cls : (0 ≤ Types.min_id cls)%Z.
Proof. by destruct cls. Qed.

Lemma int_of_Z z : (0 ≤ z)%Z → TableIO.int (YStr (Str.of_Z z)) = ok z.
Proof. intros Hz. unfold TableIO.int. by rewrite to_Z_of_Z. Qed.

Lemma team_exist_of t (tbl : table) (col : list yval) :
  (Some <$> col) = (λ e : entry, e !! "teamname") <$> tbl →
  Groups.team_exist t tbl = (ok (Users.in_column t col), tbl).
Proof.
  intros Hcol. unfold Groups.team_exist, Groups.load_all_teamnames, bind.
  by rewrite (column_of_fmap _ _ _ Hcol).
Qed.

(** Reading back the entry written for a group of type ["individual"] or
    ["group"]. *)
Lemma group_of_entry_dict (grp : Groups.Group) z cls :
  Types.TeamName (PyStr (Groups.teamname grp)) = ok (Groups.teamname grp) →
  Types.is_valid (PyStr (Groups.groupname grp)) = true →
  Groups.password grp = YStr "x" → Groups.grouplist grp = YList [] →
  Groups.status grp = "active" →
  (Groups.usertype grp = "individual" ∧ cls = Types.UserGid
   ∨ Groups.usertype grp = "group" ∧ cls = Types.GroupGid) →
  Groups.gid grp = PyInt z → (Types.min_id cls ≤ z ≤ Types.max_id cls)%Z →
  Groups.group_of_entry (Groups.group_dict grp) = ok grp.
Proof.
  destruct grp as [t g pw gid gl st ut]. cbn [Groups.teamname Groups.groupname
    Groups.password Groups.grouplist Groups.status Groups.usertype Groups.gid].
  intros Ht Hg -> -> -> Hut -> Hz.
  pose proof (min_id_nonneg cls).
  unfold Groups.group_of_entry, Groups.group_dict.
  cbn [Groups.teamname Groups.groupname
    Groups.password Groups.grouplist Groups.status Groups.usertype Groups.gid].
  repeat (rewrite ?getitem_insert_eq; rewrite ?getitem_insert_ne by done).
  cbn [rbind TableIO.to_py]. rewrite Ht. cbn [rbind].
  rewrite (is_valid_UbuntuName _ Hg). cbn [rbind].
  rewrite int_of_Z by lia. cbn [rbind].
  destruct Hut as [[-> ->]|[-> ->]].
  - rewrite bool_decide_eq_true_2 by done. rewrite RangedId_in_range by done. done.
  - rewrite bool_decide_eq_false_2 by done. rewrite bool_decide_eq_true_2 by done.
    rewrite RangedId_in_range by done. done.
Qed.

(** X7.  The group [create_new_group] returns for a sanitised team name
    and user type ["individual"] or ["group"] is the group
    [get_group_info] returns for that team name afterwards: the call
    appended one entry, left the others alone, and a second
    [create_new_group] for the team raises RuntimeError without writing. *)
Theorem create_new_group_round_trip (w : world) (t : string)
    (gname : option string) (gid : option Z) (ut : string) (ex : list string)
    (tbl tbl' : table) (grp : Groups.Group) :
  Groups.create_new_group w t gname gid ut ex tbl = (ok grp, tbl') →
  Types.TeamName (PyStr t) = ok t →
  ut = "individual" ∨ ut = "group" →
  tbl' = tbl ++ [Groups.group_dict grp]
  ∧ Groups.get_group_info t "teamname" tbl' = (ok grp, tbl')
  ∧ ∀ w' gname' gid' ut' ex',
      Groups.create_new_group w' t gname' gid' ut' ex' tbl'
      = (raise RuntimeError (MsgTeamExists t), tbl').
Proof.
  intros H Ht Hut.
  apply create_new_group_outcome in H as [(e & He & _)|(grp' & [= <-] & -> &
    Hteam & Htype & Hstatus & Hpw & Hgl & Hvalid & _ & Hind & Hgrp & _ &
    col & Hcol & Hnone)]; [done|].
  split; [done|].
  assert (Hd : Groups.group_dict grp !! "teamname" = Some (YStr t)).
  { unfold Groups.group_dict. rewrite !lookup_insert_ne by done.
    by rewrite lookup_insert_eq, Hteam. }
  split.
  - apply (get_group_info_of _ _ _ (Groups.group_dict grp)).
    { by apply (find_entry_last _ _ _ col). }
    destruct Hut as [-> | ->].
    + destruct (Hind eq_refl) as (z & Hz & Hrange).
      apply (group_of_entry_dict grp z Types.UserGid); auto. by rewrite Hteam.
    + destruct (Hgrp eq_refl) as (z & Hz & Hrange).
      apply (group_of_entry_dict grp z Types.GroupGid); auto. by rewrite Hteam.
  - intros w' gname' gid' ut' ex'. unfold Groups.create_new_group.
    unfold bind at 1. cbn [TableIO.load_yaml].
    unfold bind at 1.
    rewrite (team_exist_of t _ (col ++ [YStr t])).
    + unfold Users.in_column. rewrite bool_decide_eq_true_2; [done|].
      apply elem_of_app. right. by left.
    + rewrite !fmap_app, Hcol. cbn. by rewrite Hd.
Qed.

Lemma create_new_group_round_trip_witness :
  let grp := {| Groups.teamname := "team"; Groups.groupname := "team";
                Groups.password := YStr "x"; Groups.gid := PyInt 60000;
                Groups.grouplist := YList []; Groups.status := "active";
                Groups.usertype := "group" |} in
  Groups.create_new_group Fresh.env "team" None None "group" [] []
  = (ok grp, [Groups.group_dict grp])
  ∧ Groups.get_group_info "team" "teamname" [Groups.group_dict grp]
    = (ok grp, [Groups.group_dict grp])
  ∧ Groups.create_new_group Fresh.env "team" (Some "other") None "group" []
      [Groups.group_dict grp]
    = (raise RuntimeError (MsgTeamExists "team"), [Groups.group_dict grp]).
Proof.
  intros grp.
  assert (Hrun : Groups.create_new_group Fresh.env "team" None None "group" [] []
                 = (ok grp, [Groups.group_dict grp])) by reflexivity.
  destruct (create_new_group_round_trip Fresh.env "team" None None "group" [] []
              [Groups.group_dict grp] grp Hrun eq_refl (or_intror eq_refl))
    as (_ & Hinfo & Hagain).
  split; [exact Hrun|]. split; [exact Hinfo|]. apply Hagain.
Defined.

(** *** What [add_user] writes *)

Lemma user_exist_uuid id :
  Users.user_exist id "uuid"
  = (let! all_uuids := Users.load_all_uuids in ret (Users.in_column id all_uuids)).
Proof. reflexivity. Qed.

Lemma add_user_result w uuid ezid username uid gid home ut names
    (tbl tbl' : table) r :
  Users.add_user w uuid ezid username uid gid home ut names tbl = (r, tbl') →
  (∃ e, r = inl e ∧ tbl' = tbl)
  ∨ (∃ user, r = ok user ∧ tbl' = tbl ++ [Users.user_dict user]
       ∧ Users.usertype user = ut
       ∧ Users.status user = "active"
       ∧ Users.password user = YStr "x"
       ∧ Users.descr user = YStr ""
       ∧ Users.shell user = YStr "/bin/bash"
       ∧ (∃ h, Users.home user = YStr h)
       ∧ Types.is_valid (PyStr (Users.username user)) = true
       ∧ Types.StsciEzid (PyStr ezid) = ok (Users.ezid user)
       ∧ match uuid with
         | Users.TypedUuid s => Users.uuid user = s
         | Users.PlainUuid s => Types.StsciUuid (PyStr s) = ok (Users.uuid user)
         end
       ∧ (ut = "individual" →
          ∃ u g, Users.uid user = PyInt u ∧ Users.gid user = PyInt g
             ∧ (Types.min_id Types.UserUid ≤ u ≤ Types.max_id Types.UserUid)%Z
             ∧ (Types.min_id Types.UserGid ≤ g ≤ Types.max_id Types.UserGid)%Z)
       ∧ (ut = "group" →
          ∃ u g, Users.uid user = PyInt u ∧ Users.gid user = PyInt g
             ∧ (Types.min_id Types.GroupAdminUid ≤ u
                ≤ Types.max_id Types.GroupAdminUid)%Z
             ∧ (Types.min_id Types.GroupGid ≤ g ≤ Types.max_id Types.GroupGid)%Z)
       ∧ (∀ n, username = Some n → Users.username user = n)
       ∧ ∃ col, (Some <$> col) = (λ e : entry, e !! "uuid") <$> tbl
                ∧ (YStr (Users.uuid_str uuid) ∉ col
                   ∨ Users.uuid_str uuid = Users.zero_uuid)).
Proof.
  unfold Users.add_user. intros H.
  try_step H as fd Hfd. clear fd Hfd.
  destruct (Users.user_exist (Users.uuid_str uuid) "uuid" tbl) as [r1 s1] eqn:Hexist.
  try_step H as ex_ Hex_. rewrite Hexist in Hex_. cbn in Hex_. subst r1.
  assert (Hcol : ∃ col, (Some <$> col) = (λ e : entry, e !! "uuid") <$> tbl
                        ∧ ex_ = Users.in_column (Users.uuid_str uuid) col).
  { rewrite user_exist_uuid in Hexist. unfold Users.load_all_uuids in Hexist.
    run_step Hexist as col s2 Hcol. apply ret_ok in Hexist as [Hexist _].
    exists col. split; [by eapply column_elem|done]. }
  destruct (ex_ && _) eqn:Hguard; [failed H|].
  destruct ((ezid =? "") && _); [failed H|].
  try_step H as username' Huser.
  try_step H as uid' Huid.
  try_step H as gid' Hgid.
  try_step H as name Hname.
  try_step H as uuid' Huuid.
  try_step H as ezid' Hezid. try_step H as status Hstatus. try_step H as ut' Hut.
  try_step H as [uid'' gid''] Hids.
  cbn in Hstatus. injection Hstatus as <-.
  cbn [lift fst] in Hut. pose proof Hut as Hut'. apply UserType_ok in Hut' as ->.
  cbn [lift fst] in Hname. apply UbuntuName_ok in Hname as [-> Hvalid].
  cbv [bind TableIO.load_yaml TableIO.write_yaml ret] in H. injection H as <- <-.
  destruct Hcol as (col & Hcol & ->).
  right. eexists. split; [done|].
  cbn [Users.uuid Users.ezid Users.username Users.password Users.uid Users.gid
       Users.descr Users.home Users.shell Users.status Users.usertype].
  split_and!; try done.
  - by eexists.
  - destruct uuid; cbv [lift ret fst] in Huuid; [done|by injection Huuid].
  - intros ->. revert Hids. cbv [bind lift ret fst]. cbn [String.eqb Ascii.eqb
      Bool.eqb].
    destruct (Types.RangedId Types.UserUid _) as [?|u] eqn:Hu; [done|].
    destruct (Types.RangedId Types.UserGid (Users.int_arg gid')) as [?|g] eqn:Hg;
      [done|].
    intros [= <- <-]. apply RangedId_ok in Hu as [_ Hu].
    apply RangedId_ok in Hg as [_ Hg]. by exists u, g.
  - intros ->. revert Hids. cbv [bind lift ret fst]. cbn [String.eqb Ascii.eqb
      Bool.eqb].
    destruct (Types.RangedId Types.GroupAdminUid _) as [?|u] eqn:Hu; [done|].
    destruct (Types.RangedId Types.GroupGid (Users.int_arg gid')) as [?|g] eqn:Hg;
      [done|].
    intros [= <- <-]. apply RangedId_ok in Hu as [_ Hu].
    apply RangedId_ok in Hg as [_ Hg]. by exists u, g.
  - intros n ->. by injection Huser.
  - exists col. split; [done|].
    apply andb_false_iff in Hguard as [Hno|Hzero].
    + left. intros ?%in_column_true. congruence.
    + right. apply negb_false_iff in Hzero. by apply String.eqb_eq.
Qed.

Lemma none_before_col key v (tbl : table) (col : list yval) :
  (Some <$> col) = (λ e : entry, e !! key) <$> tbl → v ∉ col →
  none_before key v tbl.
Proof.
  intros Hcol Hv e He.
  apply (list_elem_of_fmap_2 (λ e : entry, e !! key)) in He.
  rewrite <-Hcol in He. apply list_elem_of_fmap in He as (x & Hx & Hin).
  exists x. split; [done|]. by intros ->.
Qed.

(** Reading back the entry written for a user of type ["individual"] or
    ["group"]. *)
Lemma user_of_entry_dict (user : Users.User) u g ucls gcls h :
  Types.StsciUuid (PyStr (Users.uuid user)) = ok (Users.uuid user) →
  Types.StsciEzid (PyStr (Users.ezid user)) = ok (Users.ezid user) →
  Types.is_valid (PyStr (Users.username user)) = true →
  Users.password user = YStr "x" → Users.descr user = YStr "" →
  Users.shell user = YStr "/bin/bash" → Users.home user = YStr h →
  Users.status user = "active" →
  (Users.usertype user = "individual" ∧ ucls = Types.UserUid ∧ gcls = Types.UserGid
   ∨ Users.usertype user = "group" ∧ ucls = Types.GroupAdminUid
     ∧ gcls = Types.GroupGid) →
  Users.uid user = PyInt u → (Types.min_id ucls ≤ u ≤ Types.max_id ucls)%Z →
  Users.gid user = PyInt g → (Types.min_id gcls ≤ g ≤ Types.max_id gcls)%Z →
  Users.user_of_entry (Users.user_dict user) = ok user.
Proof.
  destruct user as [uuid ezid name pw uid gid descr home shell st ut].
  cbn [Users.uuid Users.ezid Users.username Users.password Users.uid Users.gid
       Users.descr Users.home Users.shell Users.status Users.usertype].
  intros Huuid Hezid Hname -> -> -> -> -> Hut -> Hu -> Hg.
  pose proof (min_id_nonneg ucls). pose proof (min_id_nonneg gcls).
  unfold Users.user_of_entry, Users.user_dict.
  cbn [Users.uuid Users.ezid Users.username Users.password Users.uid Users.gid
       Users.descr Users.home Users.shell Users.status Users.usertype].
  repeat (rewrite ?getitem_insert_eq; rewrite ?getitem_insert_ne by done).
  cbn [rbind TableIO.to_py]. rewrite Huuid. cbn [rbind]. rewrite Hezid.
  cbn [rbind]. rewrite (is_valid_UbuntuName _ Hname). cbn [rbind].
  rewrite !int_of_Z by lia.
  destruct Hut as [(-> & -> & ->)|(-> & -> & ->)].
  - rewrite bool_decide_eq_true_2 by done. cbn [rbind].
    rewrite !RangedId_in_range by done. done.
  - rewrite bool_decide_eq_false_2 by done. rewrite bool_decide_eq_true_2 by done.
    cbn [rbind]. rewrite !RangedId_in_range by done. done.
Qed.

(** X8.  The user [add_user] returns for a uuid in canonical form, other
    than the all-zero one, and user type ["individual"] or ["group"] is
    the user [get_user_info] returns for that uuid afterwards: the call
    appended one entry, left the others alone, and a second [add_user]
    with the uuid raises RuntimeError without writing. *)
Theorem add_user_round_trip (w : world) (uuid : Users.uuid_arg) (ezid : string)
    (username : option string) (uid gid : option Z) (home : option string)
    (ut : string) (names : list string) (tbl tbl' : table) (user : Users.User) :
  Users.add_user w uuid ezid username uid gid home ut names tbl = (ok user, tbl') →
  Types.StsciUuid (PyStr (Users.uuid_str uuid)) = ok (Users.uuid_str uuid) →
  Users.uuid_str uuid ≠ Users.zero_uuid →
  ut = "individual" ∨ ut = "group" →
  tbl' = tbl ++ [Users.user_dict user]
  ∧ Users.get_user_info (Users.uuid_str uuid) "uuid" tbl' = (ok user, tbl')
  ∧ ∀ w' ezid' username' uid' gid' home' ut' names',
      Users.add_user w' uuid ezid' username' uid' gid' home' ut' names' tbl'
      = (raise RuntimeError (MsgUserExists (Users.uuid_str uuid)), tbl').
Proof.
  intros H Hcanon Hzero Hut.
  apply add_user_result in H as [(e & He & _)|(user' & [= <-] & -> &
    Htype & Hstatus & Hpw & Hdescr & Hshell & [h Hhome] & Hvalid & Hezid & Huuid &
    Hind & Hgrp & _ & col & Hcol & Hnone)]; [done|].
  destruct Hnone as [Hnone|?]; [|done].
  assert (Hid : Users.uuid user = Users.uuid_str uuid).
  { destruct uuid as [s|s]; cbn [Users.uuid_str] in *; congruence. }
  assert (Hd : Users.user_dict user !! "uuid" = Some (YStr (Users.uuid_str uuid))).
  { unfold Users.user_dict. rewrite !lookup_insert_ne by done.
    by rewrite lookup_insert_eq, Hid. }
  split; [done|]. split.
  - unfold Users.get_user_info, bind, TableIO.load_yaml, lift.
    rewrite find_user_app; [|by eapply none_before_col|done].
    f_equal. apply UnicodeName_idemp in Hezid.
    destruct Hut as [-> | ->].
    + destruct (Hind eq_refl) as (u & g & Hu & Hg & Hur & Hgr).
      apply (user_of_entry_dict user u g Types.UserUid Types.UserGid h); auto;
        by rewrite Hid.
    + destruct (Hgrp eq_refl) as (u & g & Hu & Hg & Hur & Hgr).
      apply (user_of_entry_dict user u g Types.GroupAdminUid Types.GroupGid h);
        auto; by rewrite Hid.
  - intros w' ezid' username' uid' gid' home' ut' names'. unfold Users.add_user.
    unfold bind at 1. cbn [TableIO.load_yaml].
    unfold bind at 1. rewrite user_exist_uuid. unfold Users.load_all_uuids, bind.
    rewrite (column_of_fmap "uuid" _ (col ++ [YStr (Users.uuid_str uuid)])).
    + unfold ret, Users.in_column. rewrite bool_decide_eq_true_2.
      * apply String.eqb_neq in Hzero. by rewrite Hzero.
      * apply elem_of_app. right. by left.
    + rewrite !fmap_app, Hcol. cbn. by rewrite Hd.
Qed.

Lemma add_user_round_trip_witness :
  let id := "11111111-1111-1111-1111-111111111111" in
  let user := {| Users.uuid := id; Users.ezid := "alice";
                 Users.username := "alice"; Users.password := YStr "x";
                 Users.uid := PyInt 1000; Users.gid := PyInt 1000;
                 Users.descr := YStr ""; Users.home := YStr "/home/alice";
                 Users.shell := YStr "/bin/bash"; Users.status := "active";
                 Users.usertype := "individual" |} in
  Users.add_user Fresh.env (Users.TypedUuid id) "alice" None None None None
    "individual" [] []
  = (ok user, [Users.user_dict user])
  ∧ Users.get_user_info id "uuid" [Users.user_dict user]
    = (ok user, [Users.user_dict user])
  ∧ Users.add_user Fresh.env (Users.TypedUuid id) "alice" None None None None
      "individual" [] [Users.user_dict user]
    = (raise RuntimeError (MsgUserExists id), [Users.user_dict user]).
Proof.
  intros id user.
  assert (Hrun : Users.add_user Fresh.env (Users.TypedUuid id) "alice" None None
                   None None "individual" [] []
                 = (ok user, [Users.user_dict user])) by reflexivity.
  assert (Hcanon : Types.StsciUuid (PyStr id) = ok id) by reflexivity.
  assert (Hzero : id ≠ Users.zero_uuid) by discriminate.
  destruct (add_user_round_trip Fresh.env (Users.TypedUuid id) "alice" None None
              None None "individual" [] [] [Users.user_dict user] user
              Hrun Hcanon Hzero (or_introl eq_refl))
    as (_ & Hinfo & Hagain).
  split; [exact Hrun|]. split; [exact Hinfo|]. apply Hagain.
Defined.

(** *** What a spawn never touches *)

Lemma extends_refl s : extends s s.
Proof.
  split; [exists []; by rewrite app_nil_r|].
  exists (Main.groups s), []. rewrite app_nil_r. split; [done|].
  apply Forall2_same, kin_refl.
Qed.

Lemma extends_trans s1 s2 s3 : extends s1 s2 → extends s2 s3 → extends s1 s3.
Proof.
  intros [[x1 Hu1] (t1 & y1 & Hg1 & Hk1)] [[x2 Hu2] (t2 & y2 & Hg2 & Hk2)].
  split.
  - exists (x1 ++ x2). by rewrite Hu2, Hu1, app_assoc.
  - rewrite Hg1 in Hk2.
    apply Forall2_app_inv_l in Hk2 as (t2a & t2b & Ha & Hb & ->).
    exists t2a, (t2b ++ y2). split; [by rewrite Hg2, app_assoc|].
    eapply Forall2_trans'; [apply kin_trans|done..].
Qed.

Create HintDb keeps discriminated.

Lemma keeps_readonly {A} (m : St Main.store A) : readonly m → keeps m.
Proof. intros Hm s. rewrite Hm. apply extends_refl. Qed.

Lemma keeps_ret {A} (a : A) : keeps (ret a).
Proof. intros s. apply extends_refl. Qed.
Lemma keeps_throw {A} c msg : keeps (@throw _ A c msg).
Proof. intros s. apply extends_refl. Qed.
Lemma keeps_lift {A} (r : result A) : keeps (lift r).
Proof. intros s. apply extends_refl. Qed.
Lemma keeps_bind {A B} (m : St Main.store A) (k : A → St Main.store B) :
  keeps m → (∀ a, keeps (k a)) → keeps (bind m k).
Proof.
  intros Hm Hk s. unfold bind. specialize (Hm s).
  destruct (m s) as [[e|a] s1]; cbn in *; [done|].
  eapply extends_trans; [done|apply Hk].
Qed.
Lemma keeps_for_each {A} (xs : list A) (body : A → St Main.store unit) :
  (∀ x, keeps (body x)) → keeps (for_each xs body).
Proof.
  intros Hb. induction xs as [|x xs IH]; cbn [for_each]; [apply keeps_ret|].
  apply keeps_bind; [done|]. by intros _.
Qed.
Lemma keeps_in_users {A} (m : St table A) : appends m → keeps (Main.in_users m).
Proof.
  intros Hm s. unfold Main.in_users. specialize (Hm (Main.users s)).
  destruct (m (Main.users s)) as [r t]. cbn in *. split; [done|].
  exists (Main.groups s), []. rewrite app_nil_r. split; [done|].
  apply Forall2_same, kin_refl.
Qed.
Lemma keeps_in_groups {A} (m : St table A) : revises m → keeps (Main.in_groups m).
Proof.
  intros Hm s. unfold Main.in_groups. specialize (Hm (Main.groups s)).
  destruct (m (Main.groups s)) as [r t]. cbn in *. split; [|done].
  exists []. by rewrite app_nil_r.
Qed.
Lemma keeps_fresh_uuid w : keeps (Main.fresh_uuid w).
Proof.
  intros s. split; cbn; [exists []; by rewrite app_nil_r|].
  exists (Main.groups s), []. rewrite app_nil_r. split; [done|].
  apply Forall2_same, kin_refl.
Qed.

Lemma appends_readonly {A} (m : St table A) : readonly m → appends m.
Proof. intros Hm tbl. exists []. by rewrite Hm, app_nil_r. Qed.
Lemma revises_readonly {A} (m : St table A) : readonly m → revises m.
Proof.
  intros Hm tbl. exists tbl, []. rewrite Hm, app_nil_r. split; [done|].
  apply Forall2_same, kin_refl.
Qed.

Lemma appends_add_user w uuid ezid username uid gid home ut names :
  appends (Users.add_user w uuid ezid username uid gid home ut names).
Proof.
  intros tbl.
  destruct (Users.add_user w uuid ezid username uid gid home ut names tbl)
    as [r tbl'] eqn:H.
  apply add_user_result in H as [(e & _ & ->)|(user & _ & -> & _)]; cbn.
  - exists []. by rewrite app_nil_r.
  - by eexists.
Qed.

Lemma revises_create_new_group w t gname gid ut ex :
  revises (Groups.create_new_group w t gname gid ut ex).
Proof.
  intros tbl.
  destruct (Groups.create_new_group w t gname gid ut ex tbl) as [r tbl'] eqn:H.
  apply create_new_group_outcome in H as [(e & _ & ->)|(grp & _ & -> & _)]; cbn.
  - exists tbl, []. rewrite app_nil_r. split; [done|]. apply Forall2_same, kin_refl.
  - eexists tbl, _. split; [done|]. apply Forall2_same, kin_refl.
Qed.

Lemma revises_add_user_to_group u g : revises (Groups.add_user_to_group u g).
Proof.
  intros tbl. unfold Groups.add_user_to_group.
  rewrite bind_readonly by eauto with readonly. cbn [TableIO.load_yaml fst].
  rewrite bind_readonly by eauto with readonly.
  destruct (Groups.group_exist g tbl).1 as [?|[]]; cbn [negb];
    try (exists tbl, []; rewrite app_nil_r; split; [done|];
         apply Forall2_same, kin_refl).
  unfold bind, lift.
  destruct (Groups.append_member u g tbl) as [?|tbl'] eqn:Happ; cbn.
  - exists tbl, []; rewrite app_nil_r; split; [done|].
    apply Forall2_same, kin_refl.
  - exists tbl', []. rewrite app_nil_r. split; [done|].
    by apply Forall2_gains_kin, (append_member_gains u g).
Qed.

Lemma revises_remove_user_from_group u g :
  revises (Groups.remove_user_from_group u g).
Proof.
  intros tbl. unfold Groups.remove_user_from_group.
  rewrite bind_readonly by eauto with readonly. cbn [TableIO.load_yaml fst].
  rewrite bind_readonly by eauto with readonly.
  destruct (Groups.group_exist g tbl).1 as [?|[]]; cbn [negb];
    try (exists tbl, []; rewrite app_nil_r; split; [done|];
         apply Forall2_same, kin_refl).
  unfold bind, lift.
  destruct (Groups.drop_member u g tbl) as [?|tbl'] eqn:Hdrop; cbn.
  - exists tbl, []; rewrite app_nil_r; split; [done|].
    apply Forall2_same, kin_refl.
  - exists tbl', []. rewrite app_nil_r. split; [done|].
    apply (Forall2_loses_kin u []), (drop_member_loses u g); [|done].
    apply not_elem_of_nil.
Qed.

#[local] Hint Resolve keeps_ret keeps_throw keeps_lift keeps_bind keeps_for_each
  keeps_in_users keeps_in_groups keeps_fresh_uuid appends_add_user
  revises_create_new_group revises_add_user_to_group
  revises_remove_user_from_group : keeps.
#[local] Hint Extern 2 (appends _) =>
  (apply appends_readonly; solve [eauto 20 with readonly]) : keeps.
#[local] Hint Extern 2 (revises _) =>
  (apply revises_readonly; solve [eauto 20 with readonly]) : keeps.
#[local] Hint Extern 3 (keeps (match ?x with _ => _ end)) => destruct x : keeps.
#[local] Hint Extern 3 (keeps (let '(_, _) := ?x in _)) => destruct x : keeps.

Tactic Notation "keeping" reference(f) :=
  intros; unfold f; eauto 60 with keeps.

Lemma keeps_all_names : keeps Main.all_names.
Proof. apply keeps_readonly, readonly_all_names. Qed.
Lemma keeps_add_member u g : keeps (Main.add_member u g).
Proof. keeping Main.add_member. Qed.
Lemma keeps_remove_member u g : keeps (Main.remove_member u g).
Proof. keeping Main.remove_member. Qed.
#[local] Hint Resolve keeps_all_names keeps_add_member keeps_remove_member : keeps.

Lemma keeps_create_or_fetch_user w uuid ezid :
  keeps (Main.create_or_fetch_user w uuid ezid).
Proof. keeping Main.create_or_fetch_user. Qed.
Lemma keeps_create_or_fetch_group w u t :
  keeps (Main.create_or_fetch_group w u t).
Proof. keeping Main.create_or_fetch_group. Qed.
Lemma keeps_teamnames_to_groupnames ts :
  keeps (Main.teamnames_to_groupnames ts).
Proof.
  unfold Main.teamnames_to_groupnames.
  induction ts as [|t ts IH]; eauto 10 with keeps.
Qed.
#[local] Hint Resolve keeps_create_or_fetch_user keeps_create_or_fetch_group
  keeps_teamnames_to_groupnames : keeps.

Lemma keeps_remove_obsolete u ts :
  keeps (Main.remove_obsolete_group_memberships u ts).
Proof. keeping Main.remove_obsolete_group_memberships. Qed.
#[local] Hint Resolve keeps_remove_obsolete : keeps.

Lemma keeps_lookup_all (gs : list yval) :
  keeps
    ((fix go (gs : list yval) : St Main.store (list Z) :=
        match gs with
        | [] => ret []
        | g :: gs' =>
            let! z := Main.in_groups (Groups.lookup_gid g "groupname") in
            let! zs := go gs' in ret (z :: zs)
        end) gs).
Proof. apply keeps_readonly, readonly_lookup_all. Qed.
#[local] Hint Resolve keeps_lookup_all : keeps.

Lemma keeps_locked w uuid ezid active teams :
  keeps (Main._locked_get_spawn_info w uuid ezid active teams).
Proof. keeping Main._locked_get_spawn_info. Qed.

(** X9.  Whatever its outcome, [get_spawn_info] leaves every user entry
    as it was and in place, changes nothing of a group entry but its
    member list, and otherwise only appends entries: no name, uid or gid
    that the registry holds is changed or dropped. *)
Theorem get_spawn_info_keeps_entries (w : world) (uuid ezid active_team : pyval)
    (teams : list pyval) (s : Main.store) :
  extends s (Main.get_spawn_info w uuid ezid active_team teams s).2.
Proof.
  revert s. change (keeps (Main.get_spawn_info w uuid ezid active_team teams)).
  unfold Main.get_spawn_info.
  repeat (apply keeps_bind; [apply keeps_lift|intros ?]).
  apply keeps_locked.
Qed.

(** *** A user keeps uid and name *)

(** The entry of the user a spawn created or fetched. *)
Lemma user_of_entry_name_uid (user : Users.User) u user2 :
  Users.usertype user = "individual" → Users.uid user = PyInt u → (0 ≤ u)%Z →
  Users.user_of_entry (Users.user_dict user) = ok user2 →
  Users.username user2 = Users.username user ∧ Users.uid user2 = Users.uid user.
Proof.
  destruct user as [uuid ezid name pw uid gid descr home shell st ut].
  cbn [Users.uid Users.usertype Users.username]. intros -> -> Hu.
  unfold Users.user_of_entry, Users.user_dict.
  cbn [Users.uuid Users.ezid Users.username Users.password Users.uid Users.gid
       Users.descr Users.home Users.shell Users.status Users.usertype].
  repeat (rewrite ?getitem_insert_eq; rewrite ?getitem_insert_ne by done).
  cbn [rbind TableIO.to_py]. rewrite bool_decide_eq_true_2 by done.
  intros H. repeat rbind_step H.
  match goal with Hn : Types.UbuntuName _ = ok _ |- _ =>
    apply UbuntuName_ok in Hn as [-> _] end.
  destruct p as [u' g']. repeat rbind_step H. injection H as <-.
  cbn [Users.username Users.uid]. split; [done|].
  rewrite int_of_Z in E2 by done. cbn [rbind] in E2.
  destruct (Types.RangedId Types.UserUid (PyInt u)) as [?|u0] eqn:Hu0; [done|].
  apply RangedId_ok in Hu0 as [[= <-] _]. cbn [rbind] in E2.
  repeat rbind_step E2. by injection E2 as <- _.
Qed.

Lemma find_user_prefix id_type id (pre post extra : table) (e : entry) :
  none_before id_type (YStr id) pre → e !! id_type = Some (YStr id) →
  Users.find_user id_type id ((pre ++ e :: post) ++ extra) = Users.user_of_entry e.
Proof. intros. rewrite <-app_assoc. cbn. by apply find_user_app. Qed.

(** The entry [create_or_fetch_user] leaves for the user it returns. *)
Lemma create_or_fetch_user_entry w uuid ezid s u uid sa :
  Main.create_or_fetch_user w uuid ezid s = (ok (u, uid), sa) →
  ∃ pre e post,
    Main.users sa = pre ++ e :: post
    ∧ none_before "uuid" (YStr uuid) pre ∧ e !! "uuid" = Some (YStr uuid)
    ∧ ∀ user2, Users.user_of_entry e = ok user2 →
        Users.username user2 = u ∧ Users.uid user2 = uid.
Proof.
  unfold Main.create_or_fetch_user. intros H.
  run_step H as ex s1 Hex. apply in_users_ok in Hex as (t1 & Hex & ->).
  apply (readonly_ok _ _ _ _ (readonly_user_exist uuid "uuid")) in Hex as Ht1.
  subst t1. destruct ex; cbn [negb] in H.
  - (* the user exists *)
    run_step H as user s2 Hinfo. apply in_users_ok in Hinfo as (t2 & Hinfo & ->).
    apply (readonly_ok _ _ _ _ (readonly_get_user_info uuid "uuid")) in Hinfo as Ht2.
    subst t2. run_step H as g s3 Hg. apply lift_ok in Hg as [_ ->].
    run_step H as grp s4 Hgrp. apply in_groups_ok in Hgrp as (t4 & _ & ->).
    apply ret_ok in H as [[= -> ->] ->]. cbn [Main.users].
    unfold Users.get_user_info, bind, TableIO.load_yaml, lift in Hinfo.
    injection Hinfo as Hinfo.
    apply find_user_split in Hinfo as (pre & e & post & Htbl & Hnone & He & Hu).
    exists pre, e, post. split_and!; [done..|].
    intros user2 Hu2. rewrite Hu in Hu2. by injection Hu2 as <-.
  - (* a new user *)
    run_step H as names s2 Hnames.
    apply (readonly_ok _ _ _ _ readonly_all_names) in Hnames as Hs2. subst s2.
    run_step H as user s3 Hadd. apply in_users_ok in Hadd as (t3 & Hadd & ->).
    run_step H as tn s4 Htn. apply lift_ok in Htn as [_ ->].
    run_step H as gn s5 Hgn. apply lift_ok in Hgn as [_ ->].
    run_step H as gid s6 Hgid. apply lift_ok in Hgid as [_ ->].
    run_step H as names' s7 Hnames'.
    apply (readonly_ok _ _ _ _ readonly_all_names) in Hnames' as Hs7. subst s7.
    run_step H as grp s8 Hgrp. apply in_groups_ok in Hgrp as (t8 & _ & ->).
    run_step H as un s9 Hun. apply lift_ok in Hun as [_ ->].
    run_step H as x s10 Hmem. destruct x.
    apply add_member_ok in Hmem as (Husers & _).
    apply ret_ok in H as [[= -> ->] ->]. rewrite Husers. cbn [Main.users].
    cbn [Main.users Main.groups Main.uuid4_calls] in *.
    pose proof Hadd as Hres.
    apply add_user_result in Hres as [(e & He & _)|(user' & [= <-] & -> &
      Htype & _ & _ & _ & _ & _ & _ & _ & _ & Hind & _ & _ & col & Hcol & _)];
      [done|].
    destruct (Hind eq_refl) as (z & g & Hz & _ & Hzr & _).
    assert (Hnone : YStr uuid ∉ col).
    { rewrite user_exist_uuid in Hex. unfold Users.load_all_uuids in Hex.
      run_step Hex as col' s' Hcol'. apply ret_ok in Hex as [Hex _].
      apply column_elem in Hcol'. rewrite <-Hcol in Hcol'.
      apply (inj (fmap Some)) in Hcol'. subst col'.
      intros ?%in_column_true. congruence. }
    exists (Main.users s), (Users.user_dict user), [].
    split_and!; [done|by eapply none_before_col| |].
    + unfold Users.user_dict. rewrite !lookup_insert_ne by done.
      rewrite lookup_insert_eq. f_equal. f_equal.
      apply add_user_result in Hadd as [(e & He & _)|(user' & [= <-] & _ &
        _ & _ & _ & _ & _ & _ & _ & _ & Huuid & _)]; done.
    + intros user2 Hu2.
      apply (user_of_entry_name_uid user z); [done|done| |done].
      cbn in Hzr. lia.
Qed.

Lemma lookup_all_spec (names : list yval) (s : Main.store) (gids : list Z) :
  ((fix go (gs : list yval) : St Main.store (list Z) :=
      match gs with
      | [] => ret []
      | g :: gs' =>
          let! z := Main.in_groups (Groups.lookup_gid g "groupname") in
          let! zs := go gs' in ret (z :: zs)
      end) names s).1 = ok gids →
  Forall2 (λ v z, Groups.lookup_gid v "groupname" (Main.groups s)
                  = (ok z, Main.groups s)) names gids.
Proof.
  revert gids. induction names as [|v names IH]; intros gids.
  { intros [= <-]. constructor. }
  rewrite bind_readonly by eauto with readonly.
  destruct (Main.in_groups (Groups.lookup_gid v "groupname") s).1 as [?|z] eqn:Hz;
    [done|].
  apply in_groups_read in Hz; [|eauto with readonly].
  rewrite bind_readonly by apply readonly_lookup_all.
  match goal with |- context [(?f names s).1] =>
    destruct (f names s).1 as [?|zs] eqn:Hzs end; [done|].
  intros [= <-]. constructor; [done|]. by apply IH.
Qed.

(** The steps of a spawn that returned. *)
Lemma locked_run w uuid ezid active teams s info s' :
  Main._locked_get_spawn_info w uuid ezid active teams s = (ok info, s') →
  ∃ s1 s2 own g_info names gids,
    Main.create_or_fetch_user w uuid ezid s
    = (ok (Main.username info, Main.uid info), s1)
    ∧ for_each teams (Main.create_or_fetch_group w (Main.username info)) s1
      = (ok tt, s2)
    ∧ Main.remove_obsolete_group_memberships (Main.username info) teams s2
      = (ok tt, s')
    ∧ Types.TeamName (PyStr ezid) = ok own
    ∧ str_in active (teams ++ [own]) = true
    ∧ Groups.get_group_info active "teamname" (Main.groups s')
      = (ok g_info, Main.groups s')
    ∧ Groups.get_groups_of_user (Main.username info) (Main.groups s')
      = (ok names, Main.groups s')
    ∧ Forall2 (λ v z, Groups.lookup_gid v "groupname" (Main.groups s')
                      = (ok z, Main.groups s')) names gids
    ∧ Main.all_user_gids info = merge_sort Z.le gids
    ∧ Main.gid info = Groups.gid g_info
    ∧ Main.groupname info = Groups.groupname g_info
    ∧ Users.get_etc_passwd_string (Main.users s')
      = (ok (Main.etc_passwd info), Main.users s')
    ∧ Groups.get_etc_group_string (Main.groups s')
      = (ok (Main.etc_group info), Main.groups s').
Proof.
  unfold Main._locked_get_spawn_info. intros H.
  run_step H as [u uid] s1 Huser. run_step H as [] s2 Hteams.
  run_step H as [] s3 Hobs.
  read_step H as own_team Hown_team. read_step H as g_info Hg_info.
  read_step H as member_of Hmember_of. read_step H as gids Hgids.
  read_step H as etc_passwd Hpasswd. read_step H as etc_group Hgroup.
  apply ret_ok in H as [-> ->].
  cbn [Main.username Main.uid Main.gid Main.all_user_gids Main.groupname
       Main.etc_passwd Main.etc_group].
  exists s1, s2, own_team, g_info, member_of, gids.
  destruct (str_in active (teams ++ [own_team])) eqn:Hin; [|done].
  apply in_groups_read in Hg_info; [|eauto with readonly].
  apply in_groups_read in Hmember_of; [|eauto with readonly].
  apply in_groups_read in Hgroup; [|eauto with readonly].
  apply lookup_all_spec in Hgids.
  split_and!; try done.
  unfold Main.in_users in Hpasswd.
  pose proof (readonly_get_etc_passwd_string (Main.users s3)) as Hr.
  destruct (Users.get_etc_passwd_string (Main.users s3)) as [r t].
  cbn in Hpasswd, Hr. by subst.
Qed.

(** X10.  A user keeps uid and user name: when [get_spawn_info] returns for
    a uuid and, on a later store (one that has the entries of the store
    the first call left, with others appended), returns again for that
    uuid, the second call returns the uid and the user name of the first,
    whatever the ezid and the teams of the two calls. *)
Theorem spawn_identity_stable (w : world) (uuid : pyval)
    (ezid active_team ezid2 active_team2 : pyval) (teams teams2 : list pyval)
    (s s1 s2 s3 : Main.store) (info info2 : Main.SpawnInfo) :
  Main.get_spawn_info w uuid ezid active_team teams s = (ok info, s1) →
  extends s1 s2 →
  Main.get_spawn_info w uuid ezid2 active_team2 teams2 s2 = (ok info2, s3) →
  Main.uid info2 = Main.uid info ∧ Main.username info2 = Main.username info.
Proof.
  unfold Main.get_spawn_info. intros H1 Hext H2.
  run_step H1 as uuid' x1 Huuid. apply lift_ok in Huuid as [Huuid ->].
  run_step H1 as ezid' x1 Hezid. apply lift_ok in Hezid as [_ ->].
  run_step H1 as active' x1 Hactive. apply lift_ok in Hactive as [_ ->].
  run_step H1 as teams' x1 Hteams. apply lift_ok in Hteams as [_ ->].
  run_step H2 as uuid2 x2 Huuid2. apply lift_ok in Huuid2 as [Huuid2 ->].
  rewrite Huuid in Huuid2. injection Huuid2 as <-.
  run_step H2 as ezid2' x2 Hezid2. apply lift_ok in Hezid2 as [_ ->].
  run_step H2 as active2' x2 Hactive2. apply lift_ok in Hactive2 as [_ ->].
  run_step H2 as teams2' x2 Hteams2. apply lift_ok in Hteams2 as [_ ->].
  assert (Hlater : ∃ sa, Main.create_or_fetch_user w uuid' ezid' s
                         = (ok (Main.username info, Main.uid info), sa)
                         ∧ extends sa s1).
  { pose proof (locked_run _ _ _ _ _ _ _ _ H1) as (sa & _ & _ & _ & _ & _ & Hcf & _).
    exists sa. split; [done|].
    unfold Main._locked_get_spawn_info in H1. unfold bind at 1 in H1.
    rewrite Hcf in H1.
    match type of H1 with ?K sa = _ =>
      assert (HK : keeps K) by eauto 60 with keeps; specialize (HK sa);
      by rewrite H1 in HK end. }
  destruct Hlater as (sa & Hcf & Hext1).
  apply create_or_fetch_user_entry in Hcf as (pre & e & post & Hsa & Hnone & He & Hsame).
  destruct (extends_trans _ _ _ Hext1 Hext) as [[extra Husers] _].
  rewrite Hsa in Husers.
  apply locked_run in H2 as (sb & _ & _ & _ & _ & _ & Hcf2 & _).
  unfold Main.create_or_fetch_user in Hcf2.
  run_step Hcf2 as ex y1 Hex. apply in_users_ok in Hex as (t1 & Hex & ->).
  assert (ex = true) as ->.
  { rewrite user_exist_uuid in Hex. unfold Users.load_all_uuids in Hex.
    run_step Hex as col y2 Hcol. apply ret_ok in Hex as [-> _].
    apply column_elem in Hcol. apply in_column_true.
    assert (Hin : Some (YStr uuid') ∈ Some <$> col).
    { rewrite Hcol. cbn [Main.users]. rewrite Husers, <-He.
      apply (list_elem_of_fmap_2 (λ e0 : entry, e0 !! "uuid")).
      apply elem_of_app. left. apply elem_of_app. right. by left. }
    by apply list_elem_of_fmap in Hin as (x & [= <-] & Hx). }
  cbn [negb] in Hcf2.
  run_step Hcf2 as user2 y2 Hinfo. apply in_users_ok in Hinfo as (t2 & Hinfo & ->).
  cbn [Main.users] in Hinfo.
  apply (readonly_ok _ _ _ _ (readonly_user_exist uuid' "uuid")) in Hex as Ht1.
  subst t1.
  unfold Users.get_user_info, bind, TableIO.load_yaml, lift in Hinfo.
  rewrite Husers, find_user_prefix in Hinfo by done.
  injection Hinfo as Hinfo _. apply Hsame in Hinfo as [Hn Hu].
  run_step Hcf2 as g y3 Hg. apply lift_ok in Hg as [_ ->].
  run_step Hcf2 as grp y4 Hgrp.
  apply ret_ok in Hcf2 as [[= -> ->] _]. done.
Qed.

Lemma spawn_identity_stable_witness :
  ∃ info info2 s3,
    Main.get_spawn_info Fresh.env
      (PyStr "11111111111111111111111111111111") (PyStr "user_1")
      (PyStr "A") [PyStr "A"; PyStr "D"] Fresh.in_abc = (ok info, Fresh.to_ad)
    ∧ extends Fresh.to_ad Fresh.to_ad
    ∧ Main.get_spawn_info Fresh.env
        (PyStr "11111111111111111111111111111111") (PyStr "somebody else")
        (PyStr "B") [PyStr "B"] Fresh.to_ad = (ok info2, s3)
    ∧ Main.uid info2 = Main.uid info ∧ Main.username info2 = Main.username info.
Proof.
  eassert (Hinfo : (Main.get_spawn_info Fresh.env
        (PyStr "11111111111111111111111111111111") (PyStr "user_1")
        (PyStr "A") [PyStr "A"; PyStr "D"] Fresh.in_abc).1 = ok _).
  { vm_compute; reflexivity. }
  pose proof (returned _ _ _ Hinfo) as Hcall. fold Fresh.to_ad in Hcall.
  eassert (Hinfo2 : (Main.get_spawn_info Fresh.env
        (PyStr "11111111111111111111111111111111") (PyStr "somebody else")
        (PyStr "B") [PyStr "B"] Fresh.to_ad).1 = ok _).
  { vm_compute; reflexivity. }
  pose proof (returned _ _ _ Hinfo2) as Hcall2.
  do 3 eexists. split; [exact Hcall|]. split; [apply extends_refl|].
  split; [exact Hcall2|].
  exact (spawn_identity_stable _ _ _ _ _ _ _ _ _ _ _ _ _ _ Hcall
           (extends_refl _) Hcall2).
Defined.

(** *** The active group of a spawn *)

Lemma group_of_entry_gid (e : entry) grp :
  Groups.group_of_entry e = ok grp →
  ∃ v z, e !! "gid" = Some v ∧ TableIO.int v = ok z ∧ Groups.gid grp = PyInt z.
Proof.
  unfold Groups.group_of_entry. intros H. repeat rbind_step H.
  injection H as <-. cbn [Groups.gid].
  match goal with Hg : TableIO.getitem e "gid" = ok ?v |- _ =>
    apply getitem_ok in Hg; exists v end.
  match goal with Hi : TableIO.int _ = ok ?z |- _ => exists z end.
  split; [done|]. split; [done|].
  repeat case_bool_decide; simplify_eq; try done;
    match goal with Hr : Types.RangedId _ _ = ok _ |- _ =>
      by apply RangedId_ok in Hr as [[= <-] _] end.
Qed.

Lemma lookup_gid_ok v (tbl tbl' : table) z :
  Groups.lookup_gid v "groupname" tbl = (ok z, tbl') →
  ∃ e x, Groups.find_entry "groupname" v tbl = ok (Some e)
         ∧ e !! "gid" = Some x ∧ TableIO.int x = ok z.
Proof.
  unfold Groups.lookup_gid. intros H.
  run_step H as fd s1 Hfd. injection Hfd as <- <-.
  run_step H as found s2 Hfound. apply lift_ok in Hfound as [Hfound ->].
  destruct found as [e|]; [|done]. apply lift_ok in H as [H _].
  destruct (TableIO.getitem e "gid") as [?|x] eqn:Hx; [done|].
  apply getitem_ok in Hx. cbn [rbind] in H. by exists e, x.
Qed.

(** X11.  When [get_spawn_info] returns on a well-formed group table for an
    active team that is one of the teams, the gid it returns is the gid of
    the first entry of that team, the group name it returns is that
    entry's, and the gid is among [all_user_gids], which is sorted. *)
Theorem active_group_listed (w : world) (uuid ezid active_team : pyval)
    (teams : list pyval) (s s' : Main.store) (info : Main.SpawnInfo)
    (active' : string) (teams' : list string) :
  well_formed (Main.groups s) →
  Main.get_spawn_info w uuid ezid active_team teams s = (ok info, s') →
  Types.TeamName active_team = ok active' →
  mapM Types.TeamName teams = ok teams' →
  active' ∈ teams' →
  team_entry active' (Main.groupname info) (Main.groups s')
  ∧ Sorted Z.le (Main.all_user_gids info)
  ∧ ∃ z, Main.gid info = PyInt z ∧ z ∈ Main.all_user_gids info
         ∧ Groups.lookup_gid (YStr (Main.groupname info)) "groupname"
             (Main.groups s') = (ok z, Main.groups s').
Proof.
  intros Hwf H Hactive Hteams Hin. unfold Main.get_spawn_info in H.
  run_step H as uuid' x1 Huuid. apply lift_ok in Huuid as [Huuid ->].
  run_step H as ezid' x1 Hezid. apply lift_ok in Hezid as [_ ->].
  run_step H as active2 x1 Hactive2. apply lift_ok in Hactive2 as [Hactive2 ->].
  run_step H as teams2 x1 Hteams2. apply lift_ok in Hteams2 as [Hteams2 ->].
  rewrite Hactive in Hactive2. injection Hactive2 as <-.
  rewrite Hteams in Hteams2. injection Hteams2 as <-.
  pose proof (locked_reconciles _ _ _ _ _ _ _ _ Hwf H)
    as (tg & member_of & Htg & Hmember_of & _ & Hall & _ & _ & Hwf').
  apply locked_run in H as (_ & _ & _ & g_info & names & gids & _ & _ & _ & _ &
    _ & Hg_info & Hnames & Hgids & -> & -> & -> & _).
  rewrite Hmember_of in Hnames. injection Hnames as <-.
  apply get_group_info_ok in Hg_info as (_ & e & Hfind & Hgrp).
  pose proof (group_of_entry_fields _ _ Hgrp) as [Hname _].
  assert (Hentry : team_entry active' (Groups.groupname g_info) (Main.groups s')).
  { by exists e. }
  split; [done|]. split; [apply (Sorted_merge_sort Z.le)|].
  apply teamnames_to_groupnames_ok in Htg as [_ Htg].
  destruct (Forall2_elem_l _ _ _ _ Htg Hin) as (g & Hg & Hentry').
  rewrite (team_entry_fun _ _ _ _ Hentry' Hentry) in Hg.
  apply Hall in Hg.
  destruct (Forall2_elem_l _ _ _ _ Hgids Hg) as (z & Hz & Hlook).
  exists z. split; [|split; [by rewrite merge_sort_Permutation|done]].
  apply lookup_gid_ok in Hlook as (e' & x & Hfind' & Hx & Hint).
  pose proof (find_entry_Some _ _ _ _ Hfind) as [He _].
  destruct Hwf' as [Hnd _].
  rewrite (find_entry_the _ _ _ _ _ Hnd Hfind' He Hname) in Hx.
  apply group_of_entry_gid in Hgrp as (v & z' & Hv & Hz' & ->).
  congruence.
Qed.

Lemma active_group_listed_witness :
  ∃ info,
    well_formed (Main.groups Fresh.in_abc)
    ∧ Main.get_spawn_info Fresh.env
        (PyStr "11111111111111111111111111111111") (PyStr "user_1")
        (PyStr "A") [PyStr "A"; PyStr "D"] Fresh.in_abc = (ok info, Fresh.to_ad)
    ∧ "A" ∈ ["A"; "D"]
    ∧ team_entry "A" (Main.groupname info) (Main.groups Fresh.to_ad)
    ∧ Sorted Z.le (Main.all_user_gids info)
    ∧ ∃ z, Main.gid info = PyInt z ∧ z ∈ Main.all_user_gids info
           ∧ Groups.lookup_gid (YStr (Main.groupname info)) "groupname"
               (Main.groups Fresh.to_ad) = (ok z, Main.groups Fresh.to_ad).
Proof.
  assert (Hwf : well_formed (Main.groups Fresh.in_abc)).
  { split; [apply (bool_decide_unpack _); vm_compute; exact I
           |vm_compute; reflexivity]. }
  eassert (Hinfo : (Main.get_spawn_info Fresh.env
        (PyStr "11111111111111111111111111111111") (PyStr "user_1")
        (PyStr "A") [PyStr "A"; PyStr "D"] Fresh.in_abc).1 = ok _).
  { vm_compute; reflexivity. }
  pose proof (returned _ _ _ Hinfo) as Hcall. fold Fresh.to_ad in Hcall.
  assert (Hin : "A" ∈ ["A"; "D"]) by by left.
  eexists. split; [exact Hwf|]. split; [exact Hcall|]. split; [exact Hin|].
  exact (active_group_listed _ _ _ _ _ _ _ _ "A" ["A"; "D"] Hwf Hcall
           eq_refl eq_refl Hin).
Defined.

(** *** New teams *)

Lemma is_valid_length (s : string) :
  Types.is_valid (PyStr s) = true → (String.length s ≤ 32)%nat.
Proof.
  unfold Types.is_valid, Types.MAX_LEN.
  intros [[H _]%andb_true_iff _]%andb_true_iff. by apply Nat.leb_le.
Qed.

Lemma add_member_member u g s s' :
  Main.add_member u g s = (ok tt, s') →
  grows (Main.groups s) (Main.groups s') ∧ is_member u g (Main.groups s').
Proof.
  intros (_ & Happ & Hex)%add_member_ok. split.
  - by apply grows_gains, (append_member_gains u g).
  - by apply (append_member_added u g (Main.groups s)).
Qed.

(** X12.  When [create_or_fetch_group(username, teamname)] returns for a
    team that had no entry, the group it created has a name of at most 26
    characters (the name followed by ["-admin"] had to be a valid Ubuntu
    name), and [username] and that admin name are members of the group. *)
Theorem new_team_group_name (w : world) (u t : string) (s s' : Main.store) :
  Main.create_or_fetch_group w u t s = (ok tt, s') →
  (Main.in_groups (Groups.team_exist t) s).1 = ok false →
  ∃ g, team_entry t g (Main.groups s')
       ∧ (String.length g ≤ 26)%nat
       ∧ is_member u g (Main.groups s')
       ∧ is_member (g +:+ "-admin") g (Main.groups s').
Proof.
  unfold Main.create_or_fetch_group. intros H Hnew.
  read_step H as ex Hex. injection Hnew as ->. cbn [negb] in H.
  run_step H as grp s1 Hgrp. apply in_groups_ok in Hgrp as (t1 & Hgrp & ->).
  apply create_new_group_ok in Hgrp as (d & -> & Hname & _ & Hfind & _).
  run_step H as id s2 Hid. injection Hid as <- <-.
  run_step H as uid s3 Huid. apply lift_ok in Huid as [_ ->].
  run_step H as gid s4 Hgid. apply lift_ok in Hgid as [_ ->].
  run_step H as names s5 Hnames.
  apply (readonly_ok _ _ _ _ readonly_all_names) in Hnames as ->.
  run_step H as admin s6 Hadmin. apply in_users_groups in Hadmin as Hgroups.
  cbn [Main.groups] in Hgroups.
  run_step H as x s7 Hmem. destruct x.
  apply add_member_member in Hmem as [Hgrow Hmem]. rewrite Hgroups in Hgrow.
  run_step H as name s8 Hvalid. apply lift_ok in Hvalid as [Hvalid ->].
  apply UbuntuName_ok in Hvalid as [-> Hvalid%is_valid_length].
  apply add_member_member in H as [Hgrow' Hmem'].
  exists (Groups.groupname grp). split_and!.
  - apply (team_entry_grows _ _ (Main.groups s ++ [d]));
      [by apply (grows_trans _ (Main.groups s7))|by exists d].
  - rewrite str_length_app in Hvalid. cbn in Hvalid. lia.
  - by eapply is_member_grows.
  - done.
Qed.

Lemma new_team_group_name_witness :
  ∃ s',
    Main.create_or_fetch_group Fresh.env "user-1" "abcdefghijklmnopqrstuvwxyz"
      Fresh.in_abc = (ok tt, s')
    ∧ (Main.in_groups (Groups.team_exist "abcdefghijklmnopqrstuvwxyz")
         Fresh.in_abc).1 = ok false
    ∧ ∃ g, team_entry "abcdefghijklmnopqrstuvwxyz" g (Main.groups s')
           ∧ (String.length g ≤ 26)%nat
           ∧ is_member "user-1" g (Main.groups s')
           ∧ is_member (g +:+ "-admin") g (Main.groups s').
Proof.
  assert (Hrun : (Main.create_or_fetch_group Fresh.env "user-1"
                    "abcdefghijklmnopqrstuvwxyz" Fresh.in_abc).1 = ok tt).
  { vm_compute; reflexivity. }
  pose proof (returned _ _ _ Hrun) as Hcall.
  assert (Hnew : (Main.in_groups (Groups.team_exist "abcdefghijklmnopqrstuvwxyz")
                    Fresh.in_abc).1 = ok false).
  { vm_compute; reflexivity. }
  eexists. split; [exact Hcall|]. split; [exact Hnew|].
  exact (new_team_group_name _ _ _ _ _ Hcall Hnew).
Defined.

(** A team name one character longer: the call raises after it has
    written the group, and the next call for the team returns. *)
Example long_team_name :
  let t := "abcdefghijklmnopqrstuvwxyza" in
  let first := Main.create_or_fetch_group Fresh.env "user-1" t Fresh.in_abc in
  first.1 = raise ValueError (MsgInvalidUbuntuName (PyStr (t +:+ "-admin")))
  ∧ Groups.groups_of "user-1" (Main.groups first.2)
    = ok [YStr "user-1"; YStr "a"; YStr "b"; YStr "c"; YStr t]
  ∧ Groups.groups_of (t +:+ "-admin") (Main.groups first.2) = ok []
  ∧ (Main.create_or_fetch_group Fresh.env "user-1" t first.2).1 = ok tt.
Proof. vm_compute. repeat split; reflexivity. Qed.

(** *** The shape of an accepted name *)

Lemma take_while_drop (p : ascii → bool) (s : string) :
  s = Str.take_while p s +:+ Str.drop (String.length (Str.take_while p s)) s.
Proof.
  induction s as [|c s IH]; [done|]. cbn [Str.take_while].
  destruct (p c); [|done]. rewrite str_app_cons. cbn [String.length Str.drop].
  by f_equal.
Qed.

Lemma take_while_forallb (p : ascii → bool) (s : string) :
  Str.forallb p (Str.take_while p s) = true.
Proof.
  induction s as [|c s IH]; [done|]. cbn [Str.take_while].
  destruct (p c) eqn:Hc; [|done]. cbn. by rewrite Hc.
Qed.

Lemma take_while_app (p : ascii → bool) (s t : string) :
  Str.forallb p s = true →
  Str.take_while p (s +:+ t) = s +:+ Str.take_while p t.
Proof.
  induction s as [|c s IH]; [done|]. rewrite !str_app_cons. cbn.
  intros [Hc Hs]%andb_true_iff. by rewrite Hc, IH.
Qed.

Lemma forallb_app (p : ascii → bool) (s t : string) :
  Str.forallb p (s +:+ t) = Str.forallb p s && Str.forallb p t.
Proof.
  induction s as [|c s IH]; [done|]. rewrite str_app_cons. cbn.
  by rewrite IH, andb_assoc.
Qed.

Lemma str_app_nil_r (s : string) : s +:+ "" = s.
Proof. induction s as [|c s IH]; [done|]. by rewrite str_app_cons, IH. Qed.

Lemma str_drop_length (s : string) : Str.drop (String.length s) s = "".
Proof. by induction s. Qed.

Lemma name_char_ascii c : Types.is_name_char c = true → Str.is_ascii c = true.
Proof.
  unfold Types.is_name_char, Str.is_lower, Str.is_digit, Str.in_range, Str.is_ascii.
  cbn. intros H. apply N.ltb_lt.
  repeat (apply orb_true_iff in H as [H|H]).
  - apply andb_true_iff in H as [_ H%N.leb_le]. lia.
  - apply andb_true_iff in H as [_ H%N.leb_le]. lia.
  - apply Ascii.eqb_eq in H as ->. done.
Qed.

Lemma lower_name_char c : Str.is_lower c = true → Types.is_name_char c = true.
Proof. intros H. unfold Types.is_name_char. by rewrite H. Qed.

Lemma dollar_inv (s : string) : Str.dollar s = true → s = "" ∨ s = Str.newline.
Proof.
  unfold Str.dollar. intros [H|H]%orb_true_iff; apply String.eqb_eq in H; auto.
Qed.

(** X13.  [UbuntuName.is_valid] accepts exactly the strings of at most 32
    characters made of a lowercase letter followed by lowercase letters,
    digits and dashes, and these strings followed by one newline (the
    anchor [$] also matches before a final newline). *)
Theorem ubuntu_name_shape (s : string) :
  Types.is_valid (PyStr s) = true ↔
  (String.length s ≤ 32)%nat
  ∧ ∃ c body, Str.is_lower c = true
      ∧ Str.forallb Types.is_name_char body = true
      ∧ (s = String c body ∨ s = String c body +:+ Str.newline).
Proof.
  unfold Types.is_valid, Types.MAX_LEN. split.
  - intros [[Hlen _]%andb_true_iff Hre]%andb_true_iff.
    apply Nat.leb_le in Hlen. split; [done|].
    destruct s as [|c rest]; [done|]. cbn [Types.re_ubuntu_name] in Hre.
    apply andb_true_iff in Hre as [Hc [_ Hend]%andb_true_iff].
    exists c, (Str.take_while Types.is_name_char rest).
    split; [done|]. split; [apply take_while_forallb|].
    rewrite (take_while_drop Types.is_name_char rest) at 1 3.
    apply dollar_inv in Hend as [-> | ->].
    + left. by rewrite str_app_nil_r.
    + by right.
  - intros (Hlen & c & body & Hc & Hbody & Hs).
    assert (Hascii : Str.forallb Str.is_ascii (String c body) = true).
    { cbn. rewrite (name_char_ascii c (lower_name_char c Hc)). cbn.
      revert Hbody. apply forallb_impl, name_char_ascii. }
    destruct Hs as [-> | ->].
    + apply andb_true_iff. split; [apply andb_true_iff; split|].
      * by apply Nat.leb_le.
      * done.
      * cbn [Types.re_ubuntu_name]. rewrite Hc. cbn [andb].
        rewrite <-(str_app_nil_r body) at 1 2.
        rewrite take_while_app by done. cbn [Str.take_while].
        rewrite !str_app_nil_r, str_drop_length.
        cbn in Hlen. rewrite andb_true_r. apply Nat.leb_le. lia.
    + rewrite str_app_cons in *. cbn [String.length] in Hlen.
      rewrite str_length_app in Hlen. cbn in Hlen.
      apply andb_true_iff. split; [apply andb_true_iff; split|].
      * apply Nat.leb_le. cbn. rewrite str_length_app. cbn. lia.
      * cbn in Hascii |- *. apply andb_true_iff in Hascii as [-> Hb].
        rewrite forallb_app, Hb. done.
      * cbn [Types.re_ubuntu_name]. rewrite Hc. cbn [andb].
        rewrite take_while_app by done.
        change (Str.take_while Types.is_name_char Str.newline) with "".
        rewrite str_app_nil_r, str_drop_app_length. rewrite andb_true_r. apply Nat.leb_le. lia.
Qed.

Lemma ubuntu_name_shape_witness :
  Types.is_valid (PyStr ("alice" +:+ Str.newline)) = true
  ∧ (String.length "team-1" ≤ 32)%nat
  ∧ ∃ c body, Str.is_lower c = true
      ∧ Str.forallb Types.is_name_char body = true
      ∧ ("team-1" = String c body ∨ "team-1" = String c body +:+ Str.newline).
Proof.
  split.
  - apply (proj2 (ubuntu_name_shape ("alice" +:+ Str.newline))).
    split; [by apply Nat.leb_le|]. exists "a"%char, "lice".
    split; [reflexivity|]. split; [reflexivity|]. right. reflexivity.
  - apply (proj1 (ubuntu_name_shape "team-1")). reflexivity.
Defined.

(** A name that ends in a newline is accepted. *)
Example ubuntu_name_ending_in_line_feed :
  Types.UbuntuName (PyStr ("alice" +:+ Str.newline)) = ok ("alice" +:+ Str.newline).
Proof. reflexivity. Qed.

(** *** Sanitised names *)

Lemma filter_forallb (p : ascii → bool) (s : string) :
  Str.forallb p (Str.filter p s) = true.
Proof.
  induction s as [|c s IH]; [done|]. cbn [Str.filter].
  destruct (p c) eqn:Hc; [|done]. cbn. by rewrite Hc.
Qed.

Lemma filter_all (p : ascii → bool) (s : string) :
  Str.forallb p s = true → Str.filter p s = s.
Proof.
  induction s as [|c s IH]; [done|]. cbn. intros [Hc Hs]%andb_true_iff.
  by rewrite Hc, IH.
Qed.



(** *** The text of a table *)

Lemma split_nonempty (sep : ascii) (s : string) : Str.split sep s ≠ [].
Proof.
  induction s as [|c s IH]; [done|]. cbn [Str.split].
  destruct (Ascii.eqb c sep); [done|]. by destruct (Str.split sep s).
Qed.

Lemma join_cons (sep x : string) (xs : list string) :
  xs ≠ [] → Str.join sep (x :: xs) = x +:+ sep +:+ Str.join sep xs.
Proof. by destruct xs. Qed.

Lemma join_split (sep : ascii) (s : string) :
  Str.join (String sep "") (Str.split sep s) = s.
Proof.
  induction s as [|c s IH]; [done|]. cbn [Str.split].
  destruct (Ascii.eqb_spec c sep) as [->|Hc].
  - rewrite join_cons by apply split_nonempty. by rewrite IH.
  - pose proof (split_nonempty sep s) as Hne.
    destruct (Str.split sep s) as [|w ws]; [done|].
    destruct ws as [|w' ws].
    + cbn in IH |- *. by rewrite IH.
    + rewrite join_cons in IH |- * by done. rewrite str_app_cons. by rewrite IH.
Qed.

Lemma mapM_ok_Forall2 {A B} (f : A → result B) (l : list A) (l' : list B) :
  mapM f l = ok l' ↔ Forall2 (λ x y, f x = ok y) l l'.
Proof.
  revert l'. induction l as [|x l IH]; intros l'; cbn [mapM].
  - split; [intros [= <-]; constructor|by intros ->%Forall2_nil_inv_l].
  - split.
    + destruct (f x) as [?|y] eqn:Hy; cbn [rbind]; [done|].
      destruct (mapM f l) as [?|ys] eqn:Hys; cbn [rbind]; [done|].
      intros [= <-]. constructor; [done|]. by apply IH.
    + intros (y & ys & Hy & Hys & ->)%Forall2_cons_inv_l.
      rewrite Hy. cbn [rbind]. apply IH in Hys. by rewrite Hys.
Qed.

(** The loop of [from_string] over the attributes of one line. *)
Lemma entry_of_line_go (fields : list string) (attrs : list string) :
  NoDup attrs →
  ∀ (i : nat) (acc r : entry),
    (fix go (attrs : list string) (i : nat) (entry_dict : entry) : result entry :=
       match attrs with
       | [] => ok entry_dict
       | attr :: attrs' =>
           match fields !! i with
           | Some field => go attrs' (S i) (<[attr := YStr field]> entry_dict)
           | None => raise IndexError (MsgInterp "list index out of range")
           end
       end) attrs i acc = ok r →
    Forall2 (λ a f, r !! a = Some (YStr f)) attrs
      (take (length attrs) (drop i fields))
    ∧ (length attrs ≤ length (drop i fields))%nat
    ∧ ∀ k, k ∉ attrs → r !! k = acc !! k.
Proof.
  induction 1 as [|a attrs Ha Hnd IH]; intros i acc r.
  { intros [= <-]. split; [constructor|]. split; [cbn; lia|done]. }
  destruct (fields !! i) as [f|] eqn:Hf; [|done]. intros Hgo.
  apply IH in Hgo as (Hall & Hlen & Hout).
  rewrite (drop_S _ _ _ Hf). cbn [length take]. split; [|split].
  - constructor; [|done]. rewrite (Hout a Ha). by rewrite lookup_insert_eq.
  - lia.
  - intros k [Hk Hk']%not_elem_of_cons. rewrite (Hout k Hk').
    by rewrite lookup_insert_ne.
Qed.

Lemma join_grouplist_short (f : string) :
  (String.length f ≤ 1)%nat → TableIO.join_grouplist (YStr f) = f.
Proof. destruct f as [|c [|c' f]]; cbn; [done|done|lia]. Qed.

(** One line, read and written back. *)
Lemma line_round_trip (attrs : list string) (line : string) (e : entry) :
  NoDup attrs →
  TableIO.entry_of_line attrs line = ok e →
  length (Str.split ":" line) = length attrs →
  (∀ i f, attrs !! i = Some "grouplist" → Str.split ":" line !! i = Some f →
          (String.length f ≤ 1)%nat) →
  TableIO.line_of_entry attrs e = ok line.
Proof.
  intros Hnd He Hlen Hgl. unfold TableIO.entry_of_line in He.
  apply (entry_of_line_go _ _ Hnd) in He as (Hall & _ & _).
  rewrite drop_0, <-Hlen, firstn_all in Hall.
  assert (Hfields : mapM (λ attr, let? v := TableIO.getitem e attr in TableIO.as_str v)
                      attrs = ok (Str.split ":" line)).
  { apply mapM_ok_Forall2. eapply Forall2_impl; [done|].
    intros a f Ha. cbn beta. by rewrite (getitem_Some _ _ _ Ha). }
  unfold TableIO.line_of_entry.
  destruct (str_in "grouplist" attrs) eqn:Hin.
  - apply str_in_elem_of, list_elem_of_lookup in Hin as [i Hi].
    destruct (Forall2_lookup_l _ _ _ _ _ Hall Hi) as (f & Hf & Hef).
    rewrite (getitem_Some _ _ _ Hef). cbn [rbind].
    rewrite (join_grouplist_short f) by by eapply Hgl.
    rewrite insert_id by done. rewrite Hfields. cbn [rbind].
    by rewrite join_split.
  - cbn [rbind]. rewrite Hfields. cbn [rbind]. by rewrite join_split.
Qed.

Lemma lines_round_trip (attrs : list string) (lines : list string) (tbl : table) :
  NoDup attrs →
  Forall2 (λ line e, TableIO.entry_of_line attrs line = ok e) lines tbl →
  (∀ line, line ∈ lines →
     length (Str.split ":" line) = length attrs
     ∧ ∀ i f, attrs !! i = Some "grouplist" → Str.split ":" line !! i = Some f →
              (String.length f ≤ 1)%nat) →
  Forall2 (λ e line, TableIO.line_of_entry attrs e = ok line) tbl lines.
Proof.
  intros Hnd Hread. induction Hread as [|line e lines es He _ IH]; intros Hlines.
  { constructor. }
  constructor.
  - destruct (Hlines line) as [Hlen Hgl]; [by left|]. by apply line_round_trip.
  - apply IH. intros l Hl. apply Hlines. by right.
Qed.

(** X15.  [to_string] gives back the text [from_string] read, when the
    attributes are distinct, every line has exactly one field per
    attribute, and the field read as [grouplist], if there is one, has at
    most one character (a longer one comes back with a comma between any
    two of its characters). *)
Theorem text_round_trip (attrs : list string) (file_str : string) (tbl : table) :
  NoDup attrs →
  TableIO.from_string attrs file_str = ok tbl →
  (∀ line, line ∈ Str.split (ascii_of_N 10) file_str →
     length (Str.split ":" line) = length attrs
     ∧ ∀ i f, attrs !! i = Some "grouplist" → Str.split ":" line !! i = Some f →
              (String.length f ≤ 1)%nat) →
  TableIO.to_string attrs tbl = ok file_str.
Proof.
  intros Hnd Hread Hlines. unfold TableIO.from_string in Hread.
  unfold TableIO.to_string.
  apply mapM_ok_Forall2 in Hread.
  apply (lines_round_trip _ _ _ Hnd) in Hread; [|done].
  apply mapM_ok_Forall2 in Hread. rewrite Hread. cbn [rbind].
  by rewrite join_split.
Qed.

Lemma text_round_trip_witness :
  let text := "root:x:0:" +:+ Str.newline +:+ "adm:x:4:s" in
  let attrs := ["groupname"; "password"; "gid"; "grouplist"] in
  TableIO.from_string attrs text
  = ok [ {[ "groupname" := YStr "root"; "password" := YStr "x";
            "gid" := YStr "0"; "grouplist" := YStr "" ]};
         {[ "groupname" := YStr "adm"; "password" := YStr "x";
            "gid" := YStr "4"; "grouplist" := YStr "s" ]} ]
  ∧ TableIO.to_string attrs
      [ {[ "groupname" := YStr "root"; "password" := YStr "x";
           "gid" := YStr "0"; "grouplist" := YStr "" ]};
        {[ "groupname" := YStr "adm"; "password" := YStr "x";
           "gid" := YStr "4"; "grouplist" := YStr "s" ]} ]
    = ok text.
Proof.
  intros text attrs.
  assert (Hread : TableIO.from_string attrs text
    = ok [ {[ "groupname" := YStr "root"; "password" := YStr "x";
              "gid" := YStr "0"; "grouplist" := YStr "" ]};
           {[ "groupname" := YStr "adm"; "password" := YStr "x";
              "gid" := YStr "4"; "grouplist" := YStr "s" ]} ])
    by reflexivity.
  split; [exact Hread|].
  apply (text_round_trip attrs text _); [|exact Hread|].
  - apply (bool_decide_unpack _). vm_compute. exact I.
  - intros line Hline.
    assert (Hcases : line = "root:x:0:" ∨ line = "adm:x:4:s").
    { apply elem_of_cons in Hline as [->|Hline]; [by left|].
      apply list_elem_of_singleton in Hline as ->. by right. }
    destruct Hcases as [-> | ->]; (split; [reflexivity|]);
      intros [|[|[|[|i]]]] f; cbn; intros; simplify_eq; cbn; lia.
Defined.

(** A member field of more than one character does not survive. *)
Example member_field_is_split :
  rbind (TableIO.from_string Groups.str_attr "adm:x:4:ab")
    (TableIO.to_string Groups.str_attr) = ok "adm:x:4:a,b".
Proof. reflexivity. Qed.

(** *** The text of a new registry *)

Lemma mapM_line_of_entry_same (attrs : list string) (f : entry → result entry)
    (entries tbl : table) :
  (∀ e e', f e = ok e' →
     TableIO.line_of_entry attrs e' = TableIO.line_of_entry attrs e) →
  mapM f entries = ok tbl →
  mapM (TableIO.line_of_entry attrs) tbl = mapM (TableIO.line_of_entry attrs) entries.
Proof.
  intros Hf Htbl. apply mapM_ok_Forall2 in Htbl.
  induction Htbl as [|e e' es es' He _ IH]; [done|].
  cbn [mapM]. by rewrite (Hf e e' He), IH.
Qed.

Lemma init_users_line (names : list string) (e e' : entry) :
  (let? u := TableIO.getitem e "username" in
   if bool_decide (u ∈ (YStr <$> names)) then
     ok (<["status" := YStr "active"]> $ <["ezid" := YStr "None"]> $
         <["uuid" := YStr "None"]> e)
   else ok e) = ok e' →
  TableIO.line_of_entry Users.str_attr e' = TableIO.line_of_entry Users.str_attr e.
Proof.
  destruct (TableIO.getitem e "username") as [?|u]; cbn [rbind]; [done|].
  case_bool_decide; intros [= <-]; [|done].
  rewrite !line_of_entry_insert; try done;
    apply (bool_decide_unpack _); vm_compute; exact I.
Qed.

Lemma init_groups_line (names : list string) (e e' : entry) :
  (let? g := TableIO.getitem e "groupname" in
   if bool_decide (g ∈ (YStr <$> names)) then
     ok (<["status" := YStr "active"]> $ <["usertype" := YStr "group"]> $
         <["teamname" := g]> e)
   else ok e) = ok e' →
  TableIO.line_of_entry Groups.str_attr e' = TableIO.line_of_entry Groups.str_attr e.
Proof.
  destruct (TableIO.getitem e "groupname") as [?|g]; cbn [rbind]; [done|].
  case_bool_decide; intros [= <-]; [|done].
  rewrite !line_of_entry_insert; try done;
    apply (bool_decide_unpack _); vm_compute; exact I.
Qed.

(** X16.  The text of a new registry is the base text: for a base passwd
    text whose lines have seven fields, [get_etc_passwd_string] on the
    table [StsciUsers.__init__] builds gives the text back, and so does
    [get_etc_group_string] for a base group text whose lines have four
    fields, the last of at most one character. *)
Theorem new_registry_text (EtcPasswd_Base EtcGroup_Base : string)
    (Base_Usernames Base_Groupnames : list string) (users groups : table) :
  Users.init EtcPasswd_Base Base_Usernames = ok users →
  Groups.init EtcGroup_Base Base_Groupnames = ok groups →
  (∀ line, line ∈ Str.split (ascii_of_N 10) EtcPasswd_Base →
     length (Str.split ":" line) = 7%nat) →
  (∀ line, line ∈ Str.split (ascii_of_N 10) EtcGroup_Base →
     ∃ g p i m, Str.split ":" line = [g; p; i; m] ∧ (String.length m ≤ 1)%nat) →
  Users.get_etc_passwd_string users = (ok EtcPasswd_Base, users)
  ∧ Groups.get_etc_group_string groups = (ok EtcGroup_Base, groups).
Proof.
  unfold Users.init, Groups.init, TableIO.from_string.
  intros Husers Hgroups Hpasswd Hgroup.
  destruct (mapM (TableIO.entry_of_line Users.str_attr) _) as [?|us] eqn:Hus;
    [done|].
  destruct (mapM (TableIO.entry_of_line Groups.str_attr) _) as [?|gs] eqn:Hgs;
    [done|].
  cbn [rbind] in Husers, Hgroups.
  unfold Users.get_etc_passwd_string, Groups.get_etc_group_string,
    TableIO.get_file_string, bind, TableIO.load_yaml, lift, TableIO.to_string.
  split; f_equal.
  - rewrite (mapM_line_of_entry_same _ _ _ _ (init_users_line Base_Usernames) Husers).
    apply mapM_ok_Forall2 in Hus.
    apply (lines_round_trip Users.str_attr) in Hus.
    + apply mapM_ok_Forall2 in Hus. rewrite Hus. cbn [rbind]. by rewrite join_split.
    + apply (bool_decide_unpack _). vm_compute. exact I.
    + intros line Hline. split; [by apply Hpasswd|].
      intros i f Hi. apply list_elem_of_lookup_2 in Hi.
      exfalso. revert Hi. apply (bool_decide_unpack _). vm_compute. exact I.
  - rewrite (mapM_line_of_entry_same _ _ _ _ (init_groups_line Base_Groupnames) Hgroups).
    apply mapM_ok_Forall2 in Hgs.
    apply (lines_round_trip Groups.str_attr) in Hgs.
    + apply mapM_ok_Forall2 in Hgs. rewrite Hgs. cbn [rbind]. by rewrite join_split.
    + apply (bool_decide_unpack _). vm_compute. exact I.
    + intros line Hline. destruct (Hgroup line Hline) as (g & p & i & m & -> & Hm).
      split; [done|]. intros [|[|[|[|j]]]] f; cbn; intros; simplify_eq; done.
Qed.

Lemma four_fields (line : string) :
  match Str.split ":" line with
  | [_; _; _; m] => (String.length m <=? 1)%nat
  | _ => false
  end = true →
  ∃ g p i m, Str.split ":" line = [g; p; i; m] ∧ (String.length m ≤ 1)%nat.
Proof.
  destruct (Str.split ":" line) as [|g [|p [|i [|m [|]]]]]; try done.
  intros H%Nat.leb_le. by exists g, p, i, m.
Qed.

Lemma new_registry_text_witness :
  Users.init Fresh.EtcPasswd_Base Fresh.Base_Usernames
  = ok (Main.users (Fresh.after (ret tt)))
  ∧ Groups.init Fresh.EtcGroup_Base Fresh.Base_Groupnames
    = ok (Main.groups (Fresh.after (ret tt)))
  ∧ Users.get_etc_passwd_string (Main.users (Fresh.after (ret tt)))
    = (ok Fresh.EtcPasswd_Base, Main.users (Fresh.after (ret tt)))
  ∧ Groups.get_etc_group_string (Main.groups (Fresh.after (ret tt)))
    = (ok Fresh.EtcGroup_Base, Main.groups (Fresh.after (ret tt))).
Proof.
  assert (Husers : Users.init Fresh.EtcPasswd_Base Fresh.Base_Usernames
                   = ok (Main.users (Fresh.after (ret tt))))
    by reflexivity.
  assert (Hgroups : Groups.init Fresh.EtcGroup_Base Fresh.Base_Groupnames
                    = ok (Main.groups (Fresh.after (ret tt))))
    by reflexivity.
  split; [exact Husers|]. split; [exact Hgroups|].
  apply (new_registry_text _ _ _ _ _ _ Husers Hgroups).
  - apply Forall_forall. apply (bool_decide_unpack _). vm_compute. exact I.
  - assert (Hall : Forall (λ line,
        match Str.split ":" line with
        | [_; _; _; m] => (String.length m <=? 1)%nat
        | _ => false
        end = true) (Str.split (ascii_of_N 10) Fresh.EtcGroup_Base)).
    { apply (bool_decide_unpack _). vm_compute. exact I. }
    intros line Hline. apply four_fields.
    exact (proj1 (Forall_forall _ _) Hall line Hline).
Defined.

(** *** Generated names *)

Lemma forallb_take (p : ascii → bool) (n : nat) (s : string) :
  Str.forallb p s = true → Str.forallb p (Str.take n s) = true.
Proof.
  revert n. induction s as [|c s IH]; intros [|n]; cbn; try done.
  intros [-> Hs]%andb_true_iff. by apply IH.
Qed.

Lemma forallb_rstrip (p q : ascii → bool) (s : string) :
  Str.forallb p s = true → Str.forallb p (Str.rstrip q s) = true.
Proof.
  induction s as [|c s IH]; [done|]. cbn [Str.forallb Str.rstrip].
  intros [Hc Hs]%andb_true_iff. specialize (IH Hs).
  destruct (Str.rstrip q s) as [|c' r].
  - destruct (q c); cbn; [done|by rewrite Hc].
  - cbn [Str.forallb] in IH |- *. by rewrite Hc.
Qed.

Lemma replace_dd_cons (c : ascii) (s : string) :
  Username.replace_dd (String c s)
  = match s with
    | String c' s' =>
        if Ascii.eqb c "-" && Ascii.eqb c' "-"
        then String "-" (Username.replace_dd s')
        else String c (Username.replace_dd s)
    | "" => String c ""
    end.
Proof.
  destruct s as [|c' s'].
  - by destruct c as [[] [] [] [] [] [] [] []].
  - destruct (Ascii.eqb_spec c "-") as [->|Hc].
    + by destruct c' as [[] [] [] [] [] [] [] []].
    + destruct c as [[] [] [] [] [] [] [] []]; done.
Qed.

Lemma forallb_replace_dd (p : ascii → bool) (s : string) :
  Str.forallb p s = true → Str.forallb p (Username.replace_dd s) = true.
Proof.
  assert (H : ∀ n s, (String.length s ≤ n)%nat → Str.forallb p s = true →
                     Str.forallb p (Username.replace_dd s) = true).
  { clear s. induction n as [|n IH]; intros [|c s] Hlen Hs; try done.
    { cbn in Hlen. lia. }
    rewrite replace_dd_cons. cbn in Hlen.
    apply andb_true_iff in Hs as [Hc Hs].
    destruct s as [|c' s']; [cbn; by rewrite Hc|].
    destruct (Ascii.eqb_spec c "-") as [->|Hne]; cbn [andb].
    - destruct (Ascii.eqb c' "-").
      + cbn [Str.forallb]. rewrite Hc. apply IH; [cbn in Hlen; lia|].
        by apply andb_true_iff in Hs as [_ ?].
      + cbn [Str.forallb]. rewrite Hc. apply IH; [lia|done].
    - cbn [Str.forallb]. rewrite Hc. apply IH; [lia|done]. }
  by apply (H (String.length s)).
Qed.

Lemma forallb_squeeze (p : ascii → bool) (fuel : nat) (s : string) :
  Str.forallb p s = true → Str.forallb p (Username.squeeze fuel s) = true.
Proof.
  revert s. induction fuel as [|fuel IH]; intros s Hs; cbn [Username.squeeze].
  - by destruct (Str.contains s "--").
  - destruct (Str.contains s "--"); [|done]. by apply IH, forallb_replace_dd.
Qed.

Lemma digit_name_char c : Str.is_digit c = true → Types.is_name_char c = true.
Proof. intros H. unfold Types.is_name_char. by rewrite H, orb_true_r. Qed.

(** The candidate [to_valid_username] hands to [make_unique]. *)
Lemma candidate_name_chars (w : world) (username : string) :
  Str.forallb Types.is_name_char
    (Str.take Types.MAX_LEN
       (Str.rstrip (λ c, Ascii.eqb c "-")
          (Username.squeeze (String.length (Username.valid_chars w username))
             (Username.valid_chars w username)))) = true.
Proof.
  apply forallb_take, forallb_rstrip, forallb_squeeze, filter_forallb.
Qed.

Lemma make_unique_name_chars (cand : string) (ex : list string) (r : string) :
  Str.forallb Types.is_name_char cand = true →
  Username.make_unique cand ex = ok r →
  Str.forallb Types.is_name_char r = true.
Proof.
  intros Hcand (_ & _ & [->|(n & k & Hk & ->)])%make_unique_ok; [done|].
  rewrite !forallb_app. rewrite forallb_take by done. cbn.
  apply (forallb_impl Str.is_digit); [apply digit_name_char|].
  apply of_Z_nonneg_digits. lia.
Qed.

Lemma to_valid_username_rec_step (depth : nat) w username ex kind :
  Username.to_valid_username_rec depth w username ex kind
  = let valid := Username.valid_chars w username in
    let prefix :=
      if negb (String.eqb kind "user") then Username.get_group_prefix w else "u-" in
    if negb (Username.starts_with_letter valid) then
      match depth with
      | O => raise RecursionError (MsgInterp "to_valid_username")
      | S depth' =>
          let? ezid := Types.StsciEzid (PyStr (prefix +:+ valid)) in
          Username.to_valid_username_rec depth' w ezid ex "user"
      end
    else
      let name :=
        Str.take Types.MAX_LEN
          (Str.rstrip (λ c, Ascii.eqb c "-")
             (Username.squeeze (String.length valid) valid)) in
      let? name := Username.make_unique name ex in
      if negb (Types.is_valid (PyStr name)) then
        raise ValueError (MsgGeneratedNameInvalid name username)
      else if String.eqb (name +:+ "-") prefix || String.eqb name prefix then
        raise ValueError (MsgGeneratedNameDegenerate name username)
      else Types.UbuntuName (PyStr name).
Proof. by destruct depth. Qed.

(** X17.  A name [to_valid_username] returns is not one of the existing
    names, has at most 32 characters, begins with a lowercase letter and
    consists of lowercase letters, digits and dashes. *)
Theorem to_valid_username_sound (w : world) (username : string)
    (existing_names : list string) (kind : string) (r : string) :
  Username.to_valid_username w username existing_names kind = ok r →
  (r ∉ existing_names)
  ∧ (String.length r ≤ 32)%nat
  ∧ Types.is_valid (PyStr r) = true
  ∧ Username.starts_with_letter r = true
  ∧ Str.forallb Types.is_name_char r = true.
Proof.
  unfold Username.to_valid_username. generalize Username.recursion_limit.
  intros depth. revert username kind.
  induction depth as [|depth IH]; intros username kind;
    rewrite to_valid_username_rec_step; cbv zeta;
    destruct (negb (Username.starts_with_letter _)); try done.
  2: { destruct (Types.StsciEzid _) as [x|ezid]; cbn [rbind]; [done|]. apply IH. }
  all: destruct (Username.make_unique _ existing_names) as [x|n] eqn:Hn;
    cbn [rbind]; [done|];
    pose proof (make_unique_name_chars _ _ _ (candidate_name_chars w username) Hn)
      as Hchars;
    apply make_unique_ok in Hn as (Hnew & Hlen & _);
    destruct (Types.is_valid (PyStr n)) eqn:Hvalid; cbn [negb]; [|done];
    destruct (_ || _); [done|]; intros [-> _]%UbuntuName_ok;
    split_and!; try done;
    unfold Types.is_valid in Hvalid;
    apply andb_true_iff in Hvalid as [_ Hre];
    destruct n as [|c n]; [done|]; cbn in Hre |- *;
    by apply andb_true_iff in Hre as [? _].
Qed.

Lemma to_valid_username_sound_witness :
  Username.to_valid_username Fresh.env "Marie-Claire Dupont" ["marie-claire-dupont"]
    "user" = ok "marie-claire-dupont-1"
  ∧ ("marie-claire-dupont-1" ∉ ["marie-claire-dupont"])
  ∧ (String.length "marie-claire-dupont-1" ≤ 32)%nat
  ∧ Types.is_valid (PyStr "marie-claire-dupont-1") = true
  ∧ Username.starts_with_letter "marie-claire-dupont-1" = true
  ∧ Str.forallb Types.is_name_char "marie-claire-dupont-1" = true.
Proof.
  assert (Hrun : Username.to_valid_username Fresh.env "Marie-Claire Dupont"
                   ["marie-claire-dupont"] "user" = ok "marie-claire-dupont-1")
    by (vm_compute; reflexivity).
  split; [exact Hrun|]. exact (to_valid_username_sound _ _ _ _ _ Hrun).
Defined.

(** *** How deep [to_valid_username] recurses *)

Lemma name_char_fixed (c : ascii) :
  Types.is_name_char c = true →
  negb (Ascii.eqb c "@") = true
  ∧ Str.lower_char c = c
  ∧ (if Str.is_space c || Ascii.eqb c "_" || Ascii.eqb c "." then "-"%char else c) = c
  ∧ negb (Types.is_meta c) = true.
Proof. destruct c as [[] [] [] [] [] [] [] []]; vm_compute; done. Qed.

Lemma take_while_all (p : ascii → bool) (s : string) :
  Str.forallb p s = true → Str.take_while p s = s.
Proof.
  induction s as [|c s IH]; [done|]. cbn. intros [Hc Hs]%andb_true_iff.
  by rewrite Hc, IH.
Qed.

Lemma map_fixed (f : ascii → ascii) (p : ascii → bool) (s : string) :
  (∀ c, p c = true → f c = c) → Str.forallb p s = true → Str.map f s = s.
Proof.
  intros Hf. induction s as [|c s IH]; [done|]. cbn.
  intros [Hc Hs]%andb_true_iff. by rewrite (Hf c Hc), IH.
Qed.

(** A name of letters, digits and dashes that [unidecode] leaves alone is
    kept as it is. *)
Lemma valid_chars_fixed (w : world) (s : string) :
  unidecode w s = s → Str.forallb Types.is_name_char s = true →
  Username.valid_chars w s = s.
Proof.
  intros Hw Hs. unfold Username.valid_chars, Str.before_first, Username.dashify,
    Str.lower. rewrite Hw.
  assert (Hat : Str.forallb (λ c, negb (Ascii.eqb c "@")) s = true).
  { apply (forallb_impl Types.is_name_char); [|done].
    intros c Hc. by apply name_char_fixed. }
  assert (Hlower : Str.map Str.lower_char s = s).
  { apply (map_fixed _ Types.is_name_char); [|done].
    intros c Hc. by apply name_char_fixed. }
  rewrite (take_while_all _ _ Hat), Hlower.
  rewrite (map_fixed _ Types.is_name_char s), Hlower; [by apply filter_all| |done].
  intros c Hc. by apply name_char_fixed.
Qed.

Lemma StsciEzid_name_chars (s r : string) :
  Str.forallb Types.is_name_char s = true →
  Types.StsciEzid (PyStr s) = ok r → r = s.
Proof.
  intros Hs. unfold Types.StsciEzid, Types.UnicodeName.
  destruct (128 <=? String.length s)%nat; [done|]. intros [= <-].
  apply filter_all. revert Hs. apply forallb_impl. intros c Hc.
  by apply name_char_fixed.
Qed.

Lemma valid_chars_name_chars (w : world) (s : string) :
  Str.forallb Types.is_name_char (Username.valid_chars w s) = true.
Proof. apply filter_forallb. Qed.

(** Without recursion: the name has a leading letter. *)
Lemma settled_no_recursion (depth : nat) w username ex kind e :
  Username.starts_with_letter (Username.valid_chars w username) = true →
  Username.to_valid_username_rec depth w username ex kind = inl e →
  exn_cls e ≠ RecursionError.
Proof.
  intros Hsettled. rewrite to_valid_username_rec_step. cbv zeta.
  rewrite Hsettled. cbn [negb].
  destruct (Username.make_unique _ ex) as [x|n] eqn:Hn; cbn [rbind].
  - intros [= <-]. unfold Username.make_unique, Username.make_unique_fuel in Hn.
    destruct (Username.loop _ _ _ _ _); [|by injection Hn as <-].
    unfold Types.UbuntuName in Hn. destruct (Types.is_valid _); [done|].
    by injection Hn as <-.
  - destruct (negb (Types.is_valid (PyStr n))) eqn:Hvalid; [by intros [= <-]|].
    destruct (_ || _); [by intros [= <-]|].
    unfold Types.UbuntuName. apply negb_false_iff in Hvalid. by rewrite Hvalid.
Qed.

(** X18.  Where [unidecode] leaves a string of lowercase letters, digits
    and dashes as it is, [to_valid_username] calls itself at most twice:
    it never ends in RecursionError (a name that still has no leading
    letter after the group prefix gets the prefix ["u-"], which settles
    it). *)
Theorem to_valid_username_recursion (w : world) (username : string)
    (existing_names : list string) (kind : string) (e : exn) :
  (∀ s, Str.forallb Types.is_name_char s = true → unidecode w s = s) →
  Username.to_valid_username w username existing_names kind = inl e →
  exn_cls e ≠ RecursionError.
Proof.
  intros Hw. unfold Username.to_valid_username, Username.recursion_limit.
  assert (Hlast : ∀ depth v e,
    Str.forallb Types.is_name_char v = true →
    Username.to_valid_username_rec depth w ("u-" +:+ v) existing_names "user"
    = inl e → exn_cls e ≠ RecursionError).
  { intros depth v e' Hv. apply settled_no_recursion.
    assert (Hall : Str.forallb Types.is_name_char ("u-" +:+ v) = true)
      by by rewrite forallb_app, Hv.
    by rewrite (valid_chars_fixed w _ (Hw _ Hall) Hall). }
  assert (Huser : ∀ depth name e,
    Username.to_valid_username_rec (S depth) w name existing_names "user" = inl e →
    exn_cls e ≠ RecursionError).
  { intros depth name e'.
    destruct (Username.starts_with_letter (Username.valid_chars w name)) eqn:Hs.
    { by apply settled_no_recursion. }
    rewrite to_valid_username_rec_step. cbv zeta. rewrite Hs.
    cbn [negb String.eqb Ascii.eqb Bool.eqb].
    destruct (Types.StsciEzid _) as [x|ezid] eqn:Hezid; cbn [rbind].
    { intros [= <-]. revert Hezid. unfold Types.StsciEzid, Types.UnicodeName.
      destruct (_ <=? _)%nat; [|done]. by intros [= <-]. }
    apply StsciEzid_name_chars in Hezid as ->.
    - apply Hlast, valid_chars_name_chars.
    - rewrite forallb_app. by rewrite valid_chars_name_chars. }
  destruct (Username.starts_with_letter (Username.valid_chars w username)) eqn:Hs.
  { by apply settled_no_recursion. }
  rewrite to_valid_username_rec_step. cbv zeta. rewrite Hs. cbn [negb].
  destruct (Types.StsciEzid _) as [x|ezid] eqn:Hezid; cbn [rbind].
  { intros [= <-]. revert Hezid. unfold Types.StsciEzid, Types.UnicodeName.
    destruct (_ <=? _)%nat; [|done]. by intros [= <-]. }
  apply Huser.
Qed.

Lemma to_valid_username_recursion_witness :
  (∀ s, Str.forallb Types.is_name_char s = true → unidecode Fresh.env s = s)
  ∧ Username.to_valid_username Fresh.env "" [] "user"
    = raise ValueError (MsgGeneratedNameDegenerate "u" "u-")
  ∧ exn_cls (Raise ValueError (MsgGeneratedNameDegenerate "u" "u-")) ≠ RecursionError.
Proof.
  assert (Hw : ∀ s, Str.forallb Types.is_name_char s = true
                    → unidecode Fresh.env s = s) by done.
  assert (Hrun : Username.to_valid_username Fresh.env "" [] "user"
                 = raise ValueError (MsgGeneratedNameDegenerate "u" "u-"))
    by (vm_compute; reflexivity).
  split; [exact Hw|]. split; [exact Hrun|].
  exact (to_valid_username_recursion _ _ _ _ _ Hw Hrun).
Defined.

(** With a [unidecode] that turns every name into a digit the recursion
    does not end. *)
Example to_valid_username_recursion_limit :
  Username.to_valid_username (World (λ _, "1") None (λ _, "")) "name" [] "user"
  = raise RecursionError (MsgInterp "to_valid_username").
Proof. vm_compute. reflexivity. Qed.

(** *** The active users *)

Lemma active_names_app (pre post : table) :
  Users.active_names (pre ++ post)
  = let? a := Users.active_names pre in
    let? b := Users.active_names post in ok (a ++ b).
Proof.
  induction pre as [|e pre IH]; cbn [app Users.active_names].
  { cbn [rbind]. by destruct (Users.active_names post). }
  destruct (TableIO.getitem e "status") as [?|st]; cbn [rbind]; [done|].
  case_bool_decide; [|done].
  destruct (TableIO.getitem e "username") as [?|n]; cbn [rbind]; [done|].
  rewrite IH. destruct (Users.active_names pre) as [?|a]; cbn [rbind]; [done|].
  by destruct (Users.active_names post).
Qed.

Lemma active_names_elem (tbl : table) (names : list yval) :
  Users.active_names tbl = ok names →
  ∀ v, v ∈ names ↔ ∃ e, e ∈ tbl ∧ e !! "username" = Some v
                        ∧ e !! "status" = Some (YStr "active").
Proof.
  revert names. induction tbl as [|e tbl IH]; intros names;
    cbn [Users.active_names].
  { intros [= <-] v. split; [by intros ?%elem_of_nil|].
    by intros (? & ?%elem_of_nil & _). }
  destruct (TableIO.getitem e "status") as [?|st] eqn:Hst; cbn [rbind]; [done|].
  apply getitem_ok in Hst. case_bool_decide as Hactive.
  - destruct (TableIO.getitem e "username") as [?|n] eqn:Hn; cbn [rbind]; [done|].
    apply getitem_ok in Hn.
    destruct (Users.active_names tbl) as [?|ns] eqn:Hns; cbn [rbind]; [done|].
    intros [= <-] v. rewrite elem_of_cons, (IH ns eq_refl v). split.
    + intros [->|(e' & ? & ? & ?)]; [exists e|exists e'];
        rewrite ?elem_of_cons; subst; auto.
    + intros (e' & [->|?]%elem_of_cons & Hv & ?); [left; congruence|right].
      by exists e'.
  - intros Hns v. rewrite (IH names Hns v). split.
    + intros (e' & ? & ? & ?). exists e'. rewrite elem_of_cons. auto.
    + intros (e' & [->|?]%elem_of_cons & Hv & ?); [congruence|]. by exists e'.
Qed.

Lemma filter_all_ne (v : yval) (l : list yval) :
  v ∉ l → filter (λ x, x ≠ v) l = l.
Proof.
  induction l as [|x l IH]; [done|]. intros [Hx Hl]%not_elem_of_cons.
  rewrite filter_cons_True by done. by rewrite IH.
Qed.

(** X19.  Where no two users share a user name, [delete_user(name,
    "username")] takes [name], and nothing else, out of what
    [get_active_usernames] returns. *)
Theorem active_usernames_after_delete (id : string) (tbl tbl' : table)
    (names : list yval) :
  Users.delete_user id "username" tbl = (ok tt, tbl') →
  Users.get_active_usernames tbl = (ok names, tbl) →
  NoDup ((λ e : entry, e !! "username") <$> tbl) →
  Users.get_active_usernames tbl'
  = (ok (filter (λ v, v ≠ YStr id) names), tbl').
Proof.
  unfold Users.delete_user. intros H Hnames Hnd.
  run_step H as fd s1 Hfd. injection Hfd as <- <-.
  run_step H as fd' s2 Hd. apply lift_ok in Hd as [Hd ->]. injection H as <-.
  unfold Users.get_active_usernames, bind, TableIO.load_yaml, lift in Hnames |- *.
  injection Hnames as Hnames. f_equal.
  apply deactivate_first_split in Hd
    as [[-> Hnone]|(pre & e & post & -> & -> & Hnone & He)].
  { rewrite Hnames. f_equal. symmetry. apply filter_all_ne.
    intros (e & He & Hn & _)%(active_names_elem _ _ Hnames).
    destruct (Hnone e He) as (x & Hx & Hne). congruence. }
  rewrite active_names_app in Hnames |- *.
  destruct (Users.active_names pre) as [?|a] eqn:Ha; cbn [rbind] in *; [done|].
  cbn [Users.active_names] in Hnames |- *.
  rewrite getitem_insert_eq. cbn [rbind].
  rewrite bool_decide_eq_false_2 by done.
  assert (Hpre : YStr id ∉ a).
  { intros (e0 & He0 & Hn & _)%(active_names_elem _ _ Ha).
    destruct (Hnone e0 He0) as (x & Hx & Hne). congruence. }
  assert (Hpost : ∀ b, Users.active_names post = ok b → YStr id ∉ b).
  { intros b Hb (e0 & He0 & Hn & _)%(active_names_elem _ _ Hb).
    rewrite fmap_app, fmap_cons in Hnd. apply NoDup_app in Hnd as (_ & _ & Hnd).
    apply NoDup_cons in Hnd as [Hnd _]. apply Hnd. rewrite He, <-Hn.
    by apply (list_elem_of_fmap_2 (λ e : entry, e !! "username")). }
  destruct (TableIO.getitem e "status") as [?|st]; cbn [rbind] in Hnames; [done|].
  rewrite (getitem_Some _ _ _ He) in Hnames. cbn [rbind] in Hnames.
  destruct (Users.active_names post) as [?|b] eqn:Hb; cbn [rbind] in *.
  { by destruct (bool_decide _). }
  specialize (Hpost b eq_refl). case_bool_decide; injection Hnames as <-.
  - rewrite filter_app, filter_cons_False by (intros Hne; by apply Hne).
    by rewrite !filter_all_ne.
  - rewrite filter_app. by rewrite !filter_all_ne.
Qed.

Lemma active_usernames_after_delete_witness :
  let a : entry := {[ "username" := YStr "alice"; "status" := YStr "active" ]} in
  let b : entry := {[ "username" := YStr "bob"; "status" := YStr "active" ]} in
  let b' : entry := <["status" := YStr "deactivated"]> b in
  Users.get_active_usernames [a; b] = (ok [YStr "alice"; YStr "bob"], [a; b])
  ∧ Users.delete_user "bob" "username" [a; b] = (ok tt, [a; b'])
  ∧ Users.get_active_usernames [a; b'] = (ok [YStr "alice"], [a; b']).
Proof.
  intros a b b'.
  assert (Hnames : Users.get_active_usernames [a; b]
                   = (ok [YStr "alice"; YStr "bob"], [a; b])) by reflexivity.
  assert (Hrun : Users.delete_user "bob" "username" [a; b] = (ok tt, [a; b']))
    by reflexivity.
  assert (Hnd : NoDup ((λ e : entry, e !! "username") <$> [a; b])).
  { apply (bool_decide_unpack _). vm_compute. exact I. }
  split; [exact Hnames|]. split; [exact Hrun|].
  exact (active_usernames_after_delete "bob" [a; b] [a; b'] _ Hrun Hnames Hnd).
Defined.

(** *** The text of the active entries *)

Lemma fields_interleaved (e : entry) (attrs : list string) (vs : list yval)
    (fs : list string) :
  mapM (TableIO.getitem e) attrs = ok vs → mapM TableIO.as_str vs = ok fs →
  mapM (λ attr, let? v := TableIO.getitem e attr in TableIO.as_str v) attrs = ok fs.
Proof.
  intros Hvs%mapM_ok_Forall2 Hfs%mapM_ok_Forall2. apply mapM_ok_Forall2.
  revert fs Hfs. induction Hvs as [|a v attrs vs Ha _ IH]; intros fs Hfs.
  { apply Forall2_nil_inv_l in Hfs as ->. constructor. }
  apply Forall2_cons_inv_l in Hfs as (f & fs' & Hf & Hfs & ->).
  constructor; [by rewrite Ha|by apply IH].
Qed.

Lemma active_lines_filter (line line' : entry → result string) (tbl : table)
    (lines : list string) :
  (∀ e l, line e = ok l → line' e = ok l) →
  Users.active_lines line tbl = ok lines →
  mapM line' (filter (λ e : entry, e !! "status" = Some (YStr "active")) tbl)
  = ok lines.
Proof.
  intros Hline. revert lines.
  induction tbl as [|e tbl IH]; intros lines; cbn [Users.active_lines].
  { by intros [= <-]. }
  destruct (TableIO.getitem e "status") as [?|st] eqn:Hst; cbn [rbind]; [done|].
  apply getitem_ok in Hst. case_bool_decide as Hactive.
  - subst st. rewrite filter_cons_True by done.
    destruct (line e) as [?|l] eqn:Hl; cbn [rbind]; [done|].
    destruct (Users.active_lines line tbl) as [?|ls]; cbn [rbind]; [done|].
    intros [= <-]. cbn [mapM]. by rewrite (Hline e l Hl), (IH ls eq_refl).
  - rewrite filter_cons_False by congruence. apply IH.
Qed.

(** X20.  What [get_active_user_string] returns is what
    [get_etc_passwd_string] gives on the table of the entries whose status
    is ["active"]; likewise [get_active_group_string] and
    [get_etc_group_string]. *)
Theorem active_strings (users groups : table) :
  (∀ s, Users.get_active_user_string users = (ok s, users) →
        (Users.get_etc_passwd_string
           (filter (λ e : entry, e !! "status" = Some (YStr "active")) users)).1
        = ok s)
  ∧ (∀ s, Groups.get_active_group_string groups = (ok s, groups) →
          (Groups.get_etc_group_string
             (filter (λ e : entry, e !! "status" = Some (YStr "active")) groups)).1
          = ok s).
Proof.
  split; intros s H.
  - unfold Users.get_active_user_string, bind, TableIO.load_yaml, lift in H.
    apply (f_equal fst) in H. cbn [fst] in H.
    destruct (Users.active_lines _ users) as [?|lines] eqn:Hlines;
      cbn [rbind] in H; [done|].
    apply (inj ok) in H as <-.
    unfold Users.get_etc_passwd_string, TableIO.get_file_string, bind,
      TableIO.load_yaml, lift, TableIO.to_string. cbn [fst].
    erewrite active_lines_filter; [done| |exact Hlines].
    intros e l Hl. cbv beta in Hl. unfold TableIO.line_of_entry.
    change (str_in "grouplist" Users.str_attr) with false. cbn [rbind].
    destruct (mapM (TableIO.getitem e) Users.str_attr) as [?|vs] eqn:Hvs;
      cbn [rbind] in Hl; [done|].
    destruct (mapM TableIO.as_str vs) as [?|fs] eqn:Hfs; cbn [rbind] in Hl; [done|].
    by rewrite (fields_interleaved _ _ _ _ Hvs Hfs).
  - unfold Groups.get_active_group_string, bind, TableIO.load_yaml, lift in H.
    apply (f_equal fst) in H. cbn [fst] in H.
    destruct (Users.active_lines _ groups) as [?|lines] eqn:Hlines;
      cbn [rbind] in H; [done|].
    apply (inj ok) in H as <-.
    unfold Groups.get_etc_group_string, TableIO.get_file_string, bind,
      TableIO.load_yaml, lift, TableIO.to_string. cbn [fst].
    erewrite active_lines_filter; [done| |exact Hlines].
    intros e l Hl. cbv beta in Hl. unfold TableIO.line_of_entry.
    change (str_in "grouplist" Groups.str_attr) with true. cbv beta iota.
    destruct (TableIO.getitem e "grouplist") as [?|gl]; cbn [rbind] in Hl |- *;
      [done|].
    destruct (mapM (TableIO.getitem _) Groups.str_attr) as [?|vs] eqn:Hvs;
      cbn [rbind] in Hl; [done|].
    destruct (mapM TableIO.as_str vs) as [?|fs] eqn:Hfs; cbn [rbind] in Hl; [done|].
    by rewrite (fields_interleaved _ _ _ _ Hvs Hfs).
Qed.

Lemma active_strings_witness :
  let a : entry :=
    {[ "groupname" := YStr "a"; "password" := YStr "x"; "gid" := YStr "60000";
       "grouplist" := YList ["bob"; "eve"]; "status" := YStr "active" ]} in
  let b : entry :=
    {[ "groupname" := YStr "b"; "password" := YStr "x"; "gid" := YStr "60001";
       "grouplist" := YList []; "status" := YStr "deactivated" ]} in
  Groups.get_active_group_string [a; b] = (ok "a:x:60000:bob,eve", [a; b])
  ∧ (Groups.get_etc_group_string [a]).1 = ok "a:x:60000:bob,eve".
Proof.
  intros a b.
  assert (Hrun : Groups.get_active_group_string [a; b]
                 = (ok "a:x:60000:bob,eve", [a; b])) by reflexivity.
  split; [exact Hrun|].
  exact (proj2 (active_strings [] [a; b]) _ Hrun).
Defined.

(** *** The text [encode] returns *)

Lemma digit_in_alphabet (n : N) :
  (n < 64)%N → is_Some (Backup.table_a2b (Byte.to_N (Backup.digit n))).
Proof. intros Hn. rewrite to_N_digit, table_a2b_b2a by done. by eexists. Qed.

Lemma b64encode_shape (s : Backup.bytes) :
  length (Backup.b64encode s) = (4 * ((length s + 2) / 3))%nat
  ∧ Forall (λ b, is_Some (Backup.table_a2b (Byte.to_N b))
                 ∨ Byte.to_N b = Backup.BASE64_PAD) (Backup.b64encode s).
Proof.
  assert (H : ∀ n s, (length s ≤ n)%nat →
    length (Backup.b64encode s) = (4 * ((length s + 2) / 3))%nat
    ∧ Forall (λ b, is_Some (Backup.table_a2b (Byte.to_N b))
                   ∨ Byte.to_N b = Backup.BASE64_PAD) (Backup.b64encode s)).
  { clear s. intros n. induction n as [|n IH]; intros s Hlen.
    { destruct s; [by split; [|constructor]|cbn in Hlen; lia]. }
    destruct s as [|a [|b [|c s]]]; cbn [Backup.b64encode].
    - by split; [|constructor].
    - pose proof (Byte.to_N_bounded a). split; [done|].
      repeat (constructor; [first [by right | left; apply digit_in_alphabet;
        zify; Z.to_euclidean_division_equations; lia]|]). constructor.
    - pose proof (Byte.to_N_bounded a). pose proof (Byte.to_N_bounded b).
      split; [done|].
      repeat (constructor; [first [by right | left; apply digit_in_alphabet;
        zify; Z.to_euclidean_division_equations; lia]|]). constructor.
    - pose proof (Byte.to_N_bounded a). pose proof (Byte.to_N_bounded b).
      pose proof (Byte.to_N_bounded c).
      destruct (IH s) as [IHlen IHall]; [cbn in Hlen; lia|]. split.
      + cbn [length]. rewrite IHlen.
        replace (S (S (S (length s))) + 2)%nat with (1 * 3 + (length s + 2))%nat
          by lia.
        rewrite Nat.div_add_l by done. lia.
      + repeat (constructor; [left; apply digit_in_alphabet;
          zify; Z.to_euclidean_division_equations; lia|]). done. }
  by apply (H (length s)).
Qed.

(** X21.  [encode] never raises: for every byte string it returns a text of
    four characters for every three bytes of the compressed data (the last
    group filled up), each of them a base64 digit or the padding
    character ["="]. *)
Theorem encode_text (compress : Backup.bytes → Backup.bytes)
    (data : Backup.bytes) :
  ∃ s, Backup.encode compress data = ok s
       ∧ length s = (4 * ((length (compress data) + 2) / 3))%nat
       ∧ Forall (λ c, is_Some (Backup.table_a2b c) ∨ c = Backup.BASE64_PAD) s.
Proof.
  exists (Byte.to_N <$> Backup.b64encode (compress data)).
  destruct (b64encode_shape (compress data)) as [Hlen Hall].
  split; [|split].
  - unfold Backup.encode. apply utf8_decode_ascii, b64encode_ascii.
  - by rewrite length_fmap.
  - by apply Forall_fmap.
Qed.
